(** * pyNTM [FlexModel]: the simulation engine of [src/pyNTM/flex_model.py]

    A shallow embedding of the parallel-link capable network model: the
    topology graph builder, the multi-edge path enumerator, the RSVP LSP
    placer, the demand router, the validator, the simulation driver and the
    circuit_id check of the model-file loader.

    Conventions.
    - Python objects that are shared and mutated (Interface, RSVP_LSP,
      Demand) live in stores, the lists of [Model]; a reference to an
      object is its index in the store, so that a mutation made through a
      path or through a graph edge is seen by every holder of the reference.
      A Python [set] is a list in its (fixed) iteration order.
    - Python numbers that measure bandwidth or traffic are rationals [Q]
      (exact arithmetic); IGP costs are integers [Z]. The program holds
      these numbers as floats and rounds each sum: what is proved of a
      rational holds of the program's number where only the order of two
      numbers counts or no sum is rounded. The module [Doubles] has the LSP
      placer on binary64 numbers, with the rounding.
    - A Python exception is a value of [exn]; code that can raise after it
      has mutated the model is written in the monad [M], whose state
      survives the exception. *)

From Stdlib Require Import QArith Lqa ZArith.
From Stdlib Require DecimalString.
From Stdlib Require PrimFloat.
From stdpp Require Import base list strings.

(** ** Entities *)

(** [capacity], [percent_reservable_bandwidth], [reserved_bandwidth] and
    [traffic] are exact rationals here; the program has a Python float (or
    an int) for each, and [Doubles.Interface.t] a binary64 number. *)
Module Interface.
Record t := mk {
  name : string;
  cost : Z;
  capacity : Q;
  node_object : string;
  remote_node_object : string;
  circuit_id : string;
  rsvp_enabled : bool;
  percent_reservable_bandwidth : Q;
  failed : bool;
  reserved_bandwidth : Q;
  traffic : Q;
  in_ckt : bool
}.

(** Modelled from the spec: the [reservable_bandwidth] property of class
    Interface (pyNTM/interface.py is not among the sources):
    capacity x percent_reservable_bandwidth / 100 - reserved_bandwidth. *)
Definition reservable_bandwidth (i : t) : Q :=
  (capacity i * percent_reservable_bandwidth i / 100 - reserved_bandwidth i)%Q.

(** The ceiling of the reservations an interface accepts. *)
Definition max_reservable (i : t) : Q :=
  (capacity i * percent_reservable_bandwidth i / 100)%Q.

Definition set_reserved_bandwidth (q : Q) (i : t) : t :=
  mk (name i) (cost i) (capacity i) (node_object i) (remote_node_object i)
     (circuit_id i) (rsvp_enabled i) (percent_reservable_bandwidth i)
     (failed i) q (traffic i) (in_ckt i).

Definition set_traffic (q : Q) (i : t) : t :=
  mk (name i) (cost i) (capacity i) (node_object i) (remote_node_object i)
     (circuit_id i) (rsvp_enabled i) (percent_reservable_bandwidth i)
     (failed i) (reserved_bandwidth i) q (in_ckt i).

Definition set_in_ckt (b : bool) (i : t) : t :=
  mk (name i) (cost i) (capacity i) (node_object i) (remote_node_object i)
     (circuit_id i) (rsvp_enabled i) (percent_reservable_bandwidth i)
     (failed i) (reserved_bandwidth i) (traffic i) b.
End Interface.

Module Node.
Record t := mk {
  name : string;
  srlgs : list string
}.
End Node.

Module SRLG.
(** [node_objects] holds references into the node store of the model. *)
Record t := mk {
  name : string;
  node_objects : list nat
}.
End SRLG.

(** A value that is either a number or the sentinel string ['Unrouted']. *)
Inductive bw_value :=
| BwUnrouted
| Bw (q : Q).

(** [lsp.path]: the sentinel, the empty dict the placer stores while it
    works, or the routed record. *)
Inductive lsp_path :=
| LspUnrouted
| LspEmptyDict
| LspRouted (interfaces : list nat) (baseline_path_cost : Z).

Module RSVP_LSP.
Record t := mk {
  source_node_object : string;
  dest_node_object : string;
  lsp_name : string;
  configured_setup_bandwidth : option Q;
  path : lsp_path;
  reserved_bandwidth : bw_value;
  setup_bandwidth : bw_value
}.

Definition set_path (p : lsp_path) (l : t) : t :=
  mk (source_node_object l) (dest_node_object l) (lsp_name l)
     (configured_setup_bandwidth l) p (reserved_bandwidth l) (setup_bandwidth l).

Definition set_reserved_bandwidth (b : bw_value) (l : t) : t :=
  mk (source_node_object l) (dest_node_object l) (lsp_name l)
     (configured_setup_bandwidth l) (path l) b (setup_bandwidth l).

Definition set_setup_bandwidth (b : bw_value) (l : t) : t :=
  mk (source_node_object l) (dest_node_object l) (lsp_name l)
     (configured_setup_bandwidth l) (path l) (reserved_bandwidth l) b.
End RSVP_LSP.

(** What carries a routed demand: an LSP (by reference) or a concrete
    sequence of interfaces (by reference). *)
Inductive carrier :=
| ViaLsp (lsp : nat)
| ViaInterfaces (interfaces : list nat).

Inductive demand_path :=
| DemandUnrouted
| DemandRouted (carriers : list carrier).

Module Demand.
Record t := mk {
  source_node_object : string;
  dest_node_object : string;
  traffic : Q;
  name : string;
  path : demand_path
}.

Definition set_path (p : demand_path) (d : t) : t :=
  mk (source_node_object d) (dest_node_object d) (traffic d) (name d) p.
End Demand.

(** [Circuit(int1, int2)]: two interface references. *)
Record Circuit := mkCircuit { ckt_a : nat; ckt_b : nat }.

Record Model := mkModel {
  interface_objects : list Interface.t;
  node_objects : list Node.t;
  demand_objects : list Demand.t;
  rsvp_lsp_objects : list RSVP_LSP.t;
  circuit_objects : list Circuit;
  srlg_objects : list SRLG.t;
  _parallel_lsp_groups : list ((string * string) * list nat)
}.

Definition set_interface_objects (l : list Interface.t) (m : Model) : Model :=
  mkModel l (node_objects m) (demand_objects m) (rsvp_lsp_objects m)
          (circuit_objects m) (srlg_objects m) (_parallel_lsp_groups m).

Definition set_demand_objects (l : list Demand.t) (m : Model) : Model :=
  mkModel (interface_objects m) (node_objects m) l (rsvp_lsp_objects m)
          (circuit_objects m) (srlg_objects m) (_parallel_lsp_groups m).

Definition set_rsvp_lsp_objects (l : list RSVP_LSP.t) (m : Model) : Model :=
  mkModel (interface_objects m) (node_objects m) (demand_objects m) l
          (circuit_objects m) (srlg_objects m) (_parallel_lsp_groups m).

Definition set_circuit_objects (l : list Circuit) (m : Model) : Model :=
  mkModel (interface_objects m) (node_objects m) (demand_objects m)
          (rsvp_lsp_objects m) l (srlg_objects m) (_parallel_lsp_groups m).

Definition set_parallel_lsp_groups
    (g : list ((string * string) * list nat)) (m : Model) : Model :=
  mkModel (interface_objects m) (node_objects m) (demand_objects m)
          (rsvp_lsp_objects m) (circuit_objects m) (srlg_objects m) g.

(** ** The multigraph (networkx.MultiDiGraph, as far as the model uses it) *)

Module Edge.
(** An edge [u -> v] with its data dict
    [{'cost': .., 'interface': .., 'circuit_id': ..}]. *)
Record t := mk {
  u : string;
  v : string;
  cost : Z;
  interface : nat;
  circuit_id : string
}.
End Edge.

Record MultiDiGraph := mkGraph {
  g_nodes : list string;
  g_edges : list Edge.t
}.

Definition add_node (n : string) (G : MultiDiGraph) : MultiDiGraph :=
  if bool_decide (n ∈ g_nodes G) then G else mkGraph (g_nodes G ++ [n]) (g_edges G).

Definition add_nodes_from (ns : list string) (G : MultiDiGraph) : MultiDiGraph :=
  foldl (λ G n, add_node n G) G ns.

Definition add_edge (e : Edge.t) (G : MultiDiGraph) : MultiDiGraph :=
  let G' := add_node (Edge.v e) (add_node (Edge.u e) G) in
  mkGraph (g_nodes G') (g_edges G' ++ [e]).

Definition add_edges_from (es : list Edge.t) (G : MultiDiGraph) : MultiDiGraph :=
  foldl (λ G e, add_edge e G) G es.

(** [G[a][b]]: the parallel edges from [a] to [b], in key order. *)
Definition edges_between (G : MultiDiGraph) (a b : string) : list Edge.t :=
  filter (λ e, Edge.u e = a ∧ Edge.v e = b) (g_edges G).

Definition has_edge (G : MultiDiGraph) (a b : string) : bool :=
  bool_decide (edges_between G a b ≠ []).

(** ** Topology graph builder *)

(** The store with the reference of each object: [(k, interface k)]. *)
Definition enumerate {A} (l : list A) : list (nat * A) := imap (λ k x, (k, x)) l.

Definition edge_of (ki : nat * Interface.t) : Edge.t :=
  Edge.mk (Interface.node_object ki.2) (Interface.remote_node_object ki.2)
          (Interface.cost ki.2) ki.1 (Interface.circuit_id ki.2).

Definition _make_weighted_network_graph_mdg (self : Model)
    (include_failed_circuits : bool) (needed_bw : Q) (rsvp_required : bool)
    : MultiDiGraph :=
  let considered_interfaces :=
    if include_failed_circuits then
      filter (λ ki, Qle_bool needed_bw (Interface.reservable_bandwidth ki.2) = true)
             (enumerate (interface_objects self))
    else
      filter (λ ki, Interface.failed ki.2 = false ∧
                    Qle_bool needed_bw (Interface.reservable_bandwidth ki.2) = true)
             (enumerate (interface_objects self)) in
  let edge_names :=
    if rsvp_required then
      edge_of <$> filter (λ ki, Interface.rsvp_enabled ki.2 = true) considered_interfaces
    else
      edge_of <$> considered_interfaces in
  let G := add_edges_from edge_names (mkGraph [] []) in
  add_nodes_from (Node.name <$> node_objects self) G.

(** ** Exceptions *)

(** One entry of [error_data], the list [validate_model] accumulates. *)
Inductive error_entry :=
| Err_ints_w_no_remote_int (data : list Edge.t)
| Err_int_res_bw_too_high (ints : list nat)
| Err_int_res_bw_sum_error (ints : list nat)
| Err_duplicate_interfaces
| Err_circuits_with_mismatched_interface_capacity (ckts : list Circuit)
| Err_srlg_errors (errs : list (string * list string))
| Err_node_dict (len_node_objects len_node_names : nat).

(** The argument of a [ModelException]. *)
Inductive model_error :=
| NoMatchingInterface (source dest cid : string)
| IntsNotMatched (ints : list Edge.t)
| ValidationFailed (error_data : list error_entry)
| BadCircuitIds (bad_circuit_ids : list (string * nat))
| InterfaceLineTooShort (interface_line : string).

Inductive exn :=
| NetworkXNoPath
| NodeNotFound
| KeyError
| IndexError
| ValueError
| TypeError
| ModelException (msg : model_error)
| DanglingReference.
(** [DanglingReference] is no Python exception: it stands for the use of a
    reference that is outside its store, which Python objects cannot be. *)

(** Pure code that may raise. *)
Definition res (A : Type) : Type := exn + A.

Definition res_bind {A B} (x : res A) (f : A → res B) : res B :=
  match x with
  | inl e => inl e
  | inr a => f a
  end.

Fixpoint res_mapM {A B} (f : A → res B) (l : list A) : res (list B) :=
  match l with
  | [] => inr []
  | x :: l' =>
      res_bind (f x) (λ y, res_bind (res_mapM f l') (λ ys, inr (y :: ys)))
  end.

(** ** networkx: what the model calls of the library

    The shortest-path search is networkx's, not the repository's. It is
    modelled by what its documentation promises on a multigraph with
    non-negative costs: [all_shortest_paths(G, s, t, weight='cost')] raises
    NodeNotFound when [s] is no vertex, NetworkXNoPath when [t] cannot be
    reached, and yields otherwise the simple node sequences from [s] to [t]
    of least weight, the weight of a hop being the least cost of its
    parallel edges. *)

Definition successors (G : MultiDiGraph) (a : string) : list string :=
  remove_dups (Edge.v <$> filter (λ e, Edge.u e = a) (g_edges G)).

(** All simple node sequences from [a] to [target] that avoid [visited]. *)
Fixpoint simple_paths (fuel : nat) (G : MultiDiGraph) (visited : list string)
    (a target : string) : list (list string) :=
  if bool_decide (a = target) then [[a]]
  else match fuel with
       | O => []
       | S fuel' =>
           s ← filter (λ s, s ∉ a :: visited) (successors G a);
           (a ::.) <$> simple_paths fuel' G (a :: visited) s target
       end.

Definition min_Z (l : list Z) : option Z :=
  match l with
  | [] => None
  | x :: l' => Some (foldl Z.min x l')
  end.

Definition hop_weight (G : MultiDiGraph) (a b : string) : Z :=
  default 0%Z (min_Z (Edge.cost <$> edges_between G a b)).

Fixpoint path_weight (G : MultiDiGraph) (p : list string) : Z :=
  match p with
  | a :: (b :: _) as tl => (hop_weight G a b + path_weight G tl)%Z
  | _ => 0%Z
  end.

Definition all_shortest_paths (G : MultiDiGraph) (source target : string)
    : res (list (list string)) :=
  if bool_decide (source ∈ g_nodes G) then
    let ps := simple_paths (length (g_nodes G)) G [] source target in
    match min_Z (path_weight G <$> ps) with
    | None => inl NetworkXNoPath
    | Some w => inr (filter (λ p, path_weight G p = w) ps)
    end
  else inl NodeNotFound.

(** [nx.shortest_path_length(G, s, t, weight='cost')]. *)
Definition shortest_path_length (G : MultiDiGraph) (source target : string)
    : res Z :=
  if bool_decide (source ∈ g_nodes G) then
    match min_Z (path_weight G <$> simple_paths (length (g_nodes G)) G [] source target) with
    | None => inl NetworkXNoPath
    | Some w => inr w
    end
  else inl NodeNotFound.

(** [nx.all_simple_paths(G, s, t, cutoff)]: the simple node sequences of at
    most [cutoff] hops, one per combination of parallel edges; nothing when
    [s = t]. The caller removes the repetitions. *)
Definition all_simple_paths (G : MultiDiGraph) (source target : string)
    (cutoff : nat) : res (list (list string)) :=
  if bool_decide (source ∈ g_nodes G) then
    if bool_decide (source = target) then inr []
    else inr (filter (λ p, length p ≤ S cutoff)
                     (simple_paths (length (g_nodes G)) G [] source target))
  else inl NodeNotFound.

(** ** Path enumerator *)

(** One hop of [_get_all_paths_mdg]: the interfaces of the least-cost
    parallel edges from [current_hop] to [next_hop]. [G[a][b]] raises
    KeyError when no edge joins the two. *)
Definition ecmp_hop (G : MultiDiGraph) (current_hop next_hop : string)
    : res (list nat) :=
  let values_source_hop := edges_between G current_hop next_hop in
  match min_Z (Edge.cost <$> values_source_hop) with
  | None => inl KeyError
  | Some min_weight =>
      let ecmp_links := filter (λ e, Edge.cost e = min_weight) values_source_hop in
      inr (Edge.interface <$> ecmp_links)
  end.

Fixpoint hops_from (G : MultiDiGraph) (current_hop : string)
    (rest : list string) : res (list (list nat)) :=
  match rest with
  | [] => inr []
  | next_hop :: rest' =>
      res_bind (ecmp_hop G current_hop next_hop) (λ this_hop,
      res_bind (hops_from G next_hop rest') (λ this_path,
      inr (this_hop :: this_path)))
  end.

Definition _get_all_paths_mdg (G : MultiDiGraph) (nx_sp : list (list string))
    : res (list (list (list nat))) :=
  res_mapM (λ path,
    match path with
    | [] => inl IndexError
    | current_hop :: rest => hops_from G current_hop rest
    end) nx_sp.

(** [itertools.product] over the hops of one path. *)
Fixpoint product {A} (ls : list (list A)) : list (list A) :=
  match ls with
  | [] => [[]]
  | l :: ls' => x ← l; (x ::.) <$> product ls'
  end.

Definition _normalize_multidigraph_paths {A} (path_info : list (list (list A)))
    : list (list A) :=
  path ← path_info; product path.

(** ** The monad of code that mutates the model and may raise *)

Definition M (A : Type) : Type := Model → res A * Model.

Definition ret {A} (a : A) : M A := λ m, (inr a, m).

Definition bind {A B} (x : M A) (f : A → M B) : M B :=
  λ m, match x m with
       | (inl e, m') => (inl e, m')
       | (inr a, m') => f a m'
       end.

Definition raise {A} (e : exn) : M A := λ m, (inl e, m).

Definition get : M Model := λ m, (inr m, m).

Definition modify (f : Model → Model) : M unit := λ m, (inr tt, f m).

Definition lift {A} (r : res A) : M A := λ m, (r, m).

Declare Scope M_scope.
Delimit Scope M_scope with M.
Notation "x <- c ;; k" := (bind c (λ x, k))
  (at level 100, c at next level, right associativity) : M_scope.
Notation "c ;; k" := (bind c (λ _, k))
  (at level 100, k at level 200, right associativity) : M_scope.

(** A Python [for] loop whose body mutates the model. *)
Fixpoint for_each {A} (l : list A) (body : A → M unit) : M unit :=
  match l with
  | [] => ret tt
  | x :: l' => (body x ;; for_each l' body)%M
  end.

Definition read_interface (k : nat) : M Interface.t :=
  λ m, (from_option inr (inl DanglingReference) (interface_objects m !! k), m).

Definition read_lsp (k : nat) : M RSVP_LSP.t :=
  λ m, (from_option inr (inl DanglingReference) (rsvp_lsp_objects m !! k), m).

Definition update_interface (k : nat) (f : Interface.t → Interface.t) : M unit :=
  modify (λ m, set_interface_objects (alter f k (interface_objects m)) m).

Definition update_lsp (k : nat) (f : RSVP_LSP.t → RSVP_LSP.t) : M unit :=
  modify (λ m, set_rsvp_lsp_objects (alter f k (rsvp_lsp_objects m)) m).

Definition update_demand (k : nat) (f : Demand.t → Demand.t) : M unit :=
  modify (λ m, set_demand_objects (alter f k (demand_objects m)) m).

(** ** LSP placer *)

(** Python's [min] of two numbers keeps the first on a tie. *)
Definition Qmin2 (x y : Q) : Q := if Qle_bool x y then x else y.

(** [min(l)]: ValueError on the empty list. *)
Definition min_Q (l : list Q) : res Q :=
  match l with
  | [] => inl ValueError
  | x :: l' => inr (foldl Qmin2 x l')
  end.

Definition min_nat (l : list nat) : res nat :=
  match l with
  | [] => inl ValueError
  | x :: l' => inr (foldl Nat.min x l')
  end.

(** [[interface.reservable_bandwidth for interface in path]]. *)
Definition reservable_bandwidths (ints : list Interface.t) (path : list nat)
    : res (list Q) :=
  res_mapM (λ k, from_option (λ i, inr (Interface.reservable_bandwidth i))
                             (inl DanglingReference) (ints !! k)) path.

(** [min([...]) >= lsp.setup_bandwidth] for one candidate path. *)
Definition has_reservable_bw (ints : list Interface.t) (setup_bandwidth : Q)
    (path : list nat) : res bool :=
  res_bind (reservable_bandwidths ints path) (λ bws,
  res_bind (min_Q bws) (λ least, inr (Qle_bool setup_bandwidth least))).

(** The loop that fills [candidate_path_info_w_reservable_bw]. *)
Fixpoint candidates_w_reservable_bw (ints : list Interface.t)
    (setup_bandwidth : Q) (candidate_path_info : list (list nat))
    : res (list (list nat)) :=
  match candidate_path_info with
  | [] => inr []
  | path :: rest =>
      res_bind (has_reservable_bw ints setup_bandwidth path) (λ ok,
      res_bind (candidates_w_reservable_bw ints setup_bandwidth rest) (λ tl,
      inr (if ok then path :: tl else tl)))
  end.

(** [random.choice(l)], the index drawn being [draw] reduced into range. *)
Definition random_choice {A} (draw : nat) (l : list A) : res A :=
  from_option inr (inl IndexError) (l !! (draw `mod` length l)).

Definition lowest_hop_count_paths (fewest_hops : nat) (cands : list (list nat))
    : list (list nat) :=
  filter (λ path, length path = fewest_hops) cands.

(** The choice of [new_path] among the candidates with enough reservable
    bandwidth; [None] when there is none (the LSP stays unrouted). *)
Definition choose_new_path (draw : nat) (cands : list (list nat))
    : res (option (list nat)) :=
  match cands with
  | [] => inr None
  | [path] => inr (Some path)
  | _ =>
      res_bind (min_nat (length <$> cands)) (λ fewest_hops,
      let lowest := lowest_hop_count_paths fewest_hops cands in
      if bool_decide (1 < length lowest) then
        res_bind (random_choice draw lowest) (λ p, inr (Some p))
      else
        res_bind (from_option inr (inl IndexError) (lowest !! 0)) (λ p, inr (Some p)))
  end.

(** Modelled from the spec: [_add_lsp_path_data] (pyNTM/master_model.py is
    not among the sources) records the path on the LSP as
    [{interfaces: sequence, baseline_path_cost: sum of interface costs}]. *)
Definition _add_lsp_path_data (lsp : nat) (new_path : list nat) : M unit :=
  (self <- get ;;
   costs <- lift (res_mapM (λ k, from_option (λ i, inr (Interface.cost i))
                                    (inl DanglingReference)
                                    (interface_objects self !! k)) new_path) ;;
   update_lsp lsp (RSVP_LSP.set_path (LspRouted new_path (foldr Z.add 0%Z costs))))%M.

Definition mark_unrouted (lsp : nat) : M unit :=
  update_lsp lsp (λ l, RSVP_LSP.set_reserved_bandwidth BwUnrouted
                         (RSVP_LSP.set_path LspUnrouted l)).

(** [interface.reserved_bandwidth += lsp.reserved_bandwidth] for the
    interface of reference [k]. The sum is exact here; the program rounds
    it to a binary64 number, as [Doubles.add_reservation] does. *)
Definition add_reservation (lsp : nat) (k : nat) : M unit :=
  (l <- read_lsp lsp ;;
   match RSVP_LSP.reserved_bandwidth l with
   | Bw q => update_interface k (λ i,
       Interface.set_reserved_bandwidth (Interface.reserved_bandwidth i + q)%Q i)
   | BwUnrouted => raise TypeError
   end)%M.

(** The last loop of a round, over the interfaces of the path the LSP
    records. *)
Definition commit_reservation (lsp : nat) : M unit :=
  (l <- read_lsp lsp ;;
   match RSVP_LSP.path l with
   | LspRouted interfaces _ => for_each interfaces (add_reservation lsp)
   | LspEmptyDict => raise KeyError
   | LspUnrouted => raise TypeError
   end)%M.

(** The body of the loop of [_determine_lsp_state_info], for the LSP of
    reference [lsp]; [draw] is the number [random.choice] would draw. *)
Definition _determine_lsp_state_info_body (traff_on_each_group_lsp : Q)
    (draw : nat) (lsp : nat) : M unit :=
  (l <- read_lsp lsp ;;
   let bw := match RSVP_LSP.configured_setup_bandwidth l with
             | None => traff_on_each_group_lsp
             | Some configured => configured
             end in
   update_lsp lsp (λ l, RSVP_LSP.set_setup_bandwidth (Bw bw)
                          (RSVP_LSP.set_reserved_bandwidth (Bw bw) l)) ;;
   self <- get ;;
   let G := _make_weighted_network_graph_mdg self false bw true in
   update_lsp lsp (RSVP_LSP.set_path LspEmptyDict) ;;
   match all_shortest_paths G (RSVP_LSP.source_node_object l)
                              (RSVP_LSP.dest_node_object l) with
   | inl NetworkXNoPath => mark_unrouted lsp
   | inl e => raise e
   | inr nx_sp =>
       all_paths <- lift (_get_all_paths_mdg G nx_sp) ;;
       let candidate_path_info := _normalize_multidigraph_paths all_paths in
       candidate_path_info_w_reservable_bw <-
         lift (candidates_w_reservable_bw (interface_objects self) bw
                                          candidate_path_info) ;;
       choice <- lift (choose_new_path draw candidate_path_info_w_reservable_bw) ;;
       match choice with
       | None => mark_unrouted lsp
       | Some new_path =>
           _add_lsp_path_data lsp new_path ;;
           commit_reservation lsp
       end
   end)%M.

(** [_determine_lsp_state_info(lsps, traff_on_each_group_lsp)]; [rnd] gives
    for each LSP the draw of its [random.choice], should it make one. *)
Definition _determine_lsp_state_info (rnd : nat → nat) (lsps : list nat)
    (traff_on_each_group_lsp : Q) : M unit :=
  for_each lsps (λ lsp,
    _determine_lsp_state_info_body traff_on_each_group_lsp (rnd lsp) lsp).

Definition Qsum (l : list Q) : Q := foldr Qplus 0%Q l.

Definition Q_of_nat (n : nat) : Q := inject_Z (Z.of_nat n).

Definition lsp_endpoints (l : RSVP_LSP.t) : string * string :=
  (RSVP_LSP.source_node_object l, RSVP_LSP.dest_node_object l).

Definition demand_endpoints (d : Demand.t) : string * string :=
  (Demand.source_node_object d, Demand.dest_node_object d).

(** Modelled from the spec: the parallel-LSP groups of section 4.4, the
    LSPs grouped by (source_node, dest_node); each group lists the
    references of its LSPs in store order. *)
Definition parallel_lsp_groups (lsps : list RSVP_LSP.t)
    : list ((string * string) * list nat) :=
  (λ key, (key, (fst <$> filter (λ kl, lsp_endpoints kl.2 = key) (enumerate lsps))))
    <$> remove_dups (lsp_endpoints <$> lsps).

(** Modelled from the spec: the traffic estimate of a group, the sum of the
    traffic of every demand with matching endpoints. *)
Definition traffic_in_demand_group (demands : list Demand.t)
    (key : string * string) : Q :=
  Qsum (Demand.traffic <$> filter (λ d, demand_endpoints d = key) demands).

(** Modelled from the spec: [_route_lsps] (pyNTM/master_model.py is not
    among the sources), section 4.4: for each parallel-LSP group the
    traffic estimate is divided by the number of LSPs of the group, and
    the LSPs of the group are placed one after the other by
    [_determine_lsp_state_info]. *)
Definition _route_lsps (rnd : nat → nat) : M unit :=
  (self <- get ;;
   for_each (parallel_lsp_groups (rsvp_lsp_objects self)) (λ group,
     let traff_on_each_group_lsp :=
       (traffic_in_demand_group (demand_objects self) group.1
        / Q_of_nat (length group.2))%Q in
     _determine_lsp_state_info rnd group.2 traff_on_each_group_lsp))%M.

(** ** Demand router *)

(** ['Unrouted' not in lsp.path]: false on the sentinel string, true on a
    dict, which has no such key. *)
Definition unrouted_not_in (p : lsp_path) : bool :=
  match p with
  | LspUnrouted => false
  | _ => true
  end.

(** The LSPs that can carry a demand, by reference. *)
Definition lsps_for_demand (lsps : list RSVP_LSP.t) (d : Demand.t) : list nat :=
  fst <$> filter (λ kl,
            RSVP_LSP.source_node_object kl.2 = Demand.source_node_object d ∧
            RSVP_LSP.dest_node_object kl.2 = Demand.dest_node_object d ∧
            unrouted_not_in (RSVP_LSP.path kl.2) = true) (enumerate lsps).

Definition read_demand (k : nat) : M Demand.t :=
  λ m, (from_option inr (inl DanglingReference) (demand_objects m !! k), m).

(** The body of the loop of [_route_demands] for the demand of reference
    [demand]; [G] is the graph built before the loop. *)
Definition _route_demands_body (G : MultiDiGraph) (demand : nat) : M unit :=
  (d <- read_demand demand ;;
   update_demand demand (Demand.set_path (DemandRouted [])) ;;
   model <- get ;;
   let carried := lsps_for_demand (rsvp_lsp_objects model) d in
   update_demand demand (Demand.set_path (DemandRouted (ViaLsp <$> carried))) ;;
   if bool_decide (carried = []) then
     match all_shortest_paths G (Demand.source_node_object d)
                                (Demand.dest_node_object d) with
     | inl NetworkXNoPath => update_demand demand (Demand.set_path DemandUnrouted)
     | inl e => raise e
     | inr nx_sp =>
         all_paths <- lift (_get_all_paths_mdg G nx_sp) ;;
         let path_list := _normalize_multidigraph_paths all_paths in
         update_demand demand (Demand.set_path (DemandRouted (ViaInterfaces <$> path_list)))
     end
   else ret tt)%M.

Definition add_traffic (q : Q) (k : nat) : M unit :=
  update_interface k (λ i, Interface.set_traffic (Interface.traffic i + q)%Q i).

(** Modelled from the spec: [_update_interface_utilization]
    (pyNTM/master_model.py is not among the sources), section 4.5: a routed
    demand splits its traffic equally between its carriers; an interface
    sequence adds its share to each of its interfaces, and an LSP, which
    has one path, adds its share to each interface of that path. *)
Definition _update_interface_utilization : M unit :=
  (self <- get ;;
   for_each (demand_objects self) (λ d,
     match Demand.path d with
     | DemandUnrouted => ret tt
     | DemandRouted carriers =>
         let share := (Demand.traffic d / Q_of_nat (length carriers))%Q in
         for_each carriers (λ c,
           match c with
           | ViaInterfaces interfaces => for_each interfaces (add_traffic share)
           | ViaLsp lsp =>
               match RSVP_LSP.path <$> rsvp_lsp_objects self !! lsp with
               | Some (LspRouted interfaces _) => for_each interfaces (add_traffic share)
               | _ => ret tt
               end
           end)
     end))%M.

(** [_route_demands(model)]. In [update_simulation] the demands and LSPs of
    [model] are the very sets of [self], so the loop runs over the demand
    store of [self]. *)
Definition _route_demands : M unit :=
  (self <- get ;;
   let G := _make_weighted_network_graph_mdg self false 0 false in
   for_each (seq 0 (length (demand_objects self))) (_route_demands_body G) ;;
   _update_interface_utilization)%M.

(** ** Validator *)

(** What [get_interface_object_from_nodes] returns: a list of interfaces
    or, when a circuit_id matches more than one, a ModelException object
    (returned, not raised). *)
Inductive interfaces_or_exception :=
| InterfaceList (l : list nat)
| ReturnedException.

Definition get_interface_object_from_nodes (self : Model)
    (local_node_name remote_node_name : string) (circuit_id : option string)
    : interfaces_or_exception :=
  match circuit_id with
  | None =>
      InterfaceList (fst <$> filter (λ ki,
        Interface.node_object ki.2 = local_node_name ∧
        Interface.remote_node_object ki.2 = remote_node_name)
        (enumerate (interface_objects self)))
  | Some cid =>
      let interface_list := fst <$> filter (λ ki,
        Interface.node_object ki.2 = local_node_name ∧
        Interface.remote_node_object ki.2 = remote_node_name ∧
        Interface.circuit_id ki.2 = cid)
        (enumerate (interface_objects self)) in
      if bool_decide (1 < length interface_list) then ReturnedException
      else InterfaceList interface_list
  end.

(** [get_interface_object_from_nodes(..)[0]] inside
    [try .. except (TypeError, IndexError): raise ModelException(msg)]. *)
Definition first_interface_or_raise (self : Model)
    (local_node_name remote_node_name cid : string) : res nat :=
  match get_interface_object_from_nodes self local_node_name remote_node_name (Some cid) with
  | InterfaceList (k :: _) => inr k
  | InterfaceList [] (* IndexError *)
  | ReturnedException (* TypeError *) =>
      inl (ModelException (NoMatchingInterface local_node_name remote_node_name cid))
  end.

(** The pairing loop of [_make_circuits_multidigraph]; the circuits found
    so far are threaded through. *)
Fixpoint pair_interfaces (graph_interfaces : list Edge.t) (circuits : list Circuit)
    : M (list Circuit) :=
  match graph_interfaces with
  | [] => ret circuits
  | interface :: rest =>
      (self <- get ;;
       int1 <- lift (first_interface_or_raise self (Edge.u interface) (Edge.v interface)
                       (Edge.circuit_id interface)) ;;
       int2 <- lift (first_interface_or_raise self (Edge.v interface) (Edge.u interface)
                       (Edge.circuit_id interface)) ;;
       i1 <- read_interface int1 ;;
       i2 <- read_interface int2 ;;
       if negb (Interface.in_ckt i1) && negb (Interface.in_ckt i2) then
         update_interface int1 (Interface.set_in_ckt true) ;;
         update_interface int2 (Interface.set_in_ckt true) ;;
         pair_interfaces rest (circuits ++ [mkCircuit int1 int2])
       else pair_interfaces rest circuits)%M
  end.

(** [_make_circuits_multidigraph(return_exception, include_failed_circuits)]:
    [None] is Python's None (the circuits are stored on the model), [Some
    data] the dict [{'data': ..}] of the interfaces without counterpart. *)
Definition _make_circuits_multidigraph (return_exception : bool)
    (include_failed_circuits : bool) : M (option (list Edge.t)) :=
  (self <- get ;;
   let G := _make_weighted_network_graph_mdg self include_failed_circuits 0 false in
   let graph_interfaces :=
     filter (λ e, has_edge G (Edge.v e) (Edge.u e) = true) (g_edges G) in
   modify (λ m, set_interface_objects
                  (Interface.set_in_ckt false <$> interface_objects m) m) ;;
   circuits <- pair_interfaces graph_interfaces [] ;;
   let exception_ints_not_in_ckt :=
     filter (λ e, has_edge G (Edge.v e) (Edge.u e) = false) (g_edges G) in
   if bool_decide (0 < length exception_ints_not_in_ckt) then
     if return_exception then
       raise (ModelException (IntsNotMatched exception_ints_not_in_ckt))
     else ret (Some exception_ints_not_in_ckt)
   else
     modify (set_circuit_objects circuits) ;;
     ret None)%M.

Definition lsp_reservation (l : RSVP_LSP.t) : Q :=
  match RSVP_LSP.reserved_bandwidth l with
  | Bw q => q
  | BwUnrouted => 0%Q
  end.

Definition lsp_transits (k : nat) (l : RSVP_LSP.t) : Prop :=
  match RSVP_LSP.path l with
  | LspRouted interfaces _ => k ∈ interfaces
  | _ => False
  end.

#[global] Instance lsp_transits_dec k l : Decision (lsp_transits k l).
Proof. unfold lsp_transits. destruct (RSVP_LSP.path l); apply _. Defined.

(** Modelled from the spec: [_make_int_info_dict] (not among the sources);
    for the interface of reference [k], the sum of the reservations of the
    LSPs that record the interface in their path. *)
Definition _make_int_info_dict (self : Model) (k : nat) : Q :=
  Qsum (lsp_reservation <$> filter (lsp_transits k) (rsvp_lsp_objects self)).

(** Modelled from the spec: [_reserved_bw_error_checks] (not among the
    sources), checks 4 and 5 of section 4.3:
    reserved_bw <= capacity x percent_reservable_bw / 100, and reserved_bw
    equal to the sum of the reservations of the LSPs on the interface. *)
Definition res_bw_too_high (i : Interface.t) : bool :=
  negb (Qle_bool (Interface.reserved_bandwidth i) (Interface.max_reservable i)).

Definition res_bw_sum_error (self : Model) (ki : nat * Interface.t) : bool :=
  negb (Qeq_bool (Interface.reserved_bandwidth ki.2) (_make_int_info_dict self ki.1)).

(** Modelled from the spec: [_unique_interface_per_node] (not among the
    sources), check 3: no node has two interfaces of the same name. *)
Definition _unique_interface_per_node (self : Model) : bool :=
  bool_decide (NoDup ((λ i, (Interface.node_object i, Interface.name i))
                        <$> interface_objects self)).

(** Modelled from the spec: [_validate_circuit_interface_capacity] (not
    among the sources), check 2: the two interfaces of a circuit have equal
    capacity and equal failed state. *)
Definition circuit_mismatch (self : Model) (ckt : Circuit) : bool :=
  match interface_objects self !! ckt_a ckt, interface_objects self !! ckt_b ckt with
  | Some a, Some b =>
      negb (Qeq_bool (Interface.capacity a) (Interface.capacity b)
            && bool_decide (Interface.failed a = Interface.failed b))
  | _, _ => true
  end.

(** The dict [srlg_errors]: [srlg_errors[node.name].append(srlg.name)],
    and on KeyError [srlg_errors[node.name] = []]. *)
Fixpoint srlg_errors_record (errs : list (string * list string))
    (node_name srlg_name : string) : list (string * list string) :=
  match errs with
  | [] => [(node_name, [])]
  | (n, l) :: errs' =>
      if bool_decide (n = node_name) then (n, l ++ [srlg_name]) :: errs'
      else (n, l) :: srlg_errors_record errs' node_name srlg_name
  end.

Definition srlg_errors_of (self : Model) : list (string * list string) :=
  foldl (λ errs srlg,
    let nodes_in_srlg_but_srlg_not_in_node_srlgs :=
      filter (λ node, SRLG.name srlg ∉ Node.srlgs node)
             (omap (λ k, node_objects self !! k) (SRLG.node_objects srlg)) in
    foldl (λ errs node, srlg_errors_record errs (Node.name node) (SRLG.name srlg))
          errs nodes_in_srlg_but_srlg_not_in_node_srlgs)
    [] (srlg_objects self).

(** The entry a check contributes to [error_data], if it failed. *)
Definition entry_if (failed : bool) (e : error_entry) : list error_entry :=
  if failed then [e] else [].

(** The list [error_data] that [validate_model] accumulates once the
    circuits are made; [circuits] is what [_make_circuits_multidigraph]
    returned. *)
Definition validation_error_data (circuits : option (list Edge.t)) (self : Model)
    : list error_entry :=
  let ints := enumerate (interface_objects self) in
  let int_res_bw_too_high := fst <$> filter (λ ki, res_bw_too_high ki.2 = true) ints in
  let int_res_bw_sum_error := fst <$> filter (λ ki, res_bw_sum_error self ki = true) ints in
  let unique_interfaces_per_node := _unique_interface_per_node self in
  let circuits_with_mismatched :=
    filter (λ ckt, circuit_mismatch self ckt = true) (circuit_objects self) in
  let srlg_errs := srlg_errors_of self in
  let node_names := remove_dups (Node.name <$> node_objects self) in
  from_option (λ data, [Err_ints_w_no_remote_int data]) [] circuits
  ++ entry_if (bool_decide (0 < length int_res_bw_too_high))
              (Err_int_res_bw_too_high int_res_bw_too_high)
  ++ entry_if (bool_decide (0 < length int_res_bw_sum_error))
              (Err_int_res_bw_sum_error int_res_bw_sum_error)
  ++ entry_if (negb unique_interfaces_per_node) Err_duplicate_interfaces
  ++ entry_if (bool_decide (0 < length circuits_with_mismatched))
              (Err_circuits_with_mismatched_interface_capacity circuits_with_mismatched)
  ++ entry_if (bool_decide (0 < length srlg_errs)) (Err_srlg_errors srlg_errs)
  ++ entry_if (bool_decide (length (node_objects self) ≠ length node_names))
              (Err_node_dict (length (node_objects self)) (length node_names)).

Definition validate_model : M unit :=
  (circuits <- _make_circuits_multidigraph true true ;;
   self <- get ;;
   let error_data := validation_error_data circuits self in
   if bool_decide (0 < length error_data) then
     raise (ModelException (ValidationFailed error_data))
   else ret tt)%M.

(** ** Simulation driver *)

Definition reset_interface (i : Interface.t) : Interface.t :=
  Interface.set_traffic 0 (Interface.set_reserved_bandwidth 0 i).

Definition update_simulation (rnd : nat → nat) : M unit :=
  (modify (set_parallel_lsp_groups []) ;;
   modify (λ m, set_interface_objects (reset_interface <$> interface_objects m) m) ;;
   modify (λ m, set_rsvp_lsp_objects
                  (RSVP_LSP.set_path LspUnrouted <$> rsvp_lsp_objects m) m) ;;
   modify (λ m, set_demand_objects
                  (Demand.set_path DemandUnrouted <$> demand_objects m) m) ;;
   _route_lsps rnd ;;
   _route_demands ;;
   validate_model)%M.

(** ** Path queries *)

(** [nx_graph_path.index(hop)]. *)
Definition index_of (hop : string) (nx_graph_path : list string) : nat :=
  from_option fst 0 (list_find (λ x, x = hop) nx_graph_path).

Definition _convert_nx_path_to_model_path (self : Model)
    (nx_graph_path : list string) (needed_bw : Q) : list (list nat) :=
  omap (λ hop,
    let current_hop_index := index_of hop nx_graph_path in
    let next_hop_index := current_hop_index + 1 in
    match nx_graph_path !! next_hop_index with
    | Some next_hop =>
        match get_interface_object_from_nodes self hop next_hop None with
        | InterfaceList l =>
            Some (filter (λ k,
              from_option (λ i, Qle_bool needed_bw (Interface.reservable_bandwidth i))
                          false (interface_objects self !! k) = true) l)
        | ReturnedException => None
        end
    | None => None
    end) nx_graph_path.

(** The value under the key ['path']: the model paths as converted, hop by
    hop, or the normalized paths. Both are Python lists, and the empty
    list of either kind is Python's [[]]. *)
Inductive path_value :=
| ConvertedPaths (l : list (list (list nat)))
| NormalizedPaths (l : list (list nat)).

(** The dict [{'cost': .., 'path': ..}] of [get_shortest_path]. *)
Record path_dict := mkPathDict {
  pd_cost : option Z;
  pd_path : path_value
}.

(** The dict [{'path': ..}] of [get_all_paths_reservable_bw]. *)
Record paths_dict := mkPathsDict {
  ps_path : path_value
}.

(** The loop of [get_shortest_path] inside [try]; [converted_path] is the
    dict built so far: the first component of the result says whether an
    exception interrupted the loop. *)
Fixpoint convert_shortest_paths (self : Model) (G : MultiDiGraph)
    (source_node_name dest_node_name : string) (needed_bw : Q)
    (paths : list (list string)) (converted : list (list (list nat)))
    (cost : option Z) : bool * list (list (list nat)) * option Z :=
  match paths with
  | [] => (false, converted, cost)
  | path :: rest =>
      let model_path := _convert_nx_path_to_model_path self path needed_bw in
      let converted := converted ++ [model_path] in
      match shortest_path_length G source_node_name dest_node_name with
      | inl _ => (true, converted, cost)
      | inr c =>
          convert_shortest_paths self G source_node_name dest_node_name
                                 needed_bw rest converted (Some c)
      end
  end.

(** [get_shortest_path]. The search is a generator: what it raises, it
    raises when the loop asks for the first path, inside [try], and
    [except BaseException] returns the dict built so far. *)
Definition get_shortest_path (self : Model) (source_node_name dest_node_name : string)
    (needed_bw : Q) : path_dict :=
  let G := _make_weighted_network_graph_mdg self false needed_bw false in
  match all_shortest_paths G source_node_name dest_node_name with
  | inl _ => mkPathDict None (ConvertedPaths [])
  | inr multidigraph_shortest_paths =>
      match convert_shortest_paths self G source_node_name dest_node_name needed_bw
                                   multidigraph_shortest_paths [] None with
      | (true, converted, cost) => mkPathDict cost (ConvertedPaths converted)
      | (false, converted, cost) =>
          mkPathDict cost (NormalizedPaths (_normalize_multidigraph_paths converted))
      end
  end.

(** [get_all_paths_reservable_bw]. The simple paths are collected into a
    set before [try], so an exception of the search is not caught; the
    conversion inside [try] raises nothing. The dict has the one key
    ['path']. *)
Definition get_all_paths_reservable_bw (self : Model)
    (source_node_name dest_node_name : string) (include_failed_circuits : bool)
    (cutoff : nat) (needed_bw : Q) : res paths_dict :=
  let G := _make_weighted_network_graph_mdg self include_failed_circuits needed_bw false in
  res_bind (all_simple_paths G source_node_name dest_node_name cutoff)
    (λ digraph_all_paths,
       let digraph_unique_paths := remove_dups digraph_all_paths in
       let converted :=
         (λ path, _convert_nx_path_to_model_path self path needed_bw)
           <$> digraph_unique_paths in
       inr (mkPathsDict (NormalizedPaths (_normalize_multidigraph_paths converted)))).

(** ** Model-file loader: the interfaces table *)

Definition is_space (c : Ascii.ascii) : bool :=
  let n := Ascii.nat_of_ascii c in
  bool_decide (n = 32 ∨ (9 ≤ n ∧ n ≤ 13) ∨ (28 ≤ n ∧ n ≤ 31)).

Definition flush_word (word : list Ascii.ascii) : list string :=
  match word with
  | [] => []
  | _ => [String.string_of_list_ascii word]
  end.

Fixpoint split_from (s : string) (word : list Ascii.ascii) : list string :=
  match s with
  | EmptyString => flush_word word
  | String c s' =>
      if is_space c then flush_word word ++ split_from s' []
      else split_from s' (word ++ [c])
  end.

(** [line.split()]: the words of a line, separated by runs of whitespace. *)
Definition split (line : string) : list string := split_from line [].

(** [lines[begin:end]], where [end] may be [None]. *)
Definition slice {A} (begin : nat) (end_index : option nat) (lines : list A) : list A :=
  match end_index with
  | None => drop begin lines
  | Some e => take (e - begin) (drop begin lines)
  end.

(** The loop that collects [circuit_id_list]: a line with fewer than six
    words raises IndexError, which is passed over. *)
Definition circuit_id_list_of (interface_lines : list string) : list string :=
  omap (λ line, split line !! 5) interface_lines.

Definition count_occ_str (item : string) (l : list string) : nat :=
  length (filter (λ x, x = item) l).

(** [bad_circuit_ids]: for each circuit_id of the set of circuit_ids that
    does not appear twice, the dict [{'circuit_id': .., 'appearances': ..}]. *)
Definition bad_circuit_ids_of (circuit_id_list : list string) : list (string * nat) :=
  (λ item, (item, count_occ_str item circuit_id_list))
    <$> filter (λ item, count_occ_str item circuit_id_list ≠ 2)
               (remove_dups circuit_id_list).

Section Loader.

(** What the loader calls and the sources do not hold: [find_end_index] of
    pyNTM/utilities.py, Python's [int] and [float] on a word, and the part
    of [load_model_file] after the interfaces table, which is made of
    helpers of the class that are not among the sources. *)
Variable find_end_index : nat → list string → option nat.
Variable parse_int : string → option Z.
Variable parse_float : string → option Q.
Variable load_other_tables :
  list Interface.t → list Node.t → option nat → list string → res Model.

Definition parse_rsvp_enabled (rsvp_enabled : string) : bool :=
  bool_decide (rsvp_enabled ∈ ["T"; "True"; "true"]%string).

Definition int_of (word : string) : res Z :=
  from_option inr (inl ValueError) (parse_int word).

Definition float_of (word : string) : res Q :=
  from_option inr (inl ValueError) (parse_float word).

(** The interface a line describes, or the exception it raises. *)
Definition interface_of_line (interface_line : string) : res Interface.t :=
  let build node_name remote_node_name name cost capacity circuit_id
            rsvp_enabled_bool (percent : res Q) :=
    res_bind (int_of cost) (λ cost,
    res_bind (int_of capacity) (λ capacity,
    res_bind percent (λ percent,
    inr (Interface.mk name cost (inject_Z capacity) node_name remote_node_name
           circuit_id rsvp_enabled_bool percent false 0 0 false)))) in
  match split interface_line with
  | [node_name; remote_node_name; name; cost; capacity; circuit_id] =>
      build node_name remote_node_name name cost capacity circuit_id true (inr 100%Q)
  | [node_name; remote_node_name; name; cost; capacity; circuit_id; rsvp_enabled] =>
      build node_name remote_node_name name cost capacity circuit_id
            (parse_rsvp_enabled rsvp_enabled) (inr 100%Q)
  | [node_name; remote_node_name; name; cost; capacity; circuit_id; rsvp_enabled;
     percent_reservable_bandwidth] =>
      build node_name remote_node_name name cost capacity circuit_id
            (parse_rsvp_enabled rsvp_enabled) (float_of percent_reservable_bandwidth)
  | _ :: _ :: _ :: _ :: _ :: _ :: _ :: _ :: _ :: _ =>
      inl ValueError (* too many values to unpack *)
  | _ => inl (ModelException (InterfaceLineTooShort interface_line))
  end.

Definition interface_key (i : Interface.t) : string * string :=
  (Interface.name i, Interface.node_object i).

Definition add_implied_node (node_name : string) (node_set : list Node.t)
    : list Node.t :=
  if bool_decide (node_name ∈ Node.name <$> node_set) then node_set
  else node_set ++ [Node.mk node_name []].

Fixpoint extract_interfaces (interface_lines : list string)
    (interface_set : list Interface.t) (node_set : list Node.t)
    : res (list Interface.t * list Node.t) :=
  match interface_lines with
  | [] => inr (interface_set, node_set)
  | interface_line :: rest =>
      res_bind (interface_of_line interface_line) (λ new_interface,
        let interface_set :=
          if bool_decide (interface_key new_interface ∈ interface_key <$> interface_set)
          then interface_set else interface_set ++ [new_interface] in
        let node_set := add_implied_node (Interface.node_object new_interface) node_set in
        let node_set :=
          add_implied_node (Interface.remote_node_object new_interface) node_set in
        extract_interfaces rest interface_set node_set)
  end.

Definition _extract_interface_data_and_implied_nodes (int_info_begin_index : nat)
    (int_info_end_index : option nat) (lines : list string)
    : res (list Interface.t * list Node.t) :=
  extract_interfaces (slice int_info_begin_index int_info_end_index lines) [] [].

(** [load_model_file], on the lines of the file. *)
Definition load_model_file (lines : list string) : res Model :=
  let int_info_begin_index := 2 in
  let int_info_end_index := find_end_index int_info_begin_index lines in
  let circuit_id_list :=
    circuit_id_list_of (slice int_info_begin_index int_info_end_index lines) in
  let bad_circuit_ids := bad_circuit_ids_of circuit_id_list in
  if bool_decide (length bad_circuit_ids ≠ 0) then
    inl (ModelException (BadCircuitIds bad_circuit_ids))
  else
    res_bind (_extract_interface_data_and_implied_nodes int_info_begin_index
                int_info_end_index lines) (λ sets,
    load_other_tables sets.1 sets.2 int_info_end_index lines).

End Loader.

(** ** Adding a circuit *)

(** Modelled from the spec: [all_interface_circuit_ids] of the parent class
    (pyNTM/master_model.py is not among the sources): the circuit_ids of
    the interfaces of the model. *)
Definition all_interface_circuit_ids (self : Model) : list string :=
  remove_dups (Interface.circuit_id <$> interface_objects self).

(** Modelled from the spec: the constructor
    [Interface(name, cost, capacity, node_object, remote_node_object, circuit_id)]
    (pyNTM/interface.py is not among the sources) with the defaults of the
    spec: RSVP enabled, all of the capacity reservable, not failed, nothing
    reserved and no traffic. *)
Definition Interface_init (name : string) (cost : Z) (capacity : Q)
    (node_object remote_node_object circuit_id : string) : Interface.t :=
  Interface.mk name cost capacity node_object remote_node_object circuit_id
               true 100 false 0 0 false.

(** Modelled from the spec: [self.interface_objects.add(interface)]; two
    interfaces are equal when their keys are, and a set keeps the one it
    has. *)
Definition interface_objects_add (interface : Interface.t) (self : Model) : Model :=
  if bool_decide (interface_key interface ∈ interface_key <$> interface_objects self)
  then self
  else set_interface_objects (interface_objects self ++ [interface]) self.

(** What [add_circuit] raises: one of its own three ModelExceptions, or
    what [validate_model] raises. *)
Inductive add_circuit_exception :=
| CircuitIdNotSpecified
| CircuitIdExists (circuit_id : string)
| InterfaceExists (interface : Interface.t) (node_object : string)
| RaisedByValidation (e : exn).

(** [add_circuit]; the model it is given is changed in place, so the model
    is returned with the outcome. The argument [failed] is not used. *)
Definition add_circuit (node_a_object node_b_object : string)
    (node_a_interface_name node_b_interface_name : string)
    (cost_intf_a cost_intf_b : Z) (capacity : Q) (failed : bool)
    (circuit_id : option string) (self : Model)
    : (add_circuit_exception + unit) * Model :=
  match circuit_id with
  | None => (inl CircuitIdNotSpecified, self)
  | Some circuit_id =>
      let circuit_ids := all_interface_circuit_ids self in
      if bool_decide (circuit_id ∈ circuit_ids) then
        (inl (CircuitIdExists circuit_id), self)
      else
        let int_a := Interface_init node_a_interface_name cost_intf_a capacity
                                    node_a_object node_b_object circuit_id in
        let int_b := Interface_init node_b_interface_name cost_intf_b capacity
                                    node_b_object node_a_object circuit_id in
        let existing_int_keys := interface_key <$> interface_objects self in
        if bool_decide (interface_key int_a ∈ existing_int_keys) then
          (inl (InterfaceExists int_a node_a_object), self)
        else if bool_decide (interface_key int_b ∈ existing_int_keys) then
          (inl (InterfaceExists int_b node_b_object), self)
        else
          let self := interface_objects_add int_a self in
          let self := interface_objects_add int_b self in
          match validate_model self with
          | (inl e, self) => (inl (RaisedByValidation e), self)
          | (inr _, self) => (inr tt, self)
          end
  end.

(** ** Path query for an LSP that is routed *)

(** [lsp.path['interfaces']]: the string 'Unrouted' cannot be indexed by a
    string, and the empty dict has no such key. *)
Definition lsp_path_interfaces (lsp : RSVP_LSP.t) : res (list nat) :=
  match RSVP_LSP.path lsp with
  | LspRouted interfaces _ => inr interfaces
  | LspEmptyDict => inl KeyError
  | LspUnrouted => inl TypeError
  end.

(** [interface.reservable_bandwidth + lsp.reserved_bandwidth]: a number and
    the string 'Unrouted' cannot be added. *)
Definition plus_reserved_bandwidth (reservable_bandwidth : Q) (lsp : RSVP_LSP.t)
    : res Q :=
  match RSVP_LSP.reserved_bandwidth lsp with
  | Bw q => inr (reservable_bandwidth + q)%Q
  | BwUnrouted => inl TypeError
  end.

(** The loop that fills [eligible_interfaces]. *)
Fixpoint eligible_interfaces_of (lsp : RSVP_LSP.t) (lsp_path_interfaces : list nat)
    (needed_bw : Q) (eligible_interface_generator : list (nat * Interface.t))
    : res (list (nat * Interface.t)) :=
  match eligible_interface_generator with
  | [] => inr []
  | interface :: rest =>
      res_bind
        (if bool_decide (interface.1 ∈ lsp_path_interfaces) then
           plus_reserved_bandwidth (Interface.reservable_bandwidth interface.2) lsp
         else inr (Interface.reservable_bandwidth interface.2))
        (λ effective_reservable_bw,
      res_bind (eligible_interfaces_of lsp lsp_path_interfaces needed_bw rest)
        (λ eligible_interfaces,
      inr (if Qle_bool needed_bw effective_reservable_bw
           then interface :: eligible_interfaces else eligible_interfaces)))
  end.

(** The triple [(u, v, cost)] that [add_weighted_edges_from] turns into an
    edge whose data dict holds the cost alone. The record keeps the
    reference of the interface the triple comes from; nothing that is done
    with this graph reads it, nor the circuit_id, which is left empty. *)
Definition weighted_edge_of (ki : nat * Interface.t) : Edge.t :=
  Edge.mk (Interface.node_object ki.2) (Interface.remote_node_object ki.2)
          (Interface.cost ki.2) ki.1 "".

(** [_make_weighted_network_graph_routed_lsp(lsp, needed_bw)]. The set
    [eligible_interfaces] is gone through in the order of the store. *)
Definition _make_weighted_network_graph_routed_lsp (self : Model)
    (lsp : RSVP_LSP.t) (needed_bw : Q) : res MultiDiGraph :=
  res_bind (lsp_path_interfaces lsp) (λ lsp_path_interfaces,
  let eligible_interface_generator :=
    filter (λ ki, Interface.failed ki.2 = false ∧ Interface.rsvp_enabled ki.2 = true)
           (enumerate (interface_objects self)) in
  res_bind (eligible_interfaces_of lsp lsp_path_interfaces needed_bw
              eligible_interface_generator) (λ eligible_interfaces,
  let edge_names := weighted_edge_of <$> eligible_interfaces in
  let G := add_edges_from edge_names (mkGraph [] []) in
  inr (add_nodes_from (Node.name <$> node_objects self) G))).

(** The body of the inner loop of
    [_convert_nx_path_to_model_path_routed_lsp]: the [hop_interface_list]
    of one interface between the hop and the next hop. *)
Definition hop_interface_list_of (self : Model) (needed_bw : Q) (lsp : RSVP_LSP.t)
    (interface : nat) : res (list nat) :=
  res_bind (from_option inr (inl DanglingReference)
                        (interface_objects self !! interface)) (λ i,
  res_bind (lsp_path_interfaces lsp) (λ path_interfaces,
  res_bind
    (if bool_decide (interface ∈ path_interfaces) then
       res_bind (plus_reserved_bandwidth (Interface.reservable_bandwidth i) lsp)
                (λ effective, inr (Qle_bool needed_bw effective))
     else inr false) (λ on_path_and_enough,
  if on_path_and_enough then inr [interface]
  else if Qle_bool needed_bw (Interface.reservable_bandwidth i) then inr [interface]
  else inr []))).

(** [_convert_nx_path_to_model_path_routed_lsp]: [hop_interface_list] is
    emptied for each interface, so every interface that is kept makes an
    entry of [model_path] of its own. *)
Definition _convert_nx_path_to_model_path_routed_lsp (self : Model)
    (nx_graph_path : list string) (needed_bw : Q) (lsp : RSVP_LSP.t)
    : res (list (list nat)) :=
  res_bind (res_mapM (λ hop,
    let current_hop_index := index_of hop nx_graph_path in
    let next_hop_index := current_hop_index + 1 in
    match nx_graph_path !! next_hop_index with
    | Some next_hop =>
        match get_interface_object_from_nodes self hop next_hop None with
        | InterfaceList l =>
            res_bind (res_mapM (hop_interface_list_of self needed_bw lsp) l)
              (λ lists, inr (filter (λ hop_interface_list, 0 < length hop_interface_list)
                                    lists))
        | ReturnedException => inl TypeError
        end
    | None => inr []
    end) nx_graph_path) (λ appended, inr (concat appended)).

(** The loop of [get_shortest_path_for_routed_lsp] inside [try]; the first
    component of the result says whether an exception interrupted it. *)
Fixpoint convert_shortest_paths_routed_lsp (self : Model) (G : MultiDiGraph)
    (source_node_name dest_node_name : string) (lsp : RSVP_LSP.t) (needed_bw : Q)
    (paths : list (list string)) (converted : list (list (list nat)))
    (cost : option Z) : bool * list (list (list nat)) * option Z :=
  match paths with
  | [] => (false, converted, cost)
  | path :: rest =>
      match _convert_nx_path_to_model_path_routed_lsp self path needed_bw lsp with
      | inl _ => (true, converted, cost)
      | inr model_path =>
          let converted := converted ++ [model_path] in
          match shortest_path_length G source_node_name dest_node_name with
          | inl _ => (true, converted, cost)
          | inr c =>
              convert_shortest_paths_routed_lsp self G source_node_name dest_node_name
                lsp needed_bw rest converted (Some c)
          end
      end
  end.

(** [get_shortest_path_for_routed_lsp]. The graph is built before [try]:
    what building it raises is not caught. *)
Definition get_shortest_path_for_routed_lsp (self : Model)
    (source_node_name dest_node_name : string) (lsp : RSVP_LSP.t) (needed_bw : Q)
    : res path_dict :=
  res_bind (_make_weighted_network_graph_routed_lsp self lsp needed_bw) (λ G,
  match all_shortest_paths G source_node_name dest_node_name with
  | inl _ => inr (mkPathDict None (ConvertedPaths []))
  | inr digraph_shortest_paths =>
      match convert_shortest_paths_routed_lsp self G source_node_name dest_node_name
              lsp needed_bw digraph_shortest_paths [] None with
      | (true, converted, cost) => inr (mkPathDict cost (ConvertedPaths converted))
      | (false, converted, cost) =>
          inr (mkPathDict cost (NormalizedPaths (_normalize_multidigraph_paths converted)))
      end
  end).

(** ** Adding interfaces from a list *)

(** One dict of [network_interfaces]: the six keys that are read, each
    present or not. The other keys of a dict, 'failed' among them, are not
    read. *)
Record interface_info := mk_interface_info {
  info_name : option string;
  info_cost : option Z;
  info_capacity : option Q;
  info_node : option string;
  info_remote_node : option string;
  info_circuit_id : option string
}.

(** [interface[key]]: KeyError when the dict has no such key. *)
Definition dict_get {A} (value : option A) : res A :=
  from_option inr (inl KeyError) value.

(** Modelled from the spec: [network_node_objects.add(Node(name))] and the
    union of two sets of nodes (pyNTM/node.py is not among the sources); a
    node is unique by its name, and a new node belongs to no SRLG. *)
Definition node_set_add (node : Node.t) (node_set : list Node.t) : list Node.t :=
  if bool_decide (Node.name node ∈ Node.name <$> node_set) then node_set
  else node_set ++ [node].

(** Modelled from the spec: [network_interface_objects.add(intf)] and the
    union of two sets of interfaces; two interfaces are equal when their
    keys are, and a set keeps the one it has. *)
Definition interface_set_add (interface : Interface.t) (interface_set : list Interface.t)
    : list Interface.t :=
  if bool_decide (interface_key interface ∈ interface_key <$> interface_set)
  then interface_set else interface_set ++ [interface].

(** The loop of [_make_network_interfaces], the two sets made so far being
    threaded through. *)
Fixpoint make_network_interfaces_loop (self : Model)
    (interface_info_list : list interface_info)
    (network_interface_objects : list Interface.t) (network_node_objects : list Node.t)
    : res (list Interface.t * list Node.t) :=
  match interface_info_list with
  | [] => inr (network_interface_objects, network_node_objects)
  | interface :: rest =>
      res_bind (dict_get (info_name interface)) (λ name,
      res_bind (dict_get (info_cost interface)) (λ cost,
      res_bind (dict_get (info_capacity interface)) (λ capacity,
      res_bind (dict_get (info_node interface)) (λ node,
      res_bind (dict_get (info_remote_node interface)) (λ remote_node,
      res_bind (dict_get (info_circuit_id interface)) (λ circuit_id,
      let intf := Interface_init name cost capacity node remote_node circuit_id in
      let network_interface_objects :=
        interface_set_add intf network_interface_objects in
      let node_names := Node.name <$> node_objects self in
      let network_node_objects :=
        if bool_decide (node ∉ node_names)
        then node_set_add (Node.mk node []) network_node_objects
        else network_node_objects in
      let network_node_objects :=
        if bool_decide (remote_node ∉ node_names)
        then node_set_add (Node.mk remote_node []) network_node_objects
        else network_node_objects in
      make_network_interfaces_loop self rest network_interface_objects
                                   network_node_objects))))))
  end.

Definition _make_network_interfaces (self : Model)
    (interface_info_list : list interface_info)
    : res (list Interface.t * list Node.t) :=
  make_network_interfaces_loop self interface_info_list [] [].

Definition set_node_objects (l : list Node.t) (m : Model) : Model :=
  mkModel (interface_objects m) l (demand_objects m) (rsvp_lsp_objects m)
          (circuit_objects m) (srlg_objects m) (_parallel_lsp_groups m).

(** [add_network_interfaces_from_list(network_interfaces)]. *)
Definition add_network_interfaces_from_list (network_interfaces : list interface_info)
    : M unit :=
  (self <- get ;;
   new <- lift (_make_network_interfaces self network_interfaces) ;;
   let new_interface_objects := new.1 in
   let new_node_objects := new.2 in
   modify (λ m, set_node_objects
                  (foldl (λ s n, node_set_add n s) (node_objects m) new_node_objects) m) ;;
   modify (λ m, set_interface_objects
                  (foldl (λ s i, interface_set_add i s) (interface_objects m)
                         new_interface_objects) m) ;;
   validate_model)%M.

(** ** The LSP placer on the numbers of the program

    The program holds the capacity, the percentage, the reserved bandwidth
    of an interface and the bandwidths of an LSP as Python floats, which
    are IEEE 754 binary64 numbers; a Python int that meets a float in an
    operation is first made the float of the same value. The definitions
    above take these numbers as exact rationals. [Doubles] is the placer
    once more, line for line, on binary64 numbers: each [+], [-], [*] and
    [/] rounds to the nearest binary64 number, as the program's does. What
    the placer takes from the graph search and from the path enumerator
    does not depend on the numbers and is shared. *)

Module Doubles.
Import PrimFloat.

Module Interface.
Record t := mk {
  name : string;
  cost : Z;
  capacity : float;
  node_object : string;
  remote_node_object : string;
  circuit_id : string;
  rsvp_enabled : bool;
  percent_reservable_bandwidth : float;
  failed : bool;
  reserved_bandwidth : float;
  traffic : float;
  in_ckt : bool
}.

Definition set_reserved_bandwidth (q : float) (i : t) : t :=
  mk (name i) (cost i) (capacity i) (node_object i) (remote_node_object i)
     (circuit_id i) (rsvp_enabled i) (percent_reservable_bandwidth i)
     (failed i) q (traffic i) (in_ckt i).

(** Modelled from the spec: the [reservable_bandwidth] property of class
    Interface (pyNTM/interface.py is not among the sources):
    capacity x percent_reservable_bandwidth / 100 - reserved_bandwidth. *)
Definition reservable_bandwidth (i : t) : float :=
  (capacity i * percent_reservable_bandwidth i / 100 - reserved_bandwidth i)%float.
End Interface.

(** A value that is either a number or the sentinel string ['Unrouted']. *)
Inductive bw_value :=
| BwUnrouted
| Bw (q : float).

Module RSVP_LSP.
Record t := mk {
  source_node_object : string;
  dest_node_object : string;
  lsp_name : string;
  configured_setup_bandwidth : option float;
  path : lsp_path;
  reserved_bandwidth : bw_value;
  setup_bandwidth : bw_value
}.

Definition set_path (p : lsp_path) (l : t) : t :=
  mk (source_node_object l) (dest_node_object l) (lsp_name l)
     (configured_setup_bandwidth l) p (reserved_bandwidth l) (setup_bandwidth l).

Definition set_reserved_bandwidth (b : bw_value) (l : t) : t :=
  mk (source_node_object l) (dest_node_object l) (lsp_name l)
     (configured_setup_bandwidth l) (path l) b (setup_bandwidth l).

Definition set_setup_bandwidth (b : bw_value) (l : t) : t :=
  mk (source_node_object l) (dest_node_object l) (lsp_name l)
     (configured_setup_bandwidth l) (path l) (reserved_bandwidth l) b.
End RSVP_LSP.

(** The stores of the model that the placer reads and writes. *)
Record Model := mkModel {
  interface_objects : list Interface.t;
  node_objects : list Node.t;
  rsvp_lsp_objects : list RSVP_LSP.t
}.

Definition set_interface_objects (l : list Interface.t) (m : Model) : Model :=
  mkModel l (node_objects m) (rsvp_lsp_objects m).

Definition set_rsvp_lsp_objects (l : list RSVP_LSP.t) (m : Model) : Model :=
  mkModel (interface_objects m) (node_objects m) l.

Definition edge_of (ki : nat * Interface.t) : Edge.t :=
  Edge.mk (Interface.node_object ki.2) (Interface.remote_node_object ki.2)
          (Interface.cost ki.2) ki.1 (Interface.circuit_id ki.2).

(** [_make_weighted_network_graph_mdg]; [interface.reservable_bandwidth >=
    needed_bw] is the comparison of two binary64 numbers. *)
Definition _make_weighted_network_graph_mdg (self : Model)
    (include_failed_circuits : bool) (needed_bw : float) (rsvp_required : bool)
    : MultiDiGraph :=
  let considered_interfaces :=
    if include_failed_circuits then
      filter (λ ki, leb needed_bw (Interface.reservable_bandwidth ki.2) = true)
             (enumerate (interface_objects self))
    else
      filter (λ ki, Interface.failed ki.2 = false ∧
                    leb needed_bw (Interface.reservable_bandwidth ki.2) = true)
             (enumerate (interface_objects self)) in
  let edge_names :=
    if rsvp_required then
      edge_of <$> filter (λ ki, Interface.rsvp_enabled ki.2 = true) considered_interfaces
    else
      edge_of <$> considered_interfaces in
  let G := add_edges_from edge_names (mkGraph [] []) in
  add_nodes_from (Node.name <$> node_objects self) G.

(** The monad of code that mutates the model and may raise. *)
Definition M (A : Type) : Type := Model → res A * Model.

Definition ret {A} (a : A) : M A := λ m, (inr a, m).

Definition bind {A B} (x : M A) (f : A → M B) : M B :=
  λ m, match x m with
       | (inl e, m') => (inl e, m')
       | (inr a, m') => f a m'
       end.

Definition raise {A} (e : exn) : M A := λ m, (inl e, m).

Definition get : M Model := λ m, (inr m, m).

Definition modify (f : Model → Model) : M unit := λ m, (inr tt, f m).

Definition lift {A} (r : res A) : M A := λ m, (r, m).

Declare Scope doubles_scope.
Delimit Scope doubles_scope with D.
Notation "x <- c ;; k" := (bind c (λ x, k))
  (at level 100, c at next level, right associativity) : doubles_scope.
Notation "c ;; k" := (bind c (λ _, k))
  (at level 100, k at level 200, right associativity) : doubles_scope.

Fixpoint for_each {A} (l : list A) (body : A → M unit) : M unit :=
  match l with
  | [] => ret tt
  | x :: l' => (body x ;; for_each l' body)%D
  end.

Definition read_lsp (k : nat) : M RSVP_LSP.t :=
  λ m, (from_option inr (inl DanglingReference) (rsvp_lsp_objects m !! k), m).

Definition update_interface (k : nat) (f : Interface.t → Interface.t) : M unit :=
  modify (λ m, set_interface_objects (alter f k (interface_objects m)) m).

Definition update_lsp (k : nat) (f : RSVP_LSP.t → RSVP_LSP.t) : M unit :=
  modify (λ m, set_rsvp_lsp_objects (alter f k (rsvp_lsp_objects m)) m).

(** Python's [min] keeps the item it holds unless the next one is less. *)
Definition min2 (x y : float) : float := if ltb y x then y else x.

(** [min(l)]: ValueError on the empty list. *)
Definition min_float (l : list float) : res float :=
  match l with
  | [] => inl ValueError
  | x :: l' => inr (foldl min2 x l')
  end.

(** [[interface.reservable_bandwidth for interface in path]]. *)
Definition reservable_bandwidths (ints : list Interface.t) (path : list nat)
    : res (list float) :=
  res_mapM (λ k, from_option (λ i, inr (Interface.reservable_bandwidth i))
                             (inl DanglingReference) (ints !! k)) path.

(** [min([...]) >= lsp.setup_bandwidth] for one candidate path. *)
Definition has_reservable_bw (ints : list Interface.t) (setup_bandwidth : float)
    (path : list nat) : res bool :=
  res_bind (reservable_bandwidths ints path) (λ bws,
  res_bind (min_float bws) (λ least, inr (leb setup_bandwidth least))).

(** The loop that fills [candidate_path_info_w_reservable_bw]. *)
Fixpoint candidates_w_reservable_bw (ints : list Interface.t)
    (setup_bandwidth : float) (candidate_path_info : list (list nat))
    : res (list (list nat)) :=
  match candidate_path_info with
  | [] => inr []
  | path :: rest =>
      res_bind (has_reservable_bw ints setup_bandwidth path) (λ ok,
      res_bind (candidates_w_reservable_bw ints setup_bandwidth rest) (λ tl,
      inr (if ok then path :: tl else tl)))
  end.

(** Modelled from the spec: [_add_lsp_path_data] (pyNTM/master_model.py is
    not among the sources) records the path on the LSP as
    [{interfaces: sequence, baseline_path_cost: sum of interface costs}]. *)
Definition _add_lsp_path_data (lsp : nat) (new_path : list nat) : M unit :=
  (self <- get ;;
   costs <- lift (res_mapM (λ k, from_option (λ i, inr (Interface.cost i))
                                    (inl DanglingReference)
                                    (interface_objects self !! k)) new_path) ;;
   update_lsp lsp (RSVP_LSP.set_path (LspRouted new_path (foldr Z.add 0%Z costs))))%D.

Definition mark_unrouted (lsp : nat) : M unit :=
  update_lsp lsp (λ l, RSVP_LSP.set_reserved_bandwidth BwUnrouted
                         (RSVP_LSP.set_path LspUnrouted l)).

(** [interface.reserved_bandwidth += lsp.reserved_bandwidth] for the
    interface of reference [k]: the sum is rounded. *)
Definition add_reservation (lsp : nat) (k : nat) : M unit :=
  (l <- read_lsp lsp ;;
   match RSVP_LSP.reserved_bandwidth l with
   | Bw q => update_interface k (λ i,
       Interface.set_reserved_bandwidth (Interface.reserved_bandwidth i + q)%float i)
   | BwUnrouted => raise TypeError
   end)%D.

(** The last loop of a round, over the interfaces of the path the LSP
    records. *)
Definition commit_reservation (lsp : nat) : M unit :=
  (l <- read_lsp lsp ;;
   match RSVP_LSP.path l with
   | LspRouted interfaces _ => for_each interfaces (add_reservation lsp)
   | LspEmptyDict => raise KeyError
   | LspUnrouted => raise TypeError
   end)%D.

(** The body of the loop of [_determine_lsp_state_info], for the LSP of
    reference [lsp]; [draw] is the number [random.choice] would draw. *)
Definition _determine_lsp_state_info_body (traff_on_each_group_lsp : float)
    (draw : nat) (lsp : nat) : M unit :=
  (l <- read_lsp lsp ;;
   let bw := match RSVP_LSP.configured_setup_bandwidth l with
             | None => traff_on_each_group_lsp
             | Some configured => configured
             end in
   update_lsp lsp (λ l, RSVP_LSP.set_setup_bandwidth (Bw bw)
                          (RSVP_LSP.set_reserved_bandwidth (Bw bw) l)) ;;
   self <- get ;;
   let G := _make_weighted_network_graph_mdg self false bw true in
   update_lsp lsp (RSVP_LSP.set_path LspEmptyDict) ;;
   match all_shortest_paths G (RSVP_LSP.source_node_object l)
                              (RSVP_LSP.dest_node_object l) with
   | inl NetworkXNoPath => mark_unrouted lsp
   | inl e => raise e
   | inr nx_sp =>
       all_paths <- lift (_get_all_paths_mdg G nx_sp) ;;
       let candidate_path_info := _normalize_multidigraph_paths all_paths in
       candidate_path_info_w_reservable_bw <-
         lift (candidates_w_reservable_bw (interface_objects self) bw
                                          candidate_path_info) ;;
       choice <- lift (choose_new_path draw candidate_path_info_w_reservable_bw) ;;
       match choice with
       | None => mark_unrouted lsp
       | Some new_path =>
           _add_lsp_path_data lsp new_path ;;
           commit_reservation lsp
       end
   end)%D.

(** [_determine_lsp_state_info(lsps, traff_on_each_group_lsp)]; [rnd] gives
    for each LSP the draw of its [random.choice], should it make one. *)
Definition _determine_lsp_state_info (rnd : nat → nat) (lsps : list nat)
    (traff_on_each_group_lsp : float) : M unit :=
  for_each lsps (λ lsp,
    _determine_lsp_state_info_body traff_on_each_group_lsp (rnd lsp) lsp).

(** The bound of an interface: capacity x percent_reservable_bandwidth /
    100, as the program computes it. *)
Definition max_reservable (i : Interface.t) : float :=
  (Interface.capacity i * Interface.percent_reservable_bandwidth i / 100)%float.

End Doubles.

(** * Definitions the properties are stated with

    The spec-side notions (what the spec calls a node-hop sequence, a local
    ECMP set, a reservation within bounds, ...), the states a run of the
    program goes through, and the concrete models the properties are tried
    on. *)

(** ** The multigraph *)

(** The interfaces the builder turns into edges. *)
Definition eligible (include_failed_circuits : bool) (needed_bw : Q)
    (rsvp_required : bool) (i : Interface.t) : Prop :=
  (include_failed_circuits = true ∨ Interface.failed i = false) ∧
  (needed_bw <= Interface.reservable_bandwidth i)%Q ∧
  (rsvp_required = false ∨ Interface.rsvp_enabled i = true).

#[global] Instance eligible_dec f bw r i : Decision (eligible f bw r i).
Proof.
  unfold eligible.
  destruct (Qlt_le_dec (Interface.reservable_bandwidth i) bw) as [Hlt|Hle].
  - right. intros (_ & Hle & _). by apply Qlt_not_le in Hlt.
  - destruct (decide ((f = true ∨ Interface.failed i = false) ∧
                      (r = false ∨ Interface.rsvp_enabled i = true))).
    + left. tauto.
    + right. tauto.
Defined.

(** ** Path enumerator *)

(** The pairs of adjacent nodes of a node-hop sequence. *)
Definition adjacent_pairs (p : list string) : list (string * string) :=
  zip p (tail p).

(** A node-hop sequence of [G]: at least one node, and an edge of [G] from
    each node to the next. *)
Definition node_hop_sequence (G : MultiDiGraph) (p : list string) : Prop :=
  p ≠ [] ∧ Forall (λ ab, edges_between G ab.1 ab.2 ≠ []) (adjacent_pairs p).

(** Following the words of the spec (section 4.2): the local ECMP set of a
    hop, the edges from [a] to [b] whose cost equals the minimum cost among
    the edges between that pair, each given by its interface. *)
Definition local_ecmp_set (G : MultiDiGraph) (a b : string) : list nat :=
  Edge.interface
    <$> filter (λ e, Forall (λ e', (Edge.cost e ≤ Edge.cost e')%Z) (edges_between G a b))
               (edges_between G a b).

(** Following the words of the spec (section 4.2): the Cartesian product
    across the hops of each sequence, flattened over the sequences. *)
Definition enumerated_paths_spec (G : MultiDiGraph) (nx_sp : list (list string))
    : list (list nat) :=
  p ← nx_sp; product ((λ ab, local_ecmp_set G ab.1 ab.2) <$> adjacent_pairs p).

(** A network with two parallel A-B links of equal cost and one dearer. *)
Definition G_parallel : MultiDiGraph :=
  mkGraph ["A"; "B"; "C"]%string
    [Edge.mk "A" "B" 10 0 "1"; Edge.mk "A" "B" 10 1 "2"; Edge.mk "A" "B" 20 2 "3";
     Edge.mk "B" "C" 5 3 "4"]%string.

(** ** LSP placer: what one round of the loop does *)

(** The setup bandwidth an LSP asks for. *)
Definition setup_bandwidth_of (traff_on_each_group_lsp : Q) (l : RSVP_LSP.t) : Q :=
  match RSVP_LSP.configured_setup_bandwidth l with
  | None => traff_on_each_group_lsp
  | Some configured => configured
  end.

(** The model once the round has set the bandwidths of the LSP and has
    emptied its path. *)
Definition begin_placement (lsp : nat) (bw : Q) (m : Model) : Model :=
  set_rsvp_lsp_objects
    (alter (RSVP_LSP.set_path LspEmptyDict) lsp
       (alter (λ l, RSVP_LSP.set_setup_bandwidth (Bw bw)
                      (RSVP_LSP.set_reserved_bandwidth (Bw bw) l)) lsp
          (rsvp_lsp_objects m))) m.

Definition unrouted_state (lsp : nat) (m : Model) : Model :=
  set_rsvp_lsp_objects
    (alter (λ l, RSVP_LSP.set_reserved_bandwidth BwUnrouted
                   (RSVP_LSP.set_path LspUnrouted l)) lsp (rsvp_lsp_objects m)) m.

(** The interface store after [bw] has been added to the reservation of
    each interface of [path], one after the other. *)
Definition reserve (bw : Q) (path : list nat) (ints : list Interface.t)
    : list Interface.t :=
  foldl (λ ints k,
    alter (λ i, Interface.set_reserved_bandwidth
                  (Interface.reserved_bandwidth i + bw)%Q i) k ints) ints path.

Definition routed_state (lsp : nat) (path : list nat) (cost : Z) (bw : Q)
    (m : Model) : Model :=
  set_interface_objects (reserve bw path (interface_objects m))
    (set_rsvp_lsp_objects
       (alter (RSVP_LSP.set_path (LspRouted path cost)) lsp (rsvp_lsp_objects m)) m).

(** The candidate paths with enough reservable bandwidth of an LSP that
    asks for [bw] from [s] to [d]; [None] when the search finds no path. *)
Definition lsp_candidates (m : Model) (bw : Q) (s d : string)
    : res (option (list (list nat))) :=
  let G := _make_weighted_network_graph_mdg m false bw true in
  match all_shortest_paths G s d with
  | inl NetworkXNoPath => inr None
  | inl e => inl e
  | inr nx_sp =>
      res_bind (_get_all_paths_mdg G nx_sp) (λ all_paths,
      res_bind (candidates_w_reservable_bw (interface_objects m) bw
                  (_normalize_multidigraph_paths all_paths)) (λ cands,
      inr (Some cands)))
  end.

Definition path_cost (ints : list Interface.t) (path : list nat) : res Z :=
  res_bind (res_mapM (λ k, from_option (λ i, inr (Interface.cost i))
                             (inl DanglingReference) (ints !! k)) path)
           (λ costs, inr (foldr Z.add 0%Z costs)).

(** Two parallel circuits between A and B, of equal cost, and an LSP from A
    to B. *)
Definition interface_AB (name : string) (node remote : string) (cost : Z)
    (capacity : Q) (circuit_id : string) : Interface.t :=
  Interface.mk name cost capacity node remote circuit_id true 100 false 0 0 false.

Definition lsp_AB : RSVP_LSP.t :=
  RSVP_LSP.mk "A" "B" "lsp_a_b_1" (Some 10%Q) LspUnrouted BwUnrouted BwUnrouted.

Definition net_parallel : Model :=
  mkModel
    [interface_AB "A-to-B_1" "A" "B" 10 100 "1"; interface_AB "B-to-A_1" "B" "A" 10 100 "1";
     interface_AB "A-to-B_2" "A" "B" 10 50 "2"; interface_AB "B-to-A_2" "B" "A" 10 50 "2"]
    [Node.mk "A" []; Node.mk "B" []]
    [Demand.mk "A" "B" 60 "dmd_a_b_1" DemandUnrouted]
    [lsp_AB] [] [] [].

(** ** The shortest-path search *)

Definition from_to (s d : string) (p : list string) : Prop :=
  head p = Some s ∧ last p = Some d.

(** No node-hop sequence of [G] leads from [s] to [d]. *)
Definition no_path (G : MultiDiGraph) (s d : string) : Prop :=
  ∀ p, node_hop_sequence G p → ¬ from_to s d p.

(** The circuit A-B with its A side failed: nothing leaves A. *)
Definition net_A_side_failed : Model :=
  mkModel
    [Interface.mk "A-to-B" 10 100 "A" "B" "1" true 100 true 0 0 false;
     Interface.mk "B-to-A" 10 100 "B" "A" "1" true 100 false 0 0 false]
    [Node.mk "A" []; Node.mk "B" []] [] [] [] [] [].

(** ** Model-file loader *)

(** A stand-in for [find_end_index]: the index of the first empty line
    after [start], if any. *)
Definition find_end_index_blank (start : nat) (lines : list string) : option nat :=
  fst <$> list_find (λ kl, start < kl.1 ∧ kl.2 = ""%string) (enumerate lines).

(** A stand-in for [int] on a word of decimal digits. *)
Definition parse_decimal (word : string) : option Z :=
  Z.of_uint <$> DecimalString.NilEmpty.uint_of_string word.

Definition parse_decimal_Q (word : string) : option Q :=
  inject_Z <$> parse_decimal word.

(** A stand-in for the rest of the loader: no node, demand or LSP table. *)
Definition load_no_other_table (ifs : list Interface.t) (ns : list Node.t)
    (end_index : option nat) (lines : list string) : res Model :=
  inr (mkModel ifs ns [] [] [] [] []).

(** A file whose circuit_id 2 appears once and whose circuit_id 3 appears
    three times. *)
Definition file_bad_circuit_ids : list string :=
  ["INTERFACES_TABLE";
   "node_object_name remote_node_object_name name cost capacity circuit_id";
   "A B A-to-B_1 20 120 1";
   "B A B-to-A_1 20 120 1";
   "A B A-to-B_2 20 150 2";
   "A C A-to-C 10 200 3";
   "C A C-to-A 10 200 3";
   "C B C-to-B 10 200 3";
   "";
   "NODES_TABLE"]%string.

(** A file in which every circuit_id appears twice and one interface line
    lacks its last three fields. *)
Definition file_short_line : list string :=
  ["INTERFACES_TABLE";
   "node_object_name remote_node_object_name name cost capacity circuit_id";
   "A B A-to-B_1 20 120 1";
   "B A B-to-A_1 20 120 1";
   "A C A-to-C";
   "";
   "NODES_TABLE"]%string.

(** ** Demand router *)

(** Rounds that only add traffic to interfaces never raise and leave the
    demands and the LSPs as they are. *)
Definition only_interfaces_changed (m m' : Model) : Prop :=
  node_objects m' = node_objects m ∧ demand_objects m' = demand_objects m ∧
  rsvp_lsp_objects m' = rsvp_lsp_objects m ∧ circuit_objects m' = circuit_objects m ∧
  srlg_objects m' = srlg_objects m ∧ _parallel_lsp_groups m' = _parallel_lsp_groups m.

Definition quiet (c : M unit) : Prop :=
  ∀ m, (c m).1 = inr tt ∧ only_interfaces_changed m (c m).2.

(** The path [_route_demands] gives a demand: the routed LSPs between its
    endpoints if there are any, and otherwise the normalized interface
    sequences of all the min-cost node-hop paths of [G], or the sentinel
    when the search finds no path. An LSP is routed when its path is not
    the sentinel ['Unrouted']. *)
Definition demand_path_of (G : MultiDiGraph) (lsps : list RSVP_LSP.t) (d : Demand.t)
    : demand_path :=
  match lsps_for_demand lsps d with
  | [] =>
      match all_shortest_paths G (Demand.source_node_object d)
                                 (Demand.dest_node_object d) with
      | inr nx_sp => DemandRouted (ViaInterfaces <$> enumerated_paths_spec G nx_sp)
      | inl _ => DemandUnrouted
      end
  | carried => DemandRouted (ViaLsp <$> carried)
  end.

(** The model after the demand of reference [k] has been given its path. *)
Definition demands_routed (G : MultiDiGraph) (m : Model) (done : list nat)
    (x : Model) : Prop :=
  interface_objects x = interface_objects m ∧ node_objects x = node_objects m ∧
  rsvp_lsp_objects x = rsvp_lsp_objects m ∧ circuit_objects x = circuit_objects m ∧
  srlg_objects x = srlg_objects m ∧ _parallel_lsp_groups x = _parallel_lsp_groups m ∧
  ∀ j, demand_objects x !! j
       = if decide (j ∈ done)
         then (λ d, Demand.set_path (demand_path_of G (rsvp_lsp_objects m) d) d)
                <$> demand_objects m !! j
         else demand_objects m !! j.

(** ** Validator *)

(** An interface A-to-B without counterpart, in a model with two nodes
    named A. *)
Definition net_orphan : Model :=
  mkModel
    [interface_AB "A-to-B" "A" "B" 10 100 "1"]
    [Node.mk "A" []; Node.mk "B" []; Node.mk "A" ["srlg_1"]] [] [] [] [] [].

(** ** Reservations stay within the reservable bandwidth *)

(** Preservation of a property of the model by code that may raise: the
    property holds of the model the code leaves, raised or not. *)
Definition preserves (P : Model → Prop) {A} (c : M A) : Prop :=
  ∀ m, P m → P (c m).2.

(** The bound of the claim, for one interface and for the whole model. *)
Definition within_reservable (i : Interface.t) : Prop :=
  (Interface.reserved_bandwidth i
   <= Interface.capacity i * Interface.percent_reservable_bandwidth i / 100)%Q.

Definition reservations_bounded (m : Model) : Prop :=
  Forall within_reservable (interface_objects m).

(** Every interface of [path] has at least [bw] of reservable bandwidth. *)
Definition enough_reservable_bw (ints : list Interface.t) (bw : Q) (path : list nat)
    : Prop :=
  Forall (λ k, ∃ i, ints !! k = Some i ∧ (bw <= Interface.reservable_bandwidth i)%Q) path.

(** The model after the resets that open [update_simulation]. *)
Definition reset_state (m : Model) : Model :=
  set_demand_objects (Demand.set_path DemandUnrouted <$> demand_objects m)
    (set_rsvp_lsp_objects (RSVP_LSP.set_path LspUnrouted <$> rsvp_lsp_objects m)
       (set_interface_objects (reset_interface <$> interface_objects m)
          (set_parallel_lsp_groups [] m))).

(** ** A tick does not depend on the tick before *)

(** What a tick never writes: the declaration of the model. *)
Definition static_interface (i : Interface.t) : Interface.t :=
  Interface.set_in_ckt false (reset_interface i).

Definition static_lsp (l : RSVP_LSP.t) : RSVP_LSP.t :=
  RSVP_LSP.set_setup_bandwidth BwUnrouted
    (RSVP_LSP.set_reserved_bandwidth BwUnrouted (RSVP_LSP.set_path LspUnrouted l)).

Definition static_demand (d : Demand.t) : Demand.t :=
  Demand.set_path DemandUnrouted d.

Record same_declaration (m0 m : Model) : Prop := {
  decl_interfaces :
    static_interface <$> interface_objects m = static_interface <$> interface_objects m0;
  decl_nodes : node_objects m = node_objects m0;
  decl_demands :
    static_demand <$> demand_objects m = static_demand <$> demand_objects m0;
  decl_lsps : static_lsp <$> rsvp_lsp_objects m = static_lsp <$> rsvp_lsp_objects m0;
  decl_srlgs : srlg_objects m = srlg_objects m0
}.

(** What a tick reads before it writes it: an interface without its
    [in_ckt] mark, an LSP without its bandwidths. *)
Definition core_interface (i : Interface.t) : Interface.t :=
  Interface.set_in_ckt false i.

Definition core_lsp (l : RSVP_LSP.t) : RSVP_LSP.t :=
  RSVP_LSP.set_setup_bandwidth BwUnrouted
    (RSVP_LSP.set_reserved_bandwidth BwUnrouted l).

Definition lsp_bw (l : RSVP_LSP.t) : bw_value * bw_value :=
  (RSVP_LSP.reserved_bandwidth l, RSVP_LSP.setup_bandwidth l).

(** ** An LSP from a node to that same node *)

Definition lsp_AA : RSVP_LSP.t :=
  RSVP_LSP.mk "A" "A" "lsp_a_a" None LspUnrouted BwUnrouted BwUnrouted.

Definition net_self_lsp : Model :=
  mkModel
    [interface_AB "A-to-B" "A" "B" 10 100 "1"; interface_AB "B-to-A" "B" "A" 10 100 "1"]
    [Node.mk "A" []; Node.mk "B" []] [] [lsp_AA] [] [] [].

(** ** The search finds a path whenever there is one *)

(** The graphs in which every edge runs between two vertices, as networkx
    has them: [add_edge] adds the end nodes it does not find. *)
Definition endpoints_are_nodes (G : MultiDiGraph) : Prop :=
  ∀ e, e ∈ g_edges G → Edge.u e ∈ g_nodes G ∧ Edge.v e ∈ g_nodes G.

(** ** Two runs side by side *)

Section CoherenceRelation.

(** Two runs of the same code, one from [a] and one from [b], two models
    that differ at most in what a tick reads only after it has written it
    (the bandwidths of the LSPs, the [in_ckt] marks, the circuits). The
    models [x] and [y] the runs have reached are coherent when they agree
    on everything else and, for each of those three, either agree on it or
    still hold what [a] and [b] held. *)

Variables a b : Model.

Definition bw_coherent (x y : Model) (k : nat) : Prop :=
  lsp_bw <$> rsvp_lsp_objects x !! k = lsp_bw <$> rsvp_lsp_objects y !! k ∨
  (lsp_bw <$> rsvp_lsp_objects x !! k = lsp_bw <$> rsvp_lsp_objects a !! k ∧
   lsp_bw <$> rsvp_lsp_objects y !! k = lsp_bw <$> rsvp_lsp_objects b !! k ∧
   ∀ l, rsvp_lsp_objects x !! k = Some l → RSVP_LSP.path l = LspUnrouted).

Record coherent (x y : Model) : Prop := {
  coh_interfaces :
    core_interface <$> interface_objects x = core_interface <$> interface_objects y;
  coh_nodes : node_objects x = node_objects y;
  coh_demands : demand_objects x = demand_objects y;
  coh_lsps : core_lsp <$> rsvp_lsp_objects x = core_lsp <$> rsvp_lsp_objects y;
  coh_srlgs : srlg_objects x = srlg_objects y;
  coh_groups : _parallel_lsp_groups x = _parallel_lsp_groups y;
  coh_bw : ∀ k, bw_coherent x y k;
  coh_in_ckt :
    Interface.in_ckt <$> interface_objects x = Interface.in_ckt <$> interface_objects y ∨
    (Interface.in_ckt <$> interface_objects x = Interface.in_ckt <$> interface_objects a ∧
     Interface.in_ckt <$> interface_objects y = Interface.in_ckt <$> interface_objects b);
  coh_circuits :
    circuit_objects x = circuit_objects y ∨
    (circuit_objects x = circuit_objects a ∧ circuit_objects y = circuit_objects b)
}.

(** The two runs of [c] end alike, and in coherent models. *)
Definition sim {A} (c : M A) : Prop :=
  ∀ x y, coherent x y → (c x).1 = (c y).1 ∧ coherent (c x).2 (c y).2.

End CoherenceRelation.

(** ** Path enumerator: when it raises *)

#[global] Instance node_hop_sequence_dec G p : Decision (node_hop_sequence G p).
Proof. unfold node_hop_sequence. apply _. Defined.

(** ** Interface sequences *)

(** A sequence of interfaces that leads from node [s] to node [d]: each
    interface leaves the node the one before it reaches. *)
Fixpoint interface_chain (ints : list Interface.t) (s d : string)
    (path : list nat) : Prop :=
  match path with
  | [] => s = d
  | k :: path' =>
      ∃ i, ints !! k = Some i ∧ Interface.node_object i = s ∧
           interface_chain ints (Interface.remote_node_object i) d path'
  end.

(** ** The paths the LSPs record *)

(** An interface without what demand routing and validation write on it:
    its traffic and its [in_ckt] mark. *)
Definition routing_interface (i : Interface.t) : Interface.t :=
  Interface.set_in_ckt false (Interface.set_traffic 0 i).

(** What LSP placement writes: the LSPs, and the interfaces up to their
    traffic and [in_ckt] mark. *)
Definition routing_view (m : Model) : list RSVP_LSP.t * list Interface.t :=
  (rsvp_lsp_objects m, routing_interface <$> interface_objects m).

(** The record of a routed LSP is sound: its interfaces lead from the
    source node of the LSP to its destination node, none is taken twice,
    failed or closed to RSVP, the recorded cost is the sum of their costs,
    and the LSP reserves the bandwidth it was set up with. *)
Definition sound_lsp_path (ints : list Interface.t) (l : RSVP_LSP.t) : Prop :=
  match RSVP_LSP.path l with
  | LspRouted p c =>
      interface_chain ints (RSVP_LSP.source_node_object l)
                      (RSVP_LSP.dest_node_object l) p ∧
      NoDup p ∧
      Forall (λ j, ∃ i, ints !! j = Some i ∧ Interface.failed i = false ∧
                        Interface.rsvp_enabled i = true) p ∧
      path_cost ints p = inr c ∧
      ∃ bw, RSVP_LSP.reserved_bandwidth l = Bw bw ∧ RSVP_LSP.setup_bandwidth l = Bw bw
  | _ => True
  end.

Definition routed_lsps_sound (m : Model) : Prop :=
  Forall (sound_lsp_path (interface_objects m)) (rsvp_lsp_objects m).

(** ** Reservation accounting *)

(** What an LSP reserves on the interface of reference [k]: its reserved
    bandwidth if it records the interface in its path, nothing otherwise. *)
Definition contribution (k : nat) (l : RSVP_LSP.t) : Q :=
  if decide (lsp_transits k l) then lsp_reservation l else 0%Q.

(** Every interface is reserved what the LSPs routed over it reserve
    together. *)
Definition reservations_accounted (m : Model) : Prop :=
  ∀ k i, interface_objects m !! k = Some i →
         Interface.reserved_bandwidth i == Qsum (contribution k <$> rsvp_lsp_objects m).

(** An LSP that is routed over no interface. *)
Definition unplaced (l : RSVP_LSP.t) : Prop := ∀ j, ¬ lsp_transits j l.

(** The state of LSP placement while the LSPs of [todo] wait for their
    round. *)
Definition accounting (todo : list nat) (m : Model) : Prop :=
  reservations_accounted m ∧
  ∀ k l, k ∈ todo → rsvp_lsp_objects m !! k = Some l → unplaced l.

(** ** Circuits *)

(** The interfaces from node [u] to node [v] with circuit_id [cid], by
    reference: what [get_interface_object_from_nodes] collects when it is
    given a circuit_id. *)
Definition matching_interfaces (ints : list Interface.t) (u v cid : string)
    : list nat :=
  fst <$> filter (λ ki,
            Interface.node_object ki.2 = u ∧
            Interface.remote_node_object ki.2 = v ∧
            Interface.circuit_id ki.2 = cid) (enumerate ints).

(** The interface [b] is the counterpart of the interface [a]: [a] is the
    only interface of its node pair with its circuit_id, and [b] the only
    one that runs the other way with that circuit_id. *)
Definition counterpart (ints : list Interface.t) (a b : nat) : Prop :=
  ∃ i, ints !! a = Some i ∧
       matching_interfaces ints (Interface.node_object i)
         (Interface.remote_node_object i) (Interface.circuit_id i) = [a] ∧
       matching_interfaces ints (Interface.remote_node_object i)
         (Interface.node_object i) (Interface.circuit_id i) = [b].

(** The interfaces of a circuit; one interface when the circuit pairs an
    interface with itself. *)
Definition ckt_members (c : Circuit) : list nat := remove_dups [ckt_a c; ckt_b c].

Definition circuit_members (circuits : list Circuit) : list nat :=
  concat (ckt_members <$> circuits).

(** The state of the pairing loop of [_make_circuits_multidigraph]: the
    interfaces marked [in_ckt] are those of the circuits made so far, each
    circuit pairs an interface with its counterpart, and no interface is in
    two circuits. *)
Definition pairing (ints : list Interface.t) (circuits : list Circuit) : Prop :=
  (∀ k i, ints !! k = Some i →
          (Interface.in_ckt i = true ↔ k ∈ circuit_members circuits)) ∧
  (∀ c, c ∈ circuits → counterpart ints (ckt_a c) (ckt_b c)) ∧
  NoDup (circuit_members circuits).

(** The edge [e] is the edge of the interface it refers to. *)
Definition edge_from (ints : list Interface.t) (e : Edge.t) : Prop :=
  ∃ i, ints !! Edge.interface e = Some i ∧
       Edge.u e = Interface.node_object i ∧ Edge.v e = Interface.remote_node_object i ∧
       Edge.circuit_id e = Interface.circuit_id i.

(** ** The interfaces table of a model file *)

(** A line of the interfaces table that [_extract_interface_data_and_implied_nodes]
    reads without raising: six to eight fields, of which the fourth and the
    fifth are read by [int] and the eighth, when there is one, by [float]. *)
Definition well_formed_line (parse_int : string → option Z)
    (parse_float : string → option Q) (line : string) : Prop :=
  let words := split line in
  6 ≤ length words ≤ 8 ∧
  is_Some (words !! 3 ≫= parse_int) ∧
  is_Some (words !! 4 ≫= parse_int) ∧
  (∀ word, words !! 7 = Some word → is_Some (parse_float word)).

(** A file of two circuits between the nodes A and B, the second with
    RSVP disabled on one side and half of the capacity reservable on the
    other. *)
Definition file_two_circuits : list string :=
  ["INTERFACES_TABLE";
   "node_object_name remote_node_object_name name cost capacity circuit_id";
   "A B A-to-B_1 20 120 1";
   "B A B-to-A_1 20 120 1";
   "A B A-to-B_2 20 150 2 False";
   "B A B-to-A_2 20 150 2 True 50";
   "";
   "NODES_TABLE"]%string.

(** How many of the interfaces carry the circuit_id. *)
Definition interfaces_of_circuit_id (circuit_id : string) (ifs : list Interface.t) : nat :=
  length (filter (λ i, Interface.circuit_id i = circuit_id) ifs).

(** ** Path queries *)

(** Interface [k] leads from the first node of the pair to the second and
    has at least [needed_bw] of reservable bandwidth: what
    [_convert_nx_path_to_model_path] keeps for a hop. *)
Definition carries (ints : list Interface.t) (needed_bw : Q)
    (k : nat) (ab : string * string) : Prop :=
  ∃ i, ints !! k = Some i ∧
       Interface.node_object i = ab.1 ∧ Interface.remote_node_object i = ab.2 ∧
       (needed_bw <= Interface.reservable_bandwidth i)%Q.

(** Two parallel interfaces from A to B, the cheaper one failed, and the
    interface back. *)
Definition net_failed_parallel : Model :=
  mkModel
    [Interface.mk "A-to-B_1" 5 100 "A" "B" "1" true 100 true 0 0 false;
     Interface.mk "A-to-B_2" 10 100 "A" "B" "2" true 100 false 0 0 false;
     Interface.mk "B-to-A_2" 10 100 "B" "A" "2" true 100 false 0 0 false]
    [Node.mk "A" []; Node.mk "B" []] [] [] [] [] [].

(** ** Adding a circuit *)

(** The nodes A and B, not yet joined. *)
Definition net_two_nodes : Model :=
  mkModel [] [Node.mk "A" []; Node.mk "B" []] [] [] [] [] [].

(** The nodes A and B with an interface from A to B that has no interface
    back. *)
Definition net_one_way : Model :=
  mkModel [Interface.mk "A-to-B" 10 100 "A" "B" "1" true 100 false 0 0 false]
          [Node.mk "A" []; Node.mk "B" []] [] [] [] [] [].

(** ** Path query for an LSP that is routed *)

#[global] Instance Qle_decision (x y : Q) : Decision (x <= y)%Q.
Proof.
  destruct (Qlt_le_dec y x) as [Hlt|Hle]; [right|by left].
  by apply Qlt_not_le.
Defined.

(** The interfaces from node [a] to node [b], by reference, in the order of
    the store. *)
Definition interfaces_between (ints : list Interface.t) (a b : string) : list nat :=
  fst <$> filter (λ ki, Interface.node_object ki.2 = a ∧
                        Interface.remote_node_object ki.2 = b) (enumerate ints).

(** What [_convert_nx_path_to_model_path_routed_lsp] keeps: an interface of
    the path of the LSP that has [needed_bw] once the reservation of the
    LSP is given back, or any interface that has [needed_bw] as it is. *)
Definition qualifies (ints : list Interface.t) (path_interfaces : list nat)
    (reserved needed_bw : Q) (k : nat) : Prop :=
  match ints !! k with
  | Some i =>
      (k ∈ path_interfaces ∧
       (needed_bw <= Interface.reservable_bandwidth i + reserved)%Q) ∨
      (needed_bw <= Interface.reservable_bandwidth i)%Q
  | None => False
  end.

#[global] Instance qualifies_dec ints path_interfaces reserved needed_bw k :
  Decision (qualifies ints path_interfaces reserved needed_bw k).
Proof. unfold qualifies. destruct (ints !! k); apply _. Defined.

Definition qualifying_interfaces (ints : list Interface.t) (path_interfaces : list nat)
    (reserved needed_bw : Q) (ab : string * string) : list nat :=
  filter (qualifies ints path_interfaces reserved needed_bw)
         (interfaces_between ints ab.1 ab.2).

(** What [_make_weighted_network_graph_routed_lsp] turns into an edge: an
    interface that is not failed, has RSVP enabled and has [needed_bw],
    the reservation of the LSP being given back on the interfaces of its
    path. *)
Definition admitted_for_lsp (path_interfaces : list nat) (reserved needed_bw : Q)
    (ki : nat * Interface.t) : Prop :=
  Interface.failed ki.2 = false ∧ Interface.rsvp_enabled ki.2 = true ∧
  (needed_bw <= (if decide (ki.1 ∈ path_interfaces)
                 then Interface.reservable_bandwidth ki.2 + reserved
                 else Interface.reservable_bandwidth ki.2))%Q.

(** The triangle A-B, B-C, A-C, one interface each way, with an LSP from A
    to C that holds 80 of the 100 of the interface A-to-C. *)
Definition net_triangle : Model :=
  mkModel
    [Interface.mk "A-to-C" 10 100 "A" "C" "1" true 100 false 80 0 true;
     Interface.mk "C-to-A" 10 100 "C" "A" "1" true 100 false 0 0 true;
     Interface.mk "A-to-B" 10 100 "A" "B" "2" true 100 false 0 0 true;
     Interface.mk "B-to-A" 10 100 "B" "A" "2" true 100 false 0 0 true;
     Interface.mk "B-to-C" 10 100 "B" "C" "3" true 100 false 0 0 true;
     Interface.mk "C-to-B" 10 100 "C" "B" "3" true 100 false 0 0 true]
    [Node.mk "A" []; Node.mk "B" []; Node.mk "C" []] []
    [RSVP_LSP.mk "A" "C" "lsp_a_c" None (LspRouted [0] 10) (Bw 80) (Bw 80)]
    [] [] [].

Definition lsp_a_c : RSVP_LSP.t :=
  RSVP_LSP.mk "A" "C" "lsp_a_c" None (LspRouted [0] 10) (Bw 80) (Bw 80).

(** ** Demand router: when it raises *)

(** A demand that no routed LSP can carry and whose source is no node of
    the graph: the search for its path raises NodeNotFound, which
    [_route_demands] does not catch. *)
Definition stranded (G : MultiDiGraph) (lsps : list RSVP_LSP.t) (d : Demand.t) : Prop :=
  lsps_for_demand lsps d = [] ∧ Demand.source_node_object d ∉ g_nodes G.

#[global] Instance stranded_dec G lsps d : Decision (stranded G lsps d).
Proof. unfold stranded. apply _. Defined.

(** A demand from a node X that the model does not have, after a demand
    between its nodes A and B. *)
Definition net_stray_demand : Model :=
  mkModel
    [Interface.mk "A-to-B" 10 100 "A" "B" "1" true 100 false 0 0 false;
     Interface.mk "B-to-A" 10 100 "B" "A" "1" true 100 false 0 0 false]
    [Node.mk "A" []; Node.mk "B" []]
    [Demand.mk "A" "B" 10 "dmd_a_b" DemandUnrouted;
     Demand.mk "X" "B" 10 "dmd_x_b" DemandUnrouted;
     Demand.mk "B" "A" 10 "dmd_b_a" DemandUnrouted]
    [] [] [] [].

(** ** LSP placer: when a round raises *)

(** An LSP from a name X that the model does not have. *)
Definition net_stray_lsp : Model :=
  mkModel
    [interface_AB "A-to-B" "A" "B" 10 100 "1"; interface_AB "B-to-A" "B" "A" 10 100 "1"]
    [Node.mk "A" []; Node.mk "B" []] []
    [RSVP_LSP.mk "X" "B" "lsp_x_b" (Some 10%Q) LspUnrouted BwUnrouted BwUnrouted]
    [] [] [].

(** ** Adding interfaces from a list *)

(** A dict with the six keys that are read. *)
Definition complete_info (info : interface_info) : Prop :=
  is_Some (info_name info) ∧ is_Some (info_cost info) ∧ is_Some (info_capacity info) ∧
  is_Some (info_node info) ∧ is_Some (info_remote_node info) ∧
  is_Some (info_circuit_id info).

#[global] Instance complete_info_dec info : Decision (complete_info info).
Proof. unfold complete_info. apply _. Defined.

(** The interface a complete dict describes. *)
Definition describes (info : interface_info) (i : Interface.t) : Prop :=
  ∃ name cost capacity node remote_node circuit_id,
    info_name info = Some name ∧ info_cost info = Some cost ∧
    info_capacity info = Some capacity ∧ info_node info = Some node ∧
    info_remote_node info = Some remote_node ∧ info_circuit_id info = Some circuit_id ∧
    i = Interface_init name cost capacity node remote_node circuit_id.

(** Two dicts for a link between B and a node C that the model
    [net_one_way] does not have. *)
Definition infos_B_C : list interface_info :=
  [mk_interface_info (Some "B-to-C") (Some 10%Z) (Some 100%Q) (Some "B") (Some "C")
                     (Some "2");
   mk_interface_info (Some "C-to-B") (Some 10%Z) (Some 100%Q) (Some "C") (Some "B")
                     (Some "2")]%string.

(** ** LSP placer: the numbers of the program *)

Section Rounding.
Import PrimFloat.

Definition four_hundredths : float := (4 / 100)%float.

Definition seven_hundredths : float := (7 / 100)%float.

(** One circuit between A and B whose interfaces have capacity 1 and may
    reserve 11 percent of it, and two LSPs from A to B configured with the
    setup bandwidths 0.04 and 0.07, which are the binary64 numbers 4 / 100
    and 7 / 100. Nothing is reserved yet, as at the start of a simulation
    tick. *)
Definition net_rounding : Doubles.Model :=
  Doubles.mkModel
    [Doubles.Interface.mk "A-to-B" 10 1 "A" "B" "1" true 11 false 0 0 false;
     Doubles.Interface.mk "B-to-A" 10 1 "B" "A" "1" true 11 false 0 0 false]
    [Node.mk "A" []; Node.mk "B" []]
    [Doubles.RSVP_LSP.mk "A" "B" "lsp_1" (Some four_hundredths)
                         LspUnrouted Doubles.BwUnrouted Doubles.BwUnrouted;
     Doubles.RSVP_LSP.mk "A" "B" "lsp_2" (Some seven_hundredths)
                         LspUnrouted Doubles.BwUnrouted Doubles.BwUnrouted].

(** [interface.reserved_bandwidth > capacity x percent_reservable_bandwidth
    / 100] on the numbers of the program. *)
Definition over_reserved (i : Doubles.Interface.t) : bool :=
  ltb (Doubles.max_reservable i) (Doubles.Interface.reserved_bandwidth i).

(** The bound with the quotient taken before the product. *)
Definition max_reservable_quotient_first (i : Doubles.Interface.t) : float :=
  (Doubles.Interface.capacity i
   * (Doubles.Interface.percent_reservable_bandwidth i / 100))%float.

(** The interface of a path has at least the bandwidth [bw] left. *)
Definition has_room (bw : float) (i : Doubles.Interface.t) : bool :=
  leb bw (Doubles.Interface.reservable_bandwidth i).

End Rounding.

(** * Properties *)

(** ** Stores and references *)

Lemma enumerate_app {A} (l1 l2 : list A) :
  enumerate (l1 ++ l2) = enumerate l1 ++ ((λ ki, (length l1 + ki.1, ki.2)) <$> enumerate l2).
Proof.
  unfold enumerate. rewrite imap_app. f_equal.
  rewrite fmap_imap. apply imap_ext. intros; reflexivity.
Qed.

Lemma enumerate_snoc {A} (l : list A) (x : A) :
  enumerate (l ++ [x]) = enumerate l ++ [(length l, x)].
Proof.
  rewrite enumerate_app. simpl. do 3 f_equal. lia.
Qed.

Lemma elem_of_enumerate {A} (l : list A) (k : nat) (x : A) :
  (k, x) ∈ enumerate l ↔ l !! k = Some x.
Proof.
  unfold enumerate. rewrite elem_of_lookup_imap. split.
  - intros (i & y & Heq & Hl). by simplify_eq.
  - intros Hl. by exists k, x.
Qed.

Lemma enumerate_length {A} (l : list A) : length (enumerate l) = length l.
Proof. unfold enumerate. by rewrite length_imap. Qed.

Lemma enumerate_fmap {A B} (f : A → B) (l : list A) :
  enumerate (f <$> l) = (λ ki, (ki.1, f ki.2)) <$> enumerate l.
Proof.
  unfold enumerate. rewrite imap_fmap, fmap_imap. reflexivity.
Qed.

(** Selecting by reference among the selected and transformed objects of a
    store gives the object of that reference, if it was selected. *)
Lemma filter_ref_enumerate {A B} (P : nat * A → Prop) `{!∀ x, Decision (P x)}
    (g : nat * A → B) (key : B → nat) (l : list A) (k : nat) :
  (∀ ki, key (g ki) = ki.1) →
  filter (λ b, key b = k) (g <$> filter P (enumerate l))
  = match l !! k with
    | Some x => if decide (P (k, x)) then [g (k, x)] else []
    | None => []
    end.
Proof.
  intros Hkey. induction l as [|x l IH] using rev_ind.
  - reflexivity.
  - rewrite enumerate_snoc, filter_app, fmap_app, filter_app, IH.
    destruct (decide (k < length l)) as [Hlt|Hge].
    + rewrite lookup_app_l by done.
      rewrite filter_cons, filter_nil.
      destruct (decide (P (length l, x))); simpl.
      * rewrite filter_cons, filter_nil, decide_False, app_nil_r; [done|].
        rewrite Hkey. simpl. lia.
      * by rewrite app_nil_r.
    + rewrite (lookup_ge_None_2 l k) by lia. simpl.
      destruct (decide (k = length l)) as [->|Hne].
      * rewrite lookup_app_r by done. rewrite Nat.sub_diag. simpl.
        rewrite filter_cons, filter_nil.
        destruct (decide (P (length l, x))); simpl; [|done].
        rewrite filter_cons, filter_nil, decide_True; [done|by rewrite Hkey].
      * rewrite (lookup_ge_None_2 (l ++ [x]) k) by (rewrite length_app; simpl; lia).
        rewrite filter_cons, filter_nil.
        destruct (decide (P (length l, x))); simpl; [|done].
        rewrite filter_cons, filter_nil, decide_False; [done|].
        rewrite Hkey. simpl. lia.
Qed.

(** ** The multigraph *)

Lemma add_node_edges n G : g_edges (add_node n G) = g_edges G.
Proof. unfold add_node. by case_bool_decide. Qed.

Lemma add_node_nodes n G x :
  x ∈ g_nodes (add_node n G) ↔ x ∈ g_nodes G ∨ x = n.
Proof.
  unfold add_node. case_bool_decide; simpl.
  - split; [auto|]. intros [?| ->]; done.
  - rewrite elem_of_app, list_elem_of_singleton. done.
Qed.

Lemma add_nodes_from_edges ns G : g_edges (add_nodes_from ns G) = g_edges G.
Proof.
  unfold add_nodes_from. revert G.
  induction ns as [|n ns IH]; intros G; simpl; [done|].
  by rewrite IH, add_node_edges.
Qed.

Lemma add_nodes_from_nodes ns G x :
  x ∈ g_nodes (add_nodes_from ns G) ↔ x ∈ g_nodes G ∨ x ∈ ns.
Proof.
  unfold add_nodes_from. revert G.
  induction ns as [|n ns IH]; intros G; simpl.
  - rewrite elem_of_nil. tauto.
  - rewrite IH, add_node_nodes, elem_of_cons. tauto.
Qed.

Lemma add_edges_from_edges es G : g_edges (add_edges_from es G) = g_edges G ++ es.
Proof.
  unfold add_edges_from. revert G.
  induction es as [|e es IH]; intros G; simpl.
  - by rewrite app_nil_r.
  - rewrite IH. unfold add_edge. simpl.
    by rewrite !add_node_edges, <- app_assoc.
Qed.

Lemma add_edges_from_nodes es G x :
  x ∈ g_nodes (add_edges_from es G)
  ↔ x ∈ g_nodes G ∨ ∃ e, e ∈ es ∧ (x = Edge.u e ∨ x = Edge.v e).
Proof.
  unfold add_edges_from. revert G.
  induction es as [|e es IH]; intros G; simpl.
  - split; [auto|]. intros [?|(e & He & _)]; [done|]. by apply elem_of_nil in He.
  - rewrite IH. unfold add_edge. simpl. rewrite !add_node_nodes. split.
    + intros [[[?|?]|?]|(e' & He' & Hx)]; eauto.
      * right. exists e. split; [left|]; auto.
      * right. exists e. split; [left|]; auto.
      * right. exists e'. split; [by right|]; auto.
    + intros [?|(e' & He' & Hx)]; [by auto|].
      apply elem_of_cons in He' as [->|He']; [tauto|]. right. eauto.
Qed.

Lemma graph_edges self f bw r :
  g_edges (_make_weighted_network_graph_mdg self f bw r)
  = edge_of <$> filter (λ ki, eligible f bw r ki.2) (enumerate (interface_objects self)).
Proof.
  unfold _make_weighted_network_graph_mdg.
  rewrite add_nodes_from_edges, add_edges_from_edges. simpl.
  destruct f, r; rewrite ?list_filter_filter; f_equal; apply list_filter_iff;
    intros [k i]; unfold eligible; simpl; rewrite Qle_bool_iff;
    destruct (Interface.failed i), (Interface.rsvp_enabled i); intuition congruence.
Qed.

Lemma graph_nodes self f bw r x :
  x ∈ g_nodes (_make_weighted_network_graph_mdg self f bw r)
  ↔ x ∈ Node.name <$> node_objects self
    ∨ ∃ e, e ∈ g_edges (_make_weighted_network_graph_mdg self f bw r)
           ∧ (x = Edge.u e ∨ x = Edge.v e).
Proof.
  rewrite graph_edges. unfold _make_weighted_network_graph_mdg.
  rewrite add_nodes_from_nodes, add_edges_from_nodes. simpl.
  rewrite elem_of_nil.
  assert (Heq : ∀ es, es = edge_of <$> filter (λ ki, eligible f bw r ki.2)
                                      (enumerate (interface_objects self)) →
    ((False ∨ ∃ e, e ∈ es ∧ (x = Edge.u e ∨ x = Edge.v e))
       ∨ x ∈ Node.name <$> node_objects self)
    ↔ (x ∈ Node.name <$> node_objects self
       ∨ ∃ e, e ∈ edge_of <$> filter (λ ki, eligible f bw r ki.2)
                                  (enumerate (interface_objects self))
              ∧ (x = Edge.u e ∨ x = Edge.v e))).
  { intros es ->. tauto. }
  apply Heq. clear Heq.
  destruct f, r; rewrite ?list_filter_filter; f_equal; apply list_filter_iff;
    intros [k i]; unfold eligible; simpl; rewrite Qle_bool_iff;
    destruct (Interface.failed i), (Interface.rsvp_enabled i); intuition congruence.
Qed.

(** Every edge of a graph the builder makes is the edge of an interface of
    the store. *)
Lemma graph_edge_inv self f bw r e :
  e ∈ g_edges (_make_weighted_network_graph_mdg self f bw r) →
  ∃ i, interface_objects self !! Edge.interface e = Some i
       ∧ eligible f bw r i ∧ e = edge_of (Edge.interface e, i).
Proof.
  rewrite graph_edges, list_elem_of_fmap.
  intros ([k i] & -> & Hin). apply list_elem_of_filter in Hin as [Hel Hin].
  apply elem_of_enumerate in Hin. simpl. eauto.
Qed.

(** C3. For every model and every parameter triple (include_failed,
    needed_bw, rsvp_required), the graph the builder makes has, for each
    interface [i] of the model, exactly one edge node -> remote_node (with
    the cost, the reference and the circuit_id of [i]) when
    (include_failed or not i.failed) and i.reservable_bandwidth >= needed_bw
    and (not rsvp_required or i.rsvp_enabled), and no edge of [i] otherwise;
    it has no other edge; and every node name of the model is a vertex,
    whether or not an eligible edge touches it. *)
Theorem C3_graph_builder_edges_and_vertices
    (self : Model) (include_failed : bool) (needed_bw : Q) (rsvp_required : bool) :
  let G := _make_weighted_network_graph_mdg self include_failed needed_bw rsvp_required in
  (∀ k i, interface_objects self !! k = Some i →
     (eligible include_failed needed_bw rsvp_required i →
        filter (λ e, Edge.interface e = k) (g_edges G)
        = [Edge.mk (Interface.node_object i) (Interface.remote_node_object i)
                   (Interface.cost i) k (Interface.circuit_id i)]) ∧
     (¬ eligible include_failed needed_bw rsvp_required i →
        filter (λ e, Edge.interface e = k) (g_edges G) = [])) ∧
  (∀ e, e ∈ g_edges G →
     ∃ i, interface_objects self !! Edge.interface e = Some i ∧
          eligible include_failed needed_bw rsvp_required i) ∧
  (∀ n, n ∈ node_objects self → Node.name n ∈ g_nodes G).
Proof.
  intros G. split; [|split].
  - intros k i Hk. subst G. rewrite graph_edges.
    rewrite (filter_ref_enumerate (λ ki, eligible include_failed needed_bw rsvp_required ki.2)
               edge_of Edge.interface) by done.
    rewrite Hk. simpl. split; intros Hel.
    + by rewrite decide_True.
    + by rewrite decide_False.
  - intros e He. apply graph_edge_inv in He as (i & ? & ? & _). eauto.
  - intros n Hn. apply graph_nodes. left. by apply list_elem_of_fmap_2.
Qed.

(** ** Path enumerator *)

Lemma foldl_Zmin_le (l : list Z) (x : Z) :
  (foldl Z.min x l ≤ x)%Z ∧ ∀ y, y ∈ l → (foldl Z.min x l ≤ y)%Z.
Proof.
  revert x. induction l as [|z l IH]; intros x; simpl.
  - split; [lia|]. intros y Hy. by apply elem_of_nil in Hy.
  - destruct (IH (Z.min x z)) as [H1 H2]. split; [lia|].
    intros y Hy. apply elem_of_cons in Hy as [->|Hy]; [lia|auto].
Qed.

Lemma foldl_Zmin_elem (l : list Z) (x : Z) : foldl Z.min x l ∈ x :: l.
Proof.
  revert x. induction l as [|z l IH]; intros x; simpl.
  - apply list_elem_of_singleton. done.
  - specialize (IH (Z.min x z)). apply elem_of_cons in IH as [Heq|Hin].
    + rewrite Heq. destruct (Z.min_spec x z) as [[_ ->]|[_ ->]].
      * by left.
      * right. by left.
    + right. by right.
Qed.

Lemma min_Z_Some (l : list Z) (m : Z) :
  min_Z l = Some m ↔ m ∈ l ∧ ∀ y, y ∈ l → (m ≤ y)%Z.
Proof.
  destruct l as [|x l]; simpl.
  - split; [done|]. intros [H _]. by apply elem_of_nil in H.
  - split.
    + intros [= <-]. split; [apply foldl_Zmin_elem|].
      intros y Hy. destruct (foldl_Zmin_le l x) as [H1 H2].
      apply elem_of_cons in Hy as [->|Hy]; auto.
    + intros [Hin Hle]. f_equal.
      pose proof (foldl_Zmin_elem l x) as Hin'.
      destruct (foldl_Zmin_le l x) as [H1 H2].
      assert (foldl Z.min x l ≤ m)%Z.
      { apply elem_of_cons in Hin as [->|Hin]; auto. }
      specialize (Hle _ Hin'). lia.
Qed.

Lemma min_Z_None (l : list Z) : min_Z l = None ↔ l = [].
Proof. by destruct l. Qed.

Lemma filter_ext_elem {A} (P Q : A → Prop) `{!∀ x, Decision (P x)}
    `{!∀ x, Decision (Q x)} (l : list A) :
  (∀ x, x ∈ l → P x ↔ Q x) → filter P l = filter Q l.
Proof.
  induction l as [|x l IH]; intros Hext; [done|].
  rewrite !filter_cons.
  rewrite IH by (intros y Hy; apply Hext; by right).
  destruct (decide (P x)) as [HP|HP], (decide (Q x)) as [HQ|HQ]; try done.
  - apply Hext in HP; [done|by left].
  - apply Hext in HQ; [done|by left].
Qed.

Lemma ecmp_hop_spec G a b :
  edges_between G a b ≠ [] → ecmp_hop G a b = inr (local_ecmp_set G a b).
Proof.
  intros Hne. unfold ecmp_hop, local_ecmp_set.
  destruct (min_Z (Edge.cost <$> edges_between G a b)) as [m|] eqn:Hm.
  - apply min_Z_Some in Hm as [Hin Hle]. do 2 f_equal.
    apply filter_ext_elem. intros e He. rewrite Forall_forall. split.
    + intros <- e' He'. apply Hle. by apply list_elem_of_fmap_2.
    + intros Hall. apply list_elem_of_fmap in Hin as (e0 & -> & He0).
      pose proof (Hall _ He0).
      pose proof (Hle (Edge.cost e) (list_elem_of_fmap_2 _ _ _ He)). lia.
  - apply min_Z_None, fmap_nil_inv in Hm. done.
Qed.

Lemma ecmp_hop_KeyError G a b :
  edges_between G a b = [] → ecmp_hop G a b = inl KeyError.
Proof. intros H. unfold ecmp_hop. by rewrite H. Qed.

Lemma hops_from_spec G a rest :
  Forall (λ ab, edges_between G ab.1 ab.2 ≠ []) (zip (a :: rest) rest) →
  hops_from G a rest
  = inr ((λ ab, local_ecmp_set G ab.1 ab.2) <$> zip (a :: rest) rest).
Proof.
  revert a. induction rest as [|b rest IH]; intros a Hw; simpl; [done|].
  apply Forall_cons in Hw as [Hab Hw].
  rewrite ecmp_hop_spec by done. simpl. rewrite IH by done. done.
Qed.

Lemma get_all_paths_mdg_spec G nx_sp :
  Forall (node_hop_sequence G) nx_sp →
  _get_all_paths_mdg G nx_sp
  = inr ((λ p, (λ ab, local_ecmp_set G ab.1 ab.2) <$> adjacent_pairs p) <$> nx_sp).
Proof.
  unfold _get_all_paths_mdg.
  induction nx_sp as [|p nx_sp IH]; intros Hw; simpl; [done|].
  apply Forall_cons in Hw as [[Hne Hp] Hw].
  destruct p as [|a rest]; [done|].
  unfold adjacent_pairs in *. simpl in *.
  rewrite hops_from_spec by done. simpl. rewrite IH by done. done.
Qed.

(** A concrete path is in the product of the hops exactly when it takes
    one element of each hop, in order. *)
Lemma elem_of_product {A} (ls : list (list A)) (p : list A) :
  p ∈ product ls ↔ Forall2 (λ x l, x ∈ l) p ls.
Proof.
  revert p. induction ls as [|l ls IH]; intros p; simpl.
  - rewrite list_elem_of_singleton. split.
    + intros ->. constructor.
    + by intros ->%Forall2_nil_inv_r.
  - rewrite list_elem_of_bind. split.
    + intros (x & Hp & Hx). apply list_elem_of_fmap in Hp as (q & -> & Hq).
      constructor; [done|]. by apply IH.
    + intros H. apply Forall2_cons_inv_r in H as (x & q & Hx & Hq & ->).
      exists x. split; [|done]. apply list_elem_of_fmap_2. by apply IH.
Qed.

Lemma path_enumerator_spec (G : MultiDiGraph) (nx_sp : list (list string)) :
  Forall (node_hop_sequence G) nx_sp →
  res_bind (_get_all_paths_mdg G nx_sp) (λ all_paths,
    inr (_normalize_multidigraph_paths all_paths))
  = inr (enumerated_paths_spec G nx_sp).
Proof.
  intros Hw. rewrite get_all_paths_mdg_spec by done. simpl. f_equal.
  unfold _normalize_multidigraph_paths, enumerated_paths_spec.
  clear Hw. induction nx_sp as [|p nx_sp IH]; [done|].
  rewrite fmap_cons, !bind_cons. by rewrite IH.
Qed.

(** C4. For every multigraph G and every list of node-hop sequences of G
    (each a non-empty sequence of nodes with an edge of G from every node
    to the next, as the shortest-path search yields them), the path
    enumerator, [_get_all_paths_mdg] followed by
    [_normalize_multidigraph_paths], raises nothing and returns exactly the
    flattened list, over the input sequences, of the Cartesian product
    across adjacent node pairs of the sets of edges between the pair whose
    cost equals the minimum cost among the edges between it; every
    concrete path it returns has one interface per hop of one of the
    sequences, each drawn from the minimum-cost set of its hop. *)
Theorem C4_path_enumerator_is_product_of_ecmp_sets
    (G : MultiDiGraph) (nx_sp : list (list string)) :
  Forall (node_hop_sequence G) nx_sp →
  res_bind (_get_all_paths_mdg G nx_sp) (λ all_paths,
    inr (_normalize_multidigraph_paths all_paths))
  = inr (enumerated_paths_spec G nx_sp) ∧
  ∀ path, path ∈ enumerated_paths_spec G nx_sp →
    ∃ p, p ∈ nx_sp ∧ length path = length (adjacent_pairs p) ∧
         Forall2 (λ k ab, k ∈ local_ecmp_set G ab.1 ab.2) path (adjacent_pairs p).
Proof.
  intros Hw. split; [by apply path_enumerator_spec|].
  intros path Hpath. unfold enumerated_paths_spec in Hpath.
  apply list_elem_of_bind in Hpath as (p & Hpath & Hp).
  exists p. split; [done|].
  apply elem_of_product in Hpath.
  rewrite Forall2_fmap_r in Hpath. split; [|exact Hpath].
  by apply Forall2_length in Hpath.
Qed.

Lemma C4_witness :
  res_bind (_get_all_paths_mdg G_parallel [["A"; "B"; "C"]; ["A"; "B"]]%string)
    (λ all_paths, inr (_normalize_multidigraph_paths all_paths))
  = inr [[0; 3]; [1; 3]; [0]; [1]].
Proof.
  refine (eq_trans (proj1 (C4_path_enumerator_is_product_of_ecmp_sets
                             G_parallel [["A"; "B"; "C"]; ["A"; "B"]]%string _)) _).
  - repeat constructor; vm_compute; congruence.
  - vm_compute. reflexivity.
Defined.

(** ** LSP placer: what one round of the loop does *)

Ltac run_M :=
  unfold mark_unrouted, read_lsp, read_interface, read_demand, update_lsp,
    update_interface, update_demand;
  unfold bind, ret, get, modify, lift, raise;
  simpl.

Lemma graph_lsps_irrelevant m lsps f bw r :
  _make_weighted_network_graph_mdg (set_rsvp_lsp_objects lsps m) f bw r
  = _make_weighted_network_graph_mdg m f bw r.
Proof. reflexivity. Qed.

Lemma commit_loop (lsp : nat) (bw : Q) (l : RSVP_LSP.t) (path : list nat) (m : Model) :
  rsvp_lsp_objects m !! lsp = Some l →
  RSVP_LSP.reserved_bandwidth l = Bw bw →
  for_each path (add_reservation lsp) m
  = (inr tt, set_interface_objects (reserve bw path (interface_objects m)) m).
Proof.
  revert m. induction path as [|k path IH]; intros m Hl Hbw; simpl.
  - by destruct m.
  - unfold bind at 1. unfold add_reservation at 1. run_M. rewrite Hl. simpl.
    rewrite Hbw. simpl. rewrite IH by done. simpl. done.
Qed.

Lemma add_path_then_commit (lsp : nat) (bw : Q) (l : RSVP_LSP.t) (path : list nat)
    (m : Model) :
  rsvp_lsp_objects m !! lsp = Some l →
  RSVP_LSP.reserved_bandwidth l = Bw bw →
  (_add_lsp_path_data lsp path ;; commit_reservation lsp)%M m
  = match path_cost (interface_objects m) path with
    | inl e => (inl e, m)
    | inr cost => (inr tt, routed_state lsp path cost bw m)
    end.
Proof.
  intros Hl Hbw. unfold _add_lsp_path_data, commit_reservation, path_cost.
  run_M.
  destruct (res_mapM _ path) as [e|costs]; simpl; [done|].
  rewrite list_lookup_alter, decide_True, Hl by done. simpl.
  erewrite commit_loop; simpl; [done| |].
  - by rewrite list_lookup_alter, decide_True, Hl.
  - done.
Qed.

(** One round of the loop of [_determine_lsp_state_info], case by case. *)
Lemma determine_body_run (traff : Q) (draw lsp : nat) (l : RSVP_LSP.t) (m : Model) :
  rsvp_lsp_objects m !! lsp = Some l →
  let bw := setup_bandwidth_of traff l in
  let m2 := begin_placement lsp bw m in
  _determine_lsp_state_info_body traff draw lsp m
  = match lsp_candidates m bw (RSVP_LSP.source_node_object l)
                         (RSVP_LSP.dest_node_object l) with
    | inl e => (inl e, m2)
    | inr None => (inr tt, unrouted_state lsp m2)
    | inr (Some cands) =>
        match choose_new_path draw cands with
        | inl e => (inl e, m2)
        | inr None => (inr tt, unrouted_state lsp m2)
        | inr (Some new_path) =>
            match path_cost (interface_objects m) new_path with
            | inl e => (inl e, m2)
            | inr cost => (inr tt, routed_state lsp new_path cost bw m2)
            end
        end
    end.
Proof.
  intros Hl bw m2. unfold _determine_lsp_state_info_body, lsp_candidates.
  run_M. rewrite Hl. simpl. fold (setup_bandwidth_of traff l). fold bw.
  destruct (all_shortest_paths _ _ _) as [e|nx_sp]; simpl.
  { by destruct e. }
  destruct (_get_all_paths_mdg _ nx_sp) as [e|all_paths]; simpl; [done|].
  destruct (candidates_w_reservable_bw _ _ _) as [e|cands]; simpl; [done|].
  destruct (choose_new_path draw cands) as [e|[new_path|]]; simpl; [done| |done].
  assert (Hl2 : rsvp_lsp_objects m2 !! lsp
                = Some (RSVP_LSP.set_path LspEmptyDict
                          (RSVP_LSP.set_setup_bandwidth (Bw bw)
                             (RSVP_LSP.set_reserved_bandwidth (Bw bw) l)))).
  { unfold m2, begin_placement. simpl.
    rewrite !list_lookup_alter, !decide_True, Hl by done. done. }
  transitivity ((_add_lsp_path_data lsp new_path ;; commit_reservation lsp)%M m2);
    [reflexivity|].
  by rewrite (add_path_then_commit lsp bw _ new_path m2 Hl2 eq_refl).
Qed.

Lemma foldl_min_le (l : list nat) (x : nat) :
  foldl Nat.min x l ≤ x ∧ ∀ y, y ∈ l → foldl Nat.min x l ≤ y.
Proof.
  revert x. induction l as [|z l IH]; intros x; simpl.
  - split; [lia|]. intros y Hy. by apply elem_of_nil in Hy.
  - destruct (IH (x `min` z)) as [H1 H2]. split; [lia|].
    intros y Hy. apply elem_of_cons in Hy as [->|Hy]; [lia|auto].
Qed.

Lemma foldl_min_elem (l : list nat) (x : nat) : foldl Nat.min x l ∈ x :: l.
Proof.
  revert x. induction l as [|z l IH]; intros x; simpl.
  - by apply list_elem_of_singleton.
  - specialize (IH (x `min` z)). apply elem_of_cons in IH as [Heq|Hin].
    + rewrite Heq. destruct (Nat.min_spec x z) as [[_ ->]|[_ ->]].
      * by left.
      * right. by left.
    + right. by right.
Qed.

Lemma min_nat_inr (l : list nat) (m : nat) :
  min_nat l = inr m → m ∈ l ∧ ∀ y, y ∈ l → m ≤ y.
Proof.
  destruct l as [|x l]; simpl; [done|].
  intros [= <-]. split; [apply foldl_min_elem|].
  intros y Hy. destruct (foldl_min_le l x) as [H1 H2].
  apply elem_of_cons in Hy as [->|Hy]; auto.
Qed.

Lemma min_nat_is_inr (l : list nat) : l ≠ [] → ∃ m, min_nat l = inr m.
Proof. destruct l; [done|]. simpl. eauto. Qed.

(** What [choose_new_path] returns when there are several candidates. *)
Lemma choose_new_path_several (draw : nat) (cands : list (list nat)) :
  1 < length cands →
  ∃ fewest_hops new_path,
    min_nat (length <$> cands) = inr fewest_hops ∧
    choose_new_path draw cands = inr (Some new_path) ∧
    new_path ∈ lowest_hop_count_paths fewest_hops cands ∧
    (∀ only, lowest_hop_count_paths fewest_hops cands = [only] → new_path = only) ∧
    (1 < length (lowest_hop_count_paths fewest_hops cands) →
     lowest_hop_count_paths fewest_hops cands
       !! (draw `mod` length (lowest_hop_count_paths fewest_hops cands))
     = Some new_path).
Proof.
  intros Hlen.
  destruct (min_nat_is_inr (length <$> cands)) as [fewest Hmin].
  { destruct cands; simpl in *; [lia|done]. }
  pose proof (min_nat_inr _ _ Hmin) as [Hin Hle].
  apply list_elem_of_fmap in Hin as (p0 & Hp0 & Hin).
  assert (Hlow : p0 ∈ lowest_hop_count_paths fewest cands).
  { apply list_elem_of_filter. done. }
  exists fewest.
  assert (Hchoose : choose_new_path draw cands
    = let lowest := lowest_hop_count_paths fewest cands in
      if bool_decide (1 < length lowest) then
        res_bind (random_choice draw lowest) (λ p, inr (Some p))
      else res_bind (from_option inr (inl IndexError) (lowest !! 0)) (λ p, inr (Some p))).
  { destruct cands as [|a [|b cands]]; simpl in Hlen; try lia.
    unfold choose_new_path. rewrite Hmin. done. }
  rewrite Hchoose. clear Hchoose. simpl.
  set (lowest := lowest_hop_count_paths fewest cands) in *.
  case_bool_decide as Hmany.
  - assert (Hlt : draw `mod` length lowest < length lowest).
    { apply Nat.mod_upper_bound. lia. }
    destruct (lookup_lt_is_Some_2 _ _ Hlt) as [x Hx].
    exists x. unfold random_choice. rewrite Hx. simpl.
    split_and!; [done|done| |  |done].
    + by eapply list_elem_of_lookup_2.
    + intros only Honly. rewrite Honly in Hmany. simpl in Hmany. lia.
  - destruct lowest as [|x lowest'] eqn:Hlow'; [by apply elem_of_nil in Hlow|].
    exists x. simpl. split_and!; [done|done|by left| |].
    + by intros only [= ->].
    + intros. simpl in *. lia.
Qed.

(** The references of a path whose bandwidths could be read are in the
    store. *)
Lemma reservable_bandwidths_inr ints path bws :
  reservable_bandwidths ints path = inr bws →
  Forall2 (λ k q, ∃ i, ints !! k = Some i ∧ q = Interface.reservable_bandwidth i)
          path bws.
Proof.
  unfold reservable_bandwidths. revert bws.
  induction path as [|k path IH]; intros bws; simpl.
  - intros [= <-]. constructor.
  - destruct (ints !! k) as [i|] eqn:Hk; simpl; [|done].
    destruct (res_mapM _ path) as [e|bws']; simpl; [done|].
    intros [= <-]. constructor; eauto.
Qed.

Lemma candidates_w_reservable_bw_inr ints bw paths cands :
  candidates_w_reservable_bw ints bw paths = inr cands →
  ∀ p, p ∈ cands ↔
       p ∈ paths ∧ has_reservable_bw ints bw p = inr true.
Proof.
  revert cands. induction paths as [|path paths IH]; intros cands; simpl.
  - intros [= <-] p. rewrite !elem_of_nil. tauto.
  - destruct (has_reservable_bw ints bw path) as [e|ok] eqn:Hok; simpl; [done|].
    destruct (candidates_w_reservable_bw ints bw paths) as [e|tl]; simpl; [done|].
    intros [= <-] p. specialize (IH tl eq_refl p).
    destruct ok; rewrite ?elem_of_cons, IH; split.
    + intros [->|[? ?]]; auto.
    + intros [[->|?] ?]; auto.
    + intros [? ?]; auto.
    + intros [[->|?] ?]; [congruence|auto].
Qed.

Lemma has_reservable_bw_refs ints bw p b :
  has_reservable_bw ints bw p = inr b → Forall (λ k, is_Some (ints !! k)) p.
Proof.
  unfold has_reservable_bw.
  destruct (reservable_bandwidths ints p) as [e|bws] eqn:Hbws; simpl; [done|].
  intros _. apply reservable_bandwidths_inr in Hbws.
  induction Hbws as [|k q p bws (i & Hi & _) _ IH]; constructor; eauto.
Qed.

Lemma path_cost_is_inr ints p :
  Forall (λ k, is_Some (ints !! k)) p → ∃ cost, path_cost ints p = inr cost.
Proof.
  unfold path_cost. induction 1 as [|k p [i Hi] _ [cost IH]]; simpl; [eauto|].
  rewrite Hi. simpl.
  destruct (res_mapM _ p) as [e|costs]; simpl in *; [done|]. eauto.
Qed.

Lemma lsp_candidates_inr m bw s d cands :
  lsp_candidates m bw s d = inr (Some cands) →
  ∃ nx_sp all_paths,
    all_shortest_paths (_make_weighted_network_graph_mdg m false bw true) s d = inr nx_sp ∧
    _get_all_paths_mdg (_make_weighted_network_graph_mdg m false bw true) nx_sp
      = inr all_paths ∧
    candidates_w_reservable_bw (interface_objects m) bw
      (_normalize_multidigraph_paths all_paths) = inr cands.
Proof.
  unfold lsp_candidates.
  destruct (all_shortest_paths _ s d) as [e|nx_sp]; [by destruct e|].
  destruct (_get_all_paths_mdg _ nx_sp) as [e|all_paths] eqn:Hap; simpl; [done|].
  destruct (candidates_w_reservable_bw _ _ _) as [e|c] eqn:Hc; simpl; [done|].
  intros [= <-]. exists nx_sp, all_paths. split_and!; [done|exact Hap|exact Hc].
Qed.

Lemma lsp_candidates_refs m bw s d cands p :
  lsp_candidates m bw s d = inr (Some cands) → p ∈ cands →
  Forall (λ k, is_Some (interface_objects m !! k)) p.
Proof.
  intros (nx_sp & all_paths & _ & _ & Hc)%lsp_candidates_inr Hp.
  eapply candidates_w_reservable_bw_inr in Hc. apply Hc in Hp as [_ Hp].
  by eapply has_reservable_bw_refs.
Qed.

(** C7. For every LSP with more than one eligible candidate path (the
    paths the round found with sufficient reservable bandwidth), the round
    ends normally and the path it commits is a candidate with the fewest
    hops: no candidate has fewer hops. When exactly one candidate has the
    fewest hops, that one is committed, whatever [random.choice] would
    draw; only when several share the fewest hop count is the committed
    path the one [random.choice] draws among them. *)
Theorem C7_fewest_hops_then_random
    (traff : Q) (draw lsp : nat) (l : RSVP_LSP.t) (m : Model)
    (cands : list (list nat)) :
  rsvp_lsp_objects m !! lsp = Some l →
  lsp_candidates m (setup_bandwidth_of traff l) (RSVP_LSP.source_node_object l)
                 (RSVP_LSP.dest_node_object l) = inr (Some cands) →
  1 < length cands →
  ∃ fewest_hops new_path cost,
    new_path ∈ cands ∧
    length new_path = fewest_hops ∧
    (∀ p, p ∈ cands → fewest_hops ≤ length p) ∧
    _determine_lsp_state_info_body traff draw lsp m
      = (inr tt, routed_state lsp new_path cost (setup_bandwidth_of traff l)
                   (begin_placement lsp (setup_bandwidth_of traff l) m)) ∧
    (∀ only, lowest_hop_count_paths fewest_hops cands = [only] → new_path = only) ∧
    (1 < length (lowest_hop_count_paths fewest_hops cands) →
     lowest_hop_count_paths fewest_hops cands
       !! (draw `mod` length (lowest_hop_count_paths fewest_hops cands))
     = Some new_path).
Proof.
  intros Hl Hc Hlen.
  destruct (choose_new_path_several draw cands Hlen)
    as (fewest & new_path & Hmin & Hchoose & Hin & Hone & Hmany).
  apply list_elem_of_filter in Hin as [Hhops Hin].
  destruct (path_cost_is_inr (interface_objects m) new_path) as [cost Hcost].
  { by eapply lsp_candidates_refs. }
  exists fewest, new_path, cost. split_and!; try done.
  - intros p Hp. apply min_nat_inr in Hmin as [_ Hle].
    apply Hle. by apply list_elem_of_fmap_2.
  - rewrite (determine_body_run traff draw lsp l m Hl). simpl.
    by rewrite Hc, Hchoose, Hcost.
Qed.

Lemma C7_witness :
  ∃ new_path, new_path ∈ [[0]; [2]] ∧ length new_path = 1 ∧
    (_determine_lsp_state_info_body 0 7 0 net_parallel).1 = inr tt.
Proof.
  destruct (C7_fewest_hops_then_random 0 7 0 lsp_AB net_parallel [[0]; [2]])
    as (fewest & new_path & cost & Hin & Hlen & Hle & Hrun & _).
  - reflexivity.
  - vm_compute. reflexivity.
  - simpl. lia.
  - exists new_path. split; [exact Hin|]. split.
    + apply list_elem_of_In in Hin. simpl in Hin.
      destruct Hin as [<-|[<-|[]]]; reflexivity.
    + rewrite Hrun. reflexivity.
Defined.

(** ** The shortest-path search *)

Lemma elem_of_successors G a s :
  s ∈ successors G a ↔ edges_between G a s ≠ [].
Proof.
  unfold successors, edges_between.
  rewrite elem_of_remove_dups, list_elem_of_fmap. split.
  - intros (e & -> & He). apply list_elem_of_filter in He as [Hu He].
    intros Hnil. eapply (filter_nil_not_elem_of _ _ e Hnil); [|done]. done.
  - intros Hne. destruct (filter _ (g_edges G)) as [|e es] eqn:Hf; [done|].
    assert (He : e ∈ filter (λ e, Edge.u e = a ∧ Edge.v e = s) (g_edges G))
      by (rewrite Hf; by left).
    apply list_elem_of_filter in He as [[Hu Hv] He].
    exists e. split; [done|]. by apply list_elem_of_filter.
Qed.

(** The search yields node-hop sequences of [G], without repeated node. *)
Lemma simple_paths_sound fuel G visited a target p :
  a ∉ visited →
  p ∈ simple_paths fuel G visited a target →
  node_hop_sequence G p ∧ from_to a target p ∧ NoDup p ∧ Forall (λ x, x ∉ visited) p.
Proof.
  revert visited a p. induction fuel as [|fuel IH]; intros visited a p Ha; simpl.
  - case_bool_decide as Heq; [|by intros ?%elem_of_nil].
    intros ->%list_elem_of_singleton. subst.
    repeat split; try done; repeat constructor; try done. by intros ?%elem_of_nil.
  - case_bool_decide as Heq.
    { intros ->%list_elem_of_singleton. subst.
      repeat split; try done; repeat constructor; try done. by intros ?%elem_of_nil. }
    rewrite list_elem_of_bind. intros (s & Hp & Hs).
    apply list_elem_of_filter in Hs as [Hs Hsucc].
    apply list_elem_of_fmap in Hp as (q & -> & Hq).
    apply IH in Hq as ([Hne Hw] & [Hhd Hlast] & Hnd & Hvis); [|done].
    destruct q as [|b q]; [done|]. simpl in Hhd. injection Hhd as ->.
    split_and!.
    + split; [done|]. unfold adjacent_pairs in *. simpl. constructor; [|done].
      simpl. by apply elem_of_successors.
    + split; [done|]. rewrite last_cons. by rewrite Hlast.
    + constructor; [|done]. intros Hin.
      rewrite Forall_forall in Hvis. apply (Hvis _ Hin). by left.
    + constructor; [done|]. eapply Forall_impl; [done|].
      simpl. intros x Hx Hin. apply Hx. by right.
Qed.

Lemma no_path_simple_paths G s d :
  no_path G s d → simple_paths (length (g_nodes G)) G [] s d = [].
Proof.
  intros Hno. destruct (simple_paths _ G [] s d) as [|p ps] eqn:Hsp; [done|].
  assert (Hp : p ∈ simple_paths (length (g_nodes G)) G [] s d)
    by (rewrite Hsp; by left).
  apply simple_paths_sound in Hp as (Hw & Hft & _); [|by intros ?%elem_of_nil].
  by destruct (Hno p Hw).
Qed.

Lemma all_shortest_paths_no_path G s d :
  s ∈ g_nodes G → no_path G s d → all_shortest_paths G s d = inl NetworkXNoPath.
Proof.
  intros Hs Hno. unfold all_shortest_paths.
  rewrite bool_decide_eq_true_2 by done.
  by rewrite no_path_simple_paths.
Qed.

Lemma all_shortest_paths_inr G s d nx_sp :
  all_shortest_paths G s d = inr nx_sp →
  nx_sp ≠ [] ∧
  ∀ p, p ∈ nx_sp → node_hop_sequence G p ∧ from_to s d p ∧ NoDup p.
Proof.
  unfold all_shortest_paths. case_bool_decide; [|done].
  destruct (min_Z _) as [w|] eqn:Hw; [|done]. intros [= <-].
  apply min_Z_Some in Hw as [Hin _].
  apply list_elem_of_fmap in Hin as (p0 & Hw0 & Hp0). split.
  - intros Hnil. eapply (filter_nil_not_elem_of _ _ p0 Hnil); [|done]. done.
  - intros p [_ Hp]%list_elem_of_filter.
    apply simple_paths_sound in Hp as (? & ? & ? & _); [done|].
    by intros ?%elem_of_nil.
Qed.

(** C10. For every pair of node names of the model with no eligible path
    between them (no node-hop sequence from the one to the other in the
    graph the function builds), [get_shortest_path] returns the dict
    [{'cost': None, 'path': []}], the dict built so far when the search
    raises its no-path exception inside [try], and
    [get_all_paths_reservable_bw] returns [{'path': []}]; neither raises. *)
Theorem C10_path_queries_return_empty_when_no_path
    (self : Model) (source_node_name dest_node_name : string)
    (include_failed_circuits : bool) (cutoff : nat) (needed_bw : Q) :
  source_node_name ∈ Node.name <$> node_objects self →
  dest_node_name ∈ Node.name <$> node_objects self →
  no_path (_make_weighted_network_graph_mdg self false needed_bw false)
          source_node_name dest_node_name →
  no_path (_make_weighted_network_graph_mdg self include_failed_circuits needed_bw false)
          source_node_name dest_node_name →
  get_shortest_path self source_node_name dest_node_name needed_bw
    = mkPathDict None (ConvertedPaths []) ∧
  get_all_paths_reservable_bw self source_node_name dest_node_name
      include_failed_circuits cutoff needed_bw
    = inr (mkPathsDict (NormalizedPaths [])).
Proof.
  intros Hs Hd Hno1 Hno2. split.
  - unfold get_shortest_path.
    rewrite all_shortest_paths_no_path; [done| |done].
    apply graph_nodes. by left.
  - unfold get_all_paths_reservable_bw, all_simple_paths.
    rewrite bool_decide_eq_true_2 by (apply graph_nodes; by left).
    case_bool_decide; [done|].
    by rewrite no_path_simple_paths.
Qed.

Lemma no_path_no_out_edge G s d :
  s ≠ d → (∀ e, e ∈ g_edges G → Edge.u e ≠ s) → no_path G s d.
Proof.
  intros Hsd Hout p [Hne Hw] [Hhd Hlast].
  destruct p as [|a [|b p]]; simpl in *; [done| |].
  - congruence.
  - injection Hhd as ->. unfold adjacent_pairs in Hw. simpl in Hw.
    apply Forall_cons in Hw as [Hab _]. simpl in Hab.
    destruct (edges_between G s b) as [|e es] eqn:He; [done|].
    assert (Hin : e ∈ edges_between G s b) by (rewrite He; by left).
    apply list_elem_of_filter in Hin as [[Hu _] Hin].
    by apply (Hout e Hin).
Qed.

Lemma C10_witness :
  get_shortest_path net_A_side_failed "A" "B" 0 = mkPathDict None (ConvertedPaths []) ∧
  get_all_paths_reservable_bw net_A_side_failed "A" "B" false 10 0
    = inr (mkPathsDict (NormalizedPaths [])).
Proof.
  apply (C10_path_queries_return_empty_when_no_path net_A_side_failed "A" "B" false 10 0).
  - vm_compute. by left.
  - vm_compute. right. by left.
  - apply no_path_no_out_edge; [done|]. vm_compute.
    intros e He. apply list_elem_of_In in He. simpl in He.
    destruct He as [<-|[]]. simpl. done.
  - apply no_path_no_out_edge; [done|]. vm_compute.
    intros e He. apply list_elem_of_In in He. simpl in He.
    destruct He as [<-|[]]. simpl. done.
Defined.

(** ** The search finds a path whenever there is one *)

Lemma node_hop_sequence_cons G a b rest :
  node_hop_sequence G (a :: b :: rest)
  ↔ edges_between G a b ≠ [] ∧ node_hop_sequence G (b :: rest).
Proof.
  unfold node_hop_sequence, adjacent_pairs. simpl. rewrite Forall_cons. simpl.
  intuition congruence.
Qed.

Lemma node_hop_sequence_suffix G l1 a l2 :
  node_hop_sequence G (l1 ++ a :: l2) → node_hop_sequence G (a :: l2).
Proof.
  induction l1 as [|x l1 IH]; [done|]. simpl.
  destruct (l1 ++ a :: l2) as [|y l] eqn:Heq.
  - by destruct l1.
  - intros [_ Hw]%node_hop_sequence_cons. by apply IH.
Qed.

Lemma last_elem_of {A} (l : list A) (x : A) : last l = Some x → x ∈ l.
Proof.
  induction l as [|y [|z l] IH]; simpl; [done| |].
  - intros [= ->]. by left.
  - intros Hl. right. by apply IH.
Qed.

Lemma simple_paths_complete fuel G visited a target p :
  node_hop_sequence G p → from_to a target p → NoDup p →
  Forall (λ x, x ∉ visited) p → length p ≤ S fuel →
  p ∈ simple_paths fuel G visited a target.
Proof.
  revert visited a p.
  induction fuel as [|fuel IH]; intros visited a p Hw [Hh Hl] Hnd Hv Hlen;
    destruct p as [|x p]; try done; injection Hh as ->.
  - destruct p as [|b p]; [|simpl in Hlen; lia].
    injection Hl as ->. simpl. rewrite bool_decide_eq_true_2 by done. by left.
  - simpl. case_bool_decide as Heq.
    + subst target. destruct p as [|b p]; [by left|].
      apply NoDup_cons in Hnd as [Ha _]. destruct Ha.
      by apply (last_elem_of (b :: p)).
    + destruct p as [|b p]; [by injection Hl|].
      apply node_hop_sequence_cons in Hw as [Hab Hw].
      apply NoDup_cons in Hnd as [Ha Hnd].
      apply Forall_cons in Hv as [Hav Hv].
      apply list_elem_of_bind. exists b. split.
      * apply list_elem_of_fmap_2. apply IH; try done.
        -- apply Forall_forall. intros y Hy. rewrite Forall_forall in Hv.
           rewrite not_elem_of_cons. split; [|by apply Hv].
           intros ->. done.
        -- simpl in *. lia.
      * apply list_elem_of_filter. split; [|by apply elem_of_successors].
        rewrite not_elem_of_cons. split.
        -- intros ->. apply Ha. by left.
        -- apply Forall_cons in Hv as [Hb _]. done.
Qed.

(** A node-hop sequence without its loops. *)
Lemma node_hop_sequence_simple G s d p :
  node_hop_sequence G p → from_to s d p →
  ∃ q, node_hop_sequence G q ∧ from_to s d q ∧ NoDup q ∧ q ⊆ p.
Proof.
  revert s. induction p as [|a p IH]; intros s Hw [Hh Hl]; [done|].
  injection Hh as ->. destruct p as [|b p].
  - exists [s]. split_and!; try done. repeat constructor. by intros ?%elem_of_nil.
  - apply node_hop_sequence_cons in Hw as [Hab Hw].
    destruct (IH b Hw) as (q & Hq & [Hqh Hql] & Hqnd & Hqsub); [done|].
    destruct (decide (s ∈ q)) as [Hin|Hnin].
    + apply list_elem_of_split in Hin as (l1 & l2 & ->).
      exists (s :: l2). split_and!.
      * by eapply node_hop_sequence_suffix.
      * split; [done|]. rewrite <- Hql. symmetry. apply (last_app_cons l1 l2 s).
      * by apply NoDup_app in Hqnd as (_ & _ & ?).
      * intros x Hx. right. apply Hqsub. apply elem_of_app. by right.
    + exists (s :: q). destruct q as [|b' q]; [done|]. injection Hqh as ->.
      split_and!.
      * by apply node_hop_sequence_cons.
      * done.
      * by constructor.
      * intros x [->|Hx]%elem_of_cons; [by left|]. right. by apply Hqsub.
Qed.

Lemma graph_endpoints_are_nodes self f bw r :
  endpoints_are_nodes (_make_weighted_network_graph_mdg self f bw r).
Proof. intros e He. split; apply graph_nodes; right; exists e; auto. Qed.

Lemma node_hop_sequence_nodes G p :
  endpoints_are_nodes G → node_hop_sequence G p →
  ∀ x, x ∈ tail p → x ∈ g_nodes G.
Proof.
  intros HG. induction p as [|a [|b p] IH]; intros Hw x; simpl;
    try by intros ?%elem_of_nil.
  apply node_hop_sequence_cons in Hw as [Hab Hw].
  intros [->|Hx]%elem_of_cons; [|by apply IH].
  destruct (edges_between G a b) as [|e es] eqn:He; [done|].
  assert (Hin : e ∈ edges_between G a b) by (rewrite He; by left).
  apply list_elem_of_filter in Hin as [[_ <-] Hin]. by apply HG.
Qed.

Lemma all_shortest_paths_no_path_inv G s d :
  endpoints_are_nodes G →
  all_shortest_paths G s d = inl NetworkXNoPath → no_path G s d.
Proof.
  intros HG. unfold all_shortest_paths. case_bool_decide as Hs; [|done].
  destruct (min_Z _) as [w|] eqn:Hmin; [done|]. intros _.
  apply min_Z_None, fmap_nil_inv in Hmin.
  intros p Hw Hft.
  destruct (node_hop_sequence_simple G s d p Hw Hft) as (q & Hq & Hqft & Hnd & _).
  assert (Hin : q ∈ simple_paths (length (g_nodes G)) G [] s d).
  { apply simple_paths_complete; try done.
    - apply Forall_forall. intros x _. by intros ?%elem_of_nil.
    - apply Nat.le_le_succ_r, submseteq_length, NoDup_submseteq; [done|].
      intros x Hx. destruct q as [|a q]; [by apply elem_of_nil in Hx|].
      destruct Hqft as [[= ->] _].
      apply elem_of_cons in Hx as [->|Hx]; [done|].
      by apply (node_hop_sequence_nodes G (s :: q)). }
  rewrite Hmin in Hin. by apply elem_of_nil in Hin.
Qed.

(** ** Model-file loader *)

Lemma elem_of_bad_circuit_ids (l : list string) (c : string) (n : nat) :
  (c, n) ∈ bad_circuit_ids_of l
  ↔ c ∈ l ∧ count_occ_str c l ≠ 2 ∧ n = count_occ_str c l.
Proof.
  unfold bad_circuit_ids_of. rewrite list_elem_of_fmap. split.
  - intros (item & [= -> ->] & Hin).
    apply list_elem_of_filter in Hin as [Hcount Hin].
    rewrite elem_of_remove_dups in Hin. by split_and!.
  - intros (Hin & Hcount & ->). exists c. split; [done|].
    apply list_elem_of_filter. split; [done|]. by apply elem_of_remove_dups.
Qed.

Lemma bad_circuit_ids_nonempty (l : list string) :
  length (bad_circuit_ids_of l) ≠ 0 ↔ ∃ c, c ∈ l ∧ count_occ_str c l ≠ 2.
Proof.
  split.
  - destruct (bad_circuit_ids_of l) as [|[c n] bad] eqn:Hbad; [done|]. intros _.
    assert (Hin : (c, n) ∈ bad_circuit_ids_of l) by (rewrite Hbad; by left).
    apply elem_of_bad_circuit_ids in Hin as (? & ? & _). eauto.
  - intros (c & Hin & Hcount) Hlen.
    apply length_zero_iff_nil in Hlen.
    assert (Hc : (c, count_occ_str c l) ∈ bad_circuit_ids_of l)
      by (by apply elem_of_bad_circuit_ids).
    rewrite Hlen in Hc. by apply elem_of_nil in Hc.
Qed.

Lemma interface_of_line_error parse_int parse_float line e :
  interface_of_line parse_int parse_float line = inl e →
  e = ValueError ∨ e = ModelException (InterfaceLineTooShort line).
Proof.
  unfold interface_of_line, int_of, float_of.
  destruct (split line) as [|w1 [|w2 [|w3 [|w4 [|w5 [|w6 [|w7 [|w8 [|w9 ws]]]]]]]]];
    simpl;
    repeat match goal with
    | |- context [parse_int ?w] => destruct (parse_int w); simpl
    | |- context [parse_float ?w] => destruct (parse_float w); simpl
    end;
    intros [= <-]; auto.
Qed.

Lemma extract_interfaces_error parse_int parse_float lines ifs ns e :
  extract_interfaces parse_int parse_float lines ifs ns = inl e →
  e = ValueError ∨ ∃ line, e = ModelException (InterfaceLineTooShort line).
Proof.
  revert ifs ns. induction lines as [|line lines IH]; intros ifs ns; simpl; [done|].
  destruct (interface_of_line parse_int parse_float line) as [e'|i] eqn:Hi; simpl.
  - intros [= <-]. apply interface_of_line_error in Hi as [->| ->]; eauto.
  - apply IH.
Qed.

(** C9, as amended. For every model file, [load_model_file] raises the
    circuit_id load error (the ModelException that says each circuit_id
    value must appear exactly twice) if and only if some circuit_id value of
    the interfaces table appears a number of times other than two, and the
    message of that error lists every offending circuit_id value, and only
    those, each with its observed number of appearances. The part of the
    loader that follows the interfaces table is assumed not to raise that
    same message. *)
Theorem C9_circuit_id_load_error
    (find_end_index : nat → list string → option nat)
    (parse_int : string → option Z) (parse_float : string → option Q)
    (load_other_tables :
       list Interface.t → list Node.t → option nat → list string → res Model)
    (lines : list string) :
  (∀ ifs ns e ls bad,
     load_other_tables ifs ns e ls ≠ inl (ModelException (BadCircuitIds bad))) →
  let circuit_id_list :=
    circuit_id_list_of (slice 2 (find_end_index 2 lines) lines) in
  ((∃ bad, load_model_file find_end_index parse_int parse_float load_other_tables lines
           = inl (ModelException (BadCircuitIds bad)))
   ↔ ∃ c, c ∈ circuit_id_list ∧ count_occ_str c circuit_id_list ≠ 2) ∧
  (∀ bad, load_model_file find_end_index parse_int parse_float load_other_tables lines
          = inl (ModelException (BadCircuitIds bad)) →
     ∀ c n, (c, n) ∈ bad
            ↔ c ∈ circuit_id_list ∧ count_occ_str c circuit_id_list ≠ 2
              ∧ n = count_occ_str c circuit_id_list).
Proof.
  intros Hrest ids. unfold load_model_file. fold ids.
  case_bool_decide as Hbad.
  - split.
    + split; [intros _; by apply bad_circuit_ids_nonempty|eauto].
    + intros bad [= <-] c n. apply elem_of_bad_circuit_ids.
  - assert (Hno : ∀ bad,
      res_bind (_extract_interface_data_and_implied_nodes parse_int parse_float 2
                  (find_end_index 2 lines) lines)
        (λ sets, load_other_tables sets.1 sets.2 (find_end_index 2 lines) lines)
      ≠ inl (ModelException (BadCircuitIds bad))).
    { intros bad. unfold _extract_interface_data_and_implied_nodes.
      destruct (extract_interfaces _ _ _ _ _) as [e|sets] eqn:He; simpl.
      - apply extract_interfaces_error in He as [->|[line ->]]; done.
      - apply Hrest. }
    split.
    + split.
      * intros [bad Hload]. by destruct (Hno bad).
      * intros Hex. by apply bad_circuit_ids_nonempty in Hex.
    + intros bad Hload. by destruct (Hno bad).
Qed.

Lemma C9_witness :
  ∃ c, c ∈ ["1"; "1"; "2"; "3"; "3"; "3"]%string ∧
       count_occ_str c ["1"; "1"; "2"; "3"; "3"; "3"]%string ≠ 2.
Proof.
  refine (proj1 (proj1 (C9_circuit_id_load_error find_end_index_blank parse_decimal
                          parse_decimal_Q load_no_other_table file_bad_circuit_ids _)) _).
  - intros ifs ns e ls bad. unfold load_no_other_table. discriminate.
  - exists [("2", 1); ("3", 3)]%string. vm_compute. reflexivity.
Defined.

(** The claim as stated fails: this file makes [load_model_file] raise a
    load error, the ModelException of the short interface line, although
    each of its circuit_id values appears exactly twice. *)
Lemma C9_counterexample :
  load_model_file find_end_index_blank parse_decimal parse_decimal_Q
                  load_no_other_table file_short_line
    = inl (ModelException (InterfaceLineTooShort "A C A-to-C")) ∧
  circuit_id_list_of (slice 2 (find_end_index_blank 2 file_short_line) file_short_line)
    = ["1"; "1"]%string ∧
  Forall (λ c, count_occ_str c ["1"; "1"]%string = 2) ["1"; "1"]%string.
Proof.
  split; [|split].
  - vm_compute. reflexivity.
  - vm_compute. reflexivity.
  - repeat constructor.
Qed.

(** ** Loops *)

(** A loop whose rounds never raise keeps an invariant that each round
    extends from the objects done so far to one more. *)
Lemma for_each_invariant {A} (I : list A → Model → Prop) (l : list A)
    (body : A → M unit) (m : Model) :
  I [] m →
  (∀ done x rest m', l = done ++ x :: rest → I done m' →
     (body x m').1 = inr tt ∧ I (done ++ [x]) (body x m').2) →
  (for_each l body m).1 = inr tt ∧ I l (for_each l body m).2.
Proof.
  intros Hinit Hstep.
  assert (Hgen : ∀ rest done m', l = done ++ rest → I done m' →
            (for_each rest body m').1 = inr tt ∧ I (done ++ rest) (for_each rest body m').2).
  { induction rest as [|x rest IH]; intros done m' Hl HI; simpl.
    - rewrite app_nil_r. done.
    - destruct (Hstep done x rest m' Hl HI) as [Hok HI'].
      unfold bind. destruct (body x m') as [[e|[]] m'']; simpl in *; [done|].
      specialize (IH (done ++ [x]) m''). rewrite <- app_assoc in IH.
      apply IH; done. }
  apply (Hgen l [] m); done.
Qed.

(** A loop stops at the first round that raises. *)
Lemma for_each_app {A} (l1 l2 : list A) (body : A → M unit) (m : Model) :
  for_each (l1 ++ l2) body m
  = match for_each l1 body m with
    | (inl e, m') => (inl e, m')
    | (inr _, m') => for_each l2 body m'
    end.
Proof.
  revert m. induction l1 as [|x l1 IH]; intros m; simpl; [done|].
  unfold bind. destruct (body x m) as [[e|[]] m']; [done|]. apply IH.
Qed.

(** ** Demand router *)

Lemma only_interfaces_changed_refl m : only_interfaces_changed m m.
Proof. by repeat split. Qed.

Lemma only_interfaces_changed_trans m1 m2 m3 :
  only_interfaces_changed m1 m2 → only_interfaces_changed m2 m3 →
  only_interfaces_changed m1 m3.
Proof.
  intros (?&?&?&?&?&?) (?&?&?&?&?&?). repeat split; congruence.
Qed.

Lemma quiet_for_each {A} (l : list A) (body : A → M unit) :
  (∀ x, quiet (body x)) → quiet (for_each l body).
Proof.
  intros Hbody m.
  apply (for_each_invariant (λ _ m', only_interfaces_changed m m')).
  - apply only_interfaces_changed_refl.
  - intros done x rest m' _ HI. destruct (Hbody x m') as [Hok Hch].
    split; [done|]. by eapply only_interfaces_changed_trans.
Qed.

Lemma quiet_ret : quiet (ret tt).
Proof. intros m. split; [done|apply only_interfaces_changed_refl]. Qed.

Lemma quiet_add_traffic q k : quiet (add_traffic q k).
Proof. intros m. split; [done|]. by repeat split. Qed.

Lemma quiet_update_interface_utilization : quiet _update_interface_utilization.
Proof.
  intros m. unfold _update_interface_utilization. unfold bind at 1, get at 1.
  apply quiet_for_each. intros d.
  destruct (Demand.path d) as [|carriers]; [apply quiet_ret|].
  apply quiet_for_each. intros [lsp|interfaces].
  - destruct (RSVP_LSP.path <$> rsvp_lsp_objects m !! lsp) as [[| |ifs c]|];
      try apply quiet_ret.
    apply quiet_for_each. intros k. apply quiet_add_traffic.
  - apply quiet_for_each. intros k. apply quiet_add_traffic.
Qed.

Lemma normalize_spec G nx_sp all_paths :
  Forall (node_hop_sequence G) nx_sp →
  _get_all_paths_mdg G nx_sp = inr all_paths →
  _normalize_multidigraph_paths all_paths = enumerated_paths_spec G nx_sp.
Proof.
  intros Hw Hall. pose proof (path_enumerator_spec G nx_sp Hw) as Heq.
  rewrite Hall in Heq. simpl in Heq. congruence.
Qed.

Lemma all_shortest_paths_inl G s d e :
  all_shortest_paths G s d = inl e →
  (e = NetworkXNoPath ∧ s ∈ g_nodes G) ∨ (e = NodeNotFound ∧ s ∉ g_nodes G).
Proof.
  unfold all_shortest_paths. case_bool_decide.
  - destruct (min_Z _); [done|]. intros [= <-]. by left.
  - intros [= <-]. by right.
Qed.


Lemma route_demands_body_run G k d x :
  demand_objects x !! k = Some d →
  Demand.source_node_object d ∈ g_nodes G →
  ∃ x', _route_demands_body G k x = (inr tt, x') ∧
    interface_objects x' = interface_objects x ∧ node_objects x' = node_objects x ∧
    rsvp_lsp_objects x' = rsvp_lsp_objects x ∧ circuit_objects x' = circuit_objects x ∧
    srlg_objects x' = srlg_objects x ∧ _parallel_lsp_groups x' = _parallel_lsp_groups x ∧
    ∀ j, demand_objects x' !! j
         = if decide (j = k)
           then Some (Demand.set_path (demand_path_of G (rsvp_lsp_objects x) d) d)
           else demand_objects x !! j.
Proof.
  intros Hd Hsrc. unfold _route_demands_body, demand_path_of. run_M. rewrite Hd. simpl.
  assert (Hlook : ∀ (p1 p2 p3 : demand_path) j,
    alter (Demand.set_path p3) k
      (alter (Demand.set_path p2) k
         (alter (Demand.set_path p1) k (demand_objects x))) !! j
    = if decide (j = k) then Some (Demand.set_path p3 d) else demand_objects x !! j).
  { intros p1 p2 p3 j. destruct (decide (j = k)) as [->|Hne].
    - rewrite !list_lookup_alter, !decide_True, Hd by done. done.
    - rewrite !list_lookup_alter_ne by done. done. }
  assert (Hlook2 : ∀ (p1 p2 : demand_path) j,
    alter (Demand.set_path p2) k
      (alter (Demand.set_path p1) k (demand_objects x)) !! j
    = if decide (j = k) then Some (Demand.set_path p2 d) else demand_objects x !! j).
  { intros p1 p2 j. destruct (decide (j = k)) as [->|Hne].
    - rewrite !list_lookup_alter, !decide_True, Hd by done. done.
    - rewrite !list_lookup_alter_ne by done. done. }
  destruct (lsps_for_demand (rsvp_lsp_objects x) d) as [|c carried] eqn:Hc; simpl.
  - destruct (all_shortest_paths G _ _) as [e|nx_sp] eqn:Hsp.
    + apply all_shortest_paths_inl in Hsp as [[-> _]|[_ Hno]]; [|done].
      simpl. eexists. split; [done|]. split_and!; try done. apply Hlook.
    + apply all_shortest_paths_inr in Hsp as [_ Hw].
      assert (Hall : Forall (node_hop_sequence G) nx_sp).
      { apply Forall_forall. intros p Hp. by apply Hw. }
      rewrite (get_all_paths_mdg_spec G nx_sp Hall). simpl.
      eexists. split; [done|]. split_and!; try done.
      intros j. simpl. rewrite Hlook. case_decide; [|done].
      do 4 f_equal.
      eapply normalize_spec; [done|]. by apply get_all_paths_mdg_spec.
  - eexists. split; [done|]. split_and!; try done. apply Hlook2.
Qed.

Lemma route_demands_loop (m : Model) :
  let G := _make_weighted_network_graph_mdg m false 0 false in
  (∀ d, d ∈ demand_objects m → Demand.source_node_object d ∈ g_nodes G) →
  let r := for_each (seq 0 (length (demand_objects m))) (_route_demands_body G) m in
  r.1 = inr tt ∧ demands_routed G m (seq 0 (length (demand_objects m))) r.2.
Proof.
  intros G Hsrc r. subst r.
  apply (for_each_invariant (demands_routed G m)).
  - unfold demands_routed. by split_and!.
  - intros done k rest x Hseq (Hi & Hn & Hl & Hc & Hs & Hg & Hdem).
    assert (Hnd : NoDup (done ++ k :: rest)) by (rewrite <- Hseq; apply NoDup_seq).
    apply NoDup_app in Hnd as (_ & Hdisj & _).
    assert (Hk : k ∉ done) by (intros Hin; apply (Hdisj k Hin); by left).
    assert (Hlt : k < length (demand_objects m)).
    { assert (Hin : k ∈ seq 0 (length (demand_objects m)))
        by (rewrite Hseq, elem_of_app; right; by left).
      apply elem_of_seq in Hin. lia. }
    destruct (lookup_lt_is_Some_2 _ _ Hlt) as [d Hd].
    assert (Hdx : demand_objects x !! k = Some d) by (by rewrite Hdem, decide_False).
    destruct (route_demands_body_run G k d x Hdx)
      as (x' & Hrun & Hi' & Hn' & Hl' & Hc' & Hs' & Hg' & Hdem').
    { apply Hsrc. by eapply list_elem_of_lookup_2. }
    rewrite Hrun. simpl. split; [done|].
    repeat split; try congruence.
    intros j. rewrite Hdem'. destruct (decide (j = k)) as [->|Hne].
    + rewrite decide_True by (apply elem_of_app; right; by left).
      rewrite Hd, Hl. done.
    + rewrite Hdem. destruct (decide (j ∈ done)) as [Hin|Hnin].
      * by rewrite decide_True by (apply elem_of_app; by left).
      * rewrite decide_False; [done|].
        rewrite elem_of_app, list_elem_of_singleton. tauto.
Qed.

Lemma route_demands_unfold (m : Model) :
  _route_demands m
  = match for_each (seq 0 (length (demand_objects m)))
            (_route_demands_body (_make_weighted_network_graph_mdg m false 0 false)) m with
    | (inl e, m') => (inl e, m')
    | (inr _, m') => _update_interface_utilization m'
    end.
Proof. reflexivity. Qed.

Lemma route_demands_run (m : Model) :
  let G := _make_weighted_network_graph_mdg m false 0 false in
  (∀ d, d ∈ demand_objects m → Demand.source_node_object d ∈ g_nodes G) →
  (_route_demands m).1 = inr tt ∧
  rsvp_lsp_objects (_route_demands m).2 = rsvp_lsp_objects m ∧
  ∀ k, demand_objects (_route_demands m).2 !! k
       = (λ d, Demand.set_path (demand_path_of G (rsvp_lsp_objects m) d) d)
           <$> demand_objects m !! k.
Proof.
  intros G Hsrc. destruct (route_demands_loop m Hsrc) as [Hok Hrouted].
  subst G. rewrite route_demands_unfold.
  destruct (for_each _ (_route_demands_body _) m) as [[e|[]] x]; simpl in *; [done|].
  destruct (quiet_update_interface_utilization x) as [Hok' (_ & Hdem & Hlsp & _)].
  destruct (_update_interface_utilization x) as [r x']. simpl in *.
  destruct Hrouted as (_ & _ & Hl & _ & _ & _ & Hd).
  split_and!; [done|congruence|].
  intros k. rewrite Hdem, Hd.
  destruct (decide (k ∈ seq 0 (length (demand_objects m)))) as [|Hout]; [done|].
  rewrite elem_of_seq in Hout.
  rewrite (lookup_ge_None_2 (demand_objects m) k) by lia. done.
Qed.




(** Scenario S2 of the spec: the demand takes the two parallel links, and
    each carries half of its traffic. *)
Example route_demands_net_parallel :
  Demand.path <$> demand_objects (_route_demands net_parallel).2
    = [DemandRouted [ViaInterfaces [0]; ViaInterfaces [2]]] ∧
  Forall2 Qeq (Interface.traffic <$> interface_objects (_route_demands net_parallel).2)
              [30; 0; 30; 0]%Q.
Proof. split; [by vm_compute|]. repeat constructor. Qed.

(** ** Validator *)

(** C5, at the failing input. On a model with an interface that has no
    counterpart, [validate_model] raises at its first step the exception of
    [_make_circuits_multidigraph], which lists the unmatched interfaces; it
    does not raise the aggregate validation error, and the failure of the
    node-name check of the same model is reported nowhere. *)
Theorem C5_orphan_interface_aborts_validation :
  (validate_model net_orphan).1
    = inl (ModelException (IntsNotMatched [Edge.mk "A" "B" 10 0 "1"])) ∧
  length (node_objects net_orphan)
    ≠ length (remove_dups (Node.name <$> node_objects net_orphan)) ∧
  (∀ error_data,
     (validate_model net_orphan).1 ≠ inl (ModelException (ValidationFailed error_data))).
Proof.
  assert (Hrun : (validate_model net_orphan).1
    = inl (ModelException (IntsNotMatched [Edge.mk "A" "B" 10 0 "1"]))).
  { vm_compute. reflexivity. }
  split; [exact Hrun|]. split.
  - vm_compute. lia.
  - intros error_data. rewrite Hrun. discriminate.
Qed.

(** ** Reservations stay within the reservable bandwidth *)

Lemma preserves_ret P {A} (a : A) : preserves P (ret a).
Proof. by intros m. Qed.

Lemma preserves_raise P {A} (e : exn) : preserves P (@raise A e).
Proof. by intros m. Qed.

Lemma preserves_lift P {A} (r : res A) : preserves P (lift r).
Proof. by intros m. Qed.

Lemma preserves_get P : preserves P get.
Proof. by intros m. Qed.

Lemma preserves_modify (P : Model → Prop) (f : Model → Model) :
  (∀ m, P m → P (f m)) → preserves P (modify f).
Proof. intros Hf m. apply Hf. Qed.

Lemma preserves_bind P {A B} (c : M A) (f : A → M B) :
  preserves P c → (∀ a, preserves P (f a)) → preserves P (bind c f).
Proof.
  intros Hc Hf m Hm. unfold bind. specialize (Hc m Hm).
  destruct (c m) as [[e|a] m']; simpl in *; [done|]. by apply Hf.
Qed.

Lemma preserves_for_each P {A} (l : list A) (body : A → M unit) :
  (∀ x, preserves P (body x)) → preserves P (for_each l body).
Proof.
  intros Hbody. induction l as [|x l IH]; simpl.
  - apply preserves_ret.
  - apply preserves_bind; [apply Hbody|]. intros _. apply IH.
Qed.

Lemma preserves_read_interface P k : preserves P (read_interface k).
Proof. by intros m. Qed.

Lemma preserves_read_lsp P k : preserves P (read_lsp k).
Proof. by intros m. Qed.

Lemma preserves_read_demand P k : preserves P (read_demand k).
Proof. by intros m. Qed.

Lemma within_reservable_add (bw : Q) (i : Interface.t) :
  (bw <= Interface.reservable_bandwidth i)%Q →
  within_reservable
    (Interface.set_reserved_bandwidth (Interface.reserved_bandwidth i + bw)%Q i).
Proof.
  unfold within_reservable, Interface.reservable_bandwidth. destruct i; simpl.
  set (c := (capacity * percent_reservable_bandwidth / 100)%Q). intros H. lra.
Qed.

Lemma reserve_bounded (bw : Q) (path : list nat) (ints : list Interface.t) :
  NoDup path → enough_reservable_bw ints bw path →
  Forall within_reservable ints → Forall within_reservable (reserve bw path ints).
Proof.
  unfold reserve, enough_reservable_bw. revert ints.
  induction path as [|k path IH]; intros ints Hnd Hen Hb; simpl; [done|].
  apply NoDup_cons in Hnd as [Hk Hnd].
  apply Forall_cons in Hen as [(i & Hi & Hbw) Hen].
  apply IH; [done| |].
  - apply Forall_forall. intros k' Hk'. rewrite Forall_forall in Hen.
    destruct (Hen k' Hk') as (i' & Hi' & Hbw'). exists i'. split; [|done].
    rewrite list_lookup_alter_ne; [done|]. by intros ->.
  - apply Forall_alter; [done|]. intros i' Hi' _.
    assert (i' = i) as -> by congruence. by apply within_reservable_add.
Qed.

Lemma Qmin2_le (x y : Q) : (Qmin2 x y <= x)%Q ∧ (Qmin2 x y <= y)%Q.
Proof.
  unfold Qmin2. destruct (Qle_bool x y) eqn:Hxy.
  - apply Qle_bool_iff in Hxy. split; [apply Qle_refl|done].
  - split; [|apply Qle_refl].
    destruct (Qlt_le_dec y x) as [Hlt|Hle]; [by apply Qlt_le_weak|].
    apply Qle_bool_iff in Hle. congruence.
Qed.

Lemma foldl_Qmin2_le (l : list Q) (x : Q) :
  (foldl Qmin2 x l <= x)%Q ∧ Forall (λ y, (foldl Qmin2 x l <= y)%Q) l.
Proof.
  revert x. induction l as [|z l IH]; intros x; simpl.
  - split; [apply Qle_refl|constructor].
  - destruct (IH (Qmin2 x z)) as [H1 H2]. destruct (Qmin2_le x z) as [Hx Hz].
    split; [by eapply Qle_trans|].
    constructor; [by eapply Qle_trans|done].
Qed.

Lemma min_Q_le (l : list Q) (least : Q) :
  min_Q l = inr least → Forall (λ y, (least <= y)%Q) l.
Proof.
  destruct l as [|x l]; simpl; [done|]. intros [= <-].
  destruct (foldl_Qmin2_le l x) as [H1 H2]. by constructor.
Qed.

Lemma has_reservable_bw_enough ints bw p :
  has_reservable_bw ints bw p = inr true → enough_reservable_bw ints bw p.
Proof.
  unfold has_reservable_bw, enough_reservable_bw.
  destruct (reservable_bandwidths ints p) as [e|bws] eqn:Hbws; simpl; [done|].
  destruct (min_Q bws) as [e|least] eqn:Hmin; simpl; [done|].
  intros [= Hle]. apply Qle_bool_iff in Hle.
  apply reservable_bandwidths_inr in Hbws. apply min_Q_le in Hmin.
  revert Hmin. induction Hbws as [|k q p bws (i & Hi & ->) _ IH]; intros Hmin.
  - constructor.
  - apply Forall_cons in Hmin as [Hq Hmin]. constructor; [|by apply IH].
    exists i. split; [done|]. by eapply Qle_trans.
Qed.

Lemma Forall2_NoDup_image {A B} (f : A → option B) (p : list A) (l : list B) :
  Forall2 (λ k b, f k = Some b) p l → NoDup l → NoDup p.
Proof.
  induction 1 as [|k b p l Hk Hall IH]; intros Hnd; [constructor|].
  apply NoDup_cons in Hnd as [Hb Hnd]. constructor; [|by apply IH].
  intros Hin. apply list_elem_of_lookup in Hin as [j Hj].
  destruct (Forall2_lookup_l _ _ _ _ _ Hall Hj) as (b' & Hb' & Hf).
  assert (b' = b) as -> by congruence.
  apply Hb. by eapply list_elem_of_lookup_2.
Qed.

Lemma elem_of_local_ecmp_set self f bw r a b k :
  k ∈ local_ecmp_set (_make_weighted_network_graph_mdg self f bw r) a b →
  ∃ i, interface_objects self !! k = Some i ∧ eligible f bw r i ∧
       Interface.node_object i = a ∧ Interface.remote_node_object i = b.
Proof.
  unfold local_ecmp_set. rewrite list_elem_of_fmap.
  intros (e & -> & He). apply list_elem_of_filter in He as [_ He].
  apply list_elem_of_filter in He as [[Hu Hv] He].
  apply graph_edge_inv in He as (i & Hi & Hel & Heq).
  exists i. split_and!; [done|done| |].
  - rewrite <- Hu, Heq. done.
  - rewrite <- Hv, Heq. done.
Qed.

(** A concrete path enumerated from a node sequence without repetition
    takes no interface twice. *)
Lemma enumerated_path_NoDup self f bw r nx_sp path :
  (∀ p, p ∈ nx_sp → NoDup p) →
  path ∈ enumerated_paths_spec (_make_weighted_network_graph_mdg self f bw r) nx_sp →
  NoDup path.
Proof.
  intros Hnd Hpath. unfold enumerated_paths_spec in Hpath.
  apply list_elem_of_bind in Hpath as (p & Hpath & Hp).
  apply elem_of_product in Hpath. rewrite Forall2_fmap_r in Hpath.
  apply (Forall2_NoDup_image
           (λ k, Interface.remote_node_object <$> interface_objects self !! k)
           path (tail p)).
  - assert (Hsnd : (adjacent_pairs p).*2 = tail p).
    { unfold adjacent_pairs. apply snd_zip. destruct p; simpl; lia. }
    rewrite <- Hsnd. apply Forall2_fmap_r.
    eapply Forall2_impl; [exact Hpath|]. simpl. intros k ab Hk.
    apply elem_of_local_ecmp_set in Hk as (i & -> & _ & _ & <-). done.
  - specialize (Hnd p Hp). destruct p as [|a p]; simpl; [constructor|].
    by apply NoDup_cons in Hnd as [_ ?].
Qed.

Lemma lsp_candidates_path m bw s d cands p :
  lsp_candidates m bw s d = inr (Some cands) → p ∈ cands →
  NoDup p ∧ enough_reservable_bw (interface_objects m) bw p ∧
  ∃ nx_sp,
    all_shortest_paths (_make_weighted_network_graph_mdg m false bw true) s d = inr nx_sp ∧
    p ∈ enumerated_paths_spec (_make_weighted_network_graph_mdg m false bw true) nx_sp.
Proof.
  intros (nx_sp & all_paths & Hsp & Hall & Hc)%lsp_candidates_inr Hp.
  eapply candidates_w_reservable_bw_inr in Hc. apply Hc in Hp as [Hp Hbw].
  pose proof (all_shortest_paths_inr _ _ _ _ Hsp) as [_ Hw].
  assert (Hseq : Forall (node_hop_sequence
                          (_make_weighted_network_graph_mdg m false bw true)) nx_sp).
  { apply Forall_forall. intros q Hq. by apply Hw. }
  rewrite (normalize_spec _ _ _ Hseq Hall) in Hp.
  split_and!.
  - eapply enumerated_path_NoDup; [|exact Hp]. intros q Hq. by apply Hw.
  - by apply has_reservable_bw_enough.
  - by exists nx_sp.
Qed.

Lemma choose_new_path_elem draw cands p :
  choose_new_path draw cands = inr (Some p) → p ∈ cands.
Proof.
  destruct cands as [|a [|b cands]].
  - done.
  - simpl. intros [= <-]. by left.
  - intros Hchoose.
    destruct (choose_new_path_several draw (a :: b :: cands))
      as (fewest & p' & _ & Hc & Hin & _); [simpl; lia|].
    assert (p' = p) as -> by congruence.
    by apply list_elem_of_filter in Hin as [_ ?].
Qed.

Lemma determine_body_bounded traff draw lsp :
  preserves reservations_bounded (_determine_lsp_state_info_body traff draw lsp).
Proof.
  intros m Hb. destruct (rsvp_lsp_objects m !! lsp) as [l|] eqn:Hl.
  - rewrite (determine_body_run traff draw lsp l m Hl). simpl.
    destruct (lsp_candidates m _ _ _) as [e|[cands|]] eqn:Hc; simpl; try done.
    destruct (choose_new_path draw cands) as [e|[new_path|]] eqn:Hchoose; simpl; try done.
    destruct (path_cost (interface_objects m) new_path) as [e|cost]; simpl; try done.
    apply choose_new_path_elem in Hchoose.
    destruct (lsp_candidates_path _ _ _ _ _ _ Hc Hchoose) as (Hnd & Hen & _).
    unfold reservations_bounded. simpl. by apply reserve_bounded.
  - unfold _determine_lsp_state_info_body. run_M. rewrite Hl. simpl. done.
Qed.

Lemma determine_lsp_state_info_bounded rnd lsps traff :
  preserves reservations_bounded (_determine_lsp_state_info rnd lsps traff).
Proof.
  apply preserves_for_each. intros lsp. apply determine_body_bounded.
Qed.

Lemma route_lsps_bounded rnd : preserves reservations_bounded (_route_lsps rnd).
Proof.
  apply preserves_bind; [apply preserves_get|]. intros self.
  apply preserves_for_each. intros group. apply determine_lsp_state_info_bounded.
Qed.

(** Code that leaves the reservation and the ceiling of every interface as
    they are keeps the bound. *)
Lemma update_demand_bounded k f : preserves reservations_bounded (update_demand k f).
Proof. by apply preserves_modify. Qed.

Lemma update_lsp_bounded k f : preserves reservations_bounded (update_lsp k f).
Proof. by apply preserves_modify. Qed.

Lemma update_interface_bounded k f :
  (∀ i, within_reservable i → within_reservable (f i)) →
  preserves reservations_bounded (update_interface k f).
Proof.
  intros Hf. apply preserves_modify. intros m Hm.
  unfold reservations_bounded in *. simpl. apply Forall_alter; [done|]. auto.
Qed.

Lemma route_demands_body_bounded G k :
  preserves reservations_bounded (_route_demands_body G k).
Proof.
  unfold _route_demands_body.
  apply preserves_bind; [apply preserves_read_demand|]. intros d.
  apply preserves_bind; [apply update_demand_bounded|]. intros _.
  apply preserves_bind; [apply preserves_get|]. intros model.
  apply preserves_bind; [apply update_demand_bounded|]. intros _.
  case_bool_decide; [|apply preserves_ret].
  destruct (all_shortest_paths G _ _) as [[]|nx_sp];
    try apply preserves_raise; try apply update_demand_bounded.
  apply preserves_bind; [apply preserves_lift|]. intros all_paths.
  apply update_demand_bounded.
Qed.

Lemma add_traffic_bounded q k : preserves reservations_bounded (add_traffic q k).
Proof. apply update_interface_bounded. by intros []. Qed.

Lemma update_interface_utilization_bounded :
  preserves reservations_bounded _update_interface_utilization.
Proof.
  apply preserves_bind; [apply preserves_get|]. intros self.
  apply preserves_for_each. intros d.
  destruct (Demand.path d) as [|carriers]; [apply preserves_ret|].
  apply preserves_for_each. intros [lsp|interfaces].
  - destruct (RSVP_LSP.path <$> rsvp_lsp_objects self !! lsp) as [[| |ifs c]|];
      try apply preserves_ret.
    apply preserves_for_each. intros k. apply add_traffic_bounded.
  - apply preserves_for_each. intros k. apply add_traffic_bounded.
Qed.

Lemma route_demands_bounded : preserves reservations_bounded _route_demands.
Proof.
  apply preserves_bind; [apply preserves_get|]. intros self.
  apply preserves_bind.
  - apply preserves_for_each. intros k. apply route_demands_body_bounded.
  - intros _. apply update_interface_utilization_bounded.
Qed.

Lemma pair_interfaces_bounded graph_interfaces circuits :
  preserves reservations_bounded (pair_interfaces graph_interfaces circuits).
Proof.
  revert circuits. induction graph_interfaces as [|e es IH]; intros circuits; simpl.
  - apply preserves_ret.
  - apply preserves_bind; [apply preserves_get|]. intros self.
    apply preserves_bind; [apply preserves_lift|]. intros int1.
    apply preserves_bind; [apply preserves_lift|]. intros int2.
    apply preserves_bind; [apply preserves_read_interface|]. intros i1.
    apply preserves_bind; [apply preserves_read_interface|]. intros i2.
    destruct (negb (Interface.in_ckt i1) && negb (Interface.in_ckt i2)); [|apply IH].
    apply preserves_bind; [apply update_interface_bounded; by intros []|]. intros _.
    apply preserves_bind; [apply update_interface_bounded; by intros []|]. intros _.
    apply IH.
Qed.

Lemma make_circuits_bounded return_exception include_failed_circuits :
  preserves reservations_bounded
    (_make_circuits_multidigraph return_exception include_failed_circuits).
Proof.
  apply preserves_bind; [apply preserves_get|]. intros self.
  apply preserves_bind.
  { apply preserves_modify. intros m Hm. unfold reservations_bounded in *. simpl.
    apply Forall_fmap. eapply Forall_impl; [exact Hm|]. by intros []. }
  intros _. apply preserves_bind; [apply pair_interfaces_bounded|]. intros circuits.
  cbv zeta.
  match goal with |- preserves _ (if ?b then _ else _) => destruct b end.
  - destruct return_exception; [apply preserves_raise|apply preserves_ret].
  - apply preserves_bind; [by apply preserves_modify|]. intros _. apply preserves_ret.
Qed.

Lemma validate_model_bounded : preserves reservations_bounded validate_model.
Proof.
  apply preserves_bind; [apply make_circuits_bounded|]. intros circuits.
  apply preserves_bind; [apply preserves_get|]. intros self. cbv zeta.
  case_bool_decide; [apply preserves_raise|apply preserves_ret].
Qed.

Lemma update_simulation_unfold rnd m :
  update_simulation rnd m
  = (_route_lsps rnd ;; _route_demands ;; validate_model)%M (reset_state m).
Proof. reflexivity. Qed.

Lemma bind_inr {A B} (c : M A) (f : A → M B) (m : Model) (b : B) :
  (bind c f m).1 = inr b →
  ∃ a m', c m = (inr a, m') ∧ bind c f m = f a m'.
Proof.
  unfold bind. destruct (c m) as [[e|a] m']; simpl; [done|]. eauto.
Qed.

Lemma reset_state_bounded (m : Model) :
  Forall (λ i, (0 <= Interface.max_reservable i)%Q) (interface_objects m) →
  reservations_bounded (reset_state m).
Proof.
  intros Hm. unfold reservations_bounded. simpl. apply Forall_fmap.
  eapply Forall_impl; [exact Hm|]. by intros [].
Qed.

(** A model that passes validation keeps every reservation within the
    reservable bandwidth: it is check 4 of the validator. *)
Lemma validate_model_run (m : Model) :
  validate_model m
  = match _make_circuits_multidigraph true true m with
    | (inl e, x) => (inl e, x)
    | (inr circuits, x) =>
        if bool_decide (0 < length (validation_error_data circuits x))
        then (inl (ModelException (ValidationFailed (validation_error_data circuits x))), x)
        else (inr tt, x)
    end.
Proof.
  unfold validate_model, bind.
  destruct (_make_circuits_multidigraph true true m) as [[e|circuits] x]; [done|].
  unfold get. by case_bool_decide.
Qed.

(** A model that passes validation keeps every reservation within the
    reservable bandwidth: it is check 4 of the validator. *)
Lemma validate_model_ok_bounded (m : Model) :
  (validate_model m).1 = inr tt → reservations_bounded (validate_model m).2.
Proof.
  rewrite validate_model_run.
  destruct (_make_circuits_multidigraph true true m) as [[e|circuits] x]; [done|].
  case_bool_decide as Hb; [done|]. intros _. simpl.
  assert (Hnil : ∀ {A} (l : list A), ¬ 0 < length l → l = []).
  { intros A [|a l]; simpl; [done|lia]. }
  apply Hnil in Hb. unfold validation_error_data in Hb.
  apply app_eq_nil in Hb as [_ Hb]. apply app_eq_nil in Hb as [Hb _].
  unfold entry_if in Hb. case_bool_decide as Hlen; [done|].
  apply Hnil in Hlen. apply fmap_nil_inv in Hlen.
  unfold reservations_bounded. apply Forall_forall. intros i Hi.
  apply list_elem_of_lookup in Hi as [k Hk].
  assert (Hin : (k, i) ∈ enumerate (interface_objects x)) by (by apply elem_of_enumerate).
  destruct (decide (res_bw_too_high i = true)) as [Hhigh|Hlow].
  - exfalso. eapply (filter_nil_not_elem_of _ _ (k, i) Hlen); done.
  - unfold res_bw_too_high in Hlow. apply not_true_is_false, negb_false_iff in Hlow.
    by apply Qle_bool_iff in Hlow.
Qed.

(** With the bandwidths taken as exact rationals, every interface keeps
    reserved_bandwidth <= capacity x percent_reservable_bandwidth / 100:
    - each LSP commit preserves the bound, and so does the whole of
      [_determine_lsp_state_info], because a committed path takes no
      interface twice and only has interfaces whose reservable bandwidth is
      at least the setup bandwidth of the LSP;
    - after every simulation tick on a model whose interfaces have a
      non-negative reservable ceiling (the models that validate once their
      reservations are reset), the bound holds of every interface, whether
      the tick ends normally or raises;
    - after every simulation tick that ends with a model that validates,
      the bound holds of every interface. *)
Theorem exact_reservations_within_reservable :
  (∀ rnd lsps traff m,
     reservations_bounded m →
     reservations_bounded (_determine_lsp_state_info rnd lsps traff m).2) ∧
  (∀ rnd m,
     Forall (λ i, (0 <= Interface.capacity i
                        * Interface.percent_reservable_bandwidth i / 100)%Q)
            (interface_objects m) →
     reservations_bounded (update_simulation rnd m).2) ∧
  (∀ rnd m,
     (update_simulation rnd m).1 = inr tt →
     reservations_bounded (update_simulation rnd m).2).
Proof.
  split_and!.
  - intros rnd lsps traff. apply determine_lsp_state_info_bounded.
  - intros rnd m Hm. rewrite update_simulation_unfold.
    apply (preserves_bind reservations_bounded (_route_lsps rnd));
      [apply route_lsps_bounded| |by apply reset_state_bounded].
    intros _. apply preserves_bind; [apply route_demands_bounded|].
    intros _. apply validate_model_bounded.
  - intros rnd m. rewrite update_simulation_unfold. intros Hok.
    destruct (bind_inr _ _ _ _ Hok) as ([] & x1 & _ & Hrun1). rewrite Hrun1 in *.
    destruct (bind_inr _ _ _ _ Hok) as ([] & x2 & _ & Hrun2). rewrite Hrun2 in *.
    by apply validate_model_ok_bounded.
Qed.

Lemma exact_reservations_within_reservable_witness : reservations_bounded (update_simulation (λ _, 0) net_parallel).2.
Proof.
  apply (proj1 (proj2 exact_reservations_within_reservable)).
  repeat constructor; vm_compute; discriminate.
Defined.

(** C6. On the numbers of the program the commit of an LSP does not keep
    reserved_bandwidth <= capacity x percent_reservable_bandwidth / 100.
    On [net_rounding] the bound of interface A-to-B is 1 x 11 / 100 = 0.11,
    the same number when the quotient is taken before the product.
    [_determine_lsp_state_info] places the LSP of 0.04 and then the LSP of
    0.07 and returns:
    - after the first LSP the interface has 0.11 - 0.04 left, which is not
      less than 0.07, so that its path is eligible for the second LSP;
    - both LSPs end routed over the interface;
    - the two commits leave the interface with 0.04 + 0.07 reserved, which is
      rounded to 0.11000000000000001 and is greater than the bound. *)
Theorem C6_commit_rounds_above_the_reservable_bound :
  let first :=
    Doubles._determine_lsp_state_info (λ _, 0) [0] PrimFloat.zero net_rounding in
  let after :=
    Doubles._determine_lsp_state_info (λ _, 0) [0; 1] PrimFloat.zero net_rounding in
  (has_room seven_hundredths <$> Doubles.interface_objects first.2 !! 0 = Some true) ∧
  after.1 = inr tt ∧
  Doubles.RSVP_LSP.path <$> Doubles.rsvp_lsp_objects after.2
  = [LspRouted [0] 10; LspRouted [0] 10] ∧
  Doubles.RSVP_LSP.reserved_bandwidth <$> Doubles.rsvp_lsp_objects after.2
  = [Doubles.Bw four_hundredths; Doubles.Bw seven_hundredths] ∧
  Doubles.max_reservable <$> Doubles.interface_objects net_rounding
  = max_reservable_quotient_first <$> Doubles.interface_objects net_rounding ∧
  over_reserved <$> Doubles.interface_objects net_rounding = [false; false] ∧
  over_reserved <$> Doubles.interface_objects after.2 = [true; false].
Proof. vm_compute. by repeat split. Qed.

(** Scenario S3 of the spec, on the parallel links: the LSP reserves its
    configured 10 on one of the links. *)
Example tick_net_parallel :
  (update_simulation (λ _, 0) net_parallel).1 = inr tt ∧
  RSVP_LSP.path <$> rsvp_lsp_objects (update_simulation (λ _, 0) net_parallel).2
    = [LspRouted [0] 10] ∧
  Interface.reserved_bandwidth <$> interface_objects (update_simulation (λ _, 0) net_parallel).2
    = [0 + 10; 0; 0; 0]%Q.
Proof. by vm_compute. Qed.

(** ** A tick does not depend on the tick before *)

Lemma fmap_alter_absorb {A B} (g : A → B) (f : A → A) (k : nat) (l : list A) :
  (∀ x, g (f x) = g x) → g <$> alter f k l = g <$> l.
Proof.
  intros Hf. apply list_eq. intros j. rewrite !list_lookup_fmap.
  destruct (decide (k = j)) as [->|Hne].
  - rewrite list_lookup_alter_eq. destruct (l !! j); simpl; [|done]. by rewrite Hf.
  - by rewrite list_lookup_alter_ne.
Qed.

Lemma fmap_fmap_absorb {A B} (g : A → B) (f : A → A) (l : list A) :
  (∀ x, g (f x) = g x) → g <$> (f <$> l) = g <$> l.
Proof.
  intros Hf. rewrite <- list_fmap_compose. apply list_fmap_ext. intros _ x _. apply Hf.
Qed.

Lemma decl_update_interface m0 k f :
  (∀ i, static_interface (f i) = static_interface i) →
  preserves (same_declaration m0) (update_interface k f).
Proof.
  intros Hf. apply preserves_modify. intros m [].
  split; simpl; try done. by rewrite fmap_alter_absorb.
Qed.

Lemma decl_update_lsp m0 k f :
  (∀ l, static_lsp (f l) = static_lsp l) →
  preserves (same_declaration m0) (update_lsp k f).
Proof.
  intros Hf. apply preserves_modify. intros m [].
  split; simpl; try done. by rewrite fmap_alter_absorb.
Qed.

Lemma decl_update_demand m0 k f :
  (∀ d, static_demand (f d) = static_demand d) →
  preserves (same_declaration m0) (update_demand k f).
Proof.
  intros Hf. apply preserves_modify. intros m [].
  split; simpl; try done. by rewrite fmap_alter_absorb.
Qed.

(** One structural step of a proof that code preserves a property. *)
Ltac preserves_step :=
  first
    [ apply preserves_ret | apply preserves_raise | apply preserves_lift
    | apply preserves_get | apply preserves_read_interface
    | apply preserves_read_lsp | apply preserves_read_demand
    | apply preserves_for_each; intros ?
    | apply preserves_bind; [|intros ?]
    | progress cbv zeta
    | match goal with
      | |- preserves _ (if ?b then _ else _) => destruct b
      | |- preserves _ (match ?x with _ => _ end) => destruct x
      end ].

Lemma decl_determine_body m0 traff draw lsp :
  preserves (same_declaration m0) (_determine_lsp_state_info_body traff draw lsp).
Proof.
  unfold _determine_lsp_state_info_body, mark_unrouted, _add_lsp_path_data,
    commit_reservation, add_reservation.
  repeat preserves_step;
    try (apply decl_update_lsp; by intros []);
    try (apply decl_update_interface; by intros []).
Qed.

Lemma decl_route_lsps m0 rnd : preserves (same_declaration m0) (_route_lsps rnd).
Proof.
  apply preserves_bind; [apply preserves_get|]. intros self.
  apply preserves_for_each. intros group.
  apply preserves_for_each. intros lsp. apply decl_determine_body.
Qed.

Lemma decl_route_demands m0 : preserves (same_declaration m0) _route_demands.
Proof.
  unfold _route_demands, _route_demands_body, _update_interface_utilization, add_traffic.
  repeat preserves_step;
    try (apply decl_update_demand; by intros []);
    try (apply decl_update_interface; by intros []).
Qed.

Lemma decl_pair_interfaces m0 graph_interfaces circuits :
  preserves (same_declaration m0) (pair_interfaces graph_interfaces circuits).
Proof.
  revert circuits. induction graph_interfaces as [|e es IH]; intros circuits; simpl.
  - apply preserves_ret.
  - repeat preserves_step; try apply IH;
      try (apply decl_update_interface; by intros []).
Qed.

Lemma decl_validate_model m0 : preserves (same_declaration m0) validate_model.
Proof.
  unfold validate_model, _make_circuits_multidigraph.
  repeat preserves_step; try apply decl_pair_interfaces.
  - apply preserves_modify. intros m []. split; simpl; try done.
    by rewrite fmap_fmap_absorb.
  - apply preserves_modify. by intros m [].
Qed.

Lemma decl_reset_state m : same_declaration m (reset_state m).
Proof.
  split; simpl; try done.
  - apply fmap_fmap_absorb. by intros [].
  - apply fmap_fmap_absorb. by intros [].
  - apply fmap_fmap_absorb. by intros [].
Qed.

Lemma decl_update_simulation rnd m :
  same_declaration m (update_simulation rnd m).2.
Proof.
  rewrite update_simulation_unfold.
  apply (preserves_bind (same_declaration m) (_route_lsps rnd));
    [apply decl_route_lsps| |apply decl_reset_state].
  intros _. apply preserves_bind; [apply decl_route_demands|].
  intros _. apply decl_validate_model.
Qed.

Lemma filter_fmap {A B} (f : A → B) (P : B → Prop) `{!∀ x, Decision (P x)}
    (l : list A) :
  filter P (f <$> l) = f <$> filter (λ x, P (f x)) l.
Proof.
  induction l as [|x l IH]; [done|].
  rewrite fmap_cons, !filter_cons, IH. by destruct (decide (P (f x))).
Qed.

(** Selecting and transforming the objects of a store is blind to a change
    of the objects that neither the selection nor the transformation
    sees. *)
Lemma select_enumerate_fmap {A B} (c : A → A) (P : nat * A → Prop)
    `{!∀ x, Decision (P x)} (g : nat * A → B) (l : list A) :
  (∀ k x, P (k, c x) ↔ P (k, x)) → (∀ k x, g (k, c x) = g (k, x)) →
  g <$> filter P (enumerate (c <$> l)) = g <$> filter P (enumerate l).
Proof.
  intros HP Hg. rewrite enumerate_fmap, filter_fmap, <- list_fmap_compose.
  rewrite (list_filter_iff _ P) by (intros [k x]; apply HP).
  apply list_fmap_ext. intros _ [k x] _. apply Hg.
Qed.

Lemma graph_unfold self f bw r :
  _make_weighted_network_graph_mdg self f bw r
  = add_nodes_from (Node.name <$> node_objects self)
      (add_edges_from
         (edge_of <$> filter (λ ki, eligible f bw r ki.2)
                             (enumerate (interface_objects self)))
         (mkGraph [] [])).
Proof.
  unfold _make_weighted_network_graph_mdg. do 2 f_equal.
  destruct f, r; rewrite ?list_filter_filter; f_equal; apply list_filter_iff;
    intros [k i]; unfold eligible; simpl; rewrite Qle_bool_iff;
    destruct (Interface.failed i), (Interface.rsvp_enabled i); intuition congruence.
Qed.

Lemma graph_core x y f bw r :
  core_interface <$> interface_objects x = core_interface <$> interface_objects y →
  node_objects x = node_objects y →
  _make_weighted_network_graph_mdg x f bw r = _make_weighted_network_graph_mdg y f bw r.
Proof.
  intros Hi Hn. rewrite !graph_unfold, Hn. do 2 f_equal.
  rewrite <- (select_enumerate_fmap core_interface _ edge_of (interface_objects x)),
          <- (select_enumerate_fmap core_interface _ edge_of (interface_objects y)),
          Hi; try done; by intros k [].
Qed.

Lemma lookup_core_interface {A} (g : Interface.t → A) (lx ly : list Interface.t) k :
  (∀ i, g (core_interface i) = g i) →
  core_interface <$> lx = core_interface <$> ly →
  g <$> lx !! k = g <$> ly !! k.
Proof.
  intros Hg Heq.
  assert (H : (g <$> (core_interface <$> lx)) !! k = (g <$> (core_interface <$> ly)) !! k)
    by (by rewrite Heq).
  rewrite !list_lookup_fmap in H.
  destruct (lx !! k), (ly !! k); simpl in *; try done. by rewrite !Hg in H.
Qed.

Lemma res_mapM_ext {A B} (f g : A → res B) (l : list A) :
  (∀ x, f x = g x) → res_mapM f l = res_mapM g l.
Proof.
  intros Hfg. induction l as [|x l IH]; simpl; [done|]. by rewrite Hfg, IH.
Qed.

Lemma lookup_from_option_core {A} (g : Interface.t → A) (lx ly : list Interface.t)
    (k : nat) :
  (∀ i, g (core_interface i) = g i) →
  core_interface <$> lx = core_interface <$> ly →
  from_option (λ i, inr (g i)) (inl DanglingReference) (lx !! k)
  = from_option (λ i, @inr exn A (g i)) (inl DanglingReference) (ly !! k).
Proof.
  intros Hg Heq. pose proof (lookup_core_interface g lx ly k Hg Heq) as H.
  destruct (lx !! k), (ly !! k); simpl in *; congruence.
Qed.

Lemma candidates_core lx ly bw paths :
  core_interface <$> lx = core_interface <$> ly →
  candidates_w_reservable_bw lx bw paths = candidates_w_reservable_bw ly bw paths.
Proof.
  intros Heq. induction paths as [|p paths IH]; simpl; [done|].
  rewrite IH. f_equal. unfold has_reservable_bw, reservable_bandwidths.
  f_equal. apply res_mapM_ext. intros k.
  apply lookup_from_option_core; [by intros []|done].
Qed.

Lemma path_cost_core lx ly p :
  core_interface <$> lx = core_interface <$> ly → path_cost lx p = path_cost ly p.
Proof.
  intros Heq. unfold path_cost. f_equal. apply res_mapM_ext. intros k.
  apply lookup_from_option_core; [by intros []|done].
Qed.

Lemma lsp_candidates_core x y bw s d :
  core_interface <$> interface_objects x = core_interface <$> interface_objects y →
  node_objects x = node_objects y →
  lsp_candidates x bw s d = lsp_candidates y bw s d.
Proof.
  intros Hi Hn. unfold lsp_candidates.
  rewrite (graph_core x y) by done.
  destruct (all_shortest_paths _ s d) as [e|nx_sp]; [done|].
  destruct (_get_all_paths_mdg _ nx_sp) as [e|all_paths]; simpl; [done|].
  by rewrite (candidates_core _ (interface_objects y)).
Qed.

Lemma parallel_lsp_groups_core lx ly :
  core_lsp <$> lx = core_lsp <$> ly → parallel_lsp_groups lx = parallel_lsp_groups ly.
Proof.
  intros Heq.
  assert (Hcore : ∀ l, parallel_lsp_groups (core_lsp <$> l) = parallel_lsp_groups l).
  { intros l. unfold parallel_lsp_groups.
    assert (He : lsp_endpoints <$> (core_lsp <$> l) = lsp_endpoints <$> l)
      by (apply fmap_fmap_absorb; by intros []).
    rewrite He. apply list_fmap_ext. intros _ key _. f_equal.
    apply select_enumerate_fmap; by intros k []. }
  by rewrite <- (Hcore lx), <- (Hcore ly), Heq.
Qed.

Lemma lsps_for_demand_core lx ly d :
  core_lsp <$> lx = core_lsp <$> ly → lsps_for_demand lx d = lsps_for_demand ly d.
Proof.
  intros Heq.
  assert (Hcore : ∀ l, lsps_for_demand (core_lsp <$> l) d = lsps_for_demand l d).
  { intros l. unfold lsps_for_demand. apply select_enumerate_fmap; by intros k []. }
  by rewrite <- (Hcore lx), <- (Hcore ly), Heq.
Qed.

Lemma lsp_path_core (lx ly : list RSVP_LSP.t) (k : nat) :
  core_lsp <$> lx = core_lsp <$> ly →
  RSVP_LSP.path <$> lx !! k = RSVP_LSP.path <$> ly !! k.
Proof.
  intros Heq.
  assert (H : (RSVP_LSP.path <$> (core_lsp <$> lx)) !! k
              = (RSVP_LSP.path <$> (core_lsp <$> ly)) !! k) by (by rewrite Heq).
  rewrite !list_lookup_fmap in H.
  by destruct (lx !! k) as [[]|], (ly !! k) as [[]|].
Qed.

Lemma interfaces_from_core (lx ly : list Interface.t) :
  core_interface <$> lx = core_interface <$> ly →
  Interface.in_ckt <$> lx = Interface.in_ckt <$> ly → lx = ly.
Proof.
  intros Hc Hi. apply list_eq. intros k.
  assert (H1 : (core_interface <$> lx) !! k = (core_interface <$> ly) !! k)
    by (by rewrite Hc).
  assert (H2 : (Interface.in_ckt <$> lx) !! k = (Interface.in_ckt <$> ly) !! k)
    by (by rewrite Hi).
  rewrite !list_lookup_fmap in H1. rewrite !list_lookup_fmap in H2.
  destruct (lx !! k) as [[]|], (ly !! k) as [[]|]; simpl in *; try done.
  injection H1 as -> -> -> -> -> -> -> -> -> -> ->. injection H2 as ->. done.
Qed.

Lemma lsps_from_core (lx ly : list RSVP_LSP.t) :
  core_lsp <$> lx = core_lsp <$> ly →
  (∀ k, lsp_bw <$> lx !! k = lsp_bw <$> ly !! k) → lx = ly.
Proof.
  intros Hc Hbw. apply list_eq. intros k.
  assert (H1 : (core_lsp <$> lx) !! k = (core_lsp <$> ly) !! k) by (by rewrite Hc).
  specialize (Hbw k). rewrite !list_lookup_fmap in H1.
  destruct (lx !! k) as [[]|], (ly !! k) as [[]|]; simpl in *; try done.
  injection H1 as -> -> -> -> ->. injection Hbw as -> ->. done.
Qed.

Section Coherence.

Variables a b : Model.

Lemma sim_ret {A} (v : A) : sim a b (ret v).
Proof. by intros x y Hc. Qed.

Lemma sim_raise {A} (e : exn) : sim a b (@raise A e).
Proof. by intros x y Hc. Qed.

Lemma sim_lift {A} (r : res A) : sim a b (lift r).
Proof. by intros x y Hc. Qed.

Lemma sim_bind {A B} (c : M A) (f : A → M B) :
  sim a b c → (∀ v, sim a b (f v)) → sim a b (bind c f).
Proof.
  intros Hc Hf x y Hxy. unfold bind. destruct (Hc x y Hxy) as [Hout Hst].
  destruct (c x) as [[e|v] x'], (c y) as [[e'|v'] y']; simpl in *;
    try discriminate.
  - injection Hout as ->. by split.
  - injection Hout as ->. by apply Hf.
Qed.

Lemma sim_for_each {A} (l : list A) (body : A → M unit) :
  (∀ v, sim a b (body v)) → sim a b (for_each l body).
Proof.
  intros Hbody. induction l as [|v l IH]; simpl; [apply sim_ret|].
  apply sim_bind; [apply Hbody|]. intros _. apply IH.
Qed.

(** Code that starts by reading the model: the two runs go on alike when
    what they do with the model they read is the same code. *)
Lemma sim_get_bind {A} (k : Model → M A) :
  (∀ x y, coherent a b x y → ∀ m, k x m = k y m) → (∀ self, sim a b (k self)) →
  sim a b (bind get k).
Proof.
  intros Hk Hsim x y Hxy. unfold bind, get. cbv beta iota.
  rewrite (Hk x y Hxy x). by apply Hsim.
Qed.

Lemma coherent_set_demands (l : list Demand.t) x y :
  coherent a b x y → coherent a b (set_demand_objects l x) (set_demand_objects l y).
Proof. intros []. by split. Qed.

Lemma sim_update_demand k f : sim a b (update_demand k f).
Proof.
  intros x y Hxy. split; [done|]. unfold update_demand, modify. simpl.
  rewrite (coh_demands a b _ _ Hxy). by apply coherent_set_demands.
Qed.

Lemma sim_read_demand k : sim a b (read_demand k).
Proof.
  intros x y Hxy. unfold read_demand. simpl. by rewrite (coh_demands a b _ _ Hxy).
Qed.

(** An update of an interface that touches neither its [in_ckt] mark nor,
    through it, anything else. *)
Lemma sim_update_interface k f :
  (∀ i, core_interface (f i) = f (core_interface i)) →
  (∀ i, Interface.in_ckt (f i) = Interface.in_ckt i) →
  sim a b (update_interface k f).
Proof.
  intros Hcore Hin x y [Hi Hn Hd Hl Hs Hg Hbw Hik Hc]. split; [done|].
  unfold update_interface, modify. simpl. split; simpl; try done.
  - rewrite !(list_fmap_alter core_interface f f) by (apply Forall_forall; auto).
    by rewrite Hi.
  - rewrite !(fmap_alter_absorb Interface.in_ckt f) by done. done.
Qed.

(** The same interface store, written into the two models. *)
Lemma coherent_set_interfaces (l : list Interface.t) x y :
  coherent a b x y → coherent a b (set_interface_objects l x) (set_interface_objects l y).
Proof. intros []. split; simpl; try done. by left. Qed.

Lemma coherent_set_circuits (l : list Circuit) x y :
  coherent a b x y → coherent a b (set_circuit_objects l x) (set_circuit_objects l y).
Proof. intros []. split; simpl; try done. by left. Qed.

(** An LSP whose bandwidths the two runs have just written alike. *)
Lemma coherent_alter_lsp (F h : RSVP_LSP.t → RSVP_LSP.t) (v : bw_value * bw_value)
    (k : nat) x y :
  (∀ l, core_lsp (F l) = h (core_lsp l)) → (∀ l, lsp_bw (F l) = v) →
  coherent a b x y →
  coherent a b (set_rsvp_lsp_objects (alter F k (rsvp_lsp_objects x)) x)
           (set_rsvp_lsp_objects (alter F k (rsvp_lsp_objects y)) y).
Proof.
  intros Hcore Hv [Hi Hn Hd Hl Hs Hg Hbw Hik Hc]. split; simpl; try done.
  - rewrite !(list_fmap_alter core_lsp F h) by (apply Forall_forall; auto).
    by rewrite Hl.
  - intros j. unfold bw_coherent. simpl. destruct (decide (j = k)) as [->|Hne].
    + left. rewrite !list_lookup_alter_eq.
      pose proof (lsp_path_core _ _ k Hl) as Hp.
      destruct (rsvp_lsp_objects x !! k), (rsvp_lsp_objects y !! k); simpl in *;
        try done. by rewrite !Hv.
    + rewrite !list_lookup_alter_ne by done. apply Hbw.
Qed.

Lemma coherent_alter_interface k f x y :
  (∀ i, core_interface (f i) = f (core_interface i)) →
  (∀ i, Interface.in_ckt (f i) = Interface.in_ckt i) →
  coherent a b x y →
  coherent a b (set_interface_objects (alter f k (interface_objects x)) x)
           (set_interface_objects (alter f k (interface_objects y)) y).
Proof.
  intros Hcore Hin Hxy.
  exact (proj2 (sim_update_interface k f Hcore Hin x y Hxy)).
Qed.

Lemma coherent_reserve bw path x y :
  coherent a b x y →
  coherent a b (set_interface_objects (reserve bw path (interface_objects x)) x)
           (set_interface_objects (reserve bw path (interface_objects y)) y).
Proof.
  revert x y. induction path as [|k path IH]; intros x y Hxy.
  - by destruct x, y.
  - unfold reserve. simpl.
    apply (coherent_alter_interface k (λ i,
             Interface.set_reserved_bandwidth (Interface.reserved_bandwidth i + bw)%Q i))
      in Hxy; [|by intros []..].
    apply IH in Hxy. exact Hxy.
Qed.

Lemma begin_placement_alter lsp bw m :
  begin_placement lsp bw m
  = set_rsvp_lsp_objects
      (alter (λ l, RSVP_LSP.set_path LspEmptyDict
                     (RSVP_LSP.set_setup_bandwidth (Bw bw)
                        (RSVP_LSP.set_reserved_bandwidth (Bw bw) l)))
             lsp (rsvp_lsp_objects m)) m.
Proof. unfold begin_placement. by rewrite list_alter_alter_eq. Qed.

Lemma unrouted_state_alter lsp bw m :
  unrouted_state lsp (begin_placement lsp bw m)
  = set_rsvp_lsp_objects
      (alter (λ l, RSVP_LSP.set_reserved_bandwidth BwUnrouted
                     (RSVP_LSP.set_path LspUnrouted
                        (RSVP_LSP.set_setup_bandwidth (Bw bw) l)))
             lsp (rsvp_lsp_objects m)) m.
Proof.
  rewrite begin_placement_alter. unfold unrouted_state. simpl.
  rewrite list_alter_alter_eq.
  erewrite list_alter_ext; [reflexivity| |reflexivity]. by intros [].
Qed.

Lemma routed_state_alter lsp path cost bw m :
  routed_state lsp path cost bw (begin_placement lsp bw m)
  = set_interface_objects (reserve bw path (interface_objects m))
      (set_rsvp_lsp_objects
         (alter (λ l, RSVP_LSP.set_path (LspRouted path cost)
                        (RSVP_LSP.set_setup_bandwidth (Bw bw)
                           (RSVP_LSP.set_reserved_bandwidth (Bw bw) l)))
                lsp (rsvp_lsp_objects m)) m).
Proof.
  rewrite begin_placement_alter. unfold routed_state. simpl.
  rewrite list_alter_alter_eq.
  erewrite list_alter_ext; [reflexivity| |reflexivity]. by intros [].
Qed.

Lemma lookup_core_lsp (lx ly : list RSVP_LSP.t) (k : nat) :
  core_lsp <$> lx = core_lsp <$> ly → core_lsp <$> lx !! k = core_lsp <$> ly !! k.
Proof. intros Heq. by rewrite <- !list_lookup_fmap, Heq. Qed.

Lemma core_lsp_eq (lx ly : RSVP_LSP.t) :
  core_lsp lx = core_lsp ly →
  RSVP_LSP.source_node_object lx = RSVP_LSP.source_node_object ly ∧
  RSVP_LSP.dest_node_object lx = RSVP_LSP.dest_node_object ly ∧
  RSVP_LSP.configured_setup_bandwidth lx = RSVP_LSP.configured_setup_bandwidth ly ∧
  RSVP_LSP.path lx = RSVP_LSP.path ly.
Proof.
  destruct lx, ly. unfold core_lsp. simpl. intros [= -> -> -> -> ->]. done.
Qed.

Lemma sim_determine_body traff draw lsp :
  sim a b (_determine_lsp_state_info_body traff draw lsp).
Proof.
  intros x y Hxy. pose proof (coh_lsps a b _ _ Hxy) as Hl.
  pose proof (lookup_core_lsp _ _ lsp Hl) as Hk.
  destruct (rsvp_lsp_objects x !! lsp) as [lx|] eqn:Hx,
           (rsvp_lsp_objects y !! lsp) as [ly|] eqn:Hy; simpl in Hk; try done.
  - assert (Hk' : core_lsp lx = core_lsp ly) by congruence.
    rewrite (determine_body_run traff draw lsp lx x Hx),
            (determine_body_run traff draw lsp ly y Hy). simpl.
    apply core_lsp_eq in Hk' as (Hs & Hd & Hconf & _).
    assert (Hbw : setup_bandwidth_of traff lx = setup_bandwidth_of traff ly).
    { unfold setup_bandwidth_of. by rewrite Hconf. }
    rewrite Hbw, Hs, Hd.
    rewrite (lsp_candidates_core x y)
      by (apply (coh_interfaces a b _ _ Hxy) || apply (coh_nodes a b _ _ Hxy)).
    set (bw := setup_bandwidth_of traff ly).
    assert (Hbegin : coherent a b (begin_placement lsp bw x) (begin_placement lsp bw y)).
    { rewrite !begin_placement_alter.
      apply (coherent_alter_lsp _ (RSVP_LSP.set_path LspEmptyDict) (Bw bw, Bw bw));
        [by intros []|by intros []|done]. }
    assert (Hunrouted : coherent a b (unrouted_state lsp (begin_placement lsp bw x))
                                 (unrouted_state lsp (begin_placement lsp bw y))).
    { rewrite !unrouted_state_alter.
      apply (coherent_alter_lsp _ (RSVP_LSP.set_path LspUnrouted) (BwUnrouted, Bw bw));
        [by intros []|by intros []|done]. }
    destruct (lsp_candidates y bw _ _) as [e|[cands|]]; simpl; [done| |done].
    destruct (choose_new_path draw cands) as [e|[new_path|]]; simpl; [done| |done].
    rewrite (path_cost_core _ (interface_objects y)) by apply (coh_interfaces a b _ _ Hxy).
    destruct (path_cost (interface_objects y) new_path) as [e|cost]; simpl; [done|].
    split; [done|]. rewrite !routed_state_alter.
    apply (coherent_reserve bw new_path
             (set_rsvp_lsp_objects (alter _ lsp (rsvp_lsp_objects x)) x)
             (set_rsvp_lsp_objects (alter _ lsp (rsvp_lsp_objects y)) y)).
    apply (coherent_alter_lsp _ (RSVP_LSP.set_path (LspRouted new_path cost))
             (Bw bw, Bw bw)); [by intros []|by intros []|done].
  - unfold _determine_lsp_state_info_body. run_M. rewrite Hx, Hy. simpl. done.
Qed.

Lemma sim_route_lsps rnd : sim a b (_route_lsps rnd).
Proof.
  apply sim_get_bind.
  - intros x y Hxy m.
    by rewrite (parallel_lsp_groups_core _ _ (coh_lsps a b _ _ Hxy)), (coh_demands a b _ _ Hxy).
  - intros self. apply sim_for_each. intros group.
    apply sim_for_each. intros lsp. apply sim_determine_body.
Qed.

Lemma for_each_ext {A} (l : list A) (body1 body2 : A → M unit) :
  (∀ v m, body1 v m = body2 v m) → ∀ m, for_each l body1 m = for_each l body2 m.
Proof.
  intros Hext. induction l as [|v l IH]; intros m; simpl; [done|].
  unfold bind. rewrite Hext. destruct (body2 v m) as [[e|[]] m']; [done|]. apply IH.
Qed.

Lemma sim_add_traffic q k : sim a b (add_traffic q k).
Proof. apply sim_update_interface; by intros []. Qed.

Lemma sim_update_interface_utilization : sim a b _update_interface_utilization.
Proof.
  apply sim_get_bind.
  - intros x y Hxy m. rewrite (coh_demands a b _ _ Hxy).
    apply for_each_ext. intros d m'.
    destruct (Demand.path d) as [|carriers]; [done|].
    apply for_each_ext. intros [lsp|interfaces] m''; [|done].
    by rewrite (lsp_path_core _ _ lsp (coh_lsps a b _ _ Hxy)).
  - intros self. apply sim_for_each. intros d.
    destruct (Demand.path d) as [|carriers]; [apply sim_ret|].
    apply sim_for_each. intros [lsp|interfaces].
    + destruct (RSVP_LSP.path <$> rsvp_lsp_objects self !! lsp) as [[| |ifs c]|];
        try apply sim_ret.
      apply sim_for_each. intros k. apply sim_add_traffic.
    + apply sim_for_each. intros k. apply sim_add_traffic.
Qed.

Lemma sim_route_demands_body G k : sim a b (_route_demands_body G k).
Proof.
  unfold _route_demands_body.
  apply sim_bind; [apply sim_read_demand|]. intros d.
  apply sim_bind; [apply sim_update_demand|]. intros _.
  apply sim_get_bind.
  - intros x y Hxy m. by rewrite (lsps_for_demand_core _ _ d (coh_lsps a b _ _ Hxy)).
  - intros model. cbv zeta.
    apply sim_bind; [apply sim_update_demand|]. intros _.
    case_bool_decide; [|apply sim_ret].
    destruct (all_shortest_paths G _ _) as [[]|nx_sp];
      try apply sim_raise; try apply sim_update_demand.
    apply sim_bind; [apply sim_lift|]. intros all_paths. apply sim_update_demand.
Qed.

Lemma sim_route_demands : sim a b _route_demands.
Proof.
  apply sim_get_bind.
  - intros x y Hxy m.
    by rewrite (graph_core x y) , (coh_demands a b _ _ Hxy)
      by (apply (coh_interfaces a b _ _ Hxy) || apply (coh_nodes a b _ _ Hxy)).
  - intros self. cbv zeta. apply sim_bind.
    + apply sim_for_each. intros k. apply sim_route_demands_body.
    + intros _. apply sim_update_interface_utilization.
Qed.

Lemma first_interface_or_raise_interfaces x y u v cid :
  interface_objects x = interface_objects y →
  first_interface_or_raise x u v cid = first_interface_or_raise y u v cid.
Proof.
  intros Heq. unfold first_interface_or_raise, get_interface_object_from_nodes.
  by rewrite Heq.
Qed.

Lemma set_interface_objects_id m : set_interface_objects (interface_objects m) m = m.
Proof. by destruct m. Qed.

(** The pairing loop reads and writes the interface store only. *)
Lemma pair_interfaces_frame es cs x y :
  interface_objects x = interface_objects y →
  (pair_interfaces es cs x).1 = (pair_interfaces es cs y).1 ∧
  ∃ l, (pair_interfaces es cs x).2 = set_interface_objects l x ∧
       (pair_interfaces es cs y).2 = set_interface_objects l y.
Proof.
  revert cs x y. induction es as [|e es IH]; intros cs x y Heq; simpl.
  - split; [done|]. exists (interface_objects x).
    by rewrite Heq at 2; rewrite !set_interface_objects_id.
  - assert (Hstop : ∀ r : exn,
      (@inl exn (list Circuit) r) = inl r ∧
      ∃ l, x = set_interface_objects l x ∧ y = set_interface_objects l y).
    { intros r. split; [done|]. exists (interface_objects x).
      by rewrite Heq at 2; rewrite !set_interface_objects_id. }
    run_M.
    rewrite (first_interface_or_raise_interfaces x y (Edge.u e)) by done.
    destruct (first_interface_or_raise y (Edge.u e) _ _) as [r|int1]; simpl;
      [apply Hstop|].
    rewrite (first_interface_or_raise_interfaces x y (Edge.v e)) by done.
    destruct (first_interface_or_raise y (Edge.v e) _ _) as [r|int2]; simpl;
      [apply Hstop|].
    rewrite Heq.
    destruct (interface_objects y !! int1) as [i1|]; simpl; [|apply Hstop].
    destruct (interface_objects y !! int2) as [i2|]; simpl; [|apply Hstop].
    destruct (negb (Interface.in_ckt i1) && negb (Interface.in_ckt i2)).
    + rewrite Heq.
      match goal with
      | |- context [pair_interfaces es ?c ?x'] =>
          match goal with
          | |- context [pair_interfaces es c ?y'] =>
              lazymatch y' with
              | x' => fail
              | _ =>
                  destruct (IH c x' y' eq_refl) as (Hout & l & Hx & Hy)
              end
          end
      end.
      split; [done|]. exists l. by rewrite Hx, Hy.
    + by apply IH.
Qed.

Lemma make_circuits_unfold re ifc x :
  _make_circuits_multidigraph re ifc x
  = let G := _make_weighted_network_graph_mdg x ifc 0 false in
    let unmatched := filter (λ e, has_edge G (Edge.v e) (Edge.u e) = false) (g_edges G) in
    match pair_interfaces
            (filter (λ e, has_edge G (Edge.v e) (Edge.u e) = true) (g_edges G)) []
            (set_interface_objects (Interface.set_in_ckt false <$> interface_objects x) x) with
    | (inl e, x') => (inl e, x')
    | (inr circuits, x') =>
        if bool_decide (0 < length unmatched) then
          if re then (inl (ModelException (IntsNotMatched unmatched)), x')
          else (inr (Some unmatched), x')
        else (inr None, set_circuit_objects circuits x')
    end.
Proof.
  unfold _make_circuits_multidigraph. unfold bind, get, modify. cbv beta iota zeta.
  destruct (pair_interfaces _ _ _) as [[e|circuits] x']; [done|].
  case_bool_decide; [by destruct re|done].
Qed.

Lemma make_circuits_sim re ifc x y :
  coherent a b x y →
  (_make_circuits_multidigraph re ifc x).1 = (_make_circuits_multidigraph re ifc y).1 ∧
  coherent a b (_make_circuits_multidigraph re ifc x).2 (_make_circuits_multidigraph re ifc y).2 ∧
  ((_make_circuits_multidigraph re ifc x).1 = inr None →
   interface_objects (_make_circuits_multidigraph re ifc x).2
     = interface_objects (_make_circuits_multidigraph re ifc y).2 ∧
   circuit_objects (_make_circuits_multidigraph re ifc x).2
     = circuit_objects (_make_circuits_multidigraph re ifc y).2).
Proof.
  intros Hxy. rewrite !make_circuits_unfold. cbv zeta.
  rewrite (graph_core x y)
    by (apply (coh_interfaces a b _ _ Hxy) || apply (coh_nodes a b _ _ Hxy)).
  set (G := _make_weighted_network_graph_mdg y ifc 0 false).
  assert (Hreset : Interface.set_in_ckt false <$> interface_objects x
                   = Interface.set_in_ckt false <$> interface_objects y)
    by apply (coh_interfaces a b _ _ Hxy).
  rewrite Hreset.
  destruct (pair_interfaces_frame
              (filter (λ e, has_edge G (Edge.v e) (Edge.u e) = true) (g_edges G)) []
              (set_interface_objects (Interface.set_in_ckt false <$> interface_objects y) x)
              (set_interface_objects (Interface.set_in_ckt false <$> interface_objects y) y)
              eq_refl) as (Hout & l & Hx & Hy).
  destruct (pair_interfaces _ _ (set_interface_objects _ x)) as [rx x'],
           (pair_interfaces _ _ (set_interface_objects _ y)) as [ry y'].
  simpl in Hout, Hx, Hy. subst rx x' y'.
  assert (Hl : coherent a b (set_interface_objects l x) (set_interface_objects l y))
    by (by apply coherent_set_interfaces).
  destruct ry as [e|circuits]; [by split_and!|].
  case_bool_decide.
  - destruct re; by split_and!.
  - split_and!; [done|by apply coherent_set_circuits|done].
Qed.

Lemma omap_filter_fmap {A B} (P : A → Prop) `{!∀ x, Decision (P x)} (g : A → B)
    (l : list A) :
  g <$> filter P l = omap (λ x, if decide (P x) then Some (g x) else None) l.
Proof.
  induction l as [|x l IH]; [done|].
  rewrite filter_cons.
  change (omap ?f (x :: l))
    with (match f x with Some y => y :: omap f l | None => omap f l end).
  cbv beta.
  destruct (decide (P x)); [rewrite fmap_cons|]; rewrite IH; reflexivity.
Qed.

Lemma omap_fmap_eq {A B} (g : A → option B) (lx ly : list A) :
  g <$> lx = g <$> ly → omap g lx = omap g ly.
Proof.
  revert ly. induction lx as [|x lx IH]; intros [|y ly]; try done.
  rewrite !fmap_cons. intros [= Hg Htl].
  change (omap g (x :: lx))
    with (match g x with Some z => z :: omap g lx | None => omap g lx end).
  change (omap g (y :: ly))
    with (match g y with Some z => z :: omap g ly | None => omap g ly end).
  by rewrite Hg, (IH ly Htl).
Qed.

(** The reservations the validator sums over an interface are those of
    routed LSPs, whose bandwidths the tick has written. *)
Lemma int_info_coherent x y k :
  coherent a b x y → _make_int_info_dict x k = _make_int_info_dict y k.
Proof.
  intros Hxy. unfold _make_int_info_dict. f_equal.
  rewrite !omap_filter_fmap. apply omap_fmap_eq. apply list_eq. intros j.
  rewrite !list_lookup_fmap.
  pose proof (lookup_core_lsp _ _ j (coh_lsps a b _ _ Hxy)) as Hcore.
  pose proof (coh_bw a b _ _ Hxy j) as Hbw. unfold bw_coherent in Hbw.
  destruct (rsvp_lsp_objects x !! j) as [lx|] eqn:Hx,
           (rsvp_lsp_objects y !! j) as [ly|] eqn:Hy; simpl in *; try done.
  assert (Hk' : core_lsp lx = core_lsp ly) by congruence.
  apply core_lsp_eq in Hk' as (_ & _ & _ & Hpath).
  assert (Hiff : lsp_transits k lx ↔ lsp_transits k ly)
    by (unfold lsp_transits; by rewrite Hpath).
  destruct (decide (lsp_transits k lx)) as [Tx|Tx],
           (decide (lsp_transits k ly)) as [Ty|Ty]; try tauto.
  do 2 f_equal. unfold lsp_reservation.
  destruct Hbw as [Hbw|(_ & _ & Hun)].
  - injection Hbw as Hr _. by rewrite Hr.
  - specialize (Hun lx eq_refl). unfold lsp_transits in Tx. by rewrite Hun in Tx.
Qed.

Lemma validation_error_data_ext circuits s1 s2 :
  interface_objects s1 = interface_objects s2 →
  circuit_objects s1 = circuit_objects s2 →
  node_objects s1 = node_objects s2 →
  srlg_objects s1 = srlg_objects s2 →
  (∀ k, _make_int_info_dict s1 k = _make_int_info_dict s2 k) →
  validation_error_data circuits s1 = validation_error_data circuits s2.
Proof.
  intros Hi Hc Hn Hs Hinfo.
  unfold validation_error_data, _unique_interface_per_node, srlg_errors_of.
  cbv zeta. rewrite Hi, Hc, Hn, Hs.
  assert (Hsum : filter (λ ki, res_bw_sum_error s1 ki = true)
                        (enumerate (interface_objects s2))
                 = filter (λ ki, res_bw_sum_error s2 ki = true)
                          (enumerate (interface_objects s2))).
  { apply list_filter_iff. intros [k i]. unfold res_bw_sum_error. simpl.
    by rewrite Hinfo. }
  assert (Hmis : filter (λ ckt, circuit_mismatch s1 ckt = true) (circuit_objects s2)
                 = filter (λ ckt, circuit_mismatch s2 ckt = true) (circuit_objects s2)).
  { apply list_filter_iff. intros ckt. unfold circuit_mismatch. by rewrite Hi. }
  by rewrite Hsum, Hmis.
Qed.

Lemma make_circuits_raises_on_unmatched ifc x c :
  (_make_circuits_multidigraph true ifc x).1 = inr c → c = None.
Proof.
  rewrite make_circuits_unfold. cbv zeta.
  destruct (pair_interfaces _ _ _) as [[e|circuits] x']; [done|].
  case_bool_decide; [done|]. simpl. congruence.
Qed.

Lemma sim_validate_model : sim a b validate_model.
Proof.
  intros x y Hxy. rewrite !validate_model_run.
  destruct (make_circuits_sim true true x y Hxy) as (Hout & Hcoh & Hpost).
  pose proof (make_circuits_raises_on_unmatched true x) as Hnone.
  destruct (_make_circuits_multidigraph true true x) as [[e|cx] x'],
           (_make_circuits_multidigraph true true y) as [[e'|cy] y'];
    simpl in *; try done.
  { injection Hout as ->. by split. }
  injection Hout as ->. rewrite (Hnone cy eq_refl) in *.
  destruct (Hpost eq_refl) as [Hi Hc].
  rewrite (validation_error_data_ext None x' y' Hi Hc (coh_nodes a b _ _ Hcoh)
             (coh_srlgs a b _ _ Hcoh) (λ k, int_info_coherent x' y' k Hcoh)).
  by case_bool_decide.
Qed.

Lemma sim_update_simulation_phases rnd :
  sim a b (_route_lsps rnd ;; _route_demands ;; validate_model)%M.
Proof.
  apply sim_bind; [apply sim_route_lsps|]. intros _.
  apply sim_bind; [apply sim_route_demands|]. intros _.
  apply sim_validate_model.
Qed.

End Coherence.

Lemma model_eq (x y : Model) :
  interface_objects x = interface_objects y → node_objects x = node_objects y →
  demand_objects x = demand_objects y → rsvp_lsp_objects x = rsvp_lsp_objects y →
  circuit_objects x = circuit_objects y → srlg_objects x = srlg_objects y →
  _parallel_lsp_groups x = _parallel_lsp_groups y → x = y.
Proof. destruct x, y. simpl. by intros -> -> -> -> -> -> ->. Qed.

(** The model a tick starts from, after its resets, and the model the next
    tick starts from are coherent. *)
Lemma reset_states_coherent rnd m :
  coherent (reset_state m) (reset_state (update_simulation rnd m).2)
           (reset_state m) (reset_state (update_simulation rnd m).2).
Proof.
  destruct (decl_update_simulation rnd m) as [Hi Hn Hd Hl Hs].
  split; simpl.
  - rewrite <- !list_fmap_compose. symmetry. exact Hi.
  - by rewrite Hn.
  - symmetry. exact Hd.
  - rewrite <- !list_fmap_compose. symmetry. exact Hl.
  - by rewrite Hs.
  - done.
  - intros k. right. split_and!; [done|done|].
    intros l Hk. apply list_lookup_fmap_Some in Hk as (l0 & -> & _). done.
  - by right.
  - by right.
Qed.

(** C8. For every model, running [update_simulation] twice in succession
    with the same random draws ends as the first run ended, raised or not,
    and leaves the very model state the first run left. The second run,
    like every run, goes on from the model its resets leave: every
    interface with reserved_bandwidth 0 and traffic 0, every LSP and every
    demand with the path 'Unrouted', and an empty parallel-LSP group
    cache. *)
Theorem C8_update_simulation_twice (rnd : nat → nat) (m : Model) :
  update_simulation rnd (update_simulation rnd m).2 = update_simulation rnd m ∧
  update_simulation rnd m
    = (_route_lsps rnd ;; _route_demands ;; validate_model)%M (reset_state m) ∧
  Forall (λ i, Interface.reserved_bandwidth i = 0%Q ∧ Interface.traffic i = 0%Q)
         (interface_objects (reset_state m)) ∧
  Forall (λ l, RSVP_LSP.path l = LspUnrouted) (rsvp_lsp_objects (reset_state m)) ∧
  Forall (λ d, Demand.path d = DemandUnrouted) (demand_objects (reset_state m)) ∧
  _parallel_lsp_groups (reset_state m) = [].
Proof.
  split; [|split_and!; [done|by apply Forall_fmap, Forall_true..|done]].
  pose proof (reset_states_coherent rnd m) as H0.
  set (a := reset_state m) in *.
  set (b := reset_state (update_simulation rnd m).2) in *.
  destruct (sim_update_simulation_phases a b rnd a b H0) as [Hout Hcoh].
  assert (Hfirst : update_simulation rnd m
                   = (_route_lsps rnd ;; _route_demands ;; validate_model)%M a)
    by done.
  rewrite (update_simulation_unfold rnd (update_simulation rnd m).2). fold b.
  rewrite Hfirst.
  set (ra := (_route_lsps rnd ;; _route_demands ;; validate_model)%M a) in *.
  set (rb := (_route_lsps rnd ;; _route_demands ;; validate_model)%M b) in *.
  assert (Hb_in_ckt : Interface.in_ckt <$> interface_objects b
                      = Interface.in_ckt <$> interface_objects ra.2).
  { unfold b. rewrite Hfirst. simpl. apply fmap_fmap_absorb. by intros []. }
  assert (Hb_bw : ∀ k, lsp_bw <$> rsvp_lsp_objects b !! k
                       = lsp_bw <$> rsvp_lsp_objects ra.2 !! k).
  { intros k. unfold b. rewrite Hfirst. simpl.
    rewrite list_lookup_fmap. by destruct (rsvp_lsp_objects ra.2 !! k) as [[]|]. }
  assert (Hb_circuits : circuit_objects b = circuit_objects ra.2).
  { unfold b. by rewrite Hfirst. }
  destruct Hcoh as [Hi Hn Hd Hl Hs Hg Hbw Hik Hc].
  destruct ra as [oa xa], rb as [ob xb]. simpl in *. f_equal; [done|].
  symmetry. apply model_eq; try done.
  - apply interfaces_from_core; [done|].
    destruct Hik as [Hik|[Hika Hikb]]; [done|]. by rewrite Hikb, Hb_in_ckt.
  - apply lsps_from_core; [done|]. intros k.
    destruct (Hbw k) as [Hk|(Hka & Hkb & _)]; [done|]. by rewrite Hkb, Hb_bw.
  - destruct Hc as [Hc|[Hca Hcb]]; [done|]. by rewrite Hcb, Hb_circuits.
Qed.

(** ** An LSP from a node to that same node *)

Lemma simple_paths_self fuel G visited a :
  simple_paths fuel G visited a a = [[a]].
Proof. destruct fuel; simpl; by rewrite bool_decide_eq_true_2. Qed.

Lemma all_shortest_paths_self G s :
  s ∈ g_nodes G → all_shortest_paths G s s = inr [[s]].
Proof.
  intros Hs. unfold all_shortest_paths.
  rewrite bool_decide_eq_true_2, simple_paths_self by done. simpl.
  by rewrite filter_cons_True.
Qed.

Lemma lsp_candidates_self m bw s :
  s ∈ Node.name <$> node_objects m → lsp_candidates m bw s s = inl ValueError.
Proof.
  intros Hs. unfold lsp_candidates.
  rewrite all_shortest_paths_self by (apply graph_nodes; by left).
  reflexivity.
Qed.

(** C1, at the failing input. For an LSP whose destination node is its
    source node, a node of the model, the round of the LSP placer raises
    ValueError (the minimum of the reservable bandwidths of a path with no
    interface) after it has set the bandwidths of the LSP and emptied its
    path: the LSP ends with the path {} and a numeric reserved_bandwidth,
    neither 'Unrouted' nor with a committed path, and the placement of the
    LSPs after it does not take place. *)
Theorem C1_lsp_to_its_own_source_raises
    (traff : Q) (draw lsp : nat) (l : RSVP_LSP.t) (m : Model) :
  rsvp_lsp_objects m !! lsp = Some l →
  RSVP_LSP.dest_node_object l = RSVP_LSP.source_node_object l →
  RSVP_LSP.source_node_object l ∈ Node.name <$> node_objects m →
  let after := _determine_lsp_state_info_body traff draw lsp m in
  after.1 = inl ValueError ∧
  interface_objects after.2 = interface_objects m ∧
  ∃ l', rsvp_lsp_objects after.2 !! lsp = Some l' ∧
        RSVP_LSP.path l' = LspEmptyDict ∧
        RSVP_LSP.reserved_bandwidth l' = Bw (setup_bandwidth_of traff l).
Proof.
  intros Hl Hd Hs. cbv zeta.
  rewrite (determine_body_run traff draw lsp l m Hl). cbv zeta.
  rewrite Hd, lsp_candidates_self by done. simpl.
  split_and!; [done|done|].
  rewrite !list_lookup_alter, !decide_True, Hl by done. simpl. eauto.
Qed.

Lemma C1_witness :
  (_determine_lsp_state_info_body 30 0 0 net_self_lsp).1 = inl ValueError ∧
  (update_simulation (λ _, 0) net_self_lsp).1 = inl ValueError.
Proof.
  split.
  - apply (C1_lsp_to_its_own_source_raises 30 0 0 lsp_AA net_self_lsp).
    + reflexivity.
    + reflexivity.
    + vm_compute. by left.
  - vm_compute. reflexivity.
Defined.

(** ** The candidates of an LSP between two distinct nodes *)

Lemma foldl_Qmin2_elem (l : list Q) (x : Q) : foldl Qmin2 x l ∈ x :: l.
Proof.
  revert x. induction l as [|z l IH]; intros x; simpl; [by left|].
  specialize (IH (Qmin2 x z)). apply elem_of_cons in IH as [->|IH].
  - unfold Qmin2. destruct (Qle_bool x z); [by left|right; by left].
  - by do 2 right.
Qed.

Lemma min_Q_nonempty (l : list Q) :
  l ≠ [] → ∃ least, min_Q l = inr least ∧ least ∈ l.
Proof.
  destruct l as [|x l]; [done|]. intros _. eexists. split; [done|].
  apply foldl_Qmin2_elem.
Qed.

Lemma reservable_bandwidths_total ints p :
  Forall (λ k, is_Some (ints !! k)) p → ∃ bws, reservable_bandwidths ints p = inr bws.
Proof.
  unfold reservable_bandwidths.
  induction 1 as [|k p [i Hi] _ [bws IH]]; simpl; [eauto|].
  rewrite Hi. simpl. rewrite IH. simpl. eauto.
Qed.

Lemma has_reservable_bw_total ints bw p :
  p ≠ [] → Forall (λ k, is_Some (ints !! k)) p →
  ∃ b, has_reservable_bw ints bw p = inr b ∧
       (b = true ↔ enough_reservable_bw ints bw p).
Proof.
  intros Hne Hrefs.
  destruct (reservable_bandwidths_total ints p Hrefs) as [bws Hbws].
  pose proof (reservable_bandwidths_inr _ _ _ Hbws) as Hall.
  destruct (min_Q_nonempty bws) as (least & Hmin & Hin).
  { intros ->. apply Forall2_nil_inv_r in Hall. done. }
  exists (Qle_bool bw least). split.
  - unfold has_reservable_bw. rewrite Hbws. simpl. by rewrite Hmin.
  - split.
    + intros Hle. apply has_reservable_bw_enough.
      unfold has_reservable_bw. rewrite Hbws. simpl. rewrite Hmin. simpl.
      by rewrite Hle.
    + intros Hen. apply Qle_bool_iff.
      apply list_elem_of_lookup in Hin as [j Hj].
      destruct (Forall2_lookup_r _ _ _ _ _ Hall Hj) as (k & Hk & i & Hi & ->).
      unfold enough_reservable_bw in Hen. rewrite Forall_forall in Hen.
      destruct (Hen k) as (i' & Hi' & Hle); [by eapply list_elem_of_lookup_2|].
      by assert (i' = i) as -> by congruence.
Qed.

Lemma candidates_w_reservable_bw_total ints bw paths :
  Forall (λ p, p ≠ [] ∧ Forall (λ k, is_Some (ints !! k)) p) paths →
  ∃ cands, candidates_w_reservable_bw ints bw paths = inr cands ∧
           ∀ p, p ∈ cands ↔ p ∈ paths ∧ enough_reservable_bw ints bw p.
Proof.
  intros Hpaths.
  assert (Hex : ∃ cands, candidates_w_reservable_bw ints bw paths = inr cands).
  { induction Hpaths as [|p paths [Hne Hrefs] _ [tl IH]]; simpl; [eauto|].
    destruct (has_reservable_bw_total ints bw p Hne Hrefs) as (b & -> & _).
    simpl. rewrite IH. simpl. eauto. }
  destruct Hex as [cands Hc]. exists cands. split; [done|].
  intros p. rewrite (candidates_w_reservable_bw_inr _ _ _ _ Hc p).
  split; intros [Hp Hok]; (split; [done|]).
  - by apply has_reservable_bw_enough.
  - rewrite Forall_forall in Hpaths. destruct (Hpaths p Hp) as [Hne Hrefs].
    destruct (has_reservable_bw_total ints bw p Hne Hrefs) as (b & -> & Hb).
    f_equal. by apply Hb.
Qed.

Lemma enumerated_path_hops G nx_sp p :
  p ∈ enumerated_paths_spec G nx_sp →
  ∃ q, q ∈ nx_sp ∧
       Forall2 (λ k ab, k ∈ local_ecmp_set G ab.1 ab.2) p (adjacent_pairs q).
Proof.
  unfold enumerated_paths_spec. intros (q & Hp & Hq)%list_elem_of_bind.
  apply elem_of_product in Hp. rewrite Forall2_fmap_r in Hp. eauto.
Qed.

Lemma enumerated_path_well_formed self f bw r s d nx_sp p :
  s ≠ d → (∀ q, q ∈ nx_sp → from_to s d q) →
  p ∈ enumerated_paths_spec (_make_weighted_network_graph_mdg self f bw r) nx_sp →
  p ≠ [] ∧ Forall (λ k, is_Some (interface_objects self !! k)) p.
Proof.
  intros Hsd Hft (q & Hq & Hall)%enumerated_path_hops. split.
  - intros ->. apply Forall2_nil_inv_l in Hall.
    destruct (Hft q Hq) as [Hh Hl]. destruct q as [|a [|b q]]; try done.
    simpl in *. congruence.
  - eapply Forall2_Forall_l; [exact Hall|]. apply Forall_forall.
    intros ab _ k (i & Hi & _)%elem_of_local_ecmp_set. eauto.
Qed.

(** What the search and the bandwidth filter of a round yield, for an LSP
    between two distinct nodes whose source is a node of the model. *)
Lemma lsp_candidates_total m bw s d :
  s ∈ Node.name <$> node_objects m → s ≠ d →
  let G := _make_weighted_network_graph_mdg m false bw true in
  (lsp_candidates m bw s d = inr None ∧ no_path G s d) ∨
  (∃ nx_sp cands,
     all_shortest_paths G s d = inr nx_sp ∧ ¬ no_path G s d ∧
     lsp_candidates m bw s d = inr (Some cands) ∧
     ∀ p, p ∈ cands ↔ p ∈ enumerated_paths_spec G nx_sp
                       ∧ enough_reservable_bw (interface_objects m) bw p).
Proof.
  intros Hs Hsd G. unfold lsp_candidates. fold G.
  assert (HsG : s ∈ g_nodes G) by (apply graph_nodes; by left).
  destruct (all_shortest_paths G s d) as [e|nx_sp] eqn:Hsp.
  - apply all_shortest_paths_inl in Hsp as Hcase.
    destruct Hcase as [[-> _]|[_ Hn]]; [|done].
    left. split; [done|].
    apply all_shortest_paths_no_path_inv; [apply graph_endpoints_are_nodes|done].
  - right. pose proof (all_shortest_paths_inr _ _ _ _ Hsp) as [Hne Hw].
    assert (Hseq : Forall (node_hop_sequence G) nx_sp).
    { apply Forall_forall. intros q Hq. by apply Hw. }
    rewrite (get_all_paths_mdg_spec G nx_sp Hseq). simpl.
    pose proof (normalize_spec G nx_sp _ Hseq (get_all_paths_mdg_spec G nx_sp Hseq))
      as Hnorm.
    rewrite Hnorm.
    destruct (candidates_w_reservable_bw_total (interface_objects m) bw
                (enumerated_paths_spec G nx_sp)) as (cands & Hc & Hiff).
    { apply Forall_forall. intros p Hp.
      apply (enumerated_path_well_formed m false bw true s d nx_sp p); [done| |done].
      intros q Hq. by apply Hw. }
    exists nx_sp, cands. split_and!; [done| |by rewrite Hc|done].
    intros Hno. destruct nx_sp as [|q nx_sp]; [done|].
    destruct (Hw q) as (Hq & Hft & _); [by left|]. by apply (Hno q).
Qed.

Lemma choose_new_path_total draw cands :
  cands ≠ [] → ∃ p, choose_new_path draw cands = inr (Some p) ∧ p ∈ cands.
Proof.
  intros Hne. destruct cands as [|a [|b cands]]; [done| |].
  - exists a. split; [done|by left].
  - destruct (choose_new_path_several draw (a :: b :: cands))
      as (fewest & p & _ & Hc & Hin & _); [simpl; lia|].
    exists p. split; [done|]. by apply list_elem_of_filter in Hin as [_ ?].
Qed.

(** One round of the LSP placer, for an LSP between two distinct nodes
    whose source node is a node of the model. The round raises nothing.
    The LSP ends with path = 'Unrouted' and reserved_bandwidth =
    'Unrouted' if and only if either no node-hop sequence leads from its
    source to its destination in the graph built with include_failed =
    false, rsvp_required = true and needed_bw = setup_bandwidth, or no
    enumerated interface sequence has a reservable bandwidth of at least
    setup_bandwidth on every interface of it; then no interface is changed
    by the round. Otherwise an enumerated interface sequence with enough
    reservable bandwidth is committed: it is the path of the LSP, with its
    cost, and setup_bandwidth has been added to the reserved bandwidth of
    each of its interfaces. *)
Theorem lsp_unrouted_iff_no_eligible_path
    (traff : Q) (draw lsp : nat) (l : RSVP_LSP.t) (m : Model) :
  rsvp_lsp_objects m !! lsp = Some l →
  RSVP_LSP.source_node_object l ∈ Node.name <$> node_objects m →
  RSVP_LSP.source_node_object l ≠ RSVP_LSP.dest_node_object l →
  let bw := setup_bandwidth_of traff l in
  let G := _make_weighted_network_graph_mdg m false bw true in
  let s := RSVP_LSP.source_node_object l in
  let d := RSVP_LSP.dest_node_object l in
  let after := _determine_lsp_state_info_body traff draw lsp m in
  after.1 = inr tt ∧
  ∃ l', rsvp_lsp_objects after.2 !! lsp = Some l' ∧
    ((RSVP_LSP.path l' = LspUnrouted ∧ RSVP_LSP.reserved_bandwidth l' = BwUnrouted)
     ↔ (no_path G s d ∨
        ∀ nx_sp p, all_shortest_paths G s d = inr nx_sp →
                   p ∈ enumerated_paths_spec G nx_sp →
                   ¬ enough_reservable_bw (interface_objects m) bw p)) ∧
    (RSVP_LSP.path l' = LspUnrouted →
     interface_objects after.2 = interface_objects m) ∧
    (RSVP_LSP.path l' ≠ LspUnrouted →
     ∃ nx_sp new_path cost,
       all_shortest_paths G s d = inr nx_sp ∧
       new_path ∈ enumerated_paths_spec G nx_sp ∧
       enough_reservable_bw (interface_objects m) bw new_path ∧
       path_cost (interface_objects m) new_path = inr cost ∧
       RSVP_LSP.path l' = LspRouted new_path cost ∧
       RSVP_LSP.reserved_bandwidth l' = Bw bw ∧
       interface_objects after.2 = reserve bw new_path (interface_objects m)).
Proof.
  intros Hl Hs Hsd bw G s d. cbv zeta.
  rewrite (determine_body_run traff draw lsp l m Hl). cbv zeta. fold bw s d.
  pose proof (lsp_candidates_total m bw s d Hs Hsd) as Htot.
  cbv zeta in Htot. fold G in Htot.
  destruct Htot as [[-> Hno]|(nx_sp & cands & Hsp & Hyes & -> & Hcands)].
  - simpl. split; [done|].
    rewrite !list_lookup_alter, !decide_True, Hl by done. simpl.
    eexists. split; [done|]. simpl. split_and!; [|done|done].
    split; [by left|done].
  - destruct cands as [|c cands].
    + simpl. split; [done|].
      rewrite !list_lookup_alter, !decide_True, Hl by done. simpl.
      eexists. split; [done|]. simpl. split_and!; [|done|done].
      split; [|done]. intros _. right. intros nx_sp' p Hsp' Hp Hen.
      assert (nx_sp' = nx_sp) as -> by congruence.
      assert (Hin : p ∈ @nil (list nat)) by by apply Hcands.
      by apply elem_of_nil in Hin.
    + destruct (choose_new_path_total draw (c :: cands)) as (p & -> & Hp); [done|].
      apply Hcands in Hp as [Hp Hen].
      destruct (path_cost_is_inr (interface_objects m) p) as [cost Hcost].
      { eapply Forall_impl; [exact Hen|]. intros k (i & Hi & _). eauto. }
      rewrite Hcost. simpl. split; [done|].
      rewrite !list_lookup_alter, !decide_True, Hl by done. simpl.
      eexists. split; [done|]. simpl. split_and!.
      * split; [by intros [? _]|].
        intros [Hno|Hnone]; [done|]. by destruct (Hnone nx_sp p).
      * done.
      * intros _. by exists nx_sp, p, cost.
Qed.

Lemma lsp_unrouted_iff_no_eligible_path_witness :
  (_determine_lsp_state_info_body 0 7 0 net_parallel).1 = inr tt ∧
  ∃ l', rsvp_lsp_objects (_determine_lsp_state_info_body 0 7 0 net_parallel).2 !! 0
          = Some l' ∧
        RSVP_LSP.path l' ≠ LspUnrouted.
Proof.
  destruct (lsp_unrouted_iff_no_eligible_path 0 7 0 lsp_AB net_parallel)
    as (Hrun & l' & Hl' & _).
  - reflexivity.
  - vm_compute. by left.
  - vm_compute. congruence.
  - split; [exact Hrun|]. exists l'. split; [exact Hl'|].
    vm_compute in Hl'. injection Hl' as <-. simpl. congruence.
Defined.

(** ** Path enumerator: when it raises *)

Lemma first_failing {A} (P : A → Prop) `{!∀ x, Decision (P x)} (l : list A) :
  ¬ Forall P l → ∃ good bad rest, l = good ++ bad :: rest ∧ Forall P good ∧ ¬ P bad.
Proof.
  induction l as [|x l IH]; intros Hbad.
  - destruct Hbad. constructor.
  - destruct (decide (P x)) as [Hx|Hx].
    + destruct IH as (good & bad & rest & -> & Hgood & Hb).
      { intros Hl. apply Hbad. by constructor. }
      exists (x :: good), bad, rest. split_and!; [done|by constructor|done].
    + exists [], x, l. split_and!; [done|constructor|done].
Qed.

Lemma hops_from_raises G a rest :
  ¬ Forall (λ ab, edges_between G ab.1 ab.2 ≠ []) (zip (a :: rest) rest) →
  hops_from G a rest = inl KeyError.
Proof.
  revert a. induction rest as [|b rest IH]; intros a Hbad; simpl.
  - destruct Hbad. constructor.
  - destruct (edges_between G a b) as [|e es] eqn:Hab.
    + by rewrite ecmp_hop_KeyError.
    + rewrite ecmp_hop_spec by (by rewrite Hab). simpl.
      rewrite IH; [done|]. intros Hrest. apply Hbad. simpl.
      constructor; [|done]. simpl. by rewrite Hab.
Qed.

Lemma get_all_paths_mdg_raises G good bad rest :
  Forall (node_hop_sequence G) good → ¬ node_hop_sequence G bad →
  _get_all_paths_mdg G (good ++ bad :: rest)
  = inl (match bad with [] => IndexError | _ => KeyError end).
Proof.
  intros Hgood Hbad. unfold _get_all_paths_mdg.
  induction Hgood as [|p good Hp _ IH].
  - destruct bad as [|a bad]; [done|]. simpl.
    rewrite hops_from_raises; [done|]. intros Hw. apply Hbad. by split.
  - pose proof (get_all_paths_mdg_spec G [p]) as Hone.
    unfold _get_all_paths_mdg in Hone.
    change (res_mapM ?f ((p :: good) ++ bad :: rest))
      with (res_bind (f p) (λ y, res_bind (res_mapM f (good ++ bad :: rest))
                                   (λ ys, inr (y :: ys)))).
    change (res_mapM ?f [p]) with (res_bind (f p) (λ y, inr [y])) in Hone.
    cbv beta in *.
    destruct (match p with [] => _ | _ => _ end) as [e|hops].
    + by specialize (Hone (Forall_cons_2 _ _ _ Hp (Forall_nil_2 _))).
    + simpl. by rewrite IH.
Qed.

(** The enumerator [_get_all_paths_mdg] returns if and only if every
    sequence it is given is a node-hop sequence of [G]. Otherwise it raises
    at the first sequence that is none: IndexError when that sequence is
    empty ([path[0]]), KeyError when two of its consecutive nodes are joined
    by no edge ([G[current_hop][next_hop]]). *)
Theorem get_all_paths_mdg_returns_iff_node_hop_sequences
    (G : MultiDiGraph) (nx_sp : list (list string)) :
  ((∃ all_paths, _get_all_paths_mdg G nx_sp = inr all_paths)
   ↔ Forall (node_hop_sequence G) nx_sp) ∧
  (∀ good bad rest,
     nx_sp = good ++ bad :: rest →
     Forall (node_hop_sequence G) good → ¬ node_hop_sequence G bad →
     _get_all_paths_mdg G nx_sp
     = inl (match bad with [] => IndexError | _ => KeyError end)).
Proof.
  split.
  - split.
    + intros [all_paths Hres].
      destruct (decide (Forall (node_hop_sequence G) nx_sp)) as [|Hbad]; [done|].
      apply first_failing in Hbad as (good & bad & rest & -> & Hgood & Hbad);
        [|apply _].
      by rewrite get_all_paths_mdg_raises in Hres.
    + intros Hw. rewrite get_all_paths_mdg_spec by done. eauto.
  - intros good bad rest -> Hgood Hbad. by apply get_all_paths_mdg_raises.
Qed.

(** ** The interface sequences of the least-cost node-hop paths *)

Lemma local_ecmp_set_cost self f bw r a b k :
  k ∈ local_ecmp_set (_make_weighted_network_graph_mdg self f bw r) a b →
  ∃ i, interface_objects self !! k = Some i ∧
       Interface.cost i = hop_weight (_make_weighted_network_graph_mdg self f bw r) a b.
Proof.
  set (G := _make_weighted_network_graph_mdg self f bw r).
  unfold local_ecmp_set. rewrite list_elem_of_fmap.
  intros (e & -> & He). apply list_elem_of_filter in He as [Hmin He].
  pose proof He as Hin.
  apply list_elem_of_filter in He as [_ He].
  apply graph_edge_inv in He as (i & Hi & _ & Heq).
  exists i. split; [done|].
  assert (Hcost : Edge.cost e = Interface.cost i) by (by rewrite Heq).
  rewrite <- Hcost. unfold hop_weight.
  destruct (min_Z (Edge.cost <$> edges_between G a b)) as [w|] eqn:Hw.
  - apply min_Z_Some in Hw as [Hwin Hle]. simpl.
    apply list_elem_of_fmap in Hwin as (e0 & -> & He0).
    rewrite Forall_forall in Hmin. specialize (Hmin e0 He0).
    specialize (Hle (Edge.cost e) (list_elem_of_fmap_2 _ _ _ Hin)). lia.
  - apply min_Z_None, fmap_nil_inv in Hw. rewrite Hw in Hin.
    by apply elem_of_nil in Hin.
Qed.

Lemma path_cost_cons ints k i p c :
  ints !! k = Some i → path_cost ints p = inr c →
  path_cost ints (k :: p) = inr (Interface.cost i + c)%Z.
Proof.
  unfold path_cost. simpl. intros ->. simpl.
  destruct (res_mapM _ p) as [e|costs]; simpl; [done|]. by intros [= <-].
Qed.

(** An interface sequence drawn hop by hop from the least-cost edges of a
    node-hop sequence leads from its first node to its last, over
    interfaces the graph admits, and costs what the node-hop sequence
    weighs. *)
Lemma enumerated_path_chain self f bw r q s d p :
  let G := _make_weighted_network_graph_mdg self f bw r in
  from_to s d q →
  Forall2 (λ k ab, k ∈ local_ecmp_set G ab.1 ab.2) p (adjacent_pairs q) →
  interface_chain (interface_objects self) s d p ∧
  Forall (λ k, ∃ i, interface_objects self !! k = Some i ∧ eligible f bw r i) p ∧
  path_cost (interface_objects self) p = inr (path_weight G q).
Proof.
  intros G. revert s p. induction q as [|a q IH]; intros s p [Hh Hl] Hall; [done|].
  injection Hh as ->. destruct q as [|b q].
  - apply Forall2_nil_inv_r in Hall as ->. injection Hl as ->. by split_and!.
  - unfold adjacent_pairs in Hall. simpl in Hall.
    apply Forall2_cons_inv_r in Hall as (k & p' & Hk & Hall & ->). simpl in Hk.
    destruct (IH b p') as (Hchain & Hel & Hcost); [done|exact Hall|].
    destruct (elem_of_local_ecmp_set _ _ _ _ _ _ _ Hk) as (i & Hi & Heli & Hu & Hv).
    destruct (local_ecmp_set_cost _ _ _ _ _ _ _ Hk) as (i' & Hi' & Hw).
    assert (i' = i) as -> by congruence.
    split_and!.
    + exists i. split_and!; [done|done|]. by rewrite Hv.
    + constructor; [eauto|done].
    + rewrite (path_cost_cons _ _ i _ _ Hi Hcost).
      change (path_weight G (s :: b :: q))
        with (hop_weight G s b + path_weight G (b :: q))%Z.
      fold G in Hw. by rewrite Hw.
Qed.

(** What the search promises of the sequences it yields: all weigh the
    same, what [shortest_path_length] returns, and no node-hop sequence
    between the two nodes that repeats no node weighs less. *)
Lemma all_shortest_paths_weight G s d nx_sp :
  endpoints_are_nodes G →
  all_shortest_paths G s d = inr nx_sp →
  ∃ w, shortest_path_length G s d = inr w ∧
       (∀ q, q ∈ nx_sp → path_weight G q = w) ∧
       (∀ q, node_hop_sequence G q → from_to s d q → NoDup q →
             (w ≤ path_weight G q)%Z).
Proof.
  intros HG. unfold all_shortest_paths, shortest_path_length.
  case_bool_decide as Hs; [|done].
  destruct (min_Z _) as [w|] eqn:Hw; [|done]. intros [= <-].
  exists w. split; [done|]. apply min_Z_Some in Hw as [_ Hle]. split.
  - by intros q [? _]%list_elem_of_filter.
  - intros q Hq Hft Hnd. apply Hle. apply list_elem_of_fmap_2.
    apply simple_paths_complete; try done.
    + apply Forall_forall. intros x _. by intros ?%elem_of_nil.
    + apply Nat.le_le_succ_r, submseteq_length, NoDup_submseteq; [done|].
      intros x Hx. destruct q as [|a q]; [by apply elem_of_nil in Hx|].
      destruct Hft as [[= ->] _].
      apply elem_of_cons in Hx as [->|Hx]; [done|].
      by apply (node_hop_sequence_nodes G (s :: q)).
Qed.

(** Every interface sequence that demand routing gives a demand (a demand
    with no routed LSP between its endpoints) leads from the source node of
    the demand to its destination node over interfaces that are not
    failed, and costs exactly the least weight of a node-hop sequence
    between the two nodes in the graph of the non-failed interfaces: all
    the sequences of a demand cost the same, and no node-hop sequence
    without a repeated node costs less. *)
Theorem routed_demand_paths_are_least_cost_chains (m : Model) :
  (∀ d, d ∈ demand_objects m →
     Demand.source_node_object d ∈ Node.name <$> node_objects m) →
  let G := _make_weighted_network_graph_mdg m false 0 false in
  ∀ k d carriers p,
    demand_objects (_route_demands m).2 !! k = Some d →
    Demand.path d = DemandRouted carriers →
    ViaInterfaces p ∈ carriers →
    interface_chain (interface_objects m)
      (Demand.source_node_object d) (Demand.dest_node_object d) p ∧
    Forall (λ j, ∃ i, interface_objects m !! j = Some i ∧ Interface.failed i = false) p ∧
    ∃ w, shortest_path_length G (Demand.source_node_object d)
                                (Demand.dest_node_object d) = inr w ∧
         path_cost (interface_objects m) p = inr w ∧
         ∀ q, node_hop_sequence G q →
              from_to (Demand.source_node_object d) (Demand.dest_node_object d) q →
              NoDup q → (w ≤ path_weight G q)%Z.
Proof.
  intros Hnodes G k d carriers p Hk Hpath Hp.
  assert (Hsrc : ∀ d, d ∈ demand_objects m → Demand.source_node_object d ∈ g_nodes G).
  { intros d0 Hd0. apply graph_nodes. left. by apply Hnodes. }
  destruct (route_demands_run m Hsrc) as (_ & _ & Hdem). fold G in Hdem.
  rewrite Hdem in Hk.
  destruct (demand_objects m !! k) as [d0|] eqn:Hd0; [|done].
  injection Hk as <-. simpl in *.
  unfold demand_path_of in Hpath.
  destruct (lsps_for_demand (rsvp_lsp_objects m) d0) as [|c carried].
  - destruct (all_shortest_paths G _ _) as [e|nx_sp] eqn:Hsp; [done|].
    injection Hpath as <-.
    apply list_elem_of_fmap in Hp as (p' & [= <-] & Hp).
    apply enumerated_path_hops in Hp as (q & Hq & Hall).
    destruct (all_shortest_paths_inr _ _ _ _ Hsp) as [_ Hw].
    destruct (Hw q Hq) as (Hqw & Hft & _).
    destruct (enumerated_path_chain m false 0 false q _ _ p Hft Hall)
      as (Hchain & Hel & Hcost).
    destruct (all_shortest_paths_weight G _ _ _ (graph_endpoints_are_nodes _ _ _ _) Hsp)
      as (w & Hlen & Hweight & Hmin).
    split_and!; [done| |].
    + eapply Forall_impl; [exact Hel|]. intros j (i & Hi & Heli).
      exists i. split; [done|]. destruct Heli as [[?|?] _]; done.
    + exists w. split_and!; [done| |done]. fold G in Hcost.
      by rewrite Hcost, (Hweight q Hq).
  - injection Hpath as <-.
    change (ViaInterfaces p ∈ ViaLsp <$> (c :: carried)) in Hp.
    apply list_elem_of_fmap in Hp as (j & Hj & _). done.
Qed.

Lemma routed_demand_paths_are_least_cost_chains_witness :
  ∃ w, path_cost (interface_objects net_parallel) [2] = inr w.
Proof.
  destruct (routed_demand_paths_are_least_cost_chains net_parallel) with
    (k := 0) (d := Demand.mk "A" "B" 60 "dmd_a_b_1"
                     (DemandRouted [ViaInterfaces [0]; ViaInterfaces [2]]))
    (carriers := [ViaInterfaces [0]; ViaInterfaces [2]]) (p := [2])
    as (_ & _ & w & _ & Hcost & _).
  - intros d Hd. apply list_elem_of_In in Hd. simpl in Hd.
    destruct Hd as [<-|[]]. vm_compute. by left.
  - vm_compute. reflexivity.
  - reflexivity.
  - right. by left.
  - exists w. exact Hcost.
Defined.

(** ** What a tick leaves as it was *)

Lemma fmap_eq_Forall2 {A B} (f : A → B) (l1 l2 : list A) :
  f <$> l1 = f <$> l2 → Forall2 (λ a b, f a = f b) l1 l2.
Proof.
  revert l2. induction l1 as [|a l1 IH]; intros [|b l2]; simpl; try done.
  intros [= Hab Hl]. constructor; [done|by apply IH].
Qed.

(** A simulation tick, whether it returns or raises, changes no part of
    the declaration of the model: the interfaces keep their name, cost,
    capacity, nodes, circuit_id, RSVP setting, reservable percentage and
    failed flag, the demands their endpoints, traffic and name, the LSPs
    their endpoints, name and configured setup bandwidth, and the nodes
    and SRLGs are the same; no object is added or removed. *)
Theorem update_simulation_keeps_the_declaration (rnd : nat → nat) (m : Model) :
  let m' := (update_simulation rnd m).2 in
  Forall2 (λ i i',
      Interface.name i' = Interface.name i ∧
      Interface.cost i' = Interface.cost i ∧
      Interface.capacity i' = Interface.capacity i ∧
      Interface.node_object i' = Interface.node_object i ∧
      Interface.remote_node_object i' = Interface.remote_node_object i ∧
      Interface.circuit_id i' = Interface.circuit_id i ∧
      Interface.rsvp_enabled i' = Interface.rsvp_enabled i ∧
      Interface.percent_reservable_bandwidth i'
        = Interface.percent_reservable_bandwidth i ∧
      Interface.failed i' = Interface.failed i)
    (interface_objects m) (interface_objects m') ∧
  Forall2 (λ d d',
      Demand.source_node_object d' = Demand.source_node_object d ∧
      Demand.dest_node_object d' = Demand.dest_node_object d ∧
      Demand.traffic d' = Demand.traffic d ∧
      Demand.name d' = Demand.name d)
    (demand_objects m) (demand_objects m') ∧
  Forall2 (λ l l',
      RSVP_LSP.source_node_object l' = RSVP_LSP.source_node_object l ∧
      RSVP_LSP.dest_node_object l' = RSVP_LSP.dest_node_object l ∧
      RSVP_LSP.lsp_name l' = RSVP_LSP.lsp_name l ∧
      RSVP_LSP.configured_setup_bandwidth l' = RSVP_LSP.configured_setup_bandwidth l)
    (rsvp_lsp_objects m) (rsvp_lsp_objects m') ∧
  node_objects m' = node_objects m ∧
  srlg_objects m' = srlg_objects m.
Proof.
  destruct (decl_update_simulation rnd m) as [Hi Hn Hd Hl Hs]. cbv zeta.
  split_and!; [| | |done|done].
  - symmetry in Hi. apply fmap_eq_Forall2 in Hi.
    eapply Forall2_impl; [exact Hi|]. intros [] []. simpl.
    unfold static_interface, reset_interface. simpl. intros [=]. by subst.
  - symmetry in Hd. apply fmap_eq_Forall2 in Hd.
    eapply Forall2_impl; [exact Hd|]. intros [] []. simpl.
    unfold static_demand. simpl. intros [=]. by subst.
  - symmetry in Hl. apply fmap_eq_Forall2 in Hl.
    eapply Forall2_impl; [exact Hl|]. intros [] []. simpl.
    unfold static_lsp. simpl. intros [=]. by subst.
Qed.

(** ** The paths the LSPs record after a tick *)

Lemma static_lookup (ints ints' : list Interface.t) (k : nat) (i : Interface.t) :
  static_interface <$> ints' = static_interface <$> ints →
  ints !! k = Some i →
  ∃ i', ints' !! k = Some i' ∧ static_interface i' = static_interface i.
Proof.
  intros Heq Hi.
  assert (H : (static_interface <$> ints') !! k = (static_interface <$> ints) !! k)
    by (by rewrite Heq).
  rewrite !list_lookup_fmap, Hi in H.
  destruct (ints' !! k) as [i'|]; simpl in H; [|done].
  exists i'. split; [done|]. congruence.
Qed.

Lemma static_interface_fields (i i' : Interface.t) :
  static_interface i' = static_interface i →
  Interface.node_object i' = Interface.node_object i ∧
  Interface.remote_node_object i' = Interface.remote_node_object i ∧
  Interface.cost i' = Interface.cost i ∧
  Interface.failed i' = Interface.failed i ∧
  Interface.rsvp_enabled i' = Interface.rsvp_enabled i.
Proof. destruct i, i'. unfold static_interface, reset_interface. simpl. by intros [=]. Qed.

Lemma interface_chain_static ints ints' s d p :
  static_interface <$> ints' = static_interface <$> ints →
  interface_chain ints s d p → interface_chain ints' s d p.
Proof.
  intros Heq. revert s. induction p as [|k p IH]; intros s; simpl; [done|].
  intros (i & Hi & Hs & Hchain).
  destruct (static_lookup ints ints' k i Heq Hi) as (i' & Hi' & Hst).
  apply static_interface_fields in Hst as (Hn & Hr & _).
  exists i'. split_and!; [done|congruence|]. rewrite Hr. by apply IH.
Qed.

Lemma path_cost_static ints ints' p :
  static_interface <$> ints' = static_interface <$> ints →
  path_cost ints' p = path_cost ints p.
Proof.
  intros Heq. unfold path_cost. f_equal. apply res_mapM_ext. intros k.
  assert (H : (static_interface <$> ints') !! k = (static_interface <$> ints) !! k)
    by (by rewrite Heq).
  rewrite !list_lookup_fmap in H.
  destruct (ints' !! k) as [i'|], (ints !! k) as [i|]; simpl in *; try done.
  assert (Hst : static_interface i' = static_interface i) by congruence.
  apply static_interface_fields in Hst as (_ & _ & Hc & _).
  by rewrite Hc.
Qed.

Lemma sound_lsp_path_static ints ints' l :
  static_interface <$> ints' = static_interface <$> ints →
  sound_lsp_path ints l → sound_lsp_path ints' l.
Proof.
  intros Heq. unfold sound_lsp_path.
  destruct (RSVP_LSP.path l) as [| |p c]; try done.
  intros (Hchain & Hnd & Hall & Hcost & Hbw). split_and!; [|done| | |done].
  - by eapply interface_chain_static.
  - eapply Forall_impl; [exact Hall|]. intros j (i & Hi & Hf & Hr).
    destruct (static_lookup ints ints' j i Heq Hi) as (i' & Hi' & Hst).
    apply static_interface_fields in Hst as (_ & _ & _ & Hf' & Hr').
    exists i'. split_and!; congruence.
  - by rewrite (path_cost_static ints ints' p Heq).
Qed.

Lemma static_reserve bw path ints :
  static_interface <$> reserve bw path ints = static_interface <$> ints.
Proof.
  unfold reserve. revert ints. induction path as [|k path IH]; intros ints; simpl; [done|].
  rewrite IH. apply fmap_alter_absorb. by intros [].
Qed.

Lemma static_of_routing_view m m' :
  routing_view m' = routing_view m →
  static_interface <$> interface_objects m' = static_interface <$> interface_objects m.
Proof.
  unfold routing_view. intros [= _ Hi]. apply list_eq. intros k.
  assert (H : (routing_interface <$> interface_objects m') !! k
              = (routing_interface <$> interface_objects m) !! k) by (by rewrite Hi).
  rewrite !list_lookup_fmap in *.
  destruct (interface_objects m' !! k) as [[]|], (interface_objects m !! k) as [[]|];
    simpl in *; try done.
  unfold routing_interface, static_interface, reset_interface in *. simpl in *.
  injection H as -> -> -> -> -> -> -> -> -> ->. done.
Qed.

Lemma routed_lsps_sound_view m m' :
  routing_view m' = routing_view m → routed_lsps_sound m → routed_lsps_sound m'.
Proof.
  intros Hview Hm. unfold routed_lsps_sound.
  pose proof (static_of_routing_view m m' Hview) as Hst.
  injection Hview as -> _.
  eapply Forall_impl; [exact Hm|]. intros l. by apply sound_lsp_path_static.
Qed.

(** Demand routing and validation leave the LSPs and the reservations. *)
Lemma view_update_demand v k f :
  preserves (λ m, routing_view m = v) (update_demand k f).
Proof. by apply preserves_modify. Qed.

Lemma view_update_interface v k f :
  (∀ i, routing_interface (f i) = routing_interface i) →
  preserves (λ m, routing_view m = v) (update_interface k f).
Proof.
  intros Hf. apply preserves_modify. intros m <-. unfold routing_view. simpl.
  by rewrite fmap_alter_absorb.
Qed.

Lemma view_route_demands v : preserves (λ m, routing_view m = v) _route_demands.
Proof.
  unfold _route_demands, _route_demands_body, _update_interface_utilization, add_traffic.
  repeat preserves_step;
    try apply view_update_demand;
    try (apply view_update_interface; by intros []).
Qed.

Lemma view_pair_interfaces v graph_interfaces circuits :
  preserves (λ m, routing_view m = v) (pair_interfaces graph_interfaces circuits).
Proof.
  revert circuits. induction graph_interfaces as [|e es IH]; intros circuits; simpl.
  - apply preserves_ret.
  - repeat preserves_step; try apply IH;
      try (apply view_update_interface; by intros []).
Qed.

Lemma view_validate_model v : preserves (λ m, routing_view m = v) validate_model.
Proof.
  unfold validate_model, _make_circuits_multidigraph.
  repeat preserves_step; try apply view_pair_interfaces.
  apply preserves_modify. intros m <-. unfold routing_view. simpl.
  by rewrite fmap_fmap_absorb by (by intros []).
Qed.

Lemma sound_route_demands : preserves routed_lsps_sound _route_demands.
Proof.
  intros m Hm. apply (routed_lsps_sound_view m); [|done].
  by apply (view_route_demands (routing_view m)).
Qed.

Lemma sound_validate_model : preserves routed_lsps_sound validate_model.
Proof.
  intros m Hm. apply (routed_lsps_sound_view m); [|done].
  by apply (view_validate_model (routing_view m)).
Qed.

Lemma sound_determine_body traff draw lsp :
  preserves routed_lsps_sound (_determine_lsp_state_info_body traff draw lsp).
Proof.
  intros m Hm. destruct (rsvp_lsp_objects m !! lsp) as [l|] eqn:Hl.
  - rewrite (determine_body_run traff draw lsp l m Hl). cbv zeta.
    set (bw := setup_bandwidth_of traff l).
    assert (Hbegin : routed_lsps_sound (begin_placement lsp bw m)).
    { unfold routed_lsps_sound, begin_placement. simpl.
      apply Forall_alter; [|done].
      apply Forall_alter; [done|]. intros l' Hl' Hs. unfold sound_lsp_path in *.
      destruct l'; simpl in *. destruct path as [| |p c]; try done.
      destruct Hs as (? & ? & ? & ? & _). split_and!; eauto. }
    assert (Hunrouted : routed_lsps_sound (unrouted_state lsp (begin_placement lsp bw m))).
    { unfold routed_lsps_sound, unrouted_state in *. simpl in *.
      apply Forall_alter; [done|]. done. }
    destruct (lsp_candidates m bw _ _) as [e|[cands|]] eqn:Hc; simpl; try done.
    destruct (choose_new_path draw cands) as [e|[new_path|]] eqn:Hchoose; simpl; try done.
    destruct (path_cost (interface_objects m) new_path) as [e|cost] eqn:Hcost;
      simpl; try done.
    apply choose_new_path_elem in Hchoose.
    destruct (lsp_candidates_path _ _ _ _ _ _ Hc Hchoose)
      as (Hnd & _ & nx_sp & Hsp & Hp).
    apply enumerated_path_hops in Hp as (q & Hq & Hall).
    destruct (all_shortest_paths_inr _ _ _ _ Hsp) as [_ Hw].
    destruct (Hw q Hq) as (_ & Hft & _).
    destruct (enumerated_path_chain m false bw true q _ _ new_path Hft Hall)
      as (Hchain & Hel & _).
    unfold routed_lsps_sound, routed_state. simpl.
    apply Forall_alter.
    + eapply Forall_impl; [exact Hbegin|]. intros l'. simpl.
      apply sound_lsp_path_static. apply static_reserve.
    + intros l'. rewrite !list_lookup_alter, !decide_True, Hl by done. simpl.
      intros [= <-] _. unfold sound_lsp_path. simpl.
      pose proof (static_reserve bw new_path (interface_objects m)) as Hst.
      split_and!.
      * by apply (interface_chain_static (interface_objects m)).
      * done.
      * eapply Forall_impl; [exact Hel|]. intros j (i & Hi & Heli).
        destruct (static_lookup _ _ j i Hst Hi) as (i' & Hi' & Hsti).
        apply static_interface_fields in Hsti as (_ & _ & _ & Hf' & Hr').
        exists i'. destruct Heli as ([?|Hf] & _ & [?|Hr]); try done.
        split_and!; congruence.
      * by rewrite (path_cost_static _ _ _ Hst).
      * eauto.
  - unfold _determine_lsp_state_info_body. run_M. rewrite Hl. simpl. done.
Qed.

Lemma sound_route_lsps rnd : preserves routed_lsps_sound (_route_lsps rnd).
Proof.
  apply preserves_bind; [apply preserves_get|]. intros self.
  apply preserves_for_each. intros group.
  apply preserves_for_each. intros lsp. apply sound_determine_body.
Qed.

Lemma sound_update_simulation rnd m : routed_lsps_sound (update_simulation rnd m).2.
Proof.
  rewrite update_simulation_unfold.
  apply (preserves_bind routed_lsps_sound (_route_lsps rnd));
    [apply sound_route_lsps| |].
  - intros _. apply preserves_bind; [apply sound_route_demands|].
    intros _. apply sound_validate_model.
  - unfold routed_lsps_sound, reset_state. simpl.
    apply Forall_fmap, Forall_true. intros l. by unfold sound_lsp_path.
Qed.

(** After a simulation tick, whether it returned or raised, every LSP
    that records a path records a sound one. In terms of the model the
    tick started from: the interfaces of the path lead from the source
    node of the LSP to its destination node, no interface is taken twice,
    none is failed or closed to RSVP, the recorded baseline cost is the sum
    of the costs of the interfaces, and the reserved bandwidth of the LSP is
    the number it was set up with. *)
Theorem routed_lsp_records_a_sound_path
    (rnd : nat → nat) (m : Model) (k : nat) (l : RSVP_LSP.t)
    (p : list nat) (c : Z) :
  rsvp_lsp_objects (update_simulation rnd m).2 !! k = Some l →
  RSVP_LSP.path l = LspRouted p c →
  interface_chain (interface_objects m) (RSVP_LSP.source_node_object l)
                  (RSVP_LSP.dest_node_object l) p ∧
  NoDup p ∧
  Forall (λ j, ∃ i, interface_objects m !! j = Some i ∧ Interface.failed i = false ∧
                    Interface.rsvp_enabled i = true) p ∧
  path_cost (interface_objects m) p = inr c ∧
  ∃ bw, RSVP_LSP.reserved_bandwidth l = Bw bw ∧ RSVP_LSP.setup_bandwidth l = Bw bw.
Proof.
  intros Hk Hpath.
  pose proof (sound_update_simulation rnd m) as Hsound.
  unfold routed_lsps_sound in Hsound. rewrite Forall_lookup in Hsound.
  specialize (Hsound k l Hk).
  apply (sound_lsp_path_static _ (interface_objects m)) in Hsound.
  - unfold sound_lsp_path in Hsound. by rewrite Hpath in Hsound.
  - symmetry. apply (decl_interfaces _ _ (decl_update_simulation rnd m)).
Qed.

Lemma routed_lsp_records_a_sound_path_witness :
  interface_chain (interface_objects net_parallel) "A" "B" [0] ∧
  path_cost (interface_objects net_parallel) [0] = inr 10%Z.
Proof.
  destruct (routed_lsp_records_a_sound_path (λ _, 0) net_parallel 0
              (RSVP_LSP.mk "A" "B" "lsp_a_b_1" (Some 10%Q) (LspRouted [0] 10)
                           (Bw 10) (Bw 10)) [0] 10)
    as (Hchain & _ & _ & Hcost & _).
  - vm_compute. reflexivity.
  - reflexivity.
  - split; [exact Hchain|exact Hcost].
Defined.

(** ** Reservation accounting *)

Lemma Qsum_cons (x : Q) (l : list Q) : Qsum (x :: l) = (x + Qsum l)%Q.
Proof. reflexivity. Qed.

Lemma Qsum_alter {A} (g : A → Q) (f : A → A) (j : nat) (l : list A) (x : A) :
  l !! j = Some x →
  Qsum (g <$> alter f j l) == Qsum (g <$> l) - g x + g (f x).
Proof.
  revert j. induction l as [|y l IH]; intros [|j] Hj; try done.
  - injection Hj as ->. simpl. lra.
  - change (Qsum (g <$> alter f (S j) (y :: l)))
      with (g y + Qsum (g <$> alter f j l))%Q.
    rewrite (IH j Hj). rewrite fmap_cons, Qsum_cons. lra.
Qed.

Lemma int_info_as_sum (self : Model) (k : nat) :
  _make_int_info_dict self k == Qsum (contribution k <$> rsvp_lsp_objects self).
Proof.
  unfold _make_int_info_dict, contribution.
  induction (rsvp_lsp_objects self) as [|l lsps IH]; [reflexivity|].
  rewrite filter_cons, fmap_cons, Qsum_cons.
  destruct (decide (lsp_transits k l)).
  - rewrite fmap_cons, Qsum_cons, IH. reflexivity.
  - rewrite IH. lra.
Qed.

Lemma alter_out_of_range {A} (f : A → A) (j : nat) (l : list A) :
  l !! j = None → alter f j l = l.
Proof.
  intros Hj. apply list_eq. intros k. destruct (decide (j = k)) as [->|Hne].
  - by rewrite list_lookup_alter_eq, Hj.
  - by rewrite list_lookup_alter_ne.
Qed.

Lemma contribution_unplaced k l : unplaced l → contribution k l = 0%Q.
Proof. intros Hl. unfold contribution. by rewrite decide_False. Qed.

Lemma lookup_reserve (bw : Q) (p : list nat) (ints : list Interface.t) (k : nat) :
  NoDup p →
  reserve bw p ints !! k
  = (λ i, if decide (k ∈ p)
          then Interface.set_reserved_bandwidth (Interface.reserved_bandwidth i + bw)%Q i
          else i) <$> ints !! k.
Proof.
  unfold reserve. revert ints. induction p as [|j p IH]; intros ints Hnd.
  - cbn [foldl]. destruct (ints !! k) as [i|]; [|done].
    cbn [fmap option_fmap option_map]. case_decide as Hk; [|done].
    by apply elem_of_nil in Hk.
  - apply NoDup_cons in Hnd as [Hj Hnd]. cbn [foldl]. rewrite IH by done.
    destruct (decide (k = j)) as [->|Hne].
    + rewrite list_lookup_alter_eq. destruct (ints !! j) as [i|]; [|done].
      cbn [fmap option_fmap option_map].
      rewrite decide_False by done. rewrite decide_True by (by left). done.
    + rewrite list_lookup_alter_ne by done. destruct (ints !! k) as [i|]; [|done].
      cbn [fmap option_fmap option_map].
      destruct (decide (k ∈ p)).
      * rewrite decide_True by (by right). done.
      * rewrite decide_False; [done|]. by intros [->|?]%elem_of_cons.
Qed.

(** A round that leaves its LSP routed over no interface and changes no
    interface. *)
Lemma accounting_unplaced (todo : list nat) (lsp : nat) (m : Model)
    (F : RSVP_LSP.t → RSVP_LSP.t) :
  (∀ l, unplaced (F l)) →
  accounting (lsp :: todo) m →
  accounting (lsp :: todo)
    (set_rsvp_lsp_objects (alter F lsp (rsvp_lsp_objects m)) m).
Proof.
  intros HF [Hacc Htodo]. split.
  - intros k i Hi. simpl in *. rewrite (Hacc k i Hi).
    destruct (rsvp_lsp_objects m !! lsp) as [l|] eqn:Hl.
    + rewrite (Qsum_alter _ F lsp _ l Hl).
      rewrite (contribution_unplaced k l), (contribution_unplaced k (F l)); [lra|done|].
      apply (Htodo lsp l); [by left|done].
    + rewrite alter_out_of_range by done. reflexivity.
  - intros k l Hk. simpl. destruct (decide (k = lsp)) as [->|Hne].
    + rewrite list_lookup_alter_eq.
      destruct (rsvp_lsp_objects m !! lsp); simpl; [|done]. by intros [= <-].
    + rewrite list_lookup_alter_ne by done. by apply Htodo.
Qed.

Lemma accounting_weaken (todo todo' : list nat) (m : Model) :
  todo' ⊆ todo → accounting todo m → accounting todo' m.
Proof. intros Hsub [Hacc Htodo]. split; [done|]. intros k l Hk. apply Htodo. by apply Hsub. Qed.

(** A round that routes its LSP over [p] and reserves on [p]. *)
Lemma accounting_routed (todo : list nat) (lsp : nat) (l : RSVP_LSP.t) (m : Model)
    (p : list nat) (cost : Z) (bw : Q) :
  lsp ∉ todo → NoDup p → rsvp_lsp_objects m !! lsp = Some l →
  accounting (lsp :: todo) m →
  accounting todo (routed_state lsp p cost bw (begin_placement lsp bw m)).
Proof.
  intros Hlsp Hnd Hl [Hacc Htodo]. rewrite routed_state_alter. split.
  - intros k i'. simpl. rewrite lookup_reserve by done.
    destruct (interface_objects m !! k) as [i|] eqn:Hi; simpl; [|done].
    intros [= <-]. rewrite (Qsum_alter _ _ lsp _ l Hl).
    rewrite (contribution_unplaced k l) by (apply (Htodo lsp l); [by left|done]).
    specialize (Hacc k i Hi).
    unfold contribution at 2. unfold lsp_transits, lsp_reservation. simpl.
    destruct (decide (k ∈ p)); simpl; rewrite Hacc; lra.
  - intros k l' Hk. simpl. rewrite list_lookup_alter_ne by (by intros ->).
    apply Htodo. by right.
Qed.

Lemma accounting_determine_body traff draw lsp todo m :
  lsp ∉ todo → accounting (lsp :: todo) m →
  accounting todo (_determine_lsp_state_info_body traff draw lsp m).2.
Proof.
  intros Hlsp Hm. destruct (rsvp_lsp_objects m !! lsp) as [l|] eqn:Hl.
  - rewrite (determine_body_run traff draw lsp l m Hl). cbv zeta.
    set (bw := setup_bandwidth_of traff l).
    assert (Hbegin : accounting todo (begin_placement lsp bw m)).
    { rewrite begin_placement_alter.
      apply (accounting_weaken (lsp :: todo)); [by intros ? ?; right|].
      apply accounting_unplaced; [|done]. by intros l' j []. }
    assert (Hunrouted : accounting todo (unrouted_state lsp (begin_placement lsp bw m))).
    { rewrite unrouted_state_alter.
      apply (accounting_weaken (lsp :: todo)); [by intros ? ?; right|].
      apply accounting_unplaced; [|done]. by intros l' j []. }
    destruct (lsp_candidates m bw _ _) as [e|[cands|]] eqn:Hc; simpl; try done.
    destruct (choose_new_path draw cands) as [e|[new_path|]] eqn:Hchoose; simpl; try done.
    destruct (path_cost (interface_objects m) new_path) as [e|cost] eqn:Hcost;
      simpl; try done.
    apply choose_new_path_elem in Hchoose.
    destruct (lsp_candidates_path _ _ _ _ _ _ Hc Hchoose) as (Hnd & _).
    by apply (accounting_routed todo lsp l).
  - unfold _determine_lsp_state_info_body. run_M. rewrite Hl. simpl.
    apply (accounting_weaken (lsp :: todo)); [by intros ? ?; right|done].
Qed.

Lemma accounting_determine_lsp_state_info rnd traff lsps rest m :
  NoDup (lsps ++ rest) → accounting (lsps ++ rest) m →
  accounting rest (_determine_lsp_state_info rnd lsps traff m).2.
Proof.
  unfold _determine_lsp_state_info. revert m.
  induction lsps as [|lsp lsps IH]; intros m Hnd Hm; [done|].
  simpl in Hnd. apply NoDup_cons in Hnd as [Hlsp Hnd].
  pose proof (accounting_determine_body traff (rnd lsp) lsp (lsps ++ rest) m Hlsp Hm)
    as Hstep.
  simpl. unfold bind at 1.
  destruct (_determine_lsp_state_info_body traff (rnd lsp) lsp m) as [[e|[]] m1];
    simpl in *.
  - apply (accounting_weaken (lsps ++ rest)); [|done].
    intros k Hk. apply elem_of_app. by right.
  - by apply IH.
Qed.

Lemma accounting_groups rnd (traff : (string * string) * list nat → Q)
    (groups : list ((string * string) * list nat)) (m : Model) :
  NoDup (concat (snd <$> groups)) → accounting (concat (snd <$> groups)) m →
  reservations_accounted
    (for_each groups (λ group,
       _determine_lsp_state_info rnd group.2 (traff group)) m).2.
Proof.
  revert m. induction groups as [|g groups IH]; intros m Hnd Hm; [by destruct Hm|].
  simpl in Hnd, Hm.
  pose proof (accounting_determine_lsp_state_info rnd (traff g) g.2 _ m Hnd Hm) as Hstep.
  simpl. unfold bind at 1.
  destruct (_determine_lsp_state_info rnd g.2 (traff g) m) as [[e|[]] m1]; simpl in *.
  - by destruct Hstep.
  - apply IH; [|done]. by apply NoDup_app in Hnd as (_ & _ & ?).
Qed.

Lemma elem_of_concat {A} (x : A) (ls : list (list A)) :
  x ∈ concat ls ↔ ∃ l, x ∈ l ∧ l ∈ ls.
Proof.
  induction ls as [|l ls IH]; simpl.
  - split; [by intros ?%elem_of_nil|]. by intros (l & _ & ?%elem_of_nil).
  - rewrite elem_of_app, IH. split.
    + intros [?|(l' & ? & ?)]; [exists l; split; [done|by left]|].
      exists l'. split; [done|by right].
    + intros (l' & Hx & [->|?]%elem_of_cons); [by left|]. right. eauto.
Qed.

Lemma parallel_lsp_groups_NoDup (lsps : list RSVP_LSP.t) :
  NoDup (concat (snd <$> parallel_lsp_groups lsps)).
Proof.
  unfold parallel_lsp_groups. rewrite <- list_fmap_compose.
  pose proof (NoDup_remove_dups (lsp_endpoints <$> lsps)) as Hkeys.
  induction Hkeys as [|key keys Hkey Hkeys IH]; [constructor|].
  rewrite fmap_cons. simpl. apply NoDup_app. split_and!.
  - apply (NoDup_fmap_2_strong fst).
    + intros [k1 l1] [k2 l2] [_ H1%elem_of_enumerate]%list_elem_of_filter
        [_ H2%elem_of_enumerate]%list_elem_of_filter. simpl. intros ->. congruence.
    + apply NoDup_filter. unfold enumerate. apply NoDup_alt.
      intros i j [k l] Hi Hj. rewrite list_lookup_imap in Hi, Hj.
      destruct (lsps !! i), (lsps !! j); simpl in *; congruence.
  - intros k Hk Hk'.
    apply list_elem_of_fmap in Hk as ([k1 l1] & -> & Hin).
    apply list_elem_of_filter in Hin as [Hkey1 Hin]. apply elem_of_enumerate in Hin.
    apply elem_of_concat in Hk' as (ks & Hk' & Hks).
    apply list_elem_of_fmap in Hks as (key' & -> & Hkey').
    simpl in Hk'. apply list_elem_of_fmap in Hk' as ([k2 l2] & Heq & Hin').
    apply list_elem_of_filter in Hin' as [Hkey2 Hin']. apply elem_of_enumerate in Hin'.
    simpl in *. subst k2. assert (l2 = l1) as -> by congruence.
    apply Hkey. congruence.
  - exact IH.
Qed.

Lemma accounting_route_lsps rnd m :
  accounting (seq 0 (length (rsvp_lsp_objects m))) m →
  reservations_accounted (_route_lsps rnd m).2.
Proof.
  intros Hm. unfold _route_lsps. unfold bind at 1, get at 1.
  apply (accounting_groups rnd
           (λ group, traffic_in_demand_group (demand_objects m) group.1
                     / Q_of_nat (length group.2))%Q).
  - apply parallel_lsp_groups_NoDup.
  - apply (accounting_weaken (seq 0 (length (rsvp_lsp_objects m)))); [|done].
    intros k Hk. apply elem_of_concat in Hk as (ks & Hk & Hks).
    apply list_elem_of_fmap in Hks as ([key ks'] & -> & Hg).
    unfold parallel_lsp_groups in Hg.
    apply list_elem_of_fmap in Hg as (key' & [= -> ->] & _). simpl in Hk.
    apply list_elem_of_fmap in Hk as ([k' l] & -> & Hin).
    apply list_elem_of_filter in Hin as [_ Hin]. apply elem_of_enumerate in Hin.
    apply elem_of_seq. simpl. apply lookup_lt_Some in Hin. lia.
Qed.

Lemma accounted_view m m' :
  routing_view m' = routing_view m →
  reservations_accounted m → reservations_accounted m'.
Proof.
  unfold routing_view. intros [= Hl Hi] Hm k i' Hk. rewrite Hl.
  assert (H : (routing_interface <$> interface_objects m') !! k
              = (routing_interface <$> interface_objects m) !! k) by (by rewrite Hi).
  rewrite !list_lookup_fmap, Hk in H.
  destruct (interface_objects m !! k) as [i|] eqn:Hik; simpl in H; [|done].
  rewrite <- (Hm k i Hik).
  assert (Hr : routing_interface i' = routing_interface i) by congruence.
  destruct i, i'. unfold routing_interface in Hr. simpl in *.
  injection Hr as _ _ _ _ _ _ _ _ _ ->. reflexivity.
Qed.

Lemma Qsum_zeros {A} (g : A → Q) (l : list A) :
  (∀ x, x ∈ l → g x = 0%Q) → Qsum (g <$> l) == 0.
Proof.
  induction l as [|x l IH]; intros Hz; [reflexivity|].
  rewrite fmap_cons, Qsum_cons, (Hz x) by (by left).
  rewrite IH; [lra|]. intros y Hy. apply Hz. by right.
Qed.

Lemma accounting_reset_state m :
  accounting (seq 0 (length (rsvp_lsp_objects (reset_state m)))) (reset_state m).
Proof.
  split.
  - intros k i. simpl. rewrite list_lookup_fmap.
    destruct (interface_objects m !! k) as [i0|]; simpl; [|done]. intros [= <-].
    simpl. rewrite Qsum_zeros; [reflexivity|].
    intros l (l0 & -> & _)%list_elem_of_fmap. apply contribution_unplaced.
    by intros j [].
  - intros k l _. simpl. rewrite list_lookup_fmap.
    destruct (rsvp_lsp_objects m !! k) as [l0|]; simpl; [|done].
    intros [= <-]. by intros j [].
Qed.

Lemma accounted_update_simulation rnd m :
  reservations_accounted (update_simulation rnd m).2.
Proof.
  rewrite update_simulation_unfold.
  pose proof (accounting_route_lsps rnd _ (accounting_reset_state m)) as H1.
  unfold bind at 1.
  destruct (_route_lsps rnd (reset_state m)) as [[e|[]] m1]; simpl in *; [done|].
  pose proof (view_route_demands (routing_view m1) m1 eq_refl) as H2.
  unfold bind at 1.
  destruct (_route_demands m1) as [[e|[]] m2]; simpl in *.
  - by apply (accounted_view m1).
  - pose proof (view_validate_model (routing_view m2) m2 eq_refl) as H3.
    apply (accounted_view m2); [done|]. by apply (accounted_view m1).
Qed.

(** With the bandwidths taken as exact rationals: after a simulation tick,
    whether it returned or raised, the reserved bandwidth of every
    interface equals the sum of the reserved bandwidths
    of the LSPs that record the interface in their path: what
    [_make_int_info_dict] collects for the interface. *)
Theorem exact_reserved_bandwidth_is_the_sum_of_the_lsp_reservations
    (rnd : nat → nat) (m : Model) (k : nat) (i : Interface.t) :
  let m' := (update_simulation rnd m).2 in
  interface_objects m' !! k = Some i →
  Interface.reserved_bandwidth i
  == Qsum (lsp_reservation <$> filter (lsp_transits k) (rsvp_lsp_objects m')) ∧
  Interface.reserved_bandwidth i == _make_int_info_dict m' k.
Proof.
  intros m' Hk.
  pose proof (accounted_update_simulation rnd m k i Hk) as H.
  pose proof (int_info_as_sum m' k) as Hsum. fold m' in H.
  split; [|by rewrite Hsum]. unfold _make_int_info_dict in Hsum. by rewrite Hsum.
Qed.

Lemma exact_reserved_bandwidth_is_the_sum_of_the_lsp_reservations_witness :
  ∃ i, interface_objects (update_simulation (λ _, 0) net_parallel).2 !! 0 = Some i ∧
       Interface.reserved_bandwidth i
       == _make_int_info_dict (update_simulation (λ _, 0) net_parallel).2 0.
Proof.
  eexists. split; [vm_compute; reflexivity|].
  refine (proj2 (exact_reserved_bandwidth_is_the_sum_of_the_lsp_reservations
                   (λ _, 0) net_parallel 0 _ _)).
  vm_compute. reflexivity.
Defined.

(** ** Circuits pair each interface with its counterpart *)

Lemma elem_of_matching_interfaces ints u v cid k :
  k ∈ matching_interfaces ints u v cid
  ↔ ∃ i, ints !! k = Some i ∧ Interface.node_object i = u ∧
         Interface.remote_node_object i = v ∧ Interface.circuit_id i = cid.
Proof.
  unfold matching_interfaces. rewrite list_elem_of_fmap. split.
  - intros ([k' i] & -> & Hin). apply list_elem_of_filter in Hin as [Hp Hin].
    apply elem_of_enumerate in Hin. exists i. simpl in *. tauto.
  - intros (i & Hi & Hu & Hv & Hc). exists (k, i). split; [done|].
    apply list_elem_of_filter. split; [done|]. by apply elem_of_enumerate.
Qed.

Lemma matching_interfaces_fmap_core ints u v cid :
  matching_interfaces (core_interface <$> ints) u v cid
  = matching_interfaces ints u v cid.
Proof.
  unfold matching_interfaces. apply (select_enumerate_fmap core_interface).
  - by intros k [].
  - done.
Qed.

Lemma matching_interfaces_core ints ints' u v cid :
  core_interface <$> ints' = core_interface <$> ints →
  matching_interfaces ints' u v cid = matching_interfaces ints u v cid.
Proof.
  intros Heq.
  by rewrite <- (matching_interfaces_fmap_core ints'), Heq, matching_interfaces_fmap_core.
Qed.

Lemma first_interface_or_raise_inr self u v cid k :
  first_interface_or_raise self u v cid = inr k
  ↔ matching_interfaces (interface_objects self) u v cid = [k].
Proof.
  unfold first_interface_or_raise, get_interface_object_from_nodes.
  fold (matching_interfaces (interface_objects self) u v cid).
  destruct (matching_interfaces _ u v cid) as [|k1 [|k2 l]]; simpl.
  - split; intros [=].
  - split; intros [= ->]; done.
  - split; intros [=].
Qed.

Lemma first_interface_or_raise_inl self u v cid e :
  first_interface_or_raise self u v cid = inl e →
  e = ModelException (NoMatchingInterface u v cid).
Proof.
  unfold first_interface_or_raise.
  destruct (get_interface_object_from_nodes _ _ _ _) as [[|k l]|]; by intros [= <-].
Qed.

Lemma pair_interfaces_cons e es cs x :
  pair_interfaces (e :: es) cs x
  = match first_interface_or_raise x (Edge.u e) (Edge.v e) (Edge.circuit_id e) with
    | inl r => (inl r, x)
    | inr int1 =>
        match first_interface_or_raise x (Edge.v e) (Edge.u e) (Edge.circuit_id e) with
        | inl r => (inl r, x)
        | inr int2 =>
            match interface_objects x !! int1, interface_objects x !! int2 with
            | Some i1, Some i2 =>
                if negb (Interface.in_ckt i1) && negb (Interface.in_ckt i2) then
                  pair_interfaces es (cs ++ [mkCircuit int1 int2])
                    (set_interface_objects
                       (alter (Interface.set_in_ckt true) int2
                          (alter (Interface.set_in_ckt true) int1 (interface_objects x)))
                       x)
                else pair_interfaces es cs x
            | _, _ => (inl DanglingReference, x)
            end
        end
    end.
Proof.
  simpl. run_M.
  destruct (first_interface_or_raise x (Edge.u e) _ _) as [r|int1]; simpl; [done|].
  destruct (first_interface_or_raise x (Edge.v e) _ _) as [r|int2]; simpl; [done|].
  destruct (interface_objects x !! int1) as [i1|]; simpl; [|done].
  destruct (interface_objects x !! int2) as [i2|]; simpl; [|done].
  destruct (negb (Interface.in_ckt i1) && negb (Interface.in_ckt i2)); [|done].
  by destruct x.
Qed.

Lemma counterpart_core ints ints' a b :
  core_interface <$> ints' = core_interface <$> ints →
  counterpart ints a b → counterpart ints' a b.
Proof.
  intros Heq (i & Hi & Ha & Hb).
  assert (H : (core_interface <$> ints') !! a = (core_interface <$> ints) !! a)
    by (by rewrite Heq).
  rewrite !list_lookup_fmap, Hi in H.
  destruct (ints' !! a) as [i'|] eqn:Hi'; simpl in H; [|done].
  assert (Hc : core_interface i' = core_interface i) by congruence.
  exists i'. split; [done|].
  assert (Hf : Interface.node_object i' = Interface.node_object i ∧
               Interface.remote_node_object i' = Interface.remote_node_object i ∧
               Interface.circuit_id i' = Interface.circuit_id i).
  { destruct i, i'. unfold core_interface in Hc. simpl in *.
    by injection Hc as -> -> -> -> -> -> -> -> -> -> ->. }
  destruct Hf as (-> & -> & ->).
  by rewrite !(matching_interfaces_core ints ints').
Qed.

Lemma counterpart_fun ints a b b' :
  counterpart ints a b → counterpart ints a b' → b = b'.
Proof. intros (i & Hi & _ & Hb) (i' & Hi' & _ & Hb'). congruence. Qed.

Lemma counterpart_sym ints a b : counterpart ints a b → counterpart ints b a.
Proof.
  intros (i & Hi & Ha & Hb).
  assert (Hin : b ∈ matching_interfaces ints (Interface.remote_node_object i)
                  (Interface.node_object i) (Interface.circuit_id i))
    by (rewrite Hb; by left).
  apply elem_of_matching_interfaces in Hin as (ib & Hib & Hu & Hv & Hc).
  exists ib. split; [done|]. by rewrite Hu, Hv, Hc.
Qed.

Lemma elem_of_ckt_members k c : k ∈ ckt_members c ↔ k = ckt_a c ∨ k = ckt_b c.
Proof.
  unfold ckt_members. rewrite elem_of_remove_dups, !elem_of_cons, elem_of_nil. tauto.
Qed.

Lemma elem_of_circuit_members k cs :
  k ∈ circuit_members cs ↔ ∃ c, c ∈ cs ∧ k ∈ ckt_members c.
Proof.
  unfold circuit_members. rewrite elem_of_concat. split.
  - intros (l & Hk & (c & -> & Hc)%list_elem_of_fmap). eauto.
  - intros (c & Hc & Hk). exists (ckt_members c). split; [done|].
    by apply list_elem_of_fmap_2.
Qed.

Lemma circuit_members_snoc cs c :
  circuit_members (cs ++ [c]) = circuit_members cs ++ ckt_members c.
Proof.
  unfold circuit_members. rewrite fmap_app, concat_app. simpl. by rewrite app_nil_r.
Qed.

Lemma core_interface_fields (i i' : Interface.t) :
  core_interface i' = core_interface i →
  Interface.node_object i' = Interface.node_object i ∧
  Interface.remote_node_object i' = Interface.remote_node_object i ∧
  Interface.circuit_id i' = Interface.circuit_id i.
Proof.
  destruct i, i'. unfold core_interface. simpl.
  by intros [= -> -> -> -> -> -> -> -> -> -> ->].
Qed.

Lemma core_lookup (ints ints' : list Interface.t) (k : nat) (i : Interface.t) :
  core_interface <$> ints' = core_interface <$> ints →
  ints !! k = Some i →
  ∃ i', ints' !! k = Some i' ∧ core_interface i' = core_interface i.
Proof.
  intros Heq Hi.
  assert (H : (core_interface <$> ints') !! k = (core_interface <$> ints) !! k)
    by (by rewrite Heq).
  rewrite !list_lookup_fmap, Hi in H.
  destruct (ints' !! k) as [i'|]; simpl in H; [|done].
  exists i'. split; [done|]. congruence.
Qed.

Lemma edge_from_core ints ints' e :
  core_interface <$> ints' = core_interface <$> ints →
  edge_from ints e → edge_from ints' e.
Proof.
  intros Heq (i & Hi & Hu & Hv & Hc).
  destruct (core_lookup ints ints' _ i Heq Hi) as (i' & Hi' & Hcore).
  apply core_interface_fields in Hcore as (Hn & Hr & Hcid).
  exists i'. split_and!; congruence.
Qed.

Lemma core_mark_in_ckt (ints : list Interface.t) (int1 int2 : nat) :
  core_interface <$> alter (Interface.set_in_ckt true) int2
                       (alter (Interface.set_in_ckt true) int1 ints)
  = core_interface <$> ints.
Proof. rewrite !fmap_alter_absorb; [done|by intros []..]. Qed.

Lemma pairing_mark ints cs int1 int2 i1 i2 :
  pairing ints cs →
  ints !! int1 = Some i1 → ints !! int2 = Some i2 →
  Interface.in_ckt i1 = false → Interface.in_ckt i2 = false →
  counterpart ints int1 int2 →
  pairing (alter (Interface.set_in_ckt true) int2
             (alter (Interface.set_in_ckt true) int1 ints))
          (cs ++ [mkCircuit int1 int2]).
Proof.
  intros (Hmark & Hcp & Hnd) H1 H2 Hf1 Hf2 Hnew.
  pose proof (core_mark_in_ckt ints int1 int2) as Hcore.
  assert (Hout : ∀ k i, ints !! k = Some i → Interface.in_ckt i = false →
                        k ∉ circuit_members cs).
  { intros k i Hk Hf Hin. apply (Hmark k i Hk) in Hin. congruence. }
  split_and!.
  - intros k i'. rewrite circuit_members_snoc, elem_of_app, elem_of_ckt_members. simpl.
    destruct (decide (k = int2)) as [->|Hne2].
    { rewrite list_lookup_alter_eq.
      destruct (alter _ int1 ints !! int2) as [j|]; simpl; [|done].
      intros [= <-]. simpl. split; [auto|done]. }
    rewrite list_lookup_alter_ne by done.
    destruct (decide (k = int1)) as [->|Hne1].
    { rewrite list_lookup_alter_eq, H1. simpl. intros [= <-]. simpl. split; [auto|done]. }
    rewrite list_lookup_alter_ne by done. intros Hk.
    rewrite (Hmark k i' Hk). split; [auto|]. intros [?|[?|?]]; done.
  - intros c [Hc|Hc%list_elem_of_singleton]%elem_of_app.
    + apply (counterpart_core ints); [done|]. by apply Hcp.
    + subst c. simpl. by apply (counterpart_core ints).
  - rewrite circuit_members_snoc. apply NoDup_app. split_and!; [done| |].
    + intros k Hk [->| ->]%elem_of_ckt_members; simpl in Hk.
      * by apply (Hout int1 i1).
      * by apply (Hout int2 i2).
    + apply NoDup_remove_dups.
Qed.

(** An interface whose counterpart is in a circuit is in that circuit. *)
Lemma counterpart_in_circuit ints cs int1 int2 :
  pairing ints cs → counterpart ints int1 int2 →
  int2 ∈ circuit_members cs → int1 ∈ circuit_members cs.
Proof.
  intros (_ & Hcp & _) H12 (c & Hc & Hin)%elem_of_circuit_members.
  apply elem_of_circuit_members. exists c. split; [done|].
  apply elem_of_ckt_members. specialize (Hcp c Hc).
  apply elem_of_ckt_members in Hin as [->| ->].
  - right. apply counterpart_sym in H12.
    by apply (counterpart_fun ints (ckt_a c)).
  - left. apply counterpart_sym in H12. apply counterpart_sym in Hcp.
    by apply (counterpart_fun ints (ckt_b c)).
Qed.

Lemma pair_interfaces_pairing es cs x out x' :
  pairing (interface_objects x) cs →
  (∀ e, e ∈ es → edge_from (interface_objects x) e) →
  pair_interfaces es cs x = (inr out, x') →
  pairing (interface_objects x') out ∧
  core_interface <$> interface_objects x' = core_interface <$> interface_objects x ∧
  x' = set_interface_objects (interface_objects x') x ∧
  circuit_members cs ⊆ circuit_members out ∧
  ∀ e, e ∈ es → Edge.interface e ∈ circuit_members out.
Proof.
  revert cs x. induction es as [|e es IH]; intros cs x Hp Hedges.
  - simpl. intros [= <- <-]. split_and!; try done.
    + by destruct x.
    + by intros e ?%elem_of_nil.
  - rewrite pair_interfaces_cons.
    destruct (first_interface_or_raise x (Edge.u e) _ _) as [r|int1] eqn:H1; [done|].
    destruct (first_interface_or_raise x (Edge.v e) _ _) as [r|int2] eqn:H2; [done|].
    apply first_interface_or_raise_inr in H1, H2.
    destruct (Hedges e) as (i & Hi & Hu & Hv & Hc); [by left|].
    assert (Edge.interface e = int1) as Hint1.
    { assert (Hin : Edge.interface e ∈ [int1]).
      { rewrite <- H1. apply elem_of_matching_interfaces. by exists i. }
      by apply list_elem_of_singleton in Hin. }
    rewrite Hint1 in Hi. rewrite Hi.
    assert (Hcp : counterpart (interface_objects x) int1 int2).
    { exists i. split; [done|]. by rewrite <- Hu, <- Hv, <- Hc. }
    destruct (interface_objects x !! int2) as [i2|] eqn:Hi2; [|done].
    assert (Hrest : ∀ e', e' ∈ es → edge_from (interface_objects x) e').
    { intros e' He'. apply Hedges. by right. }
    destruct (negb (Interface.in_ckt i) && negb (Interface.in_ckt i2)) eqn:Hfree.
    + apply andb_true_iff in Hfree as [Hf1%negb_true_iff Hf2%negb_true_iff].
      intros Hrun. apply IH in Hrun as (Hpo & Hcore & Hx' & Hsub & Hall).
      * simpl in Hcore. rewrite core_mark_in_ckt in Hcore.
        split_and!; [done|done|by rewrite Hx'; destruct x| |].
        -- intros k Hk. apply Hsub. rewrite circuit_members_snoc.
           apply elem_of_app. by left.
        -- intros e' [->|He']%elem_of_cons; [|by apply Hall].
           rewrite Hint1. apply Hsub. rewrite circuit_members_snoc.
           apply elem_of_app. right. apply elem_of_ckt_members. by left.
      * simpl. by eapply pairing_mark.
      * intros e' He'. simpl. apply (edge_from_core (interface_objects x)).
        -- apply core_mark_in_ckt.
        -- by apply Hrest.
    + intros Hrun. apply IH in Hrun as (Hpo & Hcore & Hx' & Hsub & Hall); [|done|done].
      split_and!; try done.
      intros e' [->|He']%elem_of_cons; [|by apply Hall].
      rewrite Hint1. apply Hsub.
      destruct (Interface.in_ckt i) eqn:Hin1.
      * destruct Hp as (Hmark & _). by apply (Hmark int1 i).
      * simpl in Hfree. apply negb_false_iff in Hfree.
        apply (counterpart_in_circuit (interface_objects x) cs int1 int2);
          [done|done|].
        destruct Hp as (Hmark & _). by apply (Hmark int2 i2).
Qed.

Lemma graph_edge_from self f bw r e :
  e ∈ g_edges (_make_weighted_network_graph_mdg self f bw r) →
  edge_from (interface_objects self) e.
Proof.
  intros (i & Hi & _ & Heq)%graph_edge_inv. exists i.
  split; [done|]. by rewrite Heq.
Qed.

Lemma pairing_start (ints : list Interface.t) :
  pairing (Interface.set_in_ckt false <$> ints) [].
Proof.
  split_and!.
  - intros k i. rewrite list_lookup_fmap.
    destruct (ints !! k) as [i0|]; simpl; [|done]. intros [= <-]. simpl.
    split; [done|]. by intros ?%elem_of_nil.
  - by intros c ?%elem_of_nil.
  - constructor.
Qed.

Lemma make_circuits_pairing
    (return_exception include_failed_circuits : bool) (m : Model) :
  let after := _make_circuits_multidigraph return_exception include_failed_circuits m in
  after.1 = inr None →
  core_interface <$> interface_objects after.2 = core_interface <$> interface_objects m ∧
  (∀ c, c ∈ circuit_objects after.2 →
        counterpart (interface_objects m) (ckt_a c) (ckt_b c) ∧
        counterpart (interface_objects m) (ckt_b c) (ckt_a c)) ∧
  NoDup (circuit_members (circuit_objects after.2)) ∧
  (∀ k i, interface_objects after.2 !! k = Some i →
          (Interface.in_ckt i = true ↔ k ∈ circuit_members (circuit_objects after.2))) ∧
  (∀ k i, interface_objects m !! k = Some i →
          eligible include_failed_circuits 0 false i →
          k ∈ circuit_members (circuit_objects after.2)).
Proof.
  cbv zeta. rewrite make_circuits_unfold. cbv zeta.
  set (G := _make_weighted_network_graph_mdg m include_failed_circuits 0 false).
  set (x0 := set_interface_objects (Interface.set_in_ckt false <$> interface_objects m) m).
  assert (Hcore0 : core_interface <$> interface_objects x0
                   = core_interface <$> interface_objects m).
  { simpl. apply fmap_fmap_absorb. by intros []. }
  destruct (pair_interfaces _ [] x0) as [[e|circuits] x'] eqn:Hrun; [done|].
  case_bool_decide as Hun; [by destruct return_exception|]. intros _. simpl.
  apply pair_interfaces_pairing in Hrun as (Hp & Hcore & Hx' & _ & Hall).
  - rewrite Hcore0 in Hcore. destruct Hp as (Hmark & Hcp & Hnd).
    split_and!; [done| |done|done|].
    + intros c Hc. specialize (Hcp c Hc).
      apply (counterpart_core _ (interface_objects m)) in Hcp; [|by rewrite Hcore].
      split; [done|]. by apply counterpart_sym.
    + intros k i Hk Hel.
      assert (He : edge_of (k, i) ∈ g_edges G).
      { unfold G. rewrite graph_edges. apply list_elem_of_fmap_2.
        apply list_elem_of_filter. split; [done|]. by apply elem_of_enumerate. }
      apply (Hall (edge_of (k, i))). apply list_elem_of_filter. split; [|done].
      destruct (has_edge G (Edge.v (edge_of (k, i))) (Edge.u (edge_of (k, i)))) eqn:Hback;
        [done|].
      destruct Hun.
      assert (Hin : edge_of (k, i)
                    ∈ filter (λ e, has_edge G (Edge.v e) (Edge.u e) = false) (g_edges G))
        by (by apply list_elem_of_filter).
      apply list_elem_of_lookup in Hin as [j Hj]. apply lookup_lt_Some in Hj.
      eapply Nat.le_lt_trans; [apply Nat.le_0_l|exact Hj].
  - apply pairing_start.
  - intros e [_ He]%list_elem_of_filter.
    apply (edge_from_core (interface_objects m)); [done|].
    by apply (graph_edge_from m include_failed_circuits 0 false).
Qed.

(** When [_make_circuits_multidigraph] returns None, the circuits it has
    stored pair each interface with its counterpart: the two interfaces of a
    circuit are, each, the only interface of its node pair with its
    circuit_id, and they run opposite ways; no interface is in two circuits;
    the interfaces marked [in_ckt] are exactly those of the circuits; and
    every interface the graph admits (with failed interfaces or without, as
    asked, and with a reservable bandwidth that is not negative) is in a
    circuit. Nothing else of the interfaces is changed. *)
Theorem circuits_pair_each_interface_with_its_counterpart
    (return_exception include_failed_circuits : bool) (m : Model) :
  let after := _make_circuits_multidigraph return_exception include_failed_circuits m in
  after.1 = inr None →
  core_interface <$> interface_objects after.2 = core_interface <$> interface_objects m ∧
  (∀ c, c ∈ circuit_objects after.2 →
        counterpart (interface_objects m) (ckt_a c) (ckt_b c) ∧
        counterpart (interface_objects m) (ckt_b c) (ckt_a c)) ∧
  NoDup (circuit_members (circuit_objects after.2)) ∧
  (∀ k i, interface_objects after.2 !! k = Some i →
          (Interface.in_ckt i = true ↔ k ∈ circuit_members (circuit_objects after.2))) ∧
  (∀ k i, interface_objects m !! k = Some i →
          eligible include_failed_circuits 0 false i →
          k ∈ circuit_members (circuit_objects after.2)).
Proof.
  apply make_circuits_pairing.
Qed.

Lemma circuits_pair_each_interface_with_its_counterpart_witness :
  NoDup (circuit_members
           (circuit_objects (_make_circuits_multidigraph true true net_parallel).2)) ∧
  circuit_objects (_make_circuits_multidigraph true true net_parallel).2
    = [mkCircuit 0 1; mkCircuit 2 3].
Proof.
  split.
  - refine (proj1 (proj2 (proj2
      (circuits_pair_each_interface_with_its_counterpart true true net_parallel _)))).
    vm_compute. reflexivity.
  - vm_compute. reflexivity.
Defined.

(** ** How circuit formation ends *)

Lemma first_interface_or_raise_raises self u v cid e :
  first_interface_or_raise self u v cid = inl e →
  e = ModelException (NoMatchingInterface u v cid) ∧
  length (matching_interfaces (interface_objects self) u v cid) ≠ 1.
Proof.
  intros He. split; [by eapply first_interface_or_raise_inl|].
  intros Hlen.
  destruct (matching_interfaces (interface_objects self) u v cid) as [|k [|k' l]] eqn:Hm;
    try done.
  apply first_interface_or_raise_inr in Hm. congruence.
Qed.

Lemma pair_interfaces_raises es cs x e x' :
  pair_interfaces es cs x = (inl e, x') →
  ∃ u v cid, e = ModelException (NoMatchingInterface u v cid) ∧
             length (matching_interfaces (interface_objects x) u v cid) ≠ 1.
Proof.
  revert cs x. induction es as [|e0 es IH]; intros cs x; [done|].
  rewrite pair_interfaces_cons.
  destruct (first_interface_or_raise x (Edge.u e0) _ _) as [r|int1] eqn:H1.
  { intros [= <- <-]. apply first_interface_or_raise_raises in H1. eauto. }
  destruct (first_interface_or_raise x (Edge.v e0) _ _) as [r|int2] eqn:H2.
  { intros [= <- <-]. apply first_interface_or_raise_raises in H2. eauto. }
  apply first_interface_or_raise_inr in H1, H2.
  assert (Hin1 : int1 ∈ matching_interfaces (interface_objects x)
                   (Edge.u e0) (Edge.v e0) (Edge.circuit_id e0)) by (rewrite H1; by left).
  assert (Hin2 : int2 ∈ matching_interfaces (interface_objects x)
                   (Edge.v e0) (Edge.u e0) (Edge.circuit_id e0)) by (rewrite H2; by left).
  apply elem_of_matching_interfaces in Hin1 as (i1 & -> & _).
  apply elem_of_matching_interfaces in Hin2 as (i2 & -> & _).
  destruct (negb (Interface.in_ckt i1) && negb (Interface.in_ckt i2)); [|apply IH].
  intros (u & v & cid & -> & Hlen)%IH. exists u, v, cid. split; [done|].
  simpl in Hlen. by rewrite (matching_interfaces_core (interface_objects x)) in Hlen
    by apply core_mark_in_ckt.
Qed.

Lemma make_circuits_cases
    (return_exception include_failed_circuits : bool) (m : Model) :
  let G := _make_weighted_network_graph_mdg m include_failed_circuits 0 false in
  let unmatched :=
    filter (λ e, edges_between G (Edge.v e) (Edge.u e) = []) (g_edges G) in
  let after := _make_circuits_multidigraph return_exception include_failed_circuits m in
  match after.1 with
  | inr None => unmatched = []
  | inr (Some data) =>
      return_exception = false ∧ data = unmatched ∧ unmatched ≠ [] ∧
      circuit_objects after.2 = circuit_objects m
  | inl e =>
      (return_exception = true ∧ unmatched ≠ [] ∧
       e = ModelException (IntsNotMatched unmatched)) ∨
      (∃ u v cid,
         e = ModelException (NoMatchingInterface u v cid) ∧
         length (matching_interfaces (interface_objects m) u v cid) ≠ 1)
  end.
Proof.
  cbv zeta. rewrite make_circuits_unfold. cbv zeta.
  set (G := _make_weighted_network_graph_mdg m include_failed_circuits 0 false).
  assert (Hun : filter (λ e, has_edge G (Edge.v e) (Edge.u e) = false) (g_edges G)
                = filter (λ e, edges_between G (Edge.v e) (Edge.u e) = []) (g_edges G)).
  { apply list_filter_iff. intros e. unfold has_edge.
    rewrite bool_decide_eq_false. split; [|intros -> H; by apply H].
    intros Hn. destruct (edges_between G (Edge.v e) (Edge.u e)); [done|].
    by destruct Hn. }
  rewrite Hun.
  set (unmatched := filter (λ e, edges_between G (Edge.v e) (Edge.u e) = []) (g_edges G)).
  set (x0 := set_interface_objects (Interface.set_in_ckt false <$> interface_objects m) m).
  destruct (pair_interfaces _ [] x0) as [[e|circuits] x'] eqn:Hrun.
  - simpl. right. apply pair_interfaces_raises in Hrun as (u & v & cid & -> & Hlen).
    exists u, v, cid. split; [done|].
    by rewrite (matching_interfaces_core (interface_objects m)) in Hlen
      by (simpl; apply fmap_fmap_absorb; by intros []).
  - match type of Hrun with pair_interfaces ?es _ _ = _ =>
      destruct (pair_interfaces_frame es [] x0 x0 eq_refl) as (_ & l & Hx' & _)
    end.
    rewrite Hrun in Hx'. simpl in Hx'.
    case_bool_decide as Hlen.
    + assert (unmatched ≠ []) by (intros Hnil; rewrite Hnil in Hlen; simpl in Hlen; lia).
      destruct return_exception; simpl.
      * by left.
      * split_and!; try done. by rewrite Hx'.
    + simpl. destruct unmatched; [done|simpl in Hlen; lia].
Qed.

(** How [_make_circuits_multidigraph] ends. It returns None only when
    every edge of the graph has an edge that runs back between its nodes. It
    returns the dict of the edges that have none only when it was asked not
    to raise, and then it leaves the circuits of the model as they were. It
    raises nothing but ModelException: either the one that lists the edges
    that have no edge back, or, before that, the one of a lookup by node
    pair and circuit_id that found no interface or more than one. *)
Theorem make_circuits_multidigraph_outcomes
    (return_exception include_failed_circuits : bool) (m : Model) :
  let G := _make_weighted_network_graph_mdg m include_failed_circuits 0 false in
  let unmatched :=
    filter (λ e, edges_between G (Edge.v e) (Edge.u e) = []) (g_edges G) in
  let after := _make_circuits_multidigraph return_exception include_failed_circuits m in
  match after.1 with
  | inr None => unmatched = []
  | inr (Some data) =>
      return_exception = false ∧ data = unmatched ∧ unmatched ≠ [] ∧
      circuit_objects after.2 = circuit_objects m
  | inl e =>
      (return_exception = true ∧ unmatched ≠ [] ∧
       e = ModelException (IntsNotMatched unmatched)) ∨
      (∃ u v cid,
         e = ModelException (NoMatchingInterface u v cid) ∧
         length (matching_interfaces (interface_objects m) u v cid) ≠ 1)
  end.
Proof. apply make_circuits_cases. Qed.

(** ** What validation accepts, and what it raises *)

Lemma remove_dups_length_le {A} `{!EqDecision A} (l : list A) :
  length (remove_dups l) ≤ length l.
Proof.
  induction l as [|x l IH]; simpl; [done|].
  destruct (decide_rel elem_of x l); simpl; lia.
Qed.

Lemma remove_dups_length_NoDup {A} `{!EqDecision A} (l : list A) :
  length l = length (remove_dups l) ↔ NoDup l.
Proof.
  induction l as [|x l IH]; simpl.
  - split; [constructor|done].
  - pose proof (remove_dups_length_le l) as Hle.
    destruct (decide_rel elem_of x l) as [Hin|Hout]; simpl.
    + split; [lia|]. by intros [? _]%NoDup_cons.
    + rewrite NoDup_cons, <- IH. split; [intros [=]; done|intros [_ <-]; done].
Qed.

Lemma srlg_errors_record_nonempty errs node_name srlg_name :
  srlg_errors_record errs node_name srlg_name ≠ [].
Proof.
  destruct errs as [|[n l] errs]; simpl; [done|]. by case_bool_decide.
Qed.

Lemma srlg_errors_nodes_nil errs srlg_name (nodes : list Node.t) :
  foldl (λ errs node, srlg_errors_record errs (Node.name node) srlg_name) errs nodes = []
  ↔ errs = [] ∧ nodes = [].
Proof.
  revert errs. induction nodes as [|node nodes IH]; intros errs; simpl.
  - split; [done|by intros [? _]].
  - rewrite IH. split; [|by intros [_ ?]].
    intros [Hrec _]. by apply srlg_errors_record_nonempty in Hrec.
Qed.

Lemma filter_nil_Forall {A} (P : A → Prop) `{!∀ x, Decision (P x)} (l : list A) :
  filter P l = [] ↔ Forall (λ x, ¬ P x) l.
Proof.
  induction l as [|x l IH]; [by split; [constructor|]|].
  rewrite filter_cons, Forall_cons. destruct (decide (P x)); [|tauto].
  split; [done|]. by intros [? _].
Qed.

(** The dict [srlg_errors] stays empty exactly when every node that an
    SRLG lists records the SRLG. *)
Lemma srlg_errors_of_nil (self : Model) :
  srlg_errors_of self = []
  ↔ ∀ srlg k node, srlg ∈ srlg_objects self → k ∈ SRLG.node_objects srlg →
                   node_objects self !! k = Some node →
                   SRLG.name srlg ∈ Node.srlgs node.
Proof.
  unfold srlg_errors_of.
  assert (Hgen : ∀ srlgs errs,
    foldl (λ errs srlg,
      foldl (λ errs node, srlg_errors_record errs (Node.name node) (SRLG.name srlg))
        errs (filter (λ node, SRLG.name srlg ∉ Node.srlgs node)
                (omap (λ k, node_objects self !! k) (SRLG.node_objects srlg))))
      errs srlgs = []
    ↔ errs = [] ∧
      ∀ srlg k node, srlg ∈ srlgs → k ∈ SRLG.node_objects srlg →
                     node_objects self !! k = Some node →
                     SRLG.name srlg ∈ Node.srlgs node).
  { induction srlgs as [|srlg srlgs IH]; intros errs; simpl.
    - split; [intros ->; split; [done|]; by intros ? ? ? ?%elem_of_nil|by intros [? _]].
    - rewrite IH, srlg_errors_nodes_nil, filter_nil_Forall, Forall_forall. split.
      + intros [[-> Hnil] Hrest]. split; [done|].
        intros s k node [->|Hs]%elem_of_cons Hk Hnode; [|by eapply Hrest].
        destruct (decide (SRLG.name srlg ∈ Node.srlgs node)) as [|Hno]; [done|].
        destruct (Hnil node); [|done]. apply list_elem_of_omap. eauto.
      + intros [-> Hall]. split_and!; [done| |].
        * intros node (k & Hk & Hnode)%list_elem_of_omap Hno.
          apply Hno. apply (Hall srlg k node); [by left|done|done].
        * intros s k node Hs. apply Hall. by right. }
  rewrite Hgen. split; [by intros [_ ?]|done].
Qed.

Lemma make_circuits_frame re ifc m :
  ∃ l c, (_make_circuits_multidigraph re ifc m).2
         = set_circuit_objects c (set_interface_objects l m).
Proof.
  rewrite make_circuits_unfold. cbv zeta.
  set (x0 := set_interface_objects (Interface.set_in_ckt false <$> interface_objects m) m).
  match goal with |- context [pair_interfaces ?es [] x0] =>
    destruct (pair_interfaces_frame es [] x0 x0 eq_refl) as (_ & l & Hx' & _);
    destruct (pair_interfaces es [] x0) as [[e|circuits] x'] eqn:Hrun
  end; simpl in Hx'; subst x'.
  - exists l, (circuit_objects m). by destruct m.
  - case_bool_decide.
    + exists l, (circuit_objects m). by destruct re, m.
    + exists l, circuits. by destruct m.
Qed.

Lemma validate_model_cases (m : Model) :
  let G := _make_weighted_network_graph_mdg m true 0 false in
  match (validate_model m).1 with
  | inr _ =>
      NoDup (Node.name <$> node_objects m) ∧
      (∀ srlg k node, srlg ∈ srlg_objects m → k ∈ SRLG.node_objects srlg →
                      node_objects m !! k = Some node →
                      SRLG.name srlg ∈ Node.srlgs node) ∧
      (∀ e, e ∈ g_edges G → edges_between G (Edge.v e) (Edge.u e) ≠ [])
  | inl e =>
      (∃ error_data, e = ModelException (ValidationFailed error_data) ∧ error_data ≠ []) ∨
      (∃ unmatched, e = ModelException (IntsNotMatched unmatched) ∧ unmatched ≠ []) ∨
      (∃ u v cid, e = ModelException (NoMatchingInterface u v cid) ∧
                  length (matching_interfaces (interface_objects m) u v cid) ≠ 1)
  end.
Proof.
  intros G. rewrite validate_model_run.
  pose proof (make_circuits_cases true true m) as Hcases. cbv zeta in Hcases.
  fold G in Hcases.
  destruct (make_circuits_frame true true m) as (l & c & Hframe).
  destruct (_make_circuits_multidigraph true true m) as [[e|circuits] x]; simpl in *.
  - destruct Hcases as [(_ & Hne & ->)|(u & v & cid & -> & Hlen)].
    + right. left. eauto.
    + right. right. eauto.
  - case_bool_decide as Hlen; simpl.
    + left. eexists. split; [done|]. intros Hnil. rewrite Hnil in Hlen. simpl in Hlen. lia.
    + destruct circuits as [data|]; [by destruct Hcases|].
      assert (Hnil : validation_error_data None x = []).
      { destruct (validation_error_data None x); [done|simpl in Hlen; lia]. }
      unfold validation_error_data in Hnil. simpl in Hnil.
      do 4 (apply app_eq_nil in Hnil as [_ Hnil]).
      apply app_eq_nil in Hnil as [Hsrlg Hnodes].
      unfold entry_if in Hsrlg, Hnodes. subst x. simpl in *.
      split_and!.
      * apply remove_dups_length_NoDup. rewrite length_fmap.
        destruct (decide (length (node_objects m)
                          = length (remove_dups (Node.name <$> node_objects m))))
          as [|Hne]; [done|].
        by rewrite bool_decide_eq_true_2 in Hnodes.
      * apply srlg_errors_of_nil.
        match type of Hsrlg with
        | context [srlg_errors_of ?y] => destruct (srlg_errors_of y) eqn:Herrs
        end; [|by rewrite bool_decide_eq_true_2 in Hsrlg by (simpl; lia)].
        rewrite <- Herrs. unfold srlg_errors_of. done.
      * intros e He Hback.
        assert (Hin : e ∈ filter (λ e, edges_between G (Edge.v e) (Edge.u e) = [])
                          (g_edges G)) by (by apply list_elem_of_filter).
        rewrite Hcases in Hin. by apply elem_of_nil in Hin.
Qed.

(** How [validate_model] ends. When it returns, no two nodes of the model
    have the same name, every node that an SRLG lists records that SRLG, and
    every edge of the graph of all the interfaces has an edge that runs
    back between its nodes. It raises nothing but ModelException: the
    aggregate one, with an [error_data] that is not empty, or one of the
    two that circuit formation raises before any other check is made. *)
Theorem validate_model_outcomes (m : Model) :
  let G := _make_weighted_network_graph_mdg m true 0 false in
  match (validate_model m).1 with
  | inr _ =>
      NoDup (Node.name <$> node_objects m) ∧
      (∀ srlg k node, srlg ∈ srlg_objects m → k ∈ SRLG.node_objects srlg →
                      node_objects m !! k = Some node →
                      SRLG.name srlg ∈ Node.srlgs node) ∧
      (∀ e, e ∈ g_edges G → edges_between G (Edge.v e) (Edge.u e) ≠ [])
  | inl e =>
      (∃ error_data, e = ModelException (ValidationFailed error_data) ∧ error_data ≠ []) ∨
      (∃ unmatched, e = ModelException (IntsNotMatched unmatched) ∧ unmatched ≠ []) ∨
      (∃ u v cid, e = ModelException (NoMatchingInterface u v cid) ∧
                  length (matching_interfaces (interface_objects m) u v cid) ≠ 1)
  end.
Proof. apply validate_model_cases. Qed.

(** ** The interfaces table of a model file *)

Lemma add_implied_node_spec (name : string) (ns : list Node.t) :
  let ns' := add_implied_node name ns in
  (NoDup (Node.name <$> ns) → NoDup (Node.name <$> ns')) ∧
  (∀ x, x ∈ Node.name <$> ns' ↔ x ∈ Node.name <$> ns ∨ x = name) ∧
  (∀ n, n ∈ ns' → n ∈ ns ∨ n = Node.mk name []).
Proof.
  unfold add_implied_node. case_bool_decide as Hin; simpl.
  - split_and!; [done| |auto]. intros x. split; [auto|]. by intros [?| ->].
  - split_and!.
    + intros Hnd. rewrite fmap_app. apply NoDup_app. split_and!; [done| |].
      * simpl. intros x Hx ->%list_elem_of_singleton. done.
      * simpl. apply NoDup_singleton.
    + intros x. rewrite fmap_app, elem_of_app. simpl.
      by rewrite list_elem_of_singleton.
    + intros n [?| ->%list_elem_of_singleton]%elem_of_app; auto.
Qed.

Lemma extract_interfaces_inv parse_int parse_float lines ifs ns ifs' ns' :
  extract_interfaces parse_int parse_float lines ifs ns = inr (ifs', ns') →
  NoDup (interface_key <$> ifs) → NoDup (Node.name <$> ns) →
  (∀ i, i ∈ ifs → Interface.node_object i ∈ Node.name <$> ns ∧
                  Interface.remote_node_object i ∈ Node.name <$> ns) →
  NoDup (interface_key <$> ifs') ∧ NoDup (Node.name <$> ns') ∧
  (∀ i, i ∈ ifs' → Interface.node_object i ∈ Node.name <$> ns' ∧
                   Interface.remote_node_object i ∈ Node.name <$> ns') ∧
  (∀ i, i ∈ ifs' →
        i ∈ ifs ∨ ∃ line, line ∈ lines ∧
                          interface_of_line parse_int parse_float line = inr i) ∧
  (∀ line i, line ∈ lines → interface_of_line parse_int parse_float line = inr i →
             interface_key i ∈ interface_key <$> ifs' ∧
             Interface.node_object i ∈ Node.name <$> ns' ∧
             Interface.remote_node_object i ∈ Node.name <$> ns') ∧
  (∀ n, n ∈ ns' →
        n ∈ ns ∨
        Node.srlgs n = [] ∧
        ∃ line i, line ∈ lines ∧ interface_of_line parse_int parse_float line = inr i ∧
                  (Node.name n = Interface.node_object i ∨
                   Node.name n = Interface.remote_node_object i)) ∧
  (∀ i, i ∈ ifs → i ∈ ifs') ∧
  (∀ x, x ∈ Node.name <$> ns → x ∈ Node.name <$> ns').
Proof.
  revert ifs ns. induction lines as [|line lines IH]; intros ifs ns; simpl.
  - intros [= <- <-] Hki Hkn Href. split_and!; try done; auto.
    + by intros ? ? ?%elem_of_nil.
  - destruct (interface_of_line parse_int parse_float line) as [e|new] eqn:Hline;
      simpl; [done|].
    set (ifs1 := if bool_decide (interface_key new ∈ interface_key <$> ifs)
                 then ifs else ifs ++ [new]).
    set (ns1 := add_implied_node (Interface.remote_node_object new)
                  (add_implied_node (Interface.node_object new) ns)).
    intros Hrun Hki Hkn Href.
    destruct (add_implied_node_spec (Interface.node_object new) ns) as (Hn1 & Hn2 & Hn3).
    destruct (add_implied_node_spec (Interface.remote_node_object new)
                (add_implied_node (Interface.node_object new) ns)) as (Hr1 & Hr2 & Hr3).
    cbv zeta in *. fold ns1 in Hr1, Hr2, Hr3.
    assert (Hnames : ∀ x, x ∈ Node.name <$> ns1
                          ↔ x ∈ Node.name <$> ns ∨ x = Interface.node_object new
                            ∨ x = Interface.remote_node_object new).
    { intros x. rewrite Hr2, Hn2. tauto. }
    assert (Hifs1 : ∀ i, i ∈ ifs1 ↔ i ∈ ifs ∨ (i = new ∧ interface_key new ∉ interface_key <$> ifs)).
    { intros i. unfold ifs1. case_bool_decide as Hk.
      - split; [auto|]. by intros [?|[_ ?]].
      - rewrite elem_of_app, list_elem_of_singleton. tauto. }
    apply IH in Hrun as (Hki' & Hkn' & Href' & Hfrom & Hall & Hnodes & Hsub & Hnsub).
    + split_and!; try done.
      * intros i Hi. destruct (Hfrom i Hi) as [Hi1|(l & Hl & Hil)].
        -- apply Hifs1 in Hi1 as [?|[-> _]]; [by left|].
           right. exists line. split; [by left|done].
        -- right. exists l. split; [by right|done].
      * intros l i [->|Hl]%elem_of_cons Hli; [|by apply (Hall l)].
        assert (i = new) as -> by congruence. split_and!.
        -- destruct (decide (interface_key new ∈ interface_key <$> ifs)) as [Hk|Hk].
           ++ apply list_elem_of_fmap in Hk as (i0 & -> & Hi0).
              apply list_elem_of_fmap_2, Hsub, Hifs1. by left.
           ++ apply list_elem_of_fmap_2, Hsub, Hifs1. by right.
        -- apply Hnsub, Hnames. auto.
        -- apply Hnsub, Hnames. auto.
      * intros n Hn. destruct (Hnodes n Hn) as [Hn1'|(Hs & l & i & Hl & Hli & Hname)].
        -- apply Hr3 in Hn1' as [Hn1'| ->].
           ++ apply Hn3 in Hn1' as [?| ->]; [by left|].
              right. split; [done|]. exists line, new. split_and!; [by left|done|by left].
           ++ right. split; [done|]. exists line, new. split_and!; [by left|done|by right].
        -- right. split; [done|]. exists l, i. split_and!; [by right|done|done].
      * intros i Hi. apply Hsub, Hifs1. by left.
      * intros x Hx. apply Hnsub, Hnames. by left.
    + unfold ifs1. case_bool_decide as Hk; [done|].
      rewrite fmap_app. apply NoDup_app. split_and!; [done| |apply NoDup_singleton].
      intros k Hk' ->%list_elem_of_singleton. done.
    + by apply Hr1, Hn1.
    + intros i [Hi|[-> _]]%Hifs1.
      * destruct (Href i Hi). split; apply Hnames; by left.
      * split; apply Hnames; auto.
Qed.

(** When [_extract_interface_data_and_implied_nodes] returns, no two of
    the interfaces it returns have the same key (name, node), no two of the
    nodes the same name, and the two end nodes of every interface are among
    the nodes. Every interface comes from a line of the table, and every
    line of the table has its interface key among the interfaces (a line
    that repeats a key is disregarded) and its two node names among the
    nodes. Every node is named by a line of the table, and belongs to no
    SRLG. *)
Theorem extracted_interfaces_and_nodes
    (parse_int : string → option Z) (parse_float : string → option Q)
    (int_info_begin_index : nat) (int_info_end_index : option nat)
    (lines : list string) (ifs : list Interface.t) (ns : list Node.t) :
  _extract_interface_data_and_implied_nodes parse_int parse_float
    int_info_begin_index int_info_end_index lines = inr (ifs, ns) →
  let interface_lines := slice int_info_begin_index int_info_end_index lines in
  NoDup (interface_key <$> ifs) ∧
  NoDup (Node.name <$> ns) ∧
  (∀ i, i ∈ ifs → Interface.node_object i ∈ Node.name <$> ns ∧
                  Interface.remote_node_object i ∈ Node.name <$> ns) ∧
  (∀ i, i ∈ ifs → ∃ line, line ∈ interface_lines ∧
                          interface_of_line parse_int parse_float line = inr i) ∧
  (∀ line i, line ∈ interface_lines →
             interface_of_line parse_int parse_float line = inr i →
             interface_key i ∈ interface_key <$> ifs ∧
             Interface.node_object i ∈ Node.name <$> ns ∧
             Interface.remote_node_object i ∈ Node.name <$> ns) ∧
  (∀ n, n ∈ ns →
        Node.srlgs n = [] ∧
        ∃ line i, line ∈ interface_lines ∧
                  interface_of_line parse_int parse_float line = inr i ∧
                  (Node.name n = Interface.node_object i ∨
                   Node.name n = Interface.remote_node_object i)).
Proof.
  unfold _extract_interface_data_and_implied_nodes. intros Hrun. cbv zeta.
  apply extract_interfaces_inv in Hrun
    as (Hki & Hkn & Href & Hfrom & Hall & Hnodes & _ & _).
  - split_and!; try done.
    + intros i Hi. destruct (Hfrom i Hi) as [?%elem_of_nil|?]; done.
    + intros n Hn. destruct (Hnodes n Hn) as [?%elem_of_nil|?]; done.
  - constructor.
  - constructor.
  - by intros i ?%elem_of_nil.
Qed.


Lemma extracted_interfaces_and_nodes_witness :
  ∃ ifs ns,
    _extract_interface_data_and_implied_nodes parse_decimal parse_decimal_Q
      2 (Some 8) file_bad_circuit_ids = inr (ifs, ns) ∧
    Node.name <$> ns = ["A"; "B"; "C"]%string ∧
    NoDup (interface_key <$> ifs).
Proof.
  eexists _, _. split; [vm_compute; reflexivity|]. split; [vm_compute; reflexivity|].
  refine (proj1 (extracted_interfaces_and_nodes parse_decimal parse_decimal_Q
                   2 (Some 8) file_bad_circuit_ids _ _ _)).
  vm_compute. reflexivity.
Defined.


Lemma interface_of_line_inr parse_int parse_float line i :
  interface_of_line parse_int parse_float line = inr i →
  well_formed_line parse_int parse_float line ∧
  split line !! 5 = Some (Interface.circuit_id i).
Proof.
  unfold interface_of_line, well_formed_line, int_of, float_of.
  destruct (split line) as [|w0 [|w1 [|w2 [|w3 [|w4 [|w5 [|w6 [|w7 [|w8 ws]]]]]]]]];
    simpl; try done.
  - destruct (parse_int w3); simpl; [|done]. destruct (parse_int w4); simpl; [|done].
    intros [= <-]. repeat split; try lia; try done; eauto.
  - destruct (parse_int w3); simpl; [|done]. destruct (parse_int w4); simpl; [|done].
    intros [= <-]. repeat split; try lia; try done; eauto.
  - destruct (parse_int w3); simpl; [|done]. destruct (parse_int w4); simpl; [|done].
    destruct (parse_float w7) eqn:Hf; simpl; [|done].
    intros [= <-]. repeat split; try lia; try done; eauto. intros ? [= <-]. by rewrite Hf.
Qed.

Lemma interface_of_line_inl parse_int parse_float line e :
  interface_of_line parse_int parse_float line = inl e →
  ¬ well_formed_line parse_int parse_float line ∧
  e = if decide (length (split line) < 6)
      then ModelException (InterfaceLineTooShort line) else ValueError.
Proof.
  unfold interface_of_line, well_formed_line, int_of, float_of.
  destruct (split line) as [|w0 [|w1 [|w2 [|w3 [|w4 [|w5 [|w6 [|w7 [|w8 ws]]]]]]]]];
    simpl; try (intros [= <-]; split; [intros [? _]; lia|done]).
  - destruct (parse_int w3); simpl; [|intros [= <-]; split; [by intros (_ & [? [=]] & _)|done]].
    destruct (parse_int w4); simpl; [done|].
    intros [= <-]; split; [by intros (_ & _ & [? [=]] & _)|done].
  - destruct (parse_int w3); simpl; [|intros [= <-]; split; [by intros (_ & [? [=]] & _)|done]].
    destruct (parse_int w4); simpl; [done|].
    intros [= <-]; split; [by intros (_ & _ & [? [=]] & _)|done].
  - destruct (parse_int w3); simpl; [|intros [= <-]; split; [by intros (_ & [? [=]] & _)|done]].
    destruct (parse_int w4); simpl;
      [|intros [= <-]; split; [by intros (_ & _ & [? [=]] & _)|done]].
    destruct (parse_float w7) eqn:Hf; simpl; [done|].
    intros [= <-]; split; [|done].
    intros (_ & _ & _ & H). destruct (H w7 eq_refl) as [? ?]. congruence.
Qed.

Lemma extract_interfaces_outcome parse_int parse_float lines ifs ns :
  match extract_interfaces parse_int parse_float lines ifs ns with
  | inr _ => Forall (well_formed_line parse_int parse_float) lines
  | inl e =>
      ∃ k line,
        lines !! k = Some line ∧
        Forall (well_formed_line parse_int parse_float) (take k lines) ∧
        ¬ well_formed_line parse_int parse_float line ∧
        e = if decide (length (split line) < 6)
            then ModelException (InterfaceLineTooShort line) else ValueError
  end.
Proof.
  revert ifs ns. induction lines as [|line lines IH]; intros ifs ns; simpl; [done|].
  destruct (interface_of_line parse_int parse_float line) as [e|new] eqn:Hline; simpl.
  - apply interface_of_line_inl in Hline as [Hbad ->].
    exists 0, line. by split_and!.
  - apply interface_of_line_inr in Hline as [Hok _].
    match goal with
    | |- match extract_interfaces _ _ _ ?a ?b with _ => _ end => specialize (IH a b)
    end.
    destruct (extract_interfaces _ _ lines _ _) as [e|r]; [|by constructor].
    destruct IH as (k & l & Hk & Hpre & Hbad & ->).
    exists (S k), l. split_and!; try done. simpl. by constructor.
Qed.

(** [_extract_interface_data_and_implied_nodes] returns when every line of
    the table has six to eight fields with a cost and a capacity that [int]
    reads and, if there are eight, a percentage that [float] reads.
    Otherwise the first line that is not so decides the exception: a
    ModelException that names the line when it has fewer than six fields,
    else a ValueError, also for a line of nine fields or more. *)
Theorem extraction_raises_at_the_first_malformed_line
    (parse_int : string → option Z) (parse_float : string → option Q)
    (int_info_begin_index : nat) (int_info_end_index : option nat)
    (lines : list string) :
  let interface_lines := slice int_info_begin_index int_info_end_index lines in
  match _extract_interface_data_and_implied_nodes parse_int parse_float
          int_info_begin_index int_info_end_index lines with
  | inr _ => Forall (well_formed_line parse_int parse_float) interface_lines
  | inl e =>
      ∃ k line,
        interface_lines !! k = Some line ∧
        Forall (well_formed_line parse_int parse_float) (take k interface_lines) ∧
        ¬ well_formed_line parse_int parse_float line ∧
        e = if decide (length (split line) < 6)
            then ModelException (InterfaceLineTooShort line) else ValueError
  end.
Proof.
  apply extract_interfaces_outcome.
Qed.


(** ** The circuit_id check and the interfaces that are loaded *)

Lemma sublist_filter_length {A} (P : A → Prop) `{!∀ x, Decision (P x)} (l1 l2 : list A) :
  sublist l1 l2 → length (filter P l1) ≤ length (filter P l2).
Proof.
  induction 1 as [|x l1 l2 _ IH|x l1 l2 _ IH]; [done| |].
  - rewrite !filter_cons. case_decide; simpl; lia.
  - rewrite filter_cons. case_decide; simpl; lia.
Qed.

Lemma sublist_same_length {A} (l1 l2 : list A) :
  sublist l1 l2 → length l1 = length l2 → l1 = l2.
Proof.
  induction 1 as [|x l1 l2 _ IH|x l1 l2 Hsub IH]; simpl; [done| |].
  - intros [=]. f_equal. auto.
  - intros Hlen. apply sublist_length in Hsub. lia.
Qed.

Lemma count_occ_str_fmap {A} (f : A → string) (c : string) (l : list A) :
  count_occ_str c (f <$> l) = length (filter (λ x, f x = c) l).
Proof.
  unfold count_occ_str. induction l as [|x l IH]; [done|].
  rewrite fmap_cons, !filter_cons. repeat case_decide; simpl; try done; by rewrite IH.
Qed.

Lemma extract_interfaces_kept parse_int parse_float lines ifs ns ifs' ns' :
  extract_interfaces parse_int parse_float lines ifs ns = inr (ifs', ns') →
  ∃ every kept,
    Forall2 (λ line i, interface_of_line parse_int parse_float line = inr i) lines every ∧
    ifs' = ifs ++ kept ∧ sublist kept every.
Proof.
  revert ifs ns. induction lines as [|line lines IH]; intros ifs ns; simpl.
  - intros [= <- <-]. exists [], []. split_and!; [constructor|by rewrite app_nil_r|done].
  - destruct (interface_of_line parse_int parse_float line) as [e|new] eqn:Hline;
      simpl; [done|].
    intros (every & kept & Hall & -> & Hsub)%IH.
    case_bool_decide.
    + exists (new :: every), kept. split_and!; [by constructor|done|by constructor].
    + exists (new :: every), (new :: kept).
      split_and!; [by constructor|by rewrite <- app_assoc|by constructor].
Qed.

Lemma circuit_id_list_of_lines parse_int parse_float lines every :
  Forall2 (λ line i, interface_of_line parse_int parse_float line = inr i) lines every →
  circuit_id_list_of lines = Interface.circuit_id <$> every.
Proof.
  unfold circuit_id_list_of. induction 1 as [|line i lines every Hline _ IH]; [done|].
  apply interface_of_line_inr in Hline as [_ Hid].
  cbn [omap list_omap fmap list_fmap]. rewrite Hid. f_equal. exact IH.
Qed.

(** When the circuit_id check of [load_model_file] finds nothing and the
    interfaces table is read without an exception, the rest of the loader
    runs on interfaces of which at most two carry any one circuit_id; and
    exactly two do when no line was disregarded for repeating the key of an
    earlier line, that is, when there are as many interfaces as lines. *)
Theorem loaded_interfaces_per_circuit_id
    (find_end_index : nat → list string → option nat)
    (parse_int : string → option Z) (parse_float : string → option Q)
    (load_other_tables :
       list Interface.t → list Node.t → option nat → list string → res Model)
    (lines : list string) (ifs : list Interface.t) (ns : list Node.t) :
  let int_info_end_index := find_end_index 2 lines in
  let interface_lines := slice 2 int_info_end_index lines in
  bad_circuit_ids_of (circuit_id_list_of interface_lines) = [] →
  _extract_interface_data_and_implied_nodes parse_int parse_float
    2 int_info_end_index lines = inr (ifs, ns) →
  load_model_file find_end_index parse_int parse_float load_other_tables lines
    = load_other_tables ifs ns int_info_end_index lines ∧
  (∀ i, i ∈ ifs → 1 ≤ interfaces_of_circuit_id (Interface.circuit_id i) ifs ≤ 2) ∧
  (length ifs = length interface_lines →
   ∀ i, i ∈ ifs → interfaces_of_circuit_id (Interface.circuit_id i) ifs = 2).
Proof.
  intros e interface_lines Hcheck Hrun.
  assert (Htwice : ∀ c, c ∈ circuit_id_list_of interface_lines →
                        count_occ_str c (circuit_id_list_of interface_lines) = 2).
  { intros c Hc.
    destruct (decide (count_occ_str c (circuit_id_list_of interface_lines) = 2))
      as [|Hne]; [done|].
    assert (Hbad : length (bad_circuit_ids_of (circuit_id_list_of interface_lines)) ≠ 0)
      by (apply bad_circuit_ids_nonempty; eauto).
    by rewrite Hcheck in Hbad. }
  split.
  { unfold load_model_file. fold e. fold interface_lines.
    rewrite Hcheck, Hrun. done. }
  unfold _extract_interface_data_and_implied_nodes in Hrun.
  fold interface_lines in Hrun.
  apply extract_interfaces_kept in Hrun as (every & kept & Hall & -> & Hsub).
  simpl. rewrite (circuit_id_list_of_lines _ _ _ _ Hall) in Htwice.
  assert (Hone : ∀ i, i ∈ kept → 1 ≤ interfaces_of_circuit_id (Interface.circuit_id i) kept).
  { intros i Hi. unfold interfaces_of_circuit_id.
    assert (Hin : i ∈ filter (λ i', Interface.circuit_id i' = Interface.circuit_id i) kept)
      by (by apply list_elem_of_filter).
    destruct (filter _ kept); [by apply elem_of_nil in Hin|simpl; lia]. }
  split.
  - intros i Hi. split; [by apply Hone|].
    unfold interfaces_of_circuit_id.
    etrans; [by apply sublist_filter_length|].
    rewrite <- count_occ_str_fmap, Htwice; [done|].
    apply list_elem_of_fmap_2.
    eapply elem_of_submseteq; [exact Hi|by apply sublist_submseteq].
  - intros Hlen i Hi.
    assert (kept = every) as ->.
    { apply sublist_same_length; [done|]. by rewrite Hlen, (Forall2_length _ _ _ Hall). }
    unfold interfaces_of_circuit_id.
    rewrite <- count_occ_str_fmap. apply Htwice. by apply list_elem_of_fmap_2.
Qed.

Lemma loaded_interfaces_per_circuit_id_witness :
  ∃ ifs ns,
    load_model_file find_end_index_blank parse_decimal parse_decimal_Q
      load_no_other_table file_two_circuits = inr (mkModel ifs ns [] [] [] [] []) ∧
    Interface.circuit_id <$> ifs = ["1"; "1"; "2"; "2"]%string ∧
    ∀ i, i ∈ ifs → interfaces_of_circuit_id (Interface.circuit_id i) ifs = 2.
Proof.
  eexists _, _. split; [vm_compute; reflexivity|]. split; [vm_compute; reflexivity|].
  refine (proj2 (proj2 (loaded_interfaces_per_circuit_id find_end_index_blank
                          parse_decimal parse_decimal_Q load_no_other_table
                          file_two_circuits _ _ _ _)) _).
  - vm_compute. reflexivity.
  - vm_compute. reflexivity.
  - vm_compute. reflexivity.
Defined.


(** ** Path queries between two nodes a path joins *)

Lemma index_of_middle (pre : list string) (hop : string) (post : list string) :
  hop ∉ pre → index_of hop (pre ++ hop :: post) = length pre.
Proof.
  intros Hpre. unfold index_of.
  assert (Hfind : list_find (λ x, x = hop) (pre ++ hop :: post) = Some (length pre, hop)).
  { apply list_find_Some. split_and!; [|done|].
    - by rewrite lookup_app_r, Nat.sub_diag by done.
    - intros j y Hj Hlt ->. rewrite lookup_app_l in Hj by done.
      by apply list_elem_of_lookup_2 in Hj. }
  by rewrite Hfind.
Qed.

Lemma convert_nx_path_suffix (self : Model) (needed_bw : Q) (pre rest : list string) :
  NoDup (pre ++ rest) →
  omap (λ hop,
    match (pre ++ rest) !! (index_of hop (pre ++ rest) + 1) with
    | Some next_hop =>
        match get_interface_object_from_nodes self hop next_hop None with
        | InterfaceList l =>
            Some (filter (λ k,
              from_option (λ i, Qle_bool needed_bw (Interface.reservable_bandwidth i))
                          false (interface_objects self !! k) = true) l)
        | ReturnedException => None
        end
    | None => None
    end) rest
  = (λ ab, filter (λ k,
             from_option (λ i, Qle_bool needed_bw (Interface.reservable_bandwidth i))
                         false (interface_objects self !! k) = true)
             (fst <$> filter (λ ki, Interface.node_object ki.2 = ab.1 ∧
                                    Interface.remote_node_object ki.2 = ab.2)
                             (enumerate (interface_objects self))))
      <$> adjacent_pairs rest.
Proof.
  revert pre. induction rest as [|hop rest IH]; intros pre Hnd; [done|].
  assert (Hhop : hop ∉ pre).
  { apply NoDup_app in Hnd as (_ & Hdisj & _). intros Hin.
    apply (Hdisj hop Hin). by left. }
  specialize (IH (pre ++ [hop])). rewrite <- app_assoc in IH. simpl in IH.
  specialize (IH Hnd).
  cbn [omap list_omap]. rewrite index_of_middle by done.
  rewrite lookup_app_r by lia.
  replace (length pre + 1 - length pre) with 1 by lia.
  destruct rest as [|next rest]; simpl.
  - done.
  - unfold adjacent_pairs in *. simpl in *. f_equal. exact IH.
Qed.

Lemma convert_nx_path_simple (self : Model) (needed_bw : Q) (q : list string)
    (p : list nat) :
  NoDup q →
  p ∈ product (_convert_nx_path_to_model_path self q needed_bw)
  ↔ Forall2 (carries (interface_objects self) needed_bw) p (adjacent_pairs q).
Proof.
  intros Hnd. unfold _convert_nx_path_to_model_path. cbv zeta.
  pose proof (convert_nx_path_suffix self needed_bw [] q Hnd) as Hconv.
  change ([] ++ q) with q in Hconv. rewrite Hconv. clear Hconv.
  rewrite elem_of_product, Forall2_fmap_r.
  split; intros Hall; (eapply Forall2_impl; [exact Hall|]); intros k ab; unfold carries;
    simpl; rewrite list_elem_of_filter, list_elem_of_fmap.
  - intros [Hbw ([k' i] & -> & [[Hu Hv] Hi%elem_of_enumerate]%list_elem_of_filter)].
    simpl in *. rewrite Hi in Hbw. simpl in Hbw.
    exists i. split_and!; try done. by apply Qle_bool_iff.
  - intros (i & Hi & Hu & Hv & Hbw). split.
    + rewrite Hi. simpl. by apply Qle_bool_iff.
    + exists (k, i). split; [done|].
      apply list_elem_of_filter. split; [done|]. by apply elem_of_enumerate.
Qed.

Lemma carried_chain (ints : list Interface.t) (needed_bw : Q) (s d : string)
    (q : list string) (p : list nat) :
  from_to s d q → Forall2 (carries ints needed_bw) p (adjacent_pairs q) →
  interface_chain ints s d p.
Proof.
  revert s p. induction q as [|a q IH]; intros s p [Hh Hl] Hall; [done|].
  injection Hh as ->. destruct q as [|b q].
  - unfold adjacent_pairs in Hall. simpl in *. apply Forall2_nil_inv_r in Hall as ->.
    simpl. congruence.
  - unfold adjacent_pairs in *. simpl in Hall.
    apply Forall2_cons_inv_r in Hall as (k & p' & (i & Hi & Hu & Hv & _) & Hall & ->).
    simpl in *. exists i. split_and!; [done|done|].
    rewrite Hv. apply IH; [|done]. by split.
Qed.

Lemma all_shortest_paths_elem G s d nx_sp w q :
  endpoints_are_nodes G →
  all_shortest_paths G s d = inr nx_sp →
  shortest_path_length G s d = inr w →
  q ∈ nx_sp ↔ node_hop_sequence G q ∧ from_to s d q ∧ NoDup q ∧ path_weight G q = w.
Proof.
  intros HG Hsp Hlen. split.
  - intros Hq. destruct (all_shortest_paths_inr _ _ _ _ Hsp) as [_ Hall].
    destruct (Hall q Hq) as (? & ? & ?).
    destruct (all_shortest_paths_weight G s d nx_sp HG Hsp) as (w' & Hlen' & Hw & _).
    split_and!; try done. rewrite (Hw q Hq). congruence.
  - intros (Hq & Hft & Hnd & Hw).
    unfold all_shortest_paths, shortest_path_length in *.
    case_bool_decide as Hs; [|done].
    destruct (min_Z _) as [w'|] eqn:Hmin; [|done].
    injection Hsp as <-. injection Hlen as ->.
    apply list_elem_of_filter. split; [done|].
    apply simple_paths_complete; try done.
    + apply Forall_forall. intros x _. by intros ?%elem_of_nil.
    + apply Nat.le_le_succ_r, submseteq_length, NoDup_submseteq; [done|].
      intros x Hx. destruct q as [|a q]; [by apply elem_of_nil in Hx|].
      destruct Hft as [[= ->] _].
      apply elem_of_cons in Hx as [->|Hx]; [done|].
      by apply (node_hop_sequence_nodes G (s :: q)).
Qed.

Lemma convert_shortest_paths_run self G s d needed_bw w paths converted cost :
  shortest_path_length G s d = inr w →
  convert_shortest_paths self G s d needed_bw paths converted cost
  = (false,
     converted ++ ((λ path, _convert_nx_path_to_model_path self path needed_bw) <$> paths),
     match paths with [] => cost | _ => Some w end).
Proof.
  intros Hw. revert converted cost.
  induction paths as [|path paths IH]; intros converted cost; simpl.
  - by rewrite app_nil_r.
  - rewrite Hw, IH, <- app_assoc. simpl. by destruct paths.
Qed.

Lemma local_ecmp_set_nonempty G a b :
  edges_between G a b ≠ [] → ∃ k, k ∈ local_ecmp_set G a b.
Proof.
  intros Hne.
  destruct (min_Z (Edge.cost <$> edges_between G a b)) as [m|] eqn:Hm.
  - apply min_Z_Some in Hm as [(e & -> & He)%list_elem_of_fmap Hle].
    exists (Edge.interface e). unfold local_ecmp_set.
    apply list_elem_of_fmap_2, list_elem_of_filter. split; [|done].
    apply Forall_forall. intros e' He'. apply Hle. by apply list_elem_of_fmap_2.
  - by apply min_Z_None, fmap_nil_inv in Hm.
Qed.

Lemma least_cost_interfaces (G : MultiDiGraph) (q : list string) :
  node_hop_sequence G q →
  ∃ p, Forall2 (λ k ab, k ∈ local_ecmp_set G ab.1 ab.2) p (adjacent_pairs q).
Proof.
  intros [_ Hall]. induction Hall as [|ab pairs Hab _ [p IH]].
  - by exists [].
  - destruct (local_ecmp_set_nonempty G ab.1 ab.2 Hab) as [k Hk].
    exists (k :: p). by constructor.
Qed.

Lemma elem_of_normalized_paths (self : Model) (needed_bw : Q)
    (nx_paths : list (list string)) (p : list nat) :
  Forall (λ q, NoDup q) nx_paths →
  p ∈ _normalize_multidigraph_paths
        ((λ path, _convert_nx_path_to_model_path self path needed_bw) <$> nx_paths)
  ↔ ∃ q, q ∈ nx_paths ∧
         Forall2 (carries (interface_objects self) needed_bw) p (adjacent_pairs q).
Proof.
  intros Hnd. unfold _normalize_multidigraph_paths.
  rewrite list_elem_of_bind. split.
  - intros (hops & Hp & (q & -> & Hq)%list_elem_of_fmap).
    exists q. split; [done|]. apply convert_nx_path_simple; [|done].
    by apply (proj1 (Forall_forall _ _) Hnd).
  - intros (q & Hq & Hall). eexists. split; [|by apply list_elem_of_fmap_2].
    apply convert_nx_path_simple; [|done].
    by apply (proj1 (Forall_forall _ _) Hnd).
Qed.

(** When a node-hop sequence leads from a node of the model to another in
    the graph of the non-failed interfaces with enough reservable
    bandwidth, [get_shortest_path] returns as 'cost' the least weight [w]
    of such a sequence, and as 'path' exactly the interface sequences that
    follow a node sequence of weight [w] without a repeated node, taking on
    each hop any interface between the two nodes with at least [needed_bw]
    of reservable bandwidth, whatever its cost and whether it is failed or
    not. Each returned path leads from the source to the destination, and
    one of them costs [w] and has no failed interface. *)
Theorem get_shortest_path_follows_the_least_weight_node_sequences
    (self : Model) (source_node_name dest_node_name : string) (needed_bw : Q)
    (q0 : list string) :
  let G := _make_weighted_network_graph_mdg self false needed_bw false in
  source_node_name ∈ Node.name <$> node_objects self →
  node_hop_sequence G q0 → from_to source_node_name dest_node_name q0 →
  ∃ w paths,
    get_shortest_path self source_node_name dest_node_name needed_bw
      = mkPathDict (Some w) (NormalizedPaths paths) ∧
    (∀ q, node_hop_sequence G q → from_to source_node_name dest_node_name q →
          NoDup q → (w ≤ path_weight G q)%Z) ∧
    (∀ p, p ∈ paths ↔
          ∃ q, node_hop_sequence G q ∧ from_to source_node_name dest_node_name q ∧
               NoDup q ∧ path_weight G q = w ∧
               Forall2 (carries (interface_objects self) needed_bw) p (adjacent_pairs q)) ∧
    (∀ p, p ∈ paths →
          interface_chain (interface_objects self) source_node_name dest_node_name p) ∧
    (∃ p, p ∈ paths ∧ path_cost (interface_objects self) p = inr w ∧
          Forall (λ k, ∃ i, interface_objects self !! k = Some i ∧
                            Interface.failed i = false) p).
Proof.
  intros G Hs Hq0 Hft0.
  assert (HG : endpoints_are_nodes G) by apply graph_endpoints_are_nodes.
  assert (HsG : source_node_name ∈ g_nodes G) by (apply graph_nodes; by left).
  destruct (all_shortest_paths G source_node_name dest_node_name) as [e|nx_sp] eqn:Hsp.
  { destruct (all_shortest_paths_inl _ _ _ _ Hsp) as [[-> _]|[_ ?]]; [|done].
    apply all_shortest_paths_no_path_inv in Hsp; [|done]. by destruct (Hsp q0). }
  destruct (all_shortest_paths_weight G _ _ _ HG Hsp) as (w & Hlen & Hw & Hmin).
  destruct (all_shortest_paths_inr _ _ _ _ Hsp) as [Hne Hall].
  assert (Hnd : Forall (λ q, NoDup q) nx_sp).
  { apply Forall_forall. intros q Hq. by destruct (Hall q Hq) as (_ & _ & ?). }
  pose proof (elem_of_normalized_paths self needed_bw nx_sp) as Hpaths.
  exists w. eexists. split_and!.
  - unfold get_shortest_path. fold G. rewrite Hsp.
    rewrite (convert_shortest_paths_run _ _ _ _ _ w) by done. simpl.
    destruct nx_sp; [done|]. reflexivity.
  - exact Hmin.
  - intros p. rewrite (Hpaths p Hnd). split.
    + intros (q & Hq & Hcar). exists q.
      apply (all_shortest_paths_elem G _ _ _ w q HG Hsp Hlen) in Hq
        as (? & ? & ? & ?). done.
    + intros (q & ? & ? & ? & ? & Hcar). exists q. split; [|done].
      by apply (all_shortest_paths_elem G _ _ _ w q HG Hsp Hlen).
  - intros p (q & Hq & Hcar)%Hpaths; [|done].
    destruct (Hall q Hq) as (_ & Hft & _). by eapply carried_chain.
  - destruct nx_sp as [|q nx_sp']; [done|].
    assert (Hq : q ∈ q :: nx_sp') by by left.
    destruct (Hall q Hq) as (Hseq & Hft & _).
    destruct (least_cost_interfaces G q Hseq) as [p Hp].
    destruct (enumerated_path_chain self false needed_bw false q _ _ p Hft Hp)
      as (_ & Hel & Hcost).
    exists p. split_and!.
    + apply Hpaths; [done|]. exists q. split; [done|].
      eapply Forall2_impl; [exact Hp|]. intros k ab Hk.
      apply elem_of_local_ecmp_set in Hk as (i & Hi & (_ & Hbw & _) & Hu & Hv).
      by exists i.
    + fold G in Hcost. by rewrite Hcost, (Hw q Hq).
    + eapply Forall_impl; [exact Hel|]. intros k (i & Hi & [[?|?] _]); [done|].
      by exists i.
Qed.

Lemma get_shortest_path_follows_the_least_weight_node_sequences_witness :
  get_shortest_path net_failed_parallel "A" "B" 0
    = mkPathDict (Some 10%Z) (NormalizedPaths [[0]; [1]]) ∧
  ∃ w paths,
    get_shortest_path net_failed_parallel "A" "B" 0
      = mkPathDict (Some w) (NormalizedPaths paths) ∧
    ∃ p, p ∈ paths ∧ path_cost (interface_objects net_failed_parallel) p = inr w.
Proof.
  split; [vm_compute; reflexivity|].
  destruct (get_shortest_path_follows_the_least_weight_node_sequences
              net_failed_parallel "A" "B" 0 ["A"; "B"]%string)
    as (w & paths & Hrun & _ & _ & _ & p & Hp & Hcost & _).
  - vm_compute. by left.
  - split; [done|]. repeat constructor. vm_compute. discriminate.
  - split; reflexivity.
  - exists w, paths. split; [exact Hrun|]. exists p. split; [exact Hp|exact Hcost].
Defined.


Lemma elem_of_simple_paths G s d q :
  endpoints_are_nodes G → s ∈ g_nodes G →
  q ∈ simple_paths (length (g_nodes G)) G [] s d
  ↔ node_hop_sequence G q ∧ from_to s d q ∧ NoDup q.
Proof.
  intros HG Hs. split.
  - intros Hq. apply simple_paths_sound in Hq as (? & ? & ? & _); [done|].
    by intros ?%elem_of_nil.
  - intros (Hq & Hft & Hnd). apply simple_paths_complete; try done.
    + apply Forall_forall. intros x _. by intros ?%elem_of_nil.
    + apply Nat.le_le_succ_r, submseteq_length, NoDup_submseteq; [done|].
      intros x Hx. destruct q as [|a q]; [by apply elem_of_nil in Hx|].
      destruct Hft as [[= ->] _].
      apply elem_of_cons in Hx as [->|Hx]; [done|].
      by apply (node_hop_sequence_nodes G (s :: q)).
Qed.

(** [get_all_paths_reservable_bw] raises NodeNotFound, which it does not
    catch, when the source is no node of the graph it builds. Between two
    nodes of the graph it returns exactly the interface sequences that
    follow a node-hop sequence of the graph from the source to the
    destination, without a repeated node and of at most [cutoff] hops,
    taking on each hop any interface between the two nodes with at least
    [needed_bw] of reservable bandwidth, failed or not; there is none when
    the source is the destination. Each returned path leads from the source
    to the destination in at most [cutoff] interfaces. *)
Theorem get_all_paths_reservable_bw_follows_the_simple_node_sequences
    (self : Model) (source_node_name dest_node_name : string)
    (include_failed_circuits : bool) (cutoff : nat) (needed_bw : Q) :
  let G := _make_weighted_network_graph_mdg self include_failed_circuits needed_bw false in
  (source_node_name ∉ g_nodes G →
   get_all_paths_reservable_bw self source_node_name dest_node_name
     include_failed_circuits cutoff needed_bw = inl NodeNotFound) ∧
  (source_node_name ∈ g_nodes G → dest_node_name ∈ g_nodes G →
   ∃ paths,
     get_all_paths_reservable_bw self source_node_name dest_node_name
       include_failed_circuits cutoff needed_bw
       = inr (mkPathsDict (NormalizedPaths paths)) ∧
     (∀ p, p ∈ paths ↔
           source_node_name ≠ dest_node_name ∧
           ∃ q, node_hop_sequence G q ∧ from_to source_node_name dest_node_name q ∧
                NoDup q ∧ length q ≤ S cutoff ∧
                Forall2 (carries (interface_objects self) needed_bw) p (adjacent_pairs q)) ∧
     (∀ p, p ∈ paths →
           interface_chain (interface_objects self) source_node_name dest_node_name p ∧
           length p ≤ cutoff)).
Proof.
  intros G. unfold get_all_paths_reservable_bw, all_simple_paths. fold G. split.
  { intros Hs. by rewrite bool_decide_eq_false_2. }
  intros Hs _. rewrite bool_decide_eq_true_2 by done.
  assert (HG : endpoints_are_nodes G) by apply graph_endpoints_are_nodes.
  case_bool_decide as Hsd; simpl.
  { eexists. split; [done|]. split.
    - intros p. split; [by intros ?%elem_of_nil|]. by intros [? _].
    - by intros p ?%elem_of_nil. }
  set (nx_paths := remove_dups (filter _ _)).
  assert (Hin : ∀ q, q ∈ nx_paths ↔
                     node_hop_sequence G q ∧ from_to source_node_name dest_node_name q ∧
                     NoDup q ∧ length q ≤ S cutoff).
  { intros q. unfold nx_paths.
    rewrite elem_of_remove_dups, list_elem_of_filter, elem_of_simple_paths by done.
    tauto. }
  assert (Hnd : Forall (λ q, NoDup q) nx_paths).
  { apply Forall_forall. intros q Hq. by apply Hin in Hq as (_ & _ & ? & _). }
  pose proof (elem_of_normalized_paths self needed_bw nx_paths) as Hpaths.
  eexists. split; [done|]. split.
  - intros p. rewrite (Hpaths p Hnd). split.
    + intros (q & Hq%Hin & Hcar). split; [done|]. exists q. tauto.
    + intros (_ & q & ? & ? & ? & ? & Hcar). exists q. split; [|done]. by apply Hin.
  - intros p (q & (_ & Hft & _ & Hlen)%Hin & Hcar)%Hpaths; [|done]. split.
    + by eapply carried_chain.
    + apply Forall2_length in Hcar. rewrite Hcar. unfold adjacent_pairs.
      rewrite length_zip. destruct q as [|a q]; [simpl; lia|].
      cbn [tail length] in *. lia.
Qed.


Lemma get_all_paths_reservable_bw_follows_the_simple_node_sequences_witness :
  get_all_paths_reservable_bw net_failed_parallel "A" "B" false 10 0
    = inr (mkPathsDict (NormalizedPaths [[0]; [1]])) ∧
  ∃ paths,
    get_all_paths_reservable_bw net_failed_parallel "A" "B" false 10 0
      = inr (mkPathsDict (NormalizedPaths paths)) ∧
    ∀ p, p ∈ paths → length p ≤ 10.
Proof.
  split; [vm_compute; reflexivity|].
  destruct (proj2 (get_all_paths_reservable_bw_follows_the_simple_node_sequences
                     net_failed_parallel "A" "B" false 10 0))
    as (paths & Hrun & _ & Hlen).
  - vm_compute. by left.
  - vm_compute. right. by left.
  - exists paths. split; [exact Hrun|]. intros p Hp. by destruct (Hlen p Hp).
Defined.


(** ** Adding a circuit *)

Lemma core_update_interface (l : list Interface.t) k f :
  (∀ i, core_interface (f i) = core_interface i) →
  preserves (λ m, core_interface <$> interface_objects m = l ) (update_interface k f).
Proof.
  intros Hf. apply preserves_modify. intros m <-. simpl.
  by rewrite fmap_alter_absorb.
Qed.

Lemma core_pair_interfaces (l : list Interface.t) graph_interfaces circuits :
  preserves (λ m, core_interface <$> interface_objects m = l)
            (pair_interfaces graph_interfaces circuits).
Proof.
  revert circuits. induction graph_interfaces as [|e es IH]; intros circuits; simpl.
  - apply preserves_ret.
  - repeat preserves_step; try apply IH;
      try (apply core_update_interface; by intros []).
Qed.

Lemma core_validate_model (l : list Interface.t) :
  preserves (λ m, core_interface <$> interface_objects m = l) validate_model.
Proof.
  unfold validate_model, _make_circuits_multidigraph.
  repeat preserves_step; try apply core_pair_interfaces.
  apply preserves_modify. intros m <-. simpl.
  by rewrite fmap_fmap_absorb by (by intros []).
Qed.

Lemma rest_validate_model (m0 : Model) :
  preserves (λ m, node_objects m = node_objects m0 ∧
                  demand_objects m = demand_objects m0 ∧
                  rsvp_lsp_objects m = rsvp_lsp_objects m0) validate_model.
Proof.
  intros m Hm. rewrite validate_model_run.
  destruct (make_circuits_frame true true m) as (l & c & Hframe).
  destruct (_make_circuits_multidigraph true true m) as [[e|circuits] x];
    simpl in *; subst x.
  - done.
  - by case_bool_decide.
Qed.

(** The model [add_circuit] validates, when no guard of it raises and the
    two nodes differ: the model with the two new interfaces. *)
Lemma add_circuit_run a b name_a name_b cost_a cost_b capacity failed cid m :
  a ≠ b →
  let int_a := Interface_init name_a cost_a capacity a b cid in
  let int_b := Interface_init name_b cost_b capacity b a cid in
  let added := set_interface_objects (interface_objects m ++ [int_a; int_b]) m in
  let out := add_circuit a b name_a name_b cost_a cost_b capacity failed (Some cid) m in
  (out = (inl (CircuitIdExists cid), m) ∧ cid ∈ Interface.circuit_id <$> interface_objects m) ∨
  (out = (inl (InterfaceExists int_a a), m) ∧
   interface_key int_a ∈ interface_key <$> interface_objects m) ∨
  (out = (inl (InterfaceExists int_b b), m) ∧
   interface_key int_b ∈ interface_key <$> interface_objects m) ∨
  (out = match validate_model added with
         | (inl e, self) => (inl (RaisedByValidation e), self)
         | (inr _, self) => (inr tt, self)
         end).
Proof.
  intros Hab. unfold add_circuit, all_interface_circuit_ids. cbv zeta.
  set (int_a := Interface_init name_a cost_a capacity a b cid).
  set (int_b := Interface_init name_b cost_b capacity b a cid).
  destruct (decide (cid ∈ remove_dups (Interface.circuit_id <$> interface_objects m)))
    as [Hcid|Hcid].
  { rewrite bool_decide_eq_true_2 by done. left. split; [done|].
    by rewrite elem_of_remove_dups in Hcid. }
  rewrite (bool_decide_eq_false_2 _ Hcid).
  destruct (decide (interface_key int_a ∈ interface_key <$> interface_objects m))
    as [Hka|Hka].
  { rewrite bool_decide_eq_true_2 by done. right. left. by split. }
  rewrite (bool_decide_eq_false_2 _ Hka).
  destruct (decide (interface_key int_b ∈ interface_key <$> interface_objects m))
    as [Hkb|Hkb].
  { rewrite bool_decide_eq_true_2 by done. right. right. left. by split. }
  rewrite (bool_decide_eq_false_2 _ Hkb).
  right. right. right.
  unfold interface_objects_add at 2. rewrite bool_decide_eq_false_2 by done.
  unfold interface_objects_add. rewrite bool_decide_eq_false_2.
  - simpl. rewrite <- app_assoc. simpl. by destruct m.
  - simpl. rewrite fmap_app, elem_of_app. intros [?|Hin]; [done|].
    apply list_elem_of_singleton in Hin. unfold interface_key in Hin. simpl in Hin.
    congruence.
Qed.

(** When [add_circuit] returns for two distinct nodes and a capacity that
    is not negative, the interfaces of the model are those it had, followed
    by the two new ones, which are not failed whatever [failed] says; the
    two new interfaces are marked [in_ckt] and one circuit of the model is
    made of the two. The nodes, the demands and the LSPs of the model are
    as before: the two nodes are not added to the nodes of the model. *)
Theorem add_circuit_adds_the_circuit
    (node_a_object node_b_object node_a_interface_name node_b_interface_name : string)
    (cost_intf_a cost_intf_b : Z) (capacity : Q) (failed : bool)
    (circuit_id : option string) (self after : Model) :
  node_a_object ≠ node_b_object →
  (0 <= capacity)%Q →
  add_circuit node_a_object node_b_object node_a_interface_name node_b_interface_name
    cost_intf_a cost_intf_b capacity failed circuit_id self = (inr tt, after) →
  ∃ cid,
    circuit_id = Some cid ∧
    let n := length (interface_objects self) in
    let int_a := Interface_init node_a_interface_name cost_intf_a capacity
                                node_a_object node_b_object cid in
    let int_b := Interface_init node_b_interface_name cost_intf_b capacity
                                node_b_object node_a_object cid in
    core_interface <$> interface_objects after
      = core_interface <$> (interface_objects self ++ [int_a; int_b]) ∧
    interface_objects after !! n = Some (Interface.set_in_ckt true int_a) ∧
    interface_objects after !! S n = Some (Interface.set_in_ckt true int_b) ∧
    (∃ c, c ∈ circuit_objects after ∧
          (ckt_a c = n ∧ ckt_b c = S n ∨ ckt_a c = S n ∧ ckt_b c = n)) ∧
    node_objects after = node_objects self ∧
    demand_objects after = demand_objects self ∧
    rsvp_lsp_objects after = rsvp_lsp_objects self.
Proof.
  intros Hab Hcap Hrun. destruct circuit_id as [cid|]; [|done].
  exists cid. split; [done|]. cbv zeta.
  set (int_a := Interface_init node_a_interface_name cost_intf_a capacity
                               node_a_object node_b_object cid).
  set (int_b := Interface_init node_b_interface_name cost_intf_b capacity
                               node_b_object node_a_object cid).
  set (added := set_interface_objects (interface_objects self ++ [int_a; int_b]) self).
  destruct (add_circuit_run node_a_object node_b_object node_a_interface_name
              node_b_interface_name cost_intf_a cost_intf_b capacity failed cid self Hab)
    as [[Hout _]|[[Hout _]|[[Hout _]|Hout]]];
    rewrite Hout in Hrun; try done.
  fold int_a int_b added in Hrun.
  pose proof (rest_validate_model added added (conj eq_refl (conj eq_refl eq_refl)))
    as Hrest.
  rewrite validate_model_run in Hrun, Hrest.
  pose proof (make_circuits_pairing true true added) as Hpair. cbv zeta in Hpair.
  destruct (_make_circuits_multidigraph true true added) as [[e|circuits] x] eqn:Hmk;
    [done|].
  case_bool_decide as Hlen; [done|]. injection Hrun as <-. simpl in Hrest, Hpair.
  destruct circuits as [data|].
  { destruct Hlen. unfold validation_error_data. simpl. lia. }
  destruct (Hpair eq_refl) as (Hcore & Hcp & _ & Hmark & Hall).
  set (n := length (interface_objects self)).
  assert (Hna : interface_objects added !! n = Some int_a).
  { simpl. by rewrite lookup_app_r, Nat.sub_diag by done. }
  assert (Hnb : interface_objects added !! S n = Some int_b).
  { simpl. rewrite lookup_app_r by (unfold n; lia).
    by replace (S n - length (interface_objects self)) with 1 by (unfold n; lia). }
  assert (Hel : eligible true 0 false int_a).
  { split_and!; [by left| |by left].
    unfold Interface.reservable_bandwidth. simpl.
    assert (Heq : (capacity * 100 / 100 - 0 == capacity)%Q) by field.
    by rewrite Heq. }
  pose proof (Hall n int_a Hna Hel) as Hmem.
  apply elem_of_concat in Hmem as (l & Hnl & (c & -> & Hc)%list_elem_of_fmap).
  assert (Hpairs : ckt_a c = n ∧ ckt_b c = S n ∨ ckt_a c = S n ∧ ckt_b c = n).
  { assert (Hback : S n ∈ matching_interfaces (interface_objects added)
                          node_b_object node_a_object cid).
    { apply elem_of_matching_interfaces. by exists int_b. }
    destruct (Hcp c Hc) as [(i1 & Hi1 & _ & Hb1) (i2 & Hi2 & _ & Hb2)].
    unfold ckt_members in Hnl. rewrite elem_of_remove_dups in Hnl.
    apply elem_of_cons in Hnl as [Hn|Hn%list_elem_of_singleton].
    - left. split; [done|].
      assert (i1 = int_a) as ->.
      { rewrite <- Hn in Hi1. apply (inj Some). rewrite <- Hi1. exact Hna. }
      simpl in Hb1. unfold added in Hback. simpl in Hback.
      rewrite Hb1 in Hback. by apply list_elem_of_singleton in Hback.
    - right. split; [|done].
      assert (i2 = int_a) as ->.
      { rewrite <- Hn in Hi2. apply (inj Some). rewrite <- Hi2. exact Hna. }
      simpl in Hb2. unfold added in Hback. simpl in Hback.
      rewrite Hb2 in Hback. by apply list_elem_of_singleton in Hback. }
  assert (Hmarked : ∀ k i, interface_objects added !! k = Some i →
                           k ∈ ckt_members c →
                           interface_objects x !! k
                           = Some (Interface.set_in_ckt true i)).
  { intros k i Hk Hkc.
    assert (Hcore_k : core_interface <$> interface_objects x !! k
                      = core_interface <$> interface_objects added !! k)
      by (by rewrite <- !list_lookup_fmap, Hcore).
    rewrite Hk in Hcore_k.
    destruct (interface_objects x !! k) as [i'|] eqn:Hi'; [|done].
    assert (Him : Interface.in_ckt i' = true).
    { apply (Hmark k i' Hi'). apply elem_of_concat. exists (ckt_members c).
      split; [done|]. by apply list_elem_of_fmap_2. }
    assert (Hc' : core_interface i' = core_interface i)
      by (simpl in Hcore_k; congruence).
    f_equal. clear Hcore_k Hi' Hk.
    destruct i', i. unfold core_interface, Interface.set_in_ckt in *. simpl in *.
    congruence. }
  split_and!; try done; try apply Hrest.
  - apply (Hmarked n int_a Hna). unfold ckt_members. rewrite elem_of_remove_dups.
    destruct Hpairs as [[-> _]|[_ ->]]; [by left|right; by left].
  - apply (Hmarked (S n) int_b Hnb). unfold ckt_members. rewrite elem_of_remove_dups.
    destruct Hpairs as [[_ ->]|[-> _]]; [right; by left|by left].
  - by exists c.
Qed.

Lemma add_circuit_adds_the_circuit_witness :
  ∃ after,
    add_circuit "A" "B" "A-to-B" "B-to-A" 10 10 100 true (Some "1"%string) net_two_nodes
      = (inr tt, after) ∧
    interface_objects after !! 0
      = Some (Interface.mk "A-to-B" 10 100 "A" "B" "1" true 100 false 0 0 true) ∧
    circuit_objects after = [mkCircuit 0 1].
Proof.
  eexists. split; [vm_compute; reflexivity|]. split; [|vm_compute; reflexivity].
  destruct (add_circuit_adds_the_circuit "A" "B" "A-to-B" "B-to-A" 10 10 100 true
              (Some "1"%string) net_two_nodes _ ltac:(done) ltac:(done) eq_refl)
    as (cid & Hcid & _ & Ha & _).
  injection Hcid as <-. exact Ha.
Defined.

(** When [add_circuit] raises for two distinct nodes, either one of its own
    guards raised and the model is as it was, or [validate_model] raised
    and the model keeps the two new interfaces: the interfaces of the model
    are those it had, followed by the two new ones. *)
Theorem add_circuit_keeps_the_interfaces_when_validation_raises
    (node_a_object node_b_object node_a_interface_name node_b_interface_name : string)
    (cost_intf_a cost_intf_b : Z) (capacity : Q) (failed : bool)
    (circuit_id : option string) (self after : Model) (e : add_circuit_exception) :
  node_a_object ≠ node_b_object →
  add_circuit node_a_object node_b_object node_a_interface_name node_b_interface_name
    cost_intf_a cost_intf_b capacity failed circuit_id self = (inl e, after) →
  match e with
  | RaisedByValidation _ =>
      ∃ cid,
        circuit_id = Some cid ∧
        core_interface <$> interface_objects after
        = core_interface <$>
            (interface_objects self ++
             [Interface_init node_a_interface_name cost_intf_a capacity
                             node_a_object node_b_object cid;
              Interface_init node_b_interface_name cost_intf_b capacity
                             node_b_object node_a_object cid]) ∧
        node_objects after = node_objects self
  | _ => after = self
  end.
Proof.
  intros Hab Hrun. destruct circuit_id as [cid|]; [|by injection Hrun as <- <-].
  destruct (add_circuit_run node_a_object node_b_object node_a_interface_name
              node_b_interface_name cost_intf_a cost_intf_b capacity failed cid self Hab)
    as [[Hout _]|[[Hout _]|[[Hout _]|Hout]]];
    rewrite Hout in Hrun; try (by injection Hrun as <- <-).
  match type of Hrun with
  | context [validate_model ?added] =>
      pose proof (core_validate_model _ added eq_refl) as Hcore;
      pose proof (rest_validate_model added added (conj eq_refl (conj eq_refl eq_refl)))
        as (Hnodes & _)
  end.
  destruct (validate_model _) as [[e'|[]] x]; [|done].
  injection Hrun as <- <-. exists cid. by split_and!.
Qed.

Lemma add_circuit_keeps_the_interfaces_when_validation_raises_witness :
  ∃ e after,
    add_circuit "B" "C" "B-to-C" "C-to-B" 10 10 100 false (Some "2"%string) net_one_way
      = (inl (RaisedByValidation e), after) ∧
    length (interface_objects after) = 3.
Proof.
  eexists _, _. split; [vm_compute; reflexivity|].
  destruct (add_circuit_keeps_the_interfaces_when_validation_raises
              "B" "C" "B-to-C" "C-to-B" 10 10 100 false (Some "2"%string) net_one_way
              _ _ ltac:(done) eq_refl)
    as (cid & _ & Hcore & _).
  apply (f_equal length) in Hcore. rewrite !length_fmap in Hcore. exact Hcore.
Defined.


(** ** Path query for an LSP that is routed *)

Section RoutedLspQuery.

Variables (self : Model) (lsp : RSVP_LSP.t) (needed_bw : Q).
Variables (path_interfaces : list nat) (baseline_path_cost : Z) (reserved : Q).
Hypothesis lsp_routed : RSVP_LSP.path lsp = LspRouted path_interfaces baseline_path_cost.
Hypothesis lsp_reserved : RSVP_LSP.reserved_bandwidth lsp = Bw reserved.

Lemma eligible_interfaces_of_run (gen : list (nat * Interface.t)) :
  eligible_interfaces_of lsp path_interfaces needed_bw gen
  = inr (filter (λ ki,
           (needed_bw <= (if decide (ki.1 ∈ path_interfaces)
                          then Interface.reservable_bandwidth ki.2 + reserved
                          else Interface.reservable_bandwidth ki.2))%Q) gen).
Proof.
  induction gen as [|ki gen IH]; [done|].
  cbn [eligible_interfaces_of]. rewrite IH. rewrite filter_cons.
  unfold plus_reserved_bandwidth. rewrite lsp_reserved.
  destruct (decide (ki.1 ∈ path_interfaces)) as [Hin|Hin].
  - rewrite bool_decide_eq_true_2 by done. simpl.
    destruct (Qle_bool _ _) eqn:Hle.
    + apply Qle_bool_iff in Hle. by rewrite decide_True.
    + rewrite decide_False; [done|]. intros Hle'%Qle_bool_iff. congruence.
  - rewrite bool_decide_eq_false_2 by done. simpl.
    destruct (Qle_bool _ _) eqn:Hle.
    + apply Qle_bool_iff in Hle. by rewrite decide_True.
    + rewrite decide_False; [done|]. intros Hle'%Qle_bool_iff. congruence.
Qed.

Lemma routed_lsp_graph_run :
  ∃ G, _make_weighted_network_graph_routed_lsp self lsp needed_bw = inr G ∧
       g_edges G = weighted_edge_of
                     <$> filter (admitted_for_lsp path_interfaces reserved needed_bw)
                                (enumerate (interface_objects self)) ∧
       (∀ x, x ∈ g_nodes G ↔
             x ∈ Node.name <$> node_objects self ∨
             ∃ e, e ∈ g_edges G ∧ (x = Edge.u e ∨ x = Edge.v e)).
Proof.
  unfold _make_weighted_network_graph_routed_lsp, lsp_path_interfaces.
  rewrite lsp_routed. simpl. rewrite eligible_interfaces_of_run. simpl.
  eexists. split; [done|].
  assert (Hfilter :
    filter (λ ki : nat * Interface.t,
              (needed_bw <= (if decide (ki.1 ∈ path_interfaces)
                             then Interface.reservable_bandwidth ki.2 + reserved
                             else Interface.reservable_bandwidth ki.2))%Q)
      (filter (λ ki, Interface.failed ki.2 = false ∧ Interface.rsvp_enabled ki.2 = true)
              (enumerate (interface_objects self)))
    = filter (admitted_for_lsp path_interfaces reserved needed_bw)
             (enumerate (interface_objects self))).
  { rewrite list_filter_filter. apply list_filter_iff. intros ki.
    unfold admitted_for_lsp. tauto. }
  split.
  - rewrite add_nodes_from_edges, add_edges_from_edges. simpl. by rewrite Hfilter.
  - intros x. rewrite add_nodes_from_nodes, add_edges_from_nodes.
    rewrite add_nodes_from_edges, add_edges_from_edges. simpl.
    rewrite elem_of_nil. tauto.
Qed.

Lemma hop_interface_list_of_run (k : nat) (i : Interface.t) :
  interface_objects self !! k = Some i →
  hop_interface_list_of self needed_bw lsp k
  = inr (if decide (qualifies (interface_objects self) path_interfaces
                              reserved needed_bw k)
         then [k] else []).
Proof.
  intros Hi.
  assert (Hq : qualifies (interface_objects self) path_interfaces reserved needed_bw k
               ↔ (k ∈ path_interfaces ∧
                  (needed_bw <= Interface.reservable_bandwidth i + reserved)%Q) ∨
                 (needed_bw <= Interface.reservable_bandwidth i)%Q)
    by (unfold qualifies; by rewrite Hi).
  unfold hop_interface_list_of, lsp_path_interfaces, plus_reserved_bandwidth.
  rewrite Hi, lsp_routed, lsp_reserved. simpl.
  destruct (decide (k ∈ path_interfaces)) as [Hin|Hin].
  - rewrite bool_decide_eq_true_2 by done. simpl.
    destruct (Qle_bool needed_bw (Interface.reservable_bandwidth i + reserved)) eqn:Hon.
    + apply Qle_bool_iff in Hon. rewrite decide_True; [done|]. apply Hq. by left.
    + destruct (Qle_bool needed_bw (Interface.reservable_bandwidth i)) eqn:Hoff.
      * apply Qle_bool_iff in Hoff. rewrite decide_True; [done|]. apply Hq. by right.
      * rewrite decide_False; [done|].
        intros [[_ Hle%Qle_bool_iff]|Hle%Qle_bool_iff]%Hq; congruence.
  - rewrite bool_decide_eq_false_2 by done. simpl.
    destruct (Qle_bool needed_bw (Interface.reservable_bandwidth i)) eqn:Hoff.
    + apply Qle_bool_iff in Hoff. rewrite decide_True; [done|]. apply Hq. by right.
    + rewrite decide_False; [done|].
      intros [[? _]|Hle%Qle_bool_iff]%Hq; [done|congruence].
Qed.

Lemma hop_interface_lists_run (l : list nat) :
  Forall (λ k, is_Some (interface_objects self !! k)) l →
  res_bind (res_mapM (hop_interface_list_of self needed_bw lsp) l)
    (λ lists, inr (filter (λ hop_interface_list, 0 < length hop_interface_list) lists))
  = inr ((λ k, [k]) <$> filter (qualifies (interface_objects self) path_interfaces
                                          reserved needed_bw) l).
Proof.
  induction 1 as [|k l [i Hi] _ IH]; [done|].
  cbn [res_mapM]. rewrite (hop_interface_list_of_run k i Hi).
  destruct (res_mapM _ l) as [e|lists]; [done|]. simpl in *.
  injection IH as IH. f_equal. rewrite !filter_cons.
  destruct (decide (qualifies _ _ _ _ k)); simpl.
  - by f_equal.
  - done.
Qed.

Lemma interfaces_between_lookup (a b : string) :
  Forall (λ k, is_Some (interface_objects self !! k))
         (interfaces_between (interface_objects self) a b).
Proof.
  apply Forall_forall. intros k ([k' i] & -> & Hin)%list_elem_of_fmap.
  apply list_elem_of_filter in Hin as [_ Hin%elem_of_enumerate]. by exists i.
Qed.

Lemma convert_routed_lsp_suffix (pre rest : list string) :
  NoDup (pre ++ rest) →
  ∃ appended,
    res_mapM (λ hop,
      match (pre ++ rest) !! (index_of hop (pre ++ rest) + 1) with
      | Some next_hop =>
          match get_interface_object_from_nodes self hop next_hop None with
          | InterfaceList l =>
              res_bind (res_mapM (hop_interface_list_of self needed_bw lsp) l)
                (λ lists, inr (filter (λ hop_interface_list,
                                         0 < length hop_interface_list) lists))
          | ReturnedException => inl TypeError
          end
      | None => inr []
      end) rest = inr appended ∧
    concat appended
    = (λ k, [k]) <$> concat (qualifying_interfaces (interface_objects self)
                               path_interfaces reserved needed_bw
                               <$> adjacent_pairs rest).
Proof.
  revert pre. induction rest as [|hop rest IH]; intros pre Hnd.
  { by exists []. }
  assert (Hhop : hop ∉ pre).
  { apply NoDup_app in Hnd as (_ & Hdisj & _). intros Hin.
    apply (Hdisj hop Hin). by left. }
  specialize (IH (pre ++ [hop])). rewrite <- app_assoc in IH.
  change ([hop] ++ rest) with (hop :: rest) in IH.
  destruct (IH Hnd) as (appended & Hrun & Hcat).
  cbn [res_mapM]. rewrite Hrun. rewrite index_of_middle by done.
  rewrite lookup_app_r by lia.
  replace (length pre + 1 - length pre) with 1 by lia.
  destruct rest as [|next rest]; simpl.
  - eexists. split; [done|]. simpl. exact Hcat.
  - pose proof (hop_interface_lists_run _ (interfaces_between_lookup hop next)) as Hhops.
    unfold interfaces_between in Hhops. rewrite Hhops. simpl.
    eexists. split; [done|]. simpl. rewrite Hcat.
    unfold adjacent_pairs. simpl. by rewrite fmap_app.
Qed.

Lemma convert_routed_lsp_simple (q : list string) :
  NoDup q →
  _convert_nx_path_to_model_path_routed_lsp self q needed_bw lsp
  = inr ((λ k, [k]) <$> concat (qualifying_interfaces (interface_objects self)
                                  path_interfaces reserved needed_bw
                                  <$> adjacent_pairs q)).
Proof.
  intros Hnd. unfold _convert_nx_path_to_model_path_routed_lsp. cbv zeta.
  destruct (convert_routed_lsp_suffix [] q Hnd) as (appended & Hrun & Hcat).
  change ([] ++ q) with q in Hrun. rewrite Hrun. simpl. by rewrite Hcat.
Qed.

Lemma product_singletons {A} (l : list A) : product ((λ x, [x]) <$> l) = [l].
Proof.
  induction l as [|x l IH]; [done|].
  rewrite fmap_cons. cbn [product]. rewrite IH. done.
Qed.

Lemma convert_shortest_paths_routed_lsp_run G s d w paths converted cost :
  shortest_path_length G s d = inr w →
  Forall (λ q, NoDup q) paths →
  convert_shortest_paths_routed_lsp self G s d lsp needed_bw paths converted cost
  = (false,
     converted ++
       ((λ q, (λ k, [k]) <$> concat (qualifying_interfaces (interface_objects self)
                                       path_interfaces reserved needed_bw
                                       <$> adjacent_pairs q)) <$> paths),
     match paths with [] => cost | _ => Some w end).
Proof.
  intros Hw Hnd. revert converted cost.
  induction Hnd as [|q paths Hq _ IH]; intros converted cost; simpl.
  - by rewrite app_nil_r.
  - rewrite (convert_routed_lsp_simple q Hq), Hw, IH, <- app_assoc. simpl.
    by destruct paths.
Qed.

Lemma routed_lsp_edges_between G a b :
  g_edges G = weighted_edge_of
                <$> filter (admitted_for_lsp path_interfaces reserved needed_bw)
                           (enumerate (interface_objects self)) →
  edges_between G a b ≠ [] ↔
  ∃ k i, interface_objects self !! k = Some i ∧
         Interface.node_object i = a ∧ Interface.remote_node_object i = b ∧
         admitted_for_lsp path_interfaces reserved needed_bw (k, i).
Proof.
  intros Hedges. unfold edges_between. rewrite Hedges. split.
  - intros Hne.
    destruct (filter (λ e, Edge.u e = a ∧ Edge.v e = b) _) as [|e es] eqn:Hf; [done|].
    assert (He : e ∈ e :: es) by by left.
    rewrite <- Hf in He.
    apply list_elem_of_filter in He as [[Hu Hv] ([k i] & -> & Hin)%list_elem_of_fmap].
    apply list_elem_of_filter in Hin as [Had Hin%elem_of_enumerate].
    by exists k, i.
  - intros (k & i & Hi & Hu & Hv & Had) Hnil.
    eapply (filter_nil_not_elem_of _ _ (weighted_edge_of (k, i)) Hnil); [by split|].
    apply list_elem_of_fmap_2, list_elem_of_filter. split; [done|].
    by apply elem_of_enumerate.
Qed.

Lemma admitted_qualifies k i :
  interface_objects self !! k = Some i →
  admitted_for_lsp path_interfaces reserved needed_bw (k, i) →
  qualifies (interface_objects self) path_interfaces reserved needed_bw k.
Proof.
  intros Hi (_ & _ & Hbw). unfold qualifies. rewrite Hi. simpl in Hbw.
  destruct (decide (k ∈ path_interfaces)); [left|right]; done.
Qed.

Lemma single_qualifying_chain G s d q :
  g_edges G = weighted_edge_of
                <$> filter (admitted_for_lsp path_interfaces reserved needed_bw)
                           (enumerate (interface_objects self)) →
  node_hop_sequence G q → from_to s d q →
  (∀ ab, length (qualifying_interfaces (interface_objects self) path_interfaces
                   reserved needed_bw ab) ≤ 1) →
  interface_chain (interface_objects self) s d
    (concat (qualifying_interfaces (interface_objects self) path_interfaces
               reserved needed_bw <$> adjacent_pairs q)).
Proof.
  intros Hedges [_ Hseq] Hft Hone. revert s Hft.
  induction q as [|a q IH]; intros s [Hh Hl]; [done|].
  injection Hh as <-. destruct q as [|b q].
  - simpl in *. congruence.
  - unfold adjacent_pairs in *. simpl in Hseq |- *.
    apply Forall_cons in Hseq as [Hab Hseq]. simpl in Hab.
    apply (routed_lsp_edges_between G a b Hedges) in Hab
      as (k & i & Hi & Hu & Hv & Had).
    assert (Hk : k ∈ qualifying_interfaces (interface_objects self) path_interfaces
                     reserved needed_bw (a, b)).
    { apply list_elem_of_filter. split; [by apply (admitted_qualifies k i)|].
      apply list_elem_of_fmap. exists (k, i). split; [done|].
      apply list_elem_of_filter. split; [done|]. by apply elem_of_enumerate. }
    specialize (Hone (a, b)).
    destruct (qualifying_interfaces _ _ _ _ (a, b)) as [|k' [|k'' l]] eqn:Hq;
      [by apply elem_of_nil in Hk| |simpl in Hone; lia].
    apply list_elem_of_singleton in Hk as <-. simpl.
    exists i. split_and!; [done|done|]. rewrite Hv. by apply IH.
Qed.

End RoutedLspQuery.


(** For an LSP with a recorded path and a numeric reservation,
    [get_shortest_path_for_routed_lsp] searches the graph of the interfaces
    that are not failed, have RSVP enabled and have [needed_bw] of
    reservable bandwidth, the reservation of the LSP being counted back on
    the interfaces of its own path. With no path from the source to the
    destination it returns 'cost' None and no path. Otherwise it returns as
    'cost' the least weight [w] of a node-hop sequence and, for each
    node sequence of weight [w] without a repeated node, one interface
    sequence: every interface between the two nodes of each hop that has
    [needed_bw] as it is, or with the reservation counted back if it is on
    the path of the LSP, hop after hop. Parallel interfaces that qualify
    are thus listed one after the other in the same path; a returned path
    leads from the source to the destination when no two interfaces
    between the same two nodes qualify. *)
Theorem get_shortest_path_for_routed_lsp_lists_the_qualifying_interfaces
    (self : Model) (source_node_name dest_node_name : string) (lsp : RSVP_LSP.t)
    (needed_bw : Q) (path_interfaces : list nat) (baseline_path_cost : Z)
    (reserved : Q) :
  RSVP_LSP.path lsp = LspRouted path_interfaces baseline_path_cost →
  RSVP_LSP.reserved_bandwidth lsp = Bw reserved →
  source_node_name ∈ Node.name <$> node_objects self →
  let ints := interface_objects self in
  let kept := qualifying_interfaces ints path_interfaces reserved needed_bw in
  ∃ G,
    _make_weighted_network_graph_routed_lsp self lsp needed_bw = inr G ∧
    (∀ a b, edges_between G a b ≠ [] ↔
            ∃ k i, ints !! k = Some i ∧
                   Interface.node_object i = a ∧ Interface.remote_node_object i = b ∧
                   admitted_for_lsp path_interfaces reserved needed_bw (k, i)) ∧
    (no_path G source_node_name dest_node_name →
     get_shortest_path_for_routed_lsp self source_node_name dest_node_name lsp needed_bw
       = inr (mkPathDict None (ConvertedPaths []))) ∧
    (∀ q0, node_hop_sequence G q0 → from_to source_node_name dest_node_name q0 →
       ∃ w paths,
         get_shortest_path_for_routed_lsp self source_node_name dest_node_name
           lsp needed_bw = inr (mkPathDict (Some w) (NormalizedPaths paths)) ∧
         (∀ q, node_hop_sequence G q → from_to source_node_name dest_node_name q →
               NoDup q → (w ≤ path_weight G q)%Z) ∧
         (∀ p, p ∈ paths ↔
               ∃ q, node_hop_sequence G q ∧
                    from_to source_node_name dest_node_name q ∧
                    NoDup q ∧ path_weight G q = w ∧
                    p = concat (kept <$> adjacent_pairs q)) ∧
         (∀ p, p ∈ paths → (∀ ab, length (kept ab) ≤ 1) →
               interface_chain ints source_node_name dest_node_name p)).
Proof.
  intros Hpath Hres Hs ints kept.
  destruct (routed_lsp_graph_run self lsp needed_bw path_interfaces baseline_path_cost
              reserved Hpath Hres) as (G & Hrun & Hedges & Hnodes).
  exists G. split; [done|].
  assert (HG : endpoints_are_nodes G).
  { intros e He. split; apply Hnodes; right; exists e; auto. }
  assert (HsG : source_node_name ∈ g_nodes G) by (apply Hnodes; by left).
  split.
  { intros a b.
    apply (routed_lsp_edges_between self needed_bw path_interfaces reserved G a b Hedges). }
  unfold get_shortest_path_for_routed_lsp. rewrite Hrun. simpl. split.
  { intros Hno. by rewrite all_shortest_paths_no_path. }
  intros q0 Hq0 Hft0.
  destruct (all_shortest_paths G source_node_name dest_node_name) as [e|nx_sp] eqn:Hsp.
  { destruct (all_shortest_paths_inl _ _ _ _ Hsp) as [[-> _]|[_ ?]]; [|done].
    apply all_shortest_paths_no_path_inv in Hsp; [|done]. by destruct (Hsp q0). }
  destruct (all_shortest_paths_weight G _ _ _ HG Hsp) as (w & Hlen & Hw & Hmin).
  destruct (all_shortest_paths_inr _ _ _ _ Hsp) as [Hne Hall].
  assert (Hnd : Forall (λ q, NoDup q) nx_sp).
  { apply Forall_forall. intros q Hq. by destruct (Hall q Hq) as (_ & _ & ?). }
  rewrite (convert_shortest_paths_routed_lsp_run self lsp needed_bw path_interfaces
             baseline_path_cost reserved Hpath Hres G _ _ w) by done.
  simpl.
  assert (Hpaths : ∀ p,
    p ∈ _normalize_multidigraph_paths
          ((λ q, (λ k, [k]) <$> concat (kept <$> adjacent_pairs q)) <$> nx_sp)
    ↔ ∃ q, q ∈ nx_sp ∧ p = concat (kept <$> adjacent_pairs q)).
  { intros p. unfold _normalize_multidigraph_paths. rewrite list_elem_of_bind. split.
    - intros (hops & Hp & (q & -> & Hq)%list_elem_of_fmap).
      rewrite product_singletons in Hp. apply list_elem_of_singleton in Hp. eauto.
    - intros (q & Hq & ->). eexists. split; [|by apply list_elem_of_fmap_2].
      rewrite product_singletons. by apply list_elem_of_singleton. }
  exists w, (_normalize_multidigraph_paths
               ((λ q, (λ k, [k]) <$> concat (kept <$> adjacent_pairs q)) <$> nx_sp)).
  split_and!.
  - by destruct nx_sp.
  - exact Hmin.
  - intros p. rewrite Hpaths. split.
    + intros (q & Hq & ->). exists q.
      apply (all_shortest_paths_elem G _ _ _ w q HG Hsp Hlen) in Hq
        as (? & ? & ? & ?). done.
    + intros (q & ? & ? & ? & ? & ->). exists q. split; [|done].
      by apply (all_shortest_paths_elem G _ _ _ w q HG Hsp Hlen).
  - intros p (q & Hq & ->)%Hpaths Hone.
    destruct (Hall q Hq) as (Hseq & Hft & _).
    by apply (single_qualifying_chain self needed_bw path_interfaces reserved G).
Qed.

Lemma get_shortest_path_for_routed_lsp_lists_the_qualifying_interfaces_witness :
  get_shortest_path_for_routed_lsp net_triangle "A" "C" lsp_a_c 90
    = inr (mkPathDict (Some 10%Z) (NormalizedPaths [[0]])) ∧
  ∃ G, _make_weighted_network_graph_routed_lsp net_triangle lsp_a_c 90 = inr G ∧
       edges_between G "A" "C" ≠ [].
Proof.
  split; [vm_compute; reflexivity|].
  destruct (get_shortest_path_for_routed_lsp_lists_the_qualifying_interfaces
              net_triangle "A" "C" lsp_a_c 90 [0] 10 80 eq_refl eq_refl)
    as (G & Hrun & Hedges & _).
  - vm_compute. by left.
  - exists G. split; [exact Hrun|]. apply Hedges.
    exists 0, (Interface.mk "A-to-C" 10 100 "A" "C" "1" true 100 false 80 0 true).
    by split_and!.
Defined.


(** ** Demand router: when it raises *)

Lemma route_demands_body_carried G k d x :
  demand_objects x !! k = Some d →
  ¬ stranded G (rsvp_lsp_objects x) d →
  ∃ x', _route_demands_body G k x = (inr tt, x') ∧
    interface_objects x' = interface_objects x ∧ node_objects x' = node_objects x ∧
    rsvp_lsp_objects x' = rsvp_lsp_objects x ∧ circuit_objects x' = circuit_objects x ∧
    srlg_objects x' = srlg_objects x ∧ _parallel_lsp_groups x' = _parallel_lsp_groups x ∧
    ∀ j, demand_objects x' !! j
         = if decide (j = k)
           then Some (Demand.set_path (demand_path_of G (rsvp_lsp_objects x) d) d)
           else demand_objects x !! j.
Proof.
  intros Hd Hns.
  destruct (decide (Demand.source_node_object d ∈ g_nodes G)) as [Hsrc|Hsrc];
    [by apply route_demands_body_run|].
  destruct (lsps_for_demand (rsvp_lsp_objects x) d) as [|c carried] eqn:Hc;
    [by destruct Hns|].
  unfold _route_demands_body, demand_path_of. run_M. rewrite Hd. simpl.
  rewrite Hc. simpl. eexists. split; [done|]. split_and!; try done.
  intros j. simpl. destruct (decide (j = k)) as [->|Hne].
  - rewrite !list_lookup_alter, !decide_True, Hd by done. done.
  - rewrite !list_lookup_alter_ne by done. done.
Qed.

Lemma route_demands_body_stranded G k d x :
  demand_objects x !! k = Some d →
  stranded G (rsvp_lsp_objects x) d →
  ∃ x', _route_demands_body G k x = (inl NodeNotFound, x') ∧
    interface_objects x' = interface_objects x ∧
    rsvp_lsp_objects x' = rsvp_lsp_objects x ∧
    ∀ j, demand_objects x' !! j
         = if decide (j = k) then Some (Demand.set_path (DemandRouted []) d)
           else demand_objects x !! j.
Proof.
  intros Hd [Hc Hsrc].
  unfold _route_demands_body. run_M. rewrite Hd. simpl. rewrite Hc. simpl.
  unfold all_shortest_paths. rewrite bool_decide_eq_false_2 by done. simpl.
  eexists. split; [done|]. split_and!; try done.
  intros j. simpl. destruct (decide (j = k)) as [->|Hne].
  - rewrite !list_lookup_alter, !decide_True, Hd by done. done.
  - rewrite !list_lookup_alter_ne by done. done.
Qed.

Lemma route_demands_prefix (m : Model) (k : nat) :
  let G := _make_weighted_network_graph_mdg m false 0 false in
  k ≤ length (demand_objects m) →
  Forall (λ d, ¬ stranded G (rsvp_lsp_objects m) d) (take k (demand_objects m)) →
  let r := for_each (seq 0 k) (_route_demands_body G) m in
  r.1 = inr tt ∧ demands_routed G m (seq 0 k) r.2.
Proof.
  intros G Hk Hgood r. subst r.
  apply (for_each_invariant (demands_routed G m)).
  - unfold demands_routed. by split_and!.
  - intros done j rest x Hseq (Hi & Hn & Hl & Hc & Hs & Hg & Hdem).
    assert (Hnd : NoDup (done ++ j :: rest)) by (rewrite <- Hseq; apply NoDup_seq).
    apply NoDup_app in Hnd as (_ & Hdisj & _).
    assert (Hj : j ∉ done) by (intros Hin; apply (Hdisj j Hin); by left).
    assert (Hlt : j < k).
    { assert (Hin : j ∈ seq 0 k) by (rewrite Hseq, elem_of_app; right; by left).
      apply elem_of_seq in Hin. lia. }
    destruct (lookup_lt_is_Some_2 (demand_objects m) j) as [d Hd]; [lia|].
    assert (Hdx : demand_objects x !! j = Some d) by (by rewrite Hdem, decide_False).
    destruct (route_demands_body_carried G j d x Hdx)
      as (x' & Hrun & Hi' & Hn' & Hl' & Hc' & Hs' & Hg' & Hdem').
    { rewrite Hl. apply (proj1 (Forall_forall _ _) Hgood).
      apply list_elem_of_lookup. exists j. by rewrite lookup_take_lt. }
    rewrite Hrun. simpl. split; [done|].
    repeat split; try congruence.
    intros i. rewrite Hdem'. destruct (decide (i = j)) as [->|Hne].
    + rewrite decide_True by (apply elem_of_app; right; by left).
      rewrite Hd, Hl. done.
    + rewrite Hdem. destruct (decide (i ∈ done)) as [Hin|Hnin].
      * by rewrite decide_True by (apply elem_of_app; by left).
      * rewrite decide_False; [done|].
        rewrite elem_of_app, list_elem_of_singleton. tauto.
Qed.

Lemma route_demands_cases (m : Model) :
  let G := _make_weighted_network_graph_mdg m false 0 false in
  let after := (_route_demands m).2 in
  match (_route_demands m).1 with
  | inr _ => Forall (λ d, ¬ stranded G (rsvp_lsp_objects m) d) (demand_objects m)
  | inl e =>
      e = NodeNotFound ∧
      ∃ k d,
        demand_objects m !! k = Some d ∧ stranded G (rsvp_lsp_objects m) d ∧
        Forall (λ d, ¬ stranded G (rsvp_lsp_objects m) d) (take k (demand_objects m)) ∧
        interface_objects after = interface_objects m ∧
        rsvp_lsp_objects after = rsvp_lsp_objects m ∧
        ∀ j, demand_objects after !! j
             = if decide (j < k) then
                 (λ d, Demand.set_path (demand_path_of G (rsvp_lsp_objects m) d) d)
                   <$> demand_objects m !! j
               else if decide (j = k) then Some (Demand.set_path (DemandRouted []) d)
               else demand_objects m !! j
  end.
Proof.
  intros G after. subst after. rewrite route_demands_unfold. fold G.
  destruct (decide (Forall (λ d, ¬ stranded G (rsvp_lsp_objects m) d) (demand_objects m)))
    as [Hall|Hbad].
  - destruct (route_demands_prefix m (length (demand_objects m))) as [Hok _];
      [done|by rewrite firstn_all|]. fold G in Hok.
    destruct (for_each _ (_route_demands_body G) m) as [[e|[]] x]; [done|].
    destruct (quiet_update_interface_utilization x) as [Hok' _].
    destruct (_update_interface_utilization x) as [[e|[]] x']; done.
  - destruct (first_failing _ _ Hbad) as (good & d & rest & Hsplit & Hgood & Hd).
    apply dec_stable in Hd.
    set (k := length good).
    assert (Hk : demand_objects m !! k = Some d).
    { rewrite Hsplit. by rewrite lookup_app_r, Nat.sub_diag by done. }
    assert (Htake : take k (demand_objects m) = good).
    { unfold k. rewrite Hsplit. by rewrite take_app_length. }
    assert (Hlen : length (demand_objects m) = k + S (length rest)).
    { unfold k. rewrite Hsplit, length_app. done. }
    destruct (route_demands_prefix m k) as [Hok Hrouted];
      [lia|by rewrite Htake|]. fold G in Hok, Hrouted.
    rewrite Hlen, seq_app, for_each_app. simpl.
    destruct (for_each (seq 0 k) (_route_demands_body G) m) as [[e|[]] x]; [done|].
    simpl in Hrouted. destruct Hrouted as (Hi & _ & Hl & _ & _ & _ & Hdem).
    assert (Hdx : demand_objects x !! k = Some d).
    { rewrite Hdem. rewrite decide_False; [done|]. rewrite elem_of_seq. lia. }
    destruct (route_demands_body_stranded G k d x Hdx) as (x' & Hrun & Hi' & Hl' & Hdem').
    { by rewrite Hl. }
    unfold bind. rewrite Hrun. simpl. split; [done|].
    exists k, d. rewrite Htake. split_and!; try done; try congruence.
    intros j. rewrite Hdem'.
    destruct (decide (j = k)) as [->|Hne].
    + rewrite decide_False by lia. done.
    + rewrite Hdem. destruct (decide (j < k)) as [Hlt|Hge].
      * rewrite decide_True; [done|]. rewrite elem_of_seq. lia.
      * rewrite decide_False; [done|]. rewrite elem_of_seq. lia.
Qed.

(** [_route_demands] raises nothing but NodeNotFound, and raises it exactly
    when some demand that no routed LSP can carry starts at a name that is
    no node of the graph. The model it leaves then has the demands before
    the first such demand routed, that demand with the empty list of paths
    it was given before the search, the demands after it as they were, and
    no traffic added to any interface. *)
Theorem route_demands_raises_for_a_demand_from_no_node (m : Model) :
  let G := _make_weighted_network_graph_mdg m false 0 false in
  let after := (_route_demands m).2 in
  match (_route_demands m).1 with
  | inr _ => Forall (λ d, ¬ stranded G (rsvp_lsp_objects m) d) (demand_objects m)
  | inl e =>
      e = NodeNotFound ∧
      ∃ k d,
        demand_objects m !! k = Some d ∧ stranded G (rsvp_lsp_objects m) d ∧
        Forall (λ d, ¬ stranded G (rsvp_lsp_objects m) d) (take k (demand_objects m)) ∧
        interface_objects after = interface_objects m ∧
        rsvp_lsp_objects after = rsvp_lsp_objects m ∧
        ∀ j, demand_objects after !! j
             = if decide (j < k) then
                 (λ d, Demand.set_path (demand_path_of G (rsvp_lsp_objects m) d) d)
                   <$> demand_objects m !! j
               else if decide (j = k) then Some (Demand.set_path (DemandRouted []) d)
               else demand_objects m !! j
  end.
Proof.
  apply route_demands_cases.
Qed.

Lemma route_demands_raises_for_a_demand_from_no_node_witness :
  (_route_demands net_stray_demand).1 = inl NodeNotFound ∧
  Demand.path <$> demand_objects (_route_demands net_stray_demand).2
  = [DemandRouted [ViaInterfaces [0]]; DemandRouted []; DemandUnrouted].
Proof.
  pose proof (route_demands_raises_for_a_demand_from_no_node net_stray_demand) as H.
  cbv zeta in H.
  split; [|vm_compute; reflexivity].
  destruct ((_route_demands net_stray_demand).1) as [e|[]] eqn:Hrun.
  - destruct H as [-> _]. reflexivity.
  - vm_compute in Hrun. discriminate.
Defined.


(** ** LSP placer: when a round raises *)

Lemma lsp_candidates_in_graph m bw s d :
  s ∈ g_nodes (_make_weighted_network_graph_mdg m false bw true) → s ≠ d →
  lsp_candidates m bw s d = inr None ∨
  ∃ cands, lsp_candidates m bw s d = inr (Some cands) ∧
           ∀ p, p ∈ cands → Forall (λ k, is_Some (interface_objects m !! k)) p.
Proof.
  intros HsG Hsd. unfold lsp_candidates.
  set (G := _make_weighted_network_graph_mdg m false bw true) in *.
  destruct (all_shortest_paths G s d) as [e|nx_sp] eqn:Hsp.
  - apply all_shortest_paths_inl in Hsp as [[-> _]|[_ Hn]]; [by left|done].
  - right. pose proof (all_shortest_paths_inr _ _ _ _ Hsp) as [Hne Hw].
    assert (Hseq : Forall (node_hop_sequence G) nx_sp).
    { apply Forall_forall. intros q Hq. by apply Hw. }
    rewrite (get_all_paths_mdg_spec G nx_sp Hseq). simpl.
    pose proof (normalize_spec G nx_sp _ Hseq (get_all_paths_mdg_spec G nx_sp Hseq))
      as Hnorm.
    rewrite Hnorm.
    assert (Hwf : Forall (λ p, p ≠ [] ∧ Forall (λ k, is_Some (interface_objects m !! k)) p)
                         (enumerated_paths_spec G nx_sp)).
    { apply Forall_forall. intros p Hp.
      apply (enumerated_path_well_formed m false bw true s d nx_sp p); [done| |done].
      intros q Hq. by apply Hw. }
    destruct (candidates_w_reservable_bw_total (interface_objects m) bw
                (enumerated_paths_spec G nx_sp) Hwf) as (cands & Hc & Hiff).
    exists cands. rewrite Hc. split; [done|].
    intros p [Hp _]%Hiff. by apply (proj1 (Forall_forall _ _) Hwf p Hp).
Qed.

(** A round of the LSP placer raises in two cases only: NodeNotFound when
    the source of the LSP is no node of the graph the round builds, and
    ValueError when it is one and is also the destination of the LSP. The
    round has then set the bandwidths of the LSP and emptied its path: the
    LSP is left with the path {} and a numeric reserved_bandwidth, and no
    interface has been changed. In every other case the round returns. *)
Theorem lsp_round_raises_in_two_cases_only
    (traff : Q) (draw lsp : nat) (l : RSVP_LSP.t) (m : Model) :
  rsvp_lsp_objects m !! lsp = Some l →
  let bw := setup_bandwidth_of traff l in
  let G := _make_weighted_network_graph_mdg m false bw true in
  let s := RSVP_LSP.source_node_object l in
  let d := RSVP_LSP.dest_node_object l in
  let after := _determine_lsp_state_info_body traff draw lsp m in
  match after.1 with
  | inr _ => s ∈ g_nodes G ∧ s ≠ d
  | inl e =>
      (e = NodeNotFound ∧ s ∉ g_nodes G ∨ e = ValueError ∧ s ∈ g_nodes G ∧ s = d) ∧
      interface_objects after.2 = interface_objects m ∧
      ∃ l', rsvp_lsp_objects after.2 !! lsp = Some l' ∧
            RSVP_LSP.path l' = LspEmptyDict ∧
            RSVP_LSP.reserved_bandwidth l' = Bw bw ∧
            RSVP_LSP.setup_bandwidth l' = Bw bw
  end.
Proof.
  intros Hl bw G s d. cbv zeta.
  rewrite (determine_body_run traff draw lsp l m Hl). cbv zeta. fold bw s d.
  assert (Hleft : ∃ l', rsvp_lsp_objects (begin_placement lsp bw m) !! lsp = Some l' ∧
                        RSVP_LSP.path l' = LspEmptyDict ∧
                        RSVP_LSP.reserved_bandwidth l' = Bw bw ∧
                        RSVP_LSP.setup_bandwidth l' = Bw bw).
  { unfold begin_placement. simpl.
    rewrite !list_lookup_alter, !decide_True, Hl by done. simpl. eauto. }
  destruct (decide (s ∈ g_nodes G)) as [HsG|HsG].
  - destruct (decide (s = d)) as [Hsd|Hsd].
    + assert (Hc : lsp_candidates m bw s d = inl ValueError).
      { rewrite <- Hsd. unfold lsp_candidates. fold G.
        by rewrite all_shortest_paths_self. }
      rewrite Hc. simpl. split_and!; [|done|done]. right. done.
    + destruct (lsp_candidates_in_graph m bw s d HsG Hsd) as [->|(cands & -> & Hrefs)];
        [done|].
      destruct cands as [|c cands]; [done|].
      destruct (choose_new_path_total draw (c :: cands)) as (p & -> & Hp); [done|].
      destruct (path_cost_is_inr (interface_objects m) p (Hrefs p Hp)) as [cost ->].
      done.
  - assert (Hc : lsp_candidates m bw s d = inl NodeNotFound).
    { unfold lsp_candidates, all_shortest_paths. fold G.
      by rewrite bool_decide_eq_false_2. }
    rewrite Hc. simpl. split_and!; [|done|done]. left. done.
Qed.

Lemma lsp_round_raises_in_two_cases_only_witness :
  (_determine_lsp_state_info_body 0 0 0 net_stray_lsp).1 = inl NodeNotFound ∧
  interface_objects (_determine_lsp_state_info_body 0 0 0 net_stray_lsp).2
  = interface_objects net_stray_lsp.
Proof.
  pose proof (lsp_round_raises_in_two_cases_only 0 0 0 _ net_stray_lsp eq_refl) as H.
  cbv zeta in H.
  destruct ((_determine_lsp_state_info_body 0 0 0 net_stray_lsp).1) as [e|[]] eqn:Hrun.
  - destruct H as ([[-> _]|[-> [_ Hsd]]] & Hints & _).
    + split; [reflexivity|exact Hints].
    + vm_compute in Hsd. discriminate.
  - destruct H as [_ Hsd]. vm_compute in Hrun. discriminate.
Defined.


(** ** Validating again *)

Lemma validate_model_frame (m : Model) :
  ∃ l c, (validate_model m).2 = set_circuit_objects c (set_interface_objects l m).
Proof.
  rewrite validate_model_run.
  destruct (make_circuits_frame true true m) as (l & c & Hframe).
  destruct (_make_circuits_multidigraph true true m) as [[e|circuits] x];
    simpl in *; subst x.
  - by exists l, c.
  - case_bool_decide; by exists l, c.
Qed.

Lemma coherent_after_validation (m : Model) :
  coherent m (validate_model m).2 m (validate_model m).2.
Proof.
  pose proof (core_validate_model _ m eq_refl) as Hcore. simpl in Hcore.
  destruct (validate_model_frame m) as (l & c & Hframe).
  rewrite Hframe in *. simpl in Hcore.
  split; simpl; try done; try (by right).
  intros k. by left.
Qed.

(** Validating a second time ends as the first time did: with the same
    exception, or with none; and a validation that follows a validation
    that returned leaves the model exactly as it found it. *)
Theorem validate_model_twice (m : Model) :
  let first := validate_model m in
  let second := validate_model first.2 in
  second.1 = first.1 ∧ (first.1 = inr tt → second.2 = first.2).
Proof.
  cbv zeta. set (m1 := (validate_model m).2).
  pose proof (coherent_after_validation m) as Hcoh. fold m1 in Hcoh.
  destruct (sim_validate_model m m1 m m1 Hcoh) as [Hout _].
  split; [done|]. intros Hok.
  destruct (validate_model_frame m) as (l & c & Hframe). fold m1 in Hframe.
  destruct (validate_model_frame m1) as (l' & c' & Hframe').
  destruct (make_circuits_sim m m1 true true m m1 Hcoh) as (_ & _ & Hpost).
  assert (Hm1 : (validate_model m).2 = (_make_circuits_multidigraph true true m).2).
  { rewrite validate_model_run.
    destruct (_make_circuits_multidigraph true true m) as [[e|circuits] x]; [done|].
    by case_bool_decide. }
  assert (Hm2 : (validate_model m1).2 = (_make_circuits_multidigraph true true m1).2).
  { rewrite validate_model_run.
    destruct (_make_circuits_multidigraph true true m1) as [[e|circuits] x]; [done|].
    by case_bool_decide. }
  assert (Hnone : (_make_circuits_multidigraph true true m).1 = inr None).
  { rewrite validate_model_run in Hok.
    pose proof (make_circuits_raises_on_unmatched true m) as Hn.
    destruct (_make_circuits_multidigraph true true m) as [[e|circuits] x];
      simpl in *; [done|].
    by rewrite (Hn circuits eq_refl). }
  destruct (Hpost Hnone) as [Hi Hc]. rewrite <- Hm1, <- Hm2 in Hi, Hc. fold m1 in Hi, Hc.
  rewrite Hframe' in Hi, Hc |- *. simpl in Hi, Hc. subst l' c'.
  rewrite Hframe. by destruct m.
Qed.


Lemma validate_model_twice_witness :
  (validate_model net_parallel).1 = inr tt ∧
  (validate_model (validate_model net_parallel).2).2 = (validate_model net_parallel).2.
Proof.
  split; [vm_compute; reflexivity|].
  apply (proj2 (validate_model_twice net_parallel)). vm_compute. reflexivity.
Defined.


(** ** Adding interfaces from a list *)

Lemma node_set_add_spec (n : Node.t) (ns : list Node.t) :
  (NoDup (Node.name <$> ns) → NoDup (Node.name <$> node_set_add n ns)) ∧
  (∀ x, x ∈ Node.name <$> node_set_add n ns ↔ x ∈ Node.name <$> ns ∨ x = Node.name n) ∧
  (∀ n', n' ∈ node_set_add n ns → n' ∈ ns ∨ n' = n).
Proof.
  unfold node_set_add. case_bool_decide as Hin.
  - split_and!; [done| |auto]. intros x. split; [auto|]. by intros [?| ->].
  - split_and!.
    + intros Hnd. rewrite fmap_app. apply NoDup_app. split_and!; [done| |].
      * simpl. intros x Hx ->%list_elem_of_singleton. done.
      * simpl. apply NoDup_singleton.
    + intros x. rewrite fmap_app, elem_of_app. simpl.
      by rewrite list_elem_of_singleton.
    + intros n' [?| ->%list_elem_of_singleton]%elem_of_app; auto.
Qed.

Lemma interface_set_add_spec (i : Interface.t) (ifs : list Interface.t) :
  (NoDup (interface_key <$> ifs) → NoDup (interface_key <$> interface_set_add i ifs)) ∧
  (∀ x, x ∈ interface_key <$> interface_set_add i ifs
        ↔ x ∈ interface_key <$> ifs ∨ x = interface_key i) ∧
  (∀ i', i' ∈ interface_set_add i ifs → i' ∈ ifs ∨ i' = i).
Proof.
  unfold interface_set_add. case_bool_decide as Hin.
  - split_and!; [done| |auto]. intros x. split; [auto|]. by intros [?| ->].
  - split_and!.
    + intros Hnd. rewrite fmap_app. apply NoDup_app. split_and!; [done| |].
      * simpl. intros x Hx ->%list_elem_of_singleton. done.
      * simpl. apply NoDup_singleton.
    + intros x. rewrite fmap_app, elem_of_app. simpl.
      by rewrite list_elem_of_singleton.
    + intros i' [?| ->%list_elem_of_singleton]%elem_of_app; auto.
Qed.

Lemma make_network_interfaces_loop_raises self infos ifs ns e :
  make_network_interfaces_loop self infos ifs ns = inl e →
  e = KeyError ∧ ¬ Forall complete_info infos.
Proof.
  revert ifs ns. induction infos as [|info infos IH]; intros ifs ns; [done|].
  cbn [make_network_interfaces_loop]. unfold dict_get.
  destruct info as [[name|] [cost|] [capacity|] [node|] [remote|] [cid|]]; simpl;
    try (intros [= <-]; split; [done|];
         intros [Hc _]%Forall_cons; unfold complete_info in Hc; simpl in Hc;
         destruct Hc as ([? ?] & [? ?] & [? ?] & [? ?] & [? ?] & [? ?]); done).
  intros [-> Hbad]%IH. split; [done|]. intros [_ ?]%Forall_cons. done.
Qed.

Lemma make_network_interfaces_loop_inv self infos ifs ns ifs' ns' :
  make_network_interfaces_loop self infos ifs ns = inr (ifs', ns') →
  Forall complete_info infos ∧
  (NoDup (interface_key <$> ifs) → NoDup (interface_key <$> ifs')) ∧
  (NoDup (Node.name <$> ns) → NoDup (Node.name <$> ns')) ∧
  (∀ i, i ∈ ifs' → i ∈ ifs ∨ ∃ info, info ∈ infos ∧ describes info i) ∧
  (∀ n, n ∈ ns' →
        n ∈ ns ∨ Node.srlgs n = [] ∧ Node.name n ∉ Node.name <$> node_objects self) ∧
  (∀ info i, info ∈ infos → describes info i →
             interface_key i ∈ interface_key <$> ifs' ∧
             (Interface.node_object i ∈ Node.name <$> node_objects self ∨
              Interface.node_object i ∈ Node.name <$> ns') ∧
             (Interface.remote_node_object i ∈ Node.name <$> node_objects self ∨
              Interface.remote_node_object i ∈ Node.name <$> ns')) ∧
  (∀ x, x ∈ interface_key <$> ifs → x ∈ interface_key <$> ifs') ∧
  (∀ x, x ∈ Node.name <$> ns → x ∈ Node.name <$> ns').
Proof.
  revert ifs ns. induction infos as [|info infos IH]; intros ifs ns.
  { simpl. intros [= <- <-]. split_and!; try done; auto.
    by intros ? ? ?%elem_of_nil. }
  cbn [make_network_interfaces_loop]. unfold dict_get.
  destruct info as [[name|] [cost|] [capacity|] [node|] [remote|] [cid|]]; simpl;
    try done.
  set (intf := Interface_init name cost capacity node remote cid).
  set (info := mk_interface_info _ _ _ _ _ _).
  set (ifs1 := interface_set_add intf ifs).
  set (ns1 := if bool_decide (node ∉ Node.name <$> node_objects self)
              then node_set_add (Node.mk node []) ns else ns).
  set (ns2 := if bool_decide (remote ∉ Node.name <$> node_objects self)
              then node_set_add (Node.mk remote []) ns1 else ns1).
  intros Hrun.
  destruct (interface_set_add_spec intf ifs) as (Hi1 & Hi2 & Hi3). fold ifs1 in Hi1, Hi2, Hi3.
  assert (Hn1 : (NoDup (Node.name <$> ns) → NoDup (Node.name <$> ns1)) ∧
                (∀ x, x ∈ Node.name <$> ns → x ∈ Node.name <$> ns1) ∧
                (node ∈ Node.name <$> node_objects self ∨ node ∈ Node.name <$> ns1) ∧
                (∀ n, n ∈ ns1 → n ∈ ns ∨ Node.srlgs n = [] ∧
                                          Node.name n ∉ Node.name <$> node_objects self)).
  { unfold ns1. case_bool_decide as Hnode.
    - destruct (node_set_add_spec (Node.mk node []) ns) as (Ha & Hb & Hc).
      split_and!; [done| | |].
      + intros x Hx. apply Hb. by left.
      + right. apply Hb. by right.
      + intros n [?| ->]%Hc; [by left|]. by right.
    - split_and!; [done|done| |auto]. left.
      by destruct (decide (node ∈ Node.name <$> node_objects self)). }
  destruct Hn1 as (Hn1a & Hn1b & Hn1c & Hn1d).
  assert (Hn2 : (NoDup (Node.name <$> ns1) → NoDup (Node.name <$> ns2)) ∧
                (∀ x, x ∈ Node.name <$> ns1 → x ∈ Node.name <$> ns2) ∧
                (remote ∈ Node.name <$> node_objects self ∨ remote ∈ Node.name <$> ns2) ∧
                (∀ n, n ∈ ns2 → n ∈ ns1 ∨ Node.srlgs n = [] ∧
                                           Node.name n ∉ Node.name <$> node_objects self)).
  { unfold ns2. case_bool_decide as Hnode.
    - destruct (node_set_add_spec (Node.mk remote []) ns1) as (Ha & Hb & Hc).
      split_and!; [done| | |].
      + intros x Hx. apply Hb. by left.
      + right. apply Hb. by right.
      + intros n [?| ->]%Hc; [by left|]. by right.
    - split_and!; [done|done| |auto]. left.
      by destruct (decide (remote ∈ Node.name <$> node_objects self)). }
  destruct Hn2 as (Hn2a & Hn2b & Hn2c & Hn2d).
  apply IH in Hrun as (Hcomplete & Hki & Hkn & Hfrom & Hnew & Hall & Hsubi & Hsubn).
  assert (Hdesc : describes info intf).
  { exists name, cost, capacity, node, remote, cid. by split_and!. }
  split_and!.
  - constructor; [|done]. unfold complete_info. simpl. by split_and!.
  - auto.
  - auto.
  - intros i [[Hi| ->]%Hi3|(info' & Hin & Hd)]%Hfrom.
    + by left.
    + right. exists info. split; [by left|done].
    + right. exists info'. split; [by right|done].
  - intros n [[Hn|Hn]%Hn2d|Hn]%Hnew; [|by right|by right].
    apply Hn1d in Hn as [?|?]; [by left|by right].
  - intros info' i [->|Hin]%elem_of_cons Hd; [|by apply (Hall info')].
    assert (i = intf) as ->.
    { destruct Hd as (? & ? & ? & ? & ? & ? & H1 & H2 & H3 & H4 & H5 & H6 & ->).
      unfold info in H1, H2, H3, H4, H5, H6. unfold intf. simpl in *. congruence. }
    split_and!.
    + apply Hsubi, Hi2. by right.
    + simpl. destruct Hn1c as [?|Hn]; [by left|]. right. by apply Hsubn, Hn2b.
    + simpl. destruct Hn2c as [?|Hn]; [by left|]. right. by apply Hsubn.
  - intros x Hx. apply Hsubi, Hi2. by left.
  - intros x Hx. by apply Hsubn, Hn2b, Hn1b.
Qed.

Lemma foldl_node_set_add (base new : list Node.t) :
  (∀ n, n ∈ new → Node.name n ∉ Node.name <$> base) →
  NoDup (Node.name <$> new) →
  foldl (λ s n, node_set_add n s) base new = base ++ new.
Proof.
  revert base. induction new as [|n new IH]; intros base Hfresh Hnd; simpl.
  - by rewrite app_nil_r.
  - apply NoDup_cons in Hnd as [Hn Hnd].
    unfold node_set_add at 2.
    rewrite bool_decide_eq_false_2 by (apply Hfresh; by left).
    rewrite IH; [by rewrite <- app_assoc| |done].
    intros n' Hn'. rewrite fmap_app, elem_of_app. intros [Hin|Hin].
    + apply (Hfresh n'); [by right|done].
    + simpl in Hin. apply list_elem_of_singleton in Hin.
      apply Hn. rewrite <- Hin. by apply list_elem_of_fmap_2.
Qed.

Lemma foldl_interface_set_add (base new : list Interface.t) :
  NoDup (interface_key <$> new) →
  foldl (λ s i, interface_set_add i s) base new
  = base ++ filter (λ i, interface_key i ∉ interface_key <$> base) new.
Proof.
  revert base. induction new as [|i new IH]; intros base Hnd; simpl.
  - by rewrite app_nil_r.
  - apply NoDup_cons in Hnd as [Hi Hnd]. rewrite filter_cons.
    unfold interface_set_add at 2. case_bool_decide as Hin.
    + rewrite decide_False by (by intros ?). by apply IH.
    + rewrite decide_True by done. rewrite IH by done. rewrite <- app_assoc. simpl.
      do 2 f_equal. apply filter_ext_elem. intros i' Hi'.
      rewrite fmap_app, elem_of_app. simpl. rewrite list_elem_of_singleton.
      split; [tauto|]. intros Hn [?|Heq]; [done|].
      apply Hi. rewrite <- Heq. by apply list_elem_of_fmap_2.
Qed.

Lemma add_network_interfaces_unfold (network_interfaces : list interface_info)
    (m : Model) :
  add_network_interfaces_from_list network_interfaces m
  = match _make_network_interfaces m network_interfaces with
    | inl e => (inl e, m)
    | inr new =>
        validate_model
          (set_interface_objects
             (foldl (λ s i, interface_set_add i s) (interface_objects m) new.1)
             (set_node_objects
                (foldl (λ s n, node_set_add n s) (node_objects m) new.2) m))
    end.
Proof.
  unfold add_network_interfaces_from_list, bind, get, lift, modify.
  by destruct (_make_network_interfaces m network_interfaces).
Qed.

(** [add_network_interfaces_from_list] raises KeyError, and leaves the
    model as it was, when a dict of the list lacks one of the six keys it
    reads. Otherwise it ends as [validate_model] ends on the model it has
    extended, and whether that raises or not: the interfaces of the model
    are the ones it had, followed by the described interfaces whose key the
    model did not have (an interface the model has is not replaced); its
    nodes are the ones it had, followed by new nodes, without SRLG, for the
    node names the model did not have; the key of every described
    interface is among the interfaces and both its node names are among
    the nodes; and if no two interfaces shared a key, or no two nodes a
    name, before, none do after. *)
Theorem add_network_interfaces_from_list_extends_the_model
    (network_interfaces : list interface_info) (m : Model) :
  let out := add_network_interfaces_from_list network_interfaces m in
  match _make_network_interfaces m network_interfaces with
  | inl _ => ¬ Forall complete_info network_interfaces ∧ out = (inl KeyError, m)
  | inr _ =>
      Forall complete_info network_interfaces ∧
      ∃ added new_nodes,
        out.1 = fst (validate_model
                       (set_interface_objects (interface_objects m ++ added)
                          (set_node_objects (node_objects m ++ new_nodes) m))) ∧
        core_interface <$> interface_objects out.2
          = core_interface <$> (interface_objects m ++ added) ∧
        node_objects out.2 = node_objects m ++ new_nodes ∧
        (∀ i, i ∈ added →
              (interface_key i ∉ interface_key <$> interface_objects m) ∧
              (∃ info, info ∈ network_interfaces ∧ describes info i)) ∧
        (∀ n, n ∈ new_nodes → Node.srlgs n = [] ∧
                              Node.name n ∉ Node.name <$> node_objects m) ∧
        (∀ info i, info ∈ network_interfaces → describes info i →
                   interface_key i ∈ interface_key <$> interface_objects out.2 ∧
                   Interface.node_object i ∈ Node.name <$> node_objects out.2 ∧
                   Interface.remote_node_object i ∈ Node.name <$> node_objects out.2) ∧
        (NoDup (interface_key <$> interface_objects m) →
         NoDup (interface_key <$> interface_objects out.2)) ∧
        (NoDup (Node.name <$> node_objects m) →
         NoDup (Node.name <$> node_objects out.2))
  end.
Proof.
  cbv zeta. rewrite add_network_interfaces_unfold. unfold _make_network_interfaces.
  destruct (make_network_interfaces_loop m network_interfaces [] [])
    as [e|[new_ifs new_ns]] eqn:Hloop.
  { apply make_network_interfaces_loop_raises in Hloop as [-> Hbad]. by split. }
  apply make_network_interfaces_loop_inv in Hloop
    as (Hcomplete & Hki & Hkn & Hfrom & Hnew & Hall & _ & _).
  split; [done|].
  specialize (Hki (NoDup_nil_2)). specialize (Hkn (NoDup_nil_2)).
  cbn [fst snd].
  assert (Hnodes : foldl (λ s n, node_set_add n s) (node_objects m) new_ns
                   = node_objects m ++ new_ns).
  { apply foldl_node_set_add; [|done].
    intros n [?%elem_of_nil|[_ ?]]%Hnew; done. }
  assert (Hifs : foldl (λ s i, interface_set_add i s) (interface_objects m) new_ifs
                 = interface_objects m
                   ++ filter (λ i, interface_key i ∉ interface_key <$> interface_objects m)
                             new_ifs)
    by (by apply foldl_interface_set_add).
  cbn [node_objects interface_objects set_node_objects set_interface_objects].
  rewrite Hnodes, Hifs.
  set (added := filter (λ i, interface_key i ∉ interface_key <$> interface_objects m)
                       new_ifs).
  set (extended := set_interface_objects (interface_objects m ++ added)
                     (set_node_objects (node_objects m ++ new_ns) m)).
  pose proof (core_validate_model _ extended eq_refl) as Hcore.
  pose proof (rest_validate_model extended extended (conj eq_refl (conj eq_refl eq_refl)))
    as (Hrest & _).
  assert (Hkeys : interface_key <$> interface_objects (validate_model extended).2
                  = interface_key <$> (interface_objects m ++ added)).
  { apply (f_equal (fmap interface_key)) in Hcore.
    rewrite <- !list_fmap_compose in Hcore. exact Hcore. }
  exists added, new_ns. fold extended.
  destruct (validate_model extended) as [r after] eqn:Hval. simpl in *.
  split_and!; [done|done|done| | | | |].
  - intros i [Hk Hi]%list_elem_of_filter. split; [done|].
    destruct (Hfrom i Hi) as [?%elem_of_nil|?]; done.
  - intros n [?%elem_of_nil|?]%Hnew; done.
  - intros info i Hin Hd. destruct (Hall info i Hin Hd) as (Hk & Hu & Hv).
    rewrite Hkeys, Hrest, !fmap_app, !elem_of_app. split_and!.
    + destruct (decide (interface_key i ∈ interface_key <$> interface_objects m))
        as [?|Hfresh]; [by left|]. right.
      apply list_elem_of_fmap in Hk as (i' & Hkey & Hi').
      rewrite Hkey. apply list_elem_of_fmap_2, list_elem_of_filter.
      split; [by rewrite <- Hkey|done].
    + tauto.
    + tauto.
  - intros Hnd. rewrite Hkeys, fmap_app. apply NoDup_app. split_and!; [done| |].
    + intros k Hk (i & -> & [Hfresh _]%list_elem_of_filter)%list_elem_of_fmap. done.
    + apply (sublist_NoDup _ (interface_key <$> new_ifs));
        first [exact Hki|apply fmap_sublist; apply sublist_filter].
  - intros Hnd. rewrite Hrest, fmap_app. apply NoDup_app. split_and!; [done| |done].
    intros x Hx (n & -> & Hn)%list_elem_of_fmap.
    destruct (Hnew n Hn) as [?%elem_of_nil|[_ ?]]; done.
Qed.

Lemma add_network_interfaces_from_list_extends_the_model_witness :
  Node.name <$> node_objects (add_network_interfaces_from_list infos_B_C net_one_way).2
    = ["A"; "B"; "C"]%string ∧
  NoDup (Node.name
           <$> node_objects (add_network_interfaces_from_list infos_B_C net_one_way).2).
Proof.
  split; [vm_compute; reflexivity|].
  pose proof (add_network_interfaces_from_list_extends_the_model infos_B_C net_one_way)
    as H.
  cbv zeta in H.
  destruct (_make_network_interfaces net_one_way infos_B_C) as [e|new] eqn:Hnew.
  - vm_compute in Hnew. discriminate.
  - destruct H as (_ & added & new_nodes & _ & _ & _ & _ & _ & _ & _ & Hnodes).
    apply Hnodes. apply (bool_decide_unpack _). vm_compute. exact I.
Defined.
